(** * fabtsuite transfer engine (fget.c): a shallow embedding and its properties

    The development follows [src/transfer/fget.c].  Part I holds the model:
    machine arithmetic, buffers and the heap they live in, the ring FIFOs and
    LIFO pools, the key source, the fabric seen as a script of return codes,
    and the receiver and transmitter routines.  Part II holds the lemmas about
    the model, first the ring FIFO library and then one section per routine. *)

From Stdlib Require Import ZArith Lia Bool List Sorted.
From stdpp Require Import base tactics option list numbers list_numbers functions.

Local Open Scope Z_scope.

(* ===================================================================== *)
(** * Part I: the model                                                    *)
(* ===================================================================== *)

(** ** Machine arithmetic

    [size_t], [uint64_t] and [ssize_t] are 64 bits wide and [int] is 32 bits
    wide (LP64).  Unsigned arithmetic wraps; a conversion to a signed type
    that does not fit is reduced modulo the width, as gcc and clang do. *)

Definition wrap64 (x : Z) : Z := x mod 2 ^ 64.
Definition wrap32 (x : Z) : Z := x mod 2 ^ 32.
Definition wrap8 (x : Z) : Z := x mod 2 ^ 8.
Definition to_int (x : Z) : Z := (x + 2 ^ 31) mod 2 ^ 32 - 2 ^ 31.
Definition to_ssize (x : Z) : Z := (x + 2 ^ 63) mod 2 ^ 64 - 2 ^ 63.
Definition SSIZE_MAX : Z := 2 ^ 63 - 1.
Definition INT_MAX : Z := 2 ^ 31 - 1.

(** [static int minsize(size_t l, size_t r)]: the smaller argument, returned
    through [int]. *)
Definition minsize (l r : Z) : Z := to_int (if l <? r then l else r).

(** [minsize] used where a [size_t] is expected: the [int] result is
    converted back. *)
Definition minsize_sz (l r : Z) : Z := wrap64 (minsize l r).

(** ** Outcomes

    A routine either returns or ends the process ([errx], [exit] through
    [bailout_for_ofi_ret], or a failed [assert]).  [OutOfFuel] belongs to the
    model only: a loop whose bound is not syntactic is unrolled a given number
    of times, and the lemmas show the bound chosen is never exceeded. *)

Inductive outcome (A : Type) : Type :=
| Ret (a : A)
| Exit
| OutOfFuel.
Arguments Ret {A} a.
Arguments Exit {A}.
Arguments OutOfFuel {A}.

#[export] Instance outcome_ret : MRet outcome := @Ret.
#[export] Instance outcome_bind : MBind outcome := fun A B f m =>
  match m with
  | Ret a => f a
  | Exit => Exit
  | OutOfFuel => OutOfFuel
  end.

Definition returns {A} (m : outcome A) : bool :=
  match m with Ret _ => true | _ => false end.

(** ** Transfer contexts, messages and buffers *)

(** Buffers are named by numbers; the heap maps a name to its buffer. *)
Abbreviation ptr := nat (only parsing).

Inductive xfc_type_t := xft_progress | xft_rdma_write | xft_vector | xft_fragment.
Inductive xfc_owner_t := xfo_program | xfo_nic.

Definition xfp_first : Z := 1.
Definition xfp_last : Z := 2.

Record xfer_context_t := mk_xfc {
  xfc_type : xfc_type_t;
  xfc_owner : xfc_owner_t;
  xfc_place : Z;          (* 2-bit field *)
  xfc_nchildren : Z;      (* 8-bit field *)
  xfc_cancelled : bool
}.

(** One advertisement: the records of [vector_msg_t] and [struct fi_rma_iov]
    carry the same three 64-bit fields. *)
Record rma_iov := mk_riov {
  riov_addr : Z;
  riov_len : Z;
  riov_key : Z
}.

Record vector_msg_t := mk_vector_msg {
  niovs : Z;              (* uint32_t *)
  iov : list rma_iov      (* iov[12] *)
}.

Record progress_msg_t := mk_progress_msg {
  nfilled : Z;
  nleftover : Z
}.

(** What follows the header of a buffer: payload bytes, a progress message,
    a vector message, or the parent pointer of a fragment. *)
Inductive bufbody :=
| payload_of (bytes : list Z)
| progress_of (msg : progress_msg_t)
| vector_of (msg : vector_msg_t)
| fragment_of (parent : ptr).

Record bufhdr_t := mk_buf {
  raddr : Z;
  nused : Z;
  nallocated : Z;
  mr : Z;
  desc : Z;
  xfc : xfer_context_t;
  body : bufbody
}.

Definition heap := ptr → bufhdr_t.

Definition set_nused (v : Z) (h : bufhdr_t) : bufhdr_t :=
  mk_buf (raddr h) v (nallocated h) (mr h) (desc h) (xfc h) (body h).
Definition set_xfc (c : xfer_context_t) (h : bufhdr_t) : bufhdr_t :=
  mk_buf (raddr h) (nused h) (nallocated h) (mr h) (desc h) c (body h).
Definition set_mr_desc (m d : Z) (h : bufhdr_t) : bufhdr_t :=
  mk_buf (raddr h) (nused h) (nallocated h) m d (xfc h) (body h).
Definition set_body (b : bufbody) (h : bufhdr_t) : bufhdr_t :=
  mk_buf (raddr h) (nused h) (nallocated h) (mr h) (desc h) (xfc h) b.

Definition set_owner (o : xfc_owner_t) (c : xfer_context_t) : xfer_context_t :=
  mk_xfc (xfc_type c) o (xfc_place c) (xfc_nchildren c) (xfc_cancelled c).
Definition set_place (p : Z) (c : xfer_context_t) : xfer_context_t :=
  mk_xfc (xfc_type c) (xfc_owner c) p (xfc_nchildren c) (xfc_cancelled c).
Definition set_nchildren (n : Z) (c : xfer_context_t) : xfer_context_t :=
  mk_xfc (xfc_type c) (xfc_owner c) (xfc_place c) n (xfc_cancelled c).
Definition set_cancelled (b : bool) (c : xfer_context_t) : xfer_context_t :=
  mk_xfc (xfc_type c) (xfc_owner c) (xfc_place c) (xfc_nchildren c) b.

(** Store through a pointer: the buffer at [p] becomes [f] of itself. *)
Definition upd (p : ptr) (f : bufhdr_t → bufhdr_t) (hp : heap) : heap :=
  <[p := f (hp p)]> hp.

Definition vecbuf_msg (h : bufhdr_t) : vector_msg_t :=
  match body h with
  | vector_of m => m
  | _ => mk_vector_msg 0 []
  end.

Definition progbuf_msg (h : bufhdr_t) : progress_msg_t :=
  match body h with
  | progress_of m => m
  | _ => mk_progress_msg 0 0
  end.

Definition bytebuf_payload (h : bufhdr_t) : list Z :=
  match body h with
  | payload_of l => l
  | _ => []
  end.

Definition fragment_parent (h : bufhdr_t) : ptr :=
  match body h with
  | fragment_of p => p
  | _ => 0%nat
  end.

(** ** Ring FIFOs

    [hdr] is the slot array; a slot is addressed by a counter masked with
    [index_mask].  The counters are [uint64_t]. *)

Record fifo_t := mk_fifo {
  insertions : Z;
  removals : Z;
  index_mask : Z;
  hdr : list ptr
}.

Definition size_is_power_of_2 (size : Z) : bool :=
  Z.land (wrap64 (size - 1)) size =? 0.

(** [offsetof(fifo_t, hdr[0])] and [sizeof(f->hdr[0])]. *)
Definition fifo_hdr_offset : Z := 24.
Definition fifo_slot_size : Z := 8.

(** The number of bytes [fifo_create] asks of [malloc] for a ring of [size]
    slots, computed in [size_t]. *)
Definition fifo_alloc_size (size : Z) : Z :=
  wrap64 (fifo_hdr_offset + wrap64 (fifo_slot_size * size)).

(** [fifo_create].  [malloc] answers a request for a number of bytes with
    nothing or with a block; of a block the model keeps the slots that lie
    behind the header, with whatever they hold. *)
Definition fifo_create (malloc : Z → option (list ptr)) (size : Z) : option fifo_t :=
  if size_is_power_of_2 size then
    match malloc (fifo_alloc_size size) with
    | None => None
    | Some slots => Some (mk_fifo 0 0 (wrap64 (size - 1)) slots)
    end
  else None.

Definition fifo_slot (f : fifo_t) (counter : Z) : ptr :=
  default 0%nat (hdr f !! Z.to_nat (Z.land counter (index_mask f))).

Definition fifo_get (f : fifo_t) : outcome (option ptr * fifo_t) :=
  if insertions f <? removals f then Exit            (* assert *)
  else if insertions f =? removals f then Ret (None, f)
  else Ret (Some (fifo_slot f (removals f)),
            mk_fifo (insertions f) (wrap64 (removals f + 1)) (index_mask f) (hdr f)).

Definition fifo_peek (f : fifo_t) : outcome (option ptr) :=
  if insertions f <? removals f then Exit            (* assert *)
  else if insertions f =? removals f then Ret None
  else Ret (Some (fifo_slot f (removals f))).

Definition fifo_empty (f : fifo_t) : bool :=
  insertions f =? removals f.

Definition fifo_full (f : fifo_t) : bool :=
  wrap64 (insertions f - removals f) =? wrap64 (index_mask f + 1).

Definition fifo_put (f : fifo_t) (h : ptr) : outcome (bool * fifo_t) :=
  if wrap64 (index_mask f + 1) <? wrap64 (insertions f - removals f) then Exit  (* assert *)
  else if index_mask f <? wrap64 (insertions f - removals f) then Ret (false, f)
  else Ret (true,
            mk_fifo (wrap64 (insertions f + 1)) (removals f) (index_mask f)
                    (<[Z.to_nat (Z.land (insertions f) (index_mask f)) := h]> (hdr f))).

(** The queue a ring stands for, oldest entry first. *)
Definition fifo_elems (f : fifo_t) : list ptr :=
  fifo_slot f <$> seqZ (removals f) (insertions f - removals f).

Definition fifo_capacity (f : fifo_t) : Z := index_mask f + 1.

(** ** Buffer lists (LIFO pools) *)

Record buflist_t := mk_buflist {
  bl_nfull : Z;
  bl_nallocated : Z;
  bl_buf : list ptr
}.

Definition buflist_get (bl : buflist_t) : option ptr * buflist_t :=
  if bl_nfull bl =? 0 then (None, bl)
  else
    let n := wrap64 (bl_nfull bl - 1) in
    (Some (default 0%nat (bl_buf bl !! Z.to_nat n)),
     mk_buflist n (bl_nallocated bl) (bl_buf bl)).

Definition buflist_put (bl : buflist_t) (h : ptr) : bool * buflist_t :=
  if bl_nfull bl =? bl_nallocated bl then (false, bl)
  else (true, mk_buflist (wrap64 (bl_nfull bl + 1)) (bl_nallocated bl)
                         (<[Z.to_nat (bl_nfull bl) := h]> (bl_buf bl))).

(** ** Key source *)

Record keysource_t := mk_keysource { next_key : Z }.

Definition keysource_init : keysource_t := mk_keysource 0.

(** Initial value of the process-wide [next_key_pool]. *)
Definition next_key_pool_init : Z := 512.

(** [atomic_fetch_add_explicit(&next_key_pool, n, memory_order_relaxed)]:
    the old value and the new pool. *)
Definition atomic_fetch_add (pool n : Z) : Z * Z := (pool, wrap64 (pool + n)).

(** Returns the key, the updated source and the updated pool. *)
Definition keysource_next (s : keysource_t) (pool : Z) : Z * keysource_t * Z :=
  let '(s1, pool1) :=
    if next_key s mod 256 =? 0
    then let '(old, pool') := atomic_fetch_add pool 256 in (mk_keysource old, pool')
    else (s, pool) in
  (next_key s1, mk_keysource (wrap64 (next_key s1 + 1)), pool1).

(** The key sources of a process, each named by a number, and the pool. *)
Record keys_state := mk_keys_state {
  next_key_pool : Z;
  keysources : nat → keysource_t
}.

Definition keys_initial : keys_state :=
  mk_keys_state next_key_pool_init (fun _ => keysource_init).

Definition keys_call (i : nat) (st : keys_state) : Z * keys_state :=
  let '(k, s', pool') := keysource_next (keysources st i) (next_key_pool st) in
  (k, mk_keys_state pool' (<[i := s']> (keysources st))).

(** A run: the sources call [keysource_next] in the order [who]; the result
    lists who got which key. *)
Fixpoint keys_run (who : list nat) (st : keys_state) : list (nat * Z) * keys_state :=
  match who with
  | [] => ([], st)
  | i :: who' =>
      let '(k, st1) := keys_call i st in
      let '(tr, st2) := keys_run who' st1 in
      ((i, k) :: tr, st2)
  end.

Fixpoint keys_of (i : nat) (tr : list (nat * Z)) : list Z :=
  match tr with
  | [] => []
  | (j, k) :: tr' => if Nat.eqb i j then k :: keys_of i tr' else keys_of i tr'
  end.

(** ** The fabric

    libfabric is outside the program.  It is modelled by the [script] of
    return codes it will give to the calls still to come and by the log of the
    calls made so far with the code each one got.  A provider whose script is
    exhausted answers [-FI_EAGAIN].  Constants are those of [rdma/fabric.h]
    and [rdma/fi_errno.h]. *)

Definition FI_EAGAIN : Z := 11.
Definition FI_ECANCELED : Z := 125.
Definition FI_MSG : Z := 2 ^ 1.
Definition FI_RMA : Z := 2 ^ 2.
Definition FI_WRITE : Z := 2 ^ 9.
Definition FI_RECV : Z := 2 ^ 10.
Definition FI_SEND : Z := 2 ^ 11.
Definition FI_REMOTE_WRITE : Z := 2 ^ 13.
Definition FI_COMPLETION : Z := 2 ^ 24.
Definition FI_DELIVERY_COMPLETE : Z := 2 ^ 28.

Definition desired_rx_flags : Z := Z.lor FI_RECV FI_MSG.
Definition desired_tx_flags : Z := Z.lor FI_SEND FI_MSG.
Definition desired_wr_flags : Z :=
  Z.lor (Z.lor (Z.lor FI_RMA FI_WRITE) FI_COMPLETION) FI_DELIVERY_COMPLETE.

Definition payload_access_rx : Z := Z.lor FI_RECV FI_REMOTE_WRITE.
Definition payload_access_tx : Z := FI_SEND.

(** A local segment: [iov_base] is a buffer and an offset into its payload. *)
Record iovec := mk_iovec {
  iov_base : ptr * Z;
  iov_len : Z
}.

Inductive fabric_op :=
| op_recvmsg (ep : Z) (base : ptr) (len : Z) (dsc : Z) (iov_count : Z)
             (addr : Z) (context : ptr) (flags : Z)
| op_sendmsg (ep : Z) (base : ptr) (len : Z) (dsc : Z) (iov_count : Z)
             (addr : Z) (context : ptr) (flags : Z)
| op_writemsg (ep : Z) (msg_iov : list iovec) (dsc : list Z)
              (rma_iov : list rma_iov) (addr : Z) (context : ptr) (flags : Z)
| op_cancel (ep : Z) (context : ptr)
| op_mr_reg (base : ptr) (len : Z) (access : Z) (key : Z)
| op_close (fid : Z).

Record fabric := mk_fabric {
  script : list Z;
  oplog : list (fabric_op * Z)
}.

Definition fabric_do (op : fabric_op) (fab : fabric) : Z * fabric :=
  match script fab with
  | [] => (- FI_EAGAIN, mk_fabric [] (oplog fab ++ [(op, - FI_EAGAIN)]))
  | rc :: rest => (rc, mk_fabric rest (oplog fab ++ [(op, rc)]))
  end.

(** A registration is named by the key it was requested with. *)
Definition fi_mr_desc (m : Z) : Z := m.
Definition fi_mr_key (m : Z) : Z := m.

(** What a routine runs against: the buffers, the fabric and the process-wide
    key pool. *)
Record world := mk_world {
  w_heap : heap;
  w_fabric : fabric;
  w_pool : Z
}.

Definition with_heap (hp : heap) (w : world) : world :=
  mk_world hp (w_fabric w) (w_pool w).
Definition with_fabric (fab : fabric) (w : world) : world :=
  mk_world (w_heap w) fab (w_pool w).

(** [buf_mr_reg]: on success the buffer gets its region and descriptor. *)
Definition buf_mr_reg (access key : Z) (h : ptr) (w : world) : Z * world :=
  let '(rc, fab) :=
    fabric_do (op_mr_reg h (nallocated (w_heap w h)) access key) (w_fabric w) in
  if negb (rc =? 0) then (rc, with_fabric fab w)
  else (0, mk_world (upd h (set_mr_desc key (fi_mr_desc key)) (w_heap w)) fab (w_pool w)).

(** ** Program state *)

Inductive loop_control_t := loop_continue | loop_end | loop_error.

Record terminal_t := mk_terminal { eof : bool }.

Record sink_t := mk_sink {
  sink_terminal : terminal_t;
  idx : Z;
  txbuflen : Z;
  entirelen : Z
}.

Record cxn_t := mk_cxn {
  ep : Z;
  peer_addr : Z;
  cxn_cancelled : bool;
  started : bool;
  eof_local : bool;
  eof_remote : bool;
  keys : keysource_t
}.

Definition set_eof_local (b : bool) (c : cxn_t) : cxn_t :=
  mk_cxn (ep c) (peer_addr c) (cxn_cancelled c) (started c) b (eof_remote c) (keys c).
Definition set_eof_remote (b : bool) (c : cxn_t) : cxn_t :=
  mk_cxn (ep c) (peer_addr c) (cxn_cancelled c) (started c) (eof_local c) b (keys c).
Definition set_keys (k : keysource_t) (c : cxn_t) : cxn_t :=
  mk_cxn (ep c) (peer_addr c) (cxn_cancelled c) (started c) (eof_local c) (eof_remote c) k.

Record rxctl_t := mk_rxctl {
  rx_posted : fifo_t;
  rx_rcvd : fifo_t
}.

Record txctl_t := mk_txctl {
  tx_ready : fifo_t;
  tx_posted : fifo_t;
  tx_pool : buflist_t
}.

Record session_t := mk_session {
  terminal : terminal_t;
  ready_for_cxn : fifo_t;
  ready_for_terminal : fifo_t
}.

Record rcvr_t := mk_rcvr {
  r_cxn : cxn_t;
  nfull : Z;
  tgtposted : fifo_t;
  r_vec : txctl_t;
  r_progress : rxctl_t
}.

Record xmtr_t := mk_xmtr {
  x_cxn : cxn_t;
  wrposted : fifo_t;
  bytes_progress : Z;
  x_vec : rxctl_t;
  x_progress : txctl_t;
  payload_iov : list iovec;
  payload_desc : list Z;
  payload_iov2 : list iovec;
  payload_desc2 : list Z;
  fragment_pool : buflist_t;
  fragment_offset : Z;
  riov : list rma_iov;
  riov2 : list rma_iov;
  nriovs : Z;
  next_riov : Z;
  phase : bool
}.

Record global_state_t := mk_global_state {
  rma_maxsegs : Z;
  contiguous : bool;
  reregister : bool
}.

Record completion_t := mk_completion {
  cmpl_flags : Z;
  cmpl_len : Z;
  cmpl_xfc : ptr
}.

(** The test pattern; [txbuf] has the terminating NUL of the C array. *)
Definition txbuf : list Z :=
  [73; 102; 32; 116; 104; 105; 115; 32; 109; 101; 115; 115; 97; 103; 101; 32;
   119; 97; 115; 32; 114; 101; 99; 101; 105; 118; 101; 100; 32; 105; 110; 32;
   101; 114; 114; 111; 114; 32; 116; 104; 101; 110; 32; 112; 108; 101; 97; 115;
   101; 32; 112; 114; 105; 110; 116; 32; 105; 116; 32; 111; 117; 116; 32; 97;
   110; 100; 32; 115; 104; 114; 101; 100; 32; 105; 116; 46; 0].

Fixpoint strlen (s : list Z) : Z :=
  match s with
  | [] => 0
  | c :: s' => if c =? 0 then 0 else 1 + strlen s'
  end.

Definition set_ready_for_cxn (f : fifo_t) (s : session_t) : session_t :=
  mk_session (terminal s) f (ready_for_terminal s).
Definition set_ready_for_terminal (f : fifo_t) (s : session_t) : session_t :=
  mk_session (terminal s) (ready_for_cxn s) f.

Definition set_r_cxn (c : cxn_t) (r : rcvr_t) : rcvr_t :=
  mk_rcvr c (nfull r) (tgtposted r) (r_vec r) (r_progress r).
Definition set_nfull (n : Z) (r : rcvr_t) : rcvr_t :=
  mk_rcvr (r_cxn r) n (tgtposted r) (r_vec r) (r_progress r).
Definition set_tgtposted (f : fifo_t) (r : rcvr_t) : rcvr_t :=
  mk_rcvr (r_cxn r) (nfull r) f (r_vec r) (r_progress r).
Definition set_r_vec (t : txctl_t) (r : rcvr_t) : rcvr_t :=
  mk_rcvr (r_cxn r) (nfull r) (tgtposted r) t (r_progress r).
Definition set_r_progress (c : rxctl_t) (r : rcvr_t) : rcvr_t :=
  mk_rcvr (r_cxn r) (nfull r) (tgtposted r) (r_vec r) c.

Definition set_x_cxn (c : cxn_t) (x : xmtr_t) : xmtr_t :=
  mk_xmtr c (wrposted x) (bytes_progress x) (x_vec x) (x_progress x)
    (payload_iov x) (payload_desc x) (payload_iov2 x) (payload_desc2 x)
    (fragment_pool x) (fragment_offset x) (riov x) (riov2 x) (nriovs x)
    (next_riov x) (phase x).
Definition set_wrposted (f : fifo_t) (x : xmtr_t) : xmtr_t :=
  mk_xmtr (x_cxn x) f (bytes_progress x) (x_vec x) (x_progress x)
    (payload_iov x) (payload_desc x) (payload_iov2 x) (payload_desc2 x)
    (fragment_pool x) (fragment_offset x) (riov x) (riov2 x) (nriovs x)
    (next_riov x) (phase x).
Definition set_bytes_progress (n : Z) (x : xmtr_t) : xmtr_t :=
  mk_xmtr (x_cxn x) (wrposted x) n (x_vec x) (x_progress x)
    (payload_iov x) (payload_desc x) (payload_iov2 x) (payload_desc2 x)
    (fragment_pool x) (fragment_offset x) (riov x) (riov2 x) (nriovs x)
    (next_riov x) (phase x).
Definition set_x_vec (c : rxctl_t) (x : xmtr_t) : xmtr_t :=
  mk_xmtr (x_cxn x) (wrposted x) (bytes_progress x) c (x_progress x)
    (payload_iov x) (payload_desc x) (payload_iov2 x) (payload_desc2 x)
    (fragment_pool x) (fragment_offset x) (riov x) (riov2 x) (nriovs x)
    (next_riov x) (phase x).
Definition set_x_progress (t : txctl_t) (x : xmtr_t) : xmtr_t :=
  mk_xmtr (x_cxn x) (wrposted x) (bytes_progress x) (x_vec x) t
    (payload_iov x) (payload_desc x) (payload_iov2 x) (payload_desc2 x)
    (fragment_pool x) (fragment_offset x) (riov x) (riov2 x) (nriovs x)
    (next_riov x) (phase x).
Definition set_payload (i : list iovec) (d : list Z) (i2 : list iovec) (d2 : list Z)
    (x : xmtr_t) : xmtr_t :=
  mk_xmtr (x_cxn x) (wrposted x) (bytes_progress x) (x_vec x) (x_progress x)
    i d i2 d2
    (fragment_pool x) (fragment_offset x) (riov x) (riov2 x) (nriovs x)
    (next_riov x) (phase x).
Definition set_fragment (pool : buflist_t) (offset : Z) (x : xmtr_t) : xmtr_t :=
  mk_xmtr (x_cxn x) (wrposted x) (bytes_progress x) (x_vec x) (x_progress x)
    (payload_iov x) (payload_desc x) (payload_iov2 x) (payload_desc2 x)
    pool offset (riov x) (riov2 x) (nriovs x)
    (next_riov x) (phase x).
Definition set_riovs (rv rv2 : list rma_iov) (n : Z) (x : xmtr_t) : xmtr_t :=
  mk_xmtr (x_cxn x) (wrposted x) (bytes_progress x) (x_vec x) (x_progress x)
    (payload_iov x) (payload_desc x) (payload_iov2 x) (payload_desc2 x)
    (fragment_pool x) (fragment_offset x) rv rv2 n
    (next_riov x) (phase x).
Definition set_phase (b : bool) (x : xmtr_t) : xmtr_t :=
  mk_xmtr (x_cxn x) (wrposted x) (bytes_progress x) (x_vec x) (x_progress x)
    (payload_iov x) (payload_desc x) (payload_iov2 x) (payload_desc2 x)
    (fragment_pool x) (fragment_offset x) (riov x) (riov2 x) (nriovs x)
    (next_riov x) b.

(** ** Receive and transmit controllers *)

Definition rxctl_complete (rc : rxctl_t) (cmpl : completion_t) (hp : heap)
  : outcome (option ptr * rxctl_t * heap) :=
  if negb (Z.land (cmpl_flags cmpl) desired_rx_flags =? desired_rx_flags) &&
     negb (xfc_cancelled (xfc (hp (cmpl_xfc cmpl))))
  then Exit
  else
    '(oh, posted) ← fifo_get (rx_posted rc);
    let rc := mk_rxctl posted (rx_rcvd rc) in
    match oh with
    | None => Ret (None, rc, hp)
    | Some h =>
        if negb (Nat.eqb (cmpl_xfc cmpl) h) then Exit
        else Ret (Some h, rc, upd h (set_nused (cmpl_len cmpl)) hp)
    end.

Definition rxctl_post (c : cxn_t) (ctl : rxctl_t) (h : ptr) (w : world)
  : outcome (rxctl_t * world) :=
  let '(rc, fab) :=
    fabric_do (op_recvmsg (ep c) h (nallocated (w_heap w h)) (desc (w_heap w h)) 1
                          (peer_addr c) h FI_COMPLETION) (w_fabric w) in
  if rc <? 0 then Exit
  else
    '(_, posted) ← fifo_put (rx_posted ctl) h;
    Ret (mk_rxctl posted (rx_rcvd ctl), with_fabric fab w).

(** [fifo_cancel]: the loop ends when the first buffer cancelled comes round
    to the head again, after at most as many turns as the queue holds. *)
Fixpoint fifo_cancel_loop (fuel : nat) (ep : Z) (first : option ptr)
    (posted : fifo_t) (w : world) : outcome (fifo_t * world) :=
  oh ← fifo_peek posted;
  match oh with
  | None => Ret (posted, w)
  | Some h =>
      if decide (Some h = first) then Ret (posted, w)
      else
        match fuel with
        | O => OutOfFuel
        | S fuel' =>
            '(_, posted) ← fifo_get posted;
            let first := match first with None => Some h | _ => first end in
            let hp := upd h (fun b => set_xfc (set_cancelled true (xfc b)) b) (w_heap w) in
            let '(rc, fab) := fabric_do (op_cancel ep h) (w_fabric w) in
            if negb (rc =? 0) then Exit
            else
              '(_, posted) ← fifo_put posted h;
              fifo_cancel_loop fuel' ep first posted (mk_world hp fab (w_pool w))
        end
  end.

Definition fifo_occupancy (f : fifo_t) : nat :=
  Z.to_nat (wrap64 (insertions f - removals f)).

Definition fifo_cancel (ep : Z) (posted : fifo_t) (w : world) : outcome (fifo_t * world) :=
  fifo_cancel_loop (fifo_occupancy posted) ep None posted w.

Definition rxctl_cancel (ep : Z) (ctl : rxctl_t) (w : world) : outcome (rxctl_t * world) :=
  '(posted, w) ← fifo_cancel ep (rx_posted ctl) w;
  Ret (mk_rxctl posted (rx_rcvd ctl), w).

Definition txctl_cancel (ep : Z) (ctl : txctl_t) (w : world) : outcome (txctl_t * world) :=
  '(posted, w) ← fifo_cancel ep (tx_posted ctl) w;
  Ret (mk_txctl (tx_ready ctl) posted (tx_pool ctl), w).

Definition txctl_complete (tc : txctl_t) (cmpl : completion_t) (hp : heap)
  : outcome (Z * txctl_t) :=
  if negb (Z.land (cmpl_flags cmpl) desired_tx_flags =? desired_tx_flags) &&
     negb (xfc_cancelled (xfc (hp (cmpl_xfc cmpl))))
  then Exit
  else
    '(oh, posted) ← fifo_get (tx_posted tc);
    match oh with
    | None => Ret (-1, mk_txctl (tx_ready tc) posted (tx_pool tc))
    | Some h =>
        if negb (Nat.eqb (cmpl_xfc cmpl) h) then Exit
        else
          let '(ok, pool) := buflist_put (tx_pool tc) h in
          if negb ok then Exit
          else Ret (1, mk_txctl (tx_ready tc) posted pool)
    end.

(** [txctl_transmit]: every turn of the loop makes one [fi_sendmsg] call, so
    the loop is unrolled along the script of the fabric. *)
Fixpoint txctl_transmit_loop (todo : list Z) (done : list (fabric_op * Z))
    (c : cxn_t) (tc : txctl_t) (hp : heap) : outcome (txctl_t * fabric) :=
  oh ← fifo_peek (tx_ready tc);
  match oh with
  | None => Ret (tc, mk_fabric todo done)
  | Some h =>
      if fifo_full (tx_posted tc) then Ret (tc, mk_fabric todo done)
      else
        let op := op_sendmsg (ep c) h (nused (hp h)) (desc (hp h)) 1
                             (peer_addr c) h FI_COMPLETION in
        match todo with
        | [] => Ret (tc, mk_fabric [] (done ++ [(op, - FI_EAGAIN)]))
        | rc :: todo' =>
            let done' := done ++ [(op, rc)] in
            if rc =? 0 then
              '(_, ready) ← fifo_get (tx_ready tc);
              '(_, posted) ← fifo_put (tx_posted tc) h;
              txctl_transmit_loop todo' done' c (mk_txctl ready posted (tx_pool tc)) hp
            else if rc =? - FI_EAGAIN then Ret (tc, mk_fabric todo' done')
            else if rc <? 0 then Exit
            else txctl_transmit_loop todo' done' c tc hp
        end
  end.

Definition txctl_transmit (c : cxn_t) (tc : txctl_t) (w : world)
  : outcome (txctl_t * world) :=
  '(tc, fab) ← txctl_transmit_loop (script (w_fabric w)) (oplog (w_fabric w)) c tc (w_heap w);
  Ret (tc, with_fabric fab w).

(** ** Terminals: the sink *)

(** [memcmp(a, b, n) != 0] on the first [n] bytes of two byte sequences. *)
Definition memcmp_differs (a b : list Z) (n : Z) : bool :=
  negb (bool_decide (take (Z.to_nat n) a = take (Z.to_nat n) b)).

(** The comparison loop of [sink_trade] over one buffer: [true] when a chunk
    differs from the pattern.  Every turn advances [ofs], so [nused] turns
    are enough. *)
Fixpoint sink_mismatch (fuel : nat) (s : sink_t) (payload : list Z) (used ofs : Z)
  : outcome bool :=
  if ofs <? used then
    match fuel with
    | O => OutOfFuel
    | S fuel' =>
        let txbuf_ofs := wrap64 (idx s + ofs) mod txbuflen s in
        let len := minsize_sz (wrap64 (used - ofs)) (wrap64 (txbuflen s - txbuf_ofs)) in
        if memcmp_differs (drop (Z.to_nat ofs) payload) (drop (Z.to_nat txbuf_ofs) txbuf) len
        then Ret true
        else sink_mismatch fuel' s payload used (wrap64 (ofs + len))
    end
  else Ret false.

Definition set_idx (i : Z) (s : sink_t) : sink_t :=
  mk_sink (sink_terminal s) i (txbuflen s) (entirelen s).
Definition set_sink_eof (b : bool) (s : sink_t) : sink_t :=
  mk_sink (mk_terminal b) (idx s) (txbuflen s) (entirelen s).

(** The [while] loop of [sink_trade]; the boolean is [true] on [goto fail].
    Every turn takes one buffer off [ready]. *)
Fixpoint sink_trade_loop (fuel : nat) (s : sink_t) (ready completed : fifo_t) (hp : heap)
  : outcome (bool * sink_t * fifo_t * fifo_t) :=
  oh ← fifo_peek ready;
  match oh with
  | None => Ret (false, s, ready, completed)
  | Some h =>
      if fifo_full completed then Ret (false, s, ready, completed)
      else
        match fuel with
        | O => OutOfFuel
        | S fuel' =>
            if entirelen s <? wrap64 (nused (hp h) + idx s)
            then Ret (true, s, ready, completed)
            else
              bad ← sink_mismatch (Z.to_nat (nused (hp h))) s
                      (bytebuf_payload (hp h)) (nused (hp h)) 0;
              if (bad : bool) then Ret (true, s, ready, completed)
              else
                '(_, ready) ← fifo_get ready;
                '(_, completed) ← fifo_put completed h;
                sink_trade_loop fuel' (set_idx (wrap64 (idx s + nused (hp h))) s)
                                ready completed hp
        end
  end.

(** [sink_trade]; the bytes it prints on the way are not modelled. *)
Definition sink_trade (s : sink_t) (ready completed : fifo_t) (hp : heap)
  : outcome (loop_control_t * sink_t * fifo_t * fifo_t) :=
  if eof (sink_terminal s) && negb (fifo_empty ready)
  then Ret (loop_error, s, ready, completed)
  else
    '(failed, s, ready, completed) ← sink_trade_loop (fifo_occupancy ready) s ready completed hp;
    if (failed : bool) then Ret (loop_error, s, ready, completed)
    else if negb (idx s =? entirelen s) then Ret (loop_continue, s, ready, completed)
    else Ret (loop_end, set_sink_eof true s, ready, completed).

(** ** Receiver *)

Definition vector_msg_iov_count : Z := 12.       (* arraycount(vb->msg.iov) *)
Definition least_vector_msglen : Z := 8.        (* offsetof(vector_msg_t, iov) *)
Definition vector_iov_size : Z := 24.           (* sizeof(vb->msg.iov[0]) *)
Definition progress_msg_size : Z := 16.         (* sizeof(progress_msg_t) *)

Definition set_vec_iov (i : Z) (e : rma_iov) (h : bufhdr_t) : bufhdr_t :=
  set_body (vector_of (mk_vector_msg (niovs (vecbuf_msg h))
                                     (<[Z.to_nat i := e]> (iov (vecbuf_msg h))))) h.
Definition set_vec_niovs (n : Z) (h : bufhdr_t) : bufhdr_t :=
  set_body (vector_of (mk_vector_msg n (iov (vecbuf_msg h)))) h.

Definition zero_riov : rma_iov := mk_riov 0 0 0.

(** The [for] loop of [rcvr_vector_update] that fills one vector message;
    [n] counts the array slots left. *)
Fixpoint rcvr_vector_fill (n : nat) (i : Z) (gs : global_state_t) (vb : ptr)
    (s : session_t) (r : rcvr_t) (w : world)
  : outcome (Z * session_t * rcvr_t * world) :=
  match n with
  | O => Ret (i, s, r, w)
  | S n' =>
      '(oh, rfc) ← fifo_get (ready_for_cxn s);
      let s := set_ready_for_cxn rfc s in
      match oh with
      | None => Ret (i, s, r, w)
      | Some h =>
          let w := with_heap (upd h (set_nused 0) (w_heap w)) w in
          '(r, w) ← (if reregister gs then
                       let '(key, ks, pool) := keysource_next (keys (r_cxn r)) (w_pool w) in
                       let r := set_r_cxn (set_keys ks (r_cxn r)) r in
                       let '(rc, w) := buf_mr_reg payload_access_rx key h
                                         (mk_world (w_heap w) (w_fabric w) pool) in
                       if rc <? 0 then Exit else Ret (r, w)
                     else Ret (r, w));
          '(_, tp) ← fifo_put (tgtposted r) h;
          let r := set_tgtposted tp r in
          let e := mk_riov 0 (nallocated (w_heap w h)) (fi_mr_key (mr (w_heap w h))) in
          let w := with_heap (upd vb (set_vec_iov i e) (w_heap w)) w in
          rcvr_vector_fill n' (i + 1) gs vb s r w
      end
  end.

(** The [else while] loop of [rcvr_vector_update]; every turn takes one
    vector buffer out of the pool. *)
Fixpoint rcvr_vector_loop (fuel : nat) (gs : global_state_t)
    (s : session_t) (r : rcvr_t) (w : world) : outcome (session_t * rcvr_t * world) :=
  if fifo_full (tx_ready (r_vec r)) || fifo_empty (ready_for_cxn s) then Ret (s, r, w)
  else
    let '(ovb, pool) := buflist_get (tx_pool (r_vec r)) in
    match ovb with
    | None => Ret (s, r, w)
    | Some vb =>
        match fuel with
        | O => OutOfFuel
        | S fuel' =>
            let r := set_r_vec (mk_txctl (tx_ready (r_vec r)) (tx_posted (r_vec r)) pool) r in
            '(i, s, r, w) ← rcvr_vector_fill (Z.to_nat vector_msg_iov_count) 0 gs vb s r w;
            let hp := upd vb (set_vec_niovs (wrap32 i)) (w_heap w) in
            let hp := upd vb (set_nused (least_vector_msglen + vector_iov_size * i)) hp in
            '(_, ready) ← fifo_put (tx_ready (r_vec r)) vb;
            let r := set_r_vec (mk_txctl ready (tx_posted (r_vec r)) (tx_pool (r_vec r))) r in
            rcvr_vector_loop fuel' gs s r (with_heap hp w)
        end
    end.

Definition rcvr_vector_update (gs : global_state_t) (s : session_t) (r : rcvr_t) (w : world)
  : outcome (session_t * rcvr_t * world) :=
  let closing :=
    if eof_remote (r_cxn r) && negb (eof_local (r_cxn r)) &&
       negb (fifo_full (tx_ready (r_vec r)))
    then
      match buflist_get (tx_pool (r_vec r)) with
      | (Some vb, pool) => Some (vb, pool)
      | (None, _) => None
      end
    else None in
  match closing with
  | Some (vb, pool) =>
      let hp := upd vb (fun b => set_body (vector_of (mk_vector_msg (niovs (vecbuf_msg b))
                          (replicate (Z.to_nat vector_msg_iov_count) zero_riov))) b) (w_heap w) in
      let hp := upd vb (set_vec_niovs 0) hp in
      '(_, ready) ← fifo_put (tx_ready (r_vec r)) vb;
      let r := set_r_vec (mk_txctl ready (tx_posted (r_vec r)) pool) r in
      let r := set_r_cxn (set_eof_local true (r_cxn r)) r in
      Ret (s, r, with_heap hp w)
  | None =>
      rcvr_vector_loop (Z.to_nat (bl_nfull (tx_pool (r_vec r)))) gs s r w
  end.

(** The [while] loop of [rcvr_targets_read].  A turn either uses up [nfull]
    or takes the head off [tgtposted]. *)
Fixpoint rcvr_targets_read_loop (fuel : nat) (gs : global_state_t)
    (s : session_t) (r : rcvr_t) (w : world) : outcome (session_t * rcvr_t * world) :=
  if 0 <? nfull r then
    oh ← fifo_peek (tgtposted r);
    match oh with
    | None => Ret (s, r, w)
    | Some h =>
        if fifo_full (ready_for_terminal s) then Ret (s, r, w)
        else
          match fuel with
          | O => OutOfFuel
          | S fuel' =>
              let b := w_heap w h in
              if wrap64 (nused b + nfull r) <? nallocated b then
                let w := with_heap (upd h (set_nused (wrap64 (nused b + nfull r))) (w_heap w)) w in
                rcvr_targets_read_loop fuel' gs s (set_nfull 0 r) w
              else
                let r := set_nfull (wrap64 (nfull r - wrap64 (nallocated b - nused b))) r in
                let w := with_heap (upd h (set_nused (nallocated b)) (w_heap w)) w in
                '(_, tp) ← fifo_get (tgtposted r);
                let r := set_tgtposted tp r in
                let w := if reregister gs
                         then with_fabric (snd (fabric_do (op_close (mr (w_heap w h))) (w_fabric w))) w
                         else w in
                '(_, rft) ← fifo_put (ready_for_terminal s) h;
                rcvr_targets_read_loop fuel' gs (set_ready_for_terminal rft s) r w
          end
    end
  else Ret (s, r, w).

Definition rcvr_targets_read (gs : global_state_t) (s : session_t) (r : rcvr_t) (w : world)
  : outcome (session_t * rcvr_t * world) :=
  '(s, r, w) ← rcvr_targets_read_loop (S (fifo_occupancy (tgtposted r))) gs s r w;
  if eof_remote (r_cxn r) then
    oh ← fifo_peek (tgtposted r);
    match oh with
    | Some h =>
        if negb (nused (w_heap w h) =? 0) then
          '(_, tp) ← fifo_get (tgtposted r);
          let r := set_tgtposted tp r in
          let w := if reregister gs
                   then with_fabric (snd (fabric_do (op_close (mr (w_heap w h))) (w_fabric w))) w
                   else w in
          '(_, rft) ← fifo_put (ready_for_terminal s) h;
          Ret (set_ready_for_terminal rft s, r, w)
        else Ret (s, r, w)
    | None => Ret (s, r, w)
    end
  else Ret (s, r, w).

(** The test at the end of [rcvr_loop] on which the receiver closes its
    endpoint and leaves the loop. *)
Definition rcvr_loop_finished (s : session_t) (r : rcvr_t) : bool :=
  eof (terminal s) && fifo_empty (ready_for_terminal s) &&
  eof_remote (r_cxn r) && eof_local (r_cxn r) && fifo_empty (tx_posted (r_vec r)).

(** [rcvr_loop] from the call of [sink_trade] on: a turn of a started
    connection after [rcvr_cq_process], when no cancellation is pending.  The
    terminal of the session is the sink [t]; [close] is the [fi_close] of the
    endpoint, on the way out through [fail] or at the end of the transfer. *)
Definition rcvr_loop_tail (gs : global_state_t) (t : sink_t) (s : session_t)
    (r : rcvr_t) (w : world)
  : outcome (loop_control_t * sink_t * session_t * rcvr_t * world) :=
  '(ctl, t, rft, rfc) ← sink_trade t (ready_for_terminal s) (ready_for_cxn s) (w_heap w);
  let s := mk_session (sink_terminal t) rfc rft in
  let close (ctl : loop_control_t) (s : session_t) (r : rcvr_t) (w : world) :=
    let '(rc, fab) := fabric_do (op_close (ep (r_cxn r))) (w_fabric w) in
    if rc <? 0 then Exit else Ret (ctl, t, s, r, with_fabric fab w) in
  match ctl with
  | loop_error => close loop_error s r w
  | _ =>
      '(s, r, w) ← rcvr_vector_update gs s r w;
      '(vec, w) ← txctl_transmit (r_cxn r) (r_vec r) w;
      let r := set_r_vec vec r in
      '(s, r, w) ← rcvr_targets_read gs s r w;
      if rcvr_loop_finished s r then close loop_end s r w
      else Ret (loop_continue, t, s, r, w)
  end.

(** ** Transmitter: vector reception and progress *)

Definition vecbuf_is_wellformed (vb : bufhdr_t) : bool :=
  let len := nused vb in
  let niovs_space := wrap64 (len - least_vector_msglen) / vector_iov_size in
  if len <? least_vector_msglen then false
  else if negb (wrap64 (len - least_vector_msglen) mod vector_iov_size =? 0) then false
  else if niovs_space <? niovs (vecbuf_msg vb) then false
  else if vector_msg_iov_count <? niovs (vecbuf_msg vb) then false
  else true.

(** [buf_free] returns the buffer to the allocator; the heap keeps no trace
    of it. *)
Definition xmtr_vector_rx_process (x : xmtr_t) (cmpl : completion_t) (w : world)
  : outcome (Z * xmtr_t * world) :=
  '(ovb, vec, hp) ← rxctl_complete (x_vec x) cmpl (w_heap w);
  let x := set_x_vec vec x in
  let w := with_heap hp w in
  match ovb with
  | None => Ret (-1, x, w)
  | Some vb =>
      if xfc_cancelled (xfc (w_heap w vb)) then Ret (0, x, w)
      else if negb (vecbuf_is_wellformed (w_heap w vb)) then
        '(vec, w) ← rxctl_post (x_cxn x) (x_vec x) vb w;
        Ret (0, set_x_vec vec x, w)
      else
        '(ok, rcvd) ← fifo_put (rx_rcvd (x_vec x)) vb;
        if negb ok then Exit
        else Ret (1, set_x_vec (mk_rxctl (rx_posted (x_vec x)) rcvd) x, w)
  end.

Definition set_prog_msg (m : progress_msg_t) (h : bufhdr_t) : bufhdr_t :=
  set_body (progress_of m) h.

Definition xmtr_reached_eof (s : session_t) (x : xmtr_t) : bool :=
  eof (terminal s) && fifo_empty (ready_for_cxn s) && fifo_empty (wrposted x) &&
  negb (eof_local (x_cxn x)).

Definition xmtr_progress_update (s : session_t) (x : xmtr_t) (hp : heap)
  : outcome (xmtr_t * heap) :=
  let reached_eof := xmtr_reached_eof s x in
  if (bytes_progress x =? 0) && negb reached_eof then Ret (x, hp)
  else if fifo_full (tx_ready (x_progress x)) then Ret (x, hp)
  else
    match buflist_get (tx_pool (x_progress x)) with
    | (None, _) => Ret (x, hp)
    | (Some pb, pool) =>
        let x := set_x_progress (mk_txctl (tx_ready (x_progress x))
                                          (tx_posted (x_progress x)) pool) x in
        let hp := upd pb (fun b => set_xfc (set_owner xfo_nic (xfc b)) b) hp in
        let hp := upd pb (fun b => set_nused (nallocated b) b) hp in
        let hp := upd pb (set_prog_msg (mk_progress_msg (bytes_progress x)
                                          (if reached_eof then 0 else 1))) hp in
        let x := set_bytes_progress 0 x in
        '(_, ready) ← fifo_put (tx_ready (x_progress x)) pb;
        let x := set_x_progress (mk_txctl ready (tx_posted (x_progress x))
                                          (tx_pool (x_progress x))) x in
        let x := if reached_eof then set_x_cxn (set_eof_local true (x_cxn x)) x else x in
        Ret (x, hp)
    end.

(** ** Transmitter: the RDMA write *)

Record write_fully_params_t := mk_write_fully_params {
  p_ep : Z;
  p_iov_in : list iovec;
  p_desc_in : list Z;
  p_iov_out : list iovec;
  p_desc_out : list Z;
  p_niovs : Z;
  p_niovs_out : Z;            (* the value behind the pointer, on entry *)
  p_riov_in : list rma_iov;
  p_riov_out : list rma_iov;
  p_nriovs : Z;
  p_nriovs_out : Z;           (* the value behind the pointer, on entry *)
  p_len : Z;
  p_maxsegs : Z;
  p_flags : Z;
  p_addr : Z;
  p_context : ptr
}.

(** What [write_fully] leaves behind: its return value and the arrays and
    counters it writes through the pointers of its parameter. *)
Record write_fully_result := mk_write_fully_result {
  wf_ret : Z;
  wf_iov_out : list iovec;
  wf_desc_out : list Z;
  wf_niovs_out : Z;
  wf_riov_out : list rma_iov;
  wf_nriovs_out : Z
}.

(** [for (i = 0; i < n; i++) sum += a[i].len], over the first [n] entries. *)
Definition sum_lens {A} (len_of : A → Z) (n : Z) (a : list A) : Z :=
  fold_left (fun acc e => wrap64 (acc + len_of e)) (take (Z.to_nat n) a) 0.

(** The loop that lays out the local segments of the write; it walks the
    first [maxsegs.local] input segments. *)
Fixpoint write_plan_local (ins : list iovec) (desc_in : list Z) (i : nat)
    (nremaining : Z) (iov_out : list iovec) (desc_out : list Z)
  : nat * list iovec * list Z :=
  match ins with
  | [] => (i, iov_out, desc_out)
  | v :: ins' =>
      if 0 <? nremaining then
        let desc_out := <[i := default 0 (desc_in !! i)]> desc_out in
        if nremaining <? iov_len v
        then write_plan_local ins' desc_in (S i) 0
               (<[i := mk_iovec (iov_base v) nremaining]> iov_out) desc_out
        else write_plan_local ins' desc_in (S i) (wrap64 (nremaining - iov_len v))
               (<[i := v]> iov_out) desc_out
      else (i, iov_out, desc_out)
  end.

Fixpoint write_plan_remote (ins : list rma_iov) (i : nat)
    (nremaining : Z) (riov_out : list rma_iov) : nat * list rma_iov :=
  match ins with
  | [] => (i, riov_out)
  | v :: ins' =>
      if 0 <? nremaining then
        if nremaining <? riov_len v
        then write_plan_remote ins' (S i) 0
               (<[i := mk_riov (riov_addr v) nremaining (riov_key v)]> riov_out)
        else write_plan_remote ins' (S i) (wrap64 (nremaining - riov_len v))
               (<[i := v]> riov_out)
      else (i, riov_out)
  end.

(** The loops that rewrite the output arrays after the write; they walk all
    [niovs] (resp. [nriovs]) input segments. *)
Fixpoint write_residue_local (ins : list iovec) (desc_in : list Z) (i j : nat)
    (nremaining : Z) (iov_out : list iovec) (desc_out : list Z)
  : nat * list iovec * list Z :=
  match ins with
  | [] => (j, iov_out, desc_out)
  | v :: ins' =>
      if iov_len v <=? nremaining
      then write_residue_local ins' desc_in (S i) j (wrap64 (nremaining - iov_len v))
             iov_out desc_out
      else
        let desc_out := <[j := default 0 (desc_in !! i)]> desc_out in
        if 0 <? nremaining
        then write_residue_local ins' desc_in (S i) (S j) 0
               (<[j := mk_iovec (fst (iov_base v), snd (iov_base v) + nremaining)
                                (wrap64 (iov_len v - nremaining))]> iov_out) desc_out
        else write_residue_local ins' desc_in (S i) (S j) nremaining
               (<[j := v]> iov_out) desc_out
  end.

Fixpoint write_residue_remote (ins : list rma_iov) (j : nat)
    (nremaining : Z) (riov_out : list rma_iov) : nat * list rma_iov :=
  match ins with
  | [] => (j, riov_out)
  | v :: ins' =>
      if riov_len v <=? nremaining
      then write_residue_remote ins' j (wrap64 (nremaining - riov_len v)) riov_out
      else
        if 0 <? nremaining
        then write_residue_remote ins' (S j) 0
               (<[j := mk_riov (wrap64 (riov_addr v + nremaining))
                               (wrap64 (riov_len v - nremaining)) (riov_key v)]> riov_out)
        else write_residue_remote ins' (S j) nremaining (<[j := v]> riov_out)
  end.

Definition write_fully_len (p : write_fully_params_t) : Z :=
  let maxsegs_local := minsize_sz (p_maxsegs p) (p_niovs p) in
  let maxsegs_remote := minsize_sz (p_maxsegs p) (p_nriovs p) in
  let sumlen_local := sum_lens iov_len maxsegs_local (p_iov_in p) in
  let sumlen_remote := sum_lens riov_len maxsegs_remote (p_riov_in p) in
  wrap64 (minsize (minsize_sz sumlen_local sumlen_remote)
                  (minsize_sz (p_len p) SSIZE_MAX)).

Definition write_fully (p : write_fully_params_t) (fab : fabric)
  : write_fully_result * fabric :=
  let maxsegs_local := minsize_sz (p_maxsegs p) (p_niovs p) in
  let maxsegs_remote := minsize_sz (p_maxsegs p) (p_nriovs p) in
  let len := write_fully_len p in
  let '(nsegs_local, iov_out, desc_out) :=
    write_plan_local (take (Z.to_nat maxsegs_local) (p_iov_in p)) (p_desc_in p) 0 len
                     (p_iov_out p) (p_desc_out p) in
  let '(nsegs_remote, riov_out) :=
    write_plan_remote (take (Z.to_nat maxsegs_remote) (p_riov_in p)) 0 len (p_riov_out p) in
  let '(rc, fab) :=
    fabric_do (op_writemsg (p_ep p) (take nsegs_local iov_out) (take nsegs_local desc_out)
                           (take nsegs_remote riov_out) (p_addr p) (p_context p) (p_flags p))
              fab in
  if negb (rc =? 0)
  then (mk_write_fully_result rc iov_out desc_out (p_niovs_out p) riov_out (p_nriovs_out p), fab)
  else
    let '(j, iov_out, desc_out) :=
      write_residue_local (take (Z.to_nat (p_niovs p)) (p_iov_in p)) (p_desc_in p) 0 0 len
                          iov_out desc_out in
    let '(jr, riov_out) :=
      write_residue_remote (take (Z.to_nat (p_nriovs p)) (p_riov_in p)) 0 len riov_out in
    (mk_write_fully_result (to_ssize len) iov_out desc_out (Z.of_nat j)
                           riov_out (Z.of_nat jr), fab).

(** [xmtr_buf_split]: a fragment header for [len] bytes of [parent]. *)
Definition xmtr_buf_split (x : xmtr_t) (parent : ptr) (len : Z) (hp : heap)
  : outcome (ptr * xmtr_t * heap) :=
  if negb (fragment_offset x <? nused (hp parent)) then Exit          (* assert *)
  else if negb (len <? wrap64 (nused (hp parent) - fragment_offset x)) then Exit  (* assert *)
  else
    match buflist_get (fragment_pool x) with
    | (None, _) => Exit
    | (Some h, pool) =>
        let x := set_fragment pool (fragment_offset x) x in
        let hp := upd h (fun _ => mk_buf (fragment_offset x) len 0 (mr (hp parent))
                                         (desc (hp parent)) (xfc (hp h))
                                         (fragment_of parent)) hp in
        let hp := upd parent (fun b => set_xfc (set_nchildren
                                (wrap8 (xfc_nchildren (xfc b) + 1)) (xfc b)) b) hp in
        Ret (h, x, hp)
    end.

(** The loop variables of [xmtr_targets_write]. *)
Record select_vars := mk_select_vars {
  sel_i : Z;
  sel_total : Z;                (* ssize_t *)
  sel_first_h : option ptr;
  sel_last_h : option ptr
}.

Inductive select_step (A : Type) :=
| sel_next (a : A)
| sel_break.
Arguments sel_next {A} a.
Arguments sel_break {A}.

Definition sel_oversize_load (maxbytes : Z) (v : select_vars) (x : xmtr_t) (head : bufhdr_t)
  : bool :=
  wrap64 (maxbytes - sel_total v) <? wrap64 (nused head - fragment_offset x).

Definition riovs_maxed_out (gs : global_state_t) (x : xmtr_t) : bool :=
  rma_maxsegs gs <=? nriovs x.

(** One turn of the selection loop of [xmtr_targets_write] on the buffer
    [head] found at the head of [ready_for_cxn]. *)
Definition xmtr_select_body (gs : global_state_t) (maxbytes : Z) (head : ptr)
    (v : select_vars) (s : session_t) (x : xmtr_t) (w : world)
  : outcome (select_step (select_vars * session_t * xmtr_t * world)) :=
  let oversize_load := sel_oversize_load maxbytes v x (w_heap w head) in
  if oversize_load && negb (riovs_maxed_out gs x) then Ret sel_break
  else
    let len := if oversize_load then wrap64 (maxbytes - sel_total v)
               else wrap64 (nused (w_heap w head) - fragment_offset x) in
    let w := if fragment_offset x =? 0
             then with_heap (upd head (fun b => set_xfc (set_nchildren 0 (xfc b)) b)
                                 (w_heap w)) w
             else w in
    '(x, w) ← (if reregister gs && (fragment_offset x =? 0) then
                 let '(key, ks, pool) := keysource_next (keys (x_cxn x)) (w_pool w) in
                 let x := set_x_cxn (set_keys ks (x_cxn x)) x in
                 let '(rc, w) := buf_mr_reg payload_access_tx key head
                                   (mk_world (w_heap w) (w_fabric w) pool) in
                 if rc <? 0 then Exit else Ret (x, w)
               else Ret (x, w));
    '(h, s, x, w) ← (if oversize_load then
                       '(h, x, hp) ← xmtr_buf_split x head len (w_heap w);
                       Ret (h, s, x, with_heap hp w)
                     else
                       '(_, rfc) ← fifo_get (ready_for_cxn s);
                       Ret (head, set_ready_for_cxn rfc s, x, w));
    '(_, wrp) ← fifo_put (wrposted x) h;
    let x := set_wrposted wrp x in
    let first_h := match sel_last_h v with None => Some h | Some _ => sel_first_h v end in
    let w := with_heap (upd h (fun b => set_xfc (set_place 0 (set_owner xfo_program (xfc b))) b)
                            (w_heap w)) w in
    let i := Z.to_nat (sel_i v) in
    let e := mk_iovec (head, fragment_offset x) len in
    let x := if phase x
             then set_payload (payload_iov x) (payload_desc x)
                              (<[i := e]> (payload_iov2 x))
                              (<[i := desc (w_heap w h)]> (payload_desc2 x)) x
             else set_payload (<[i := e]> (payload_iov x))
                              (<[i := desc (w_heap w h)]> (payload_desc x))
                              (payload_iov2 x) (payload_desc2 x) x in
    '(x) ← (if oversize_load then
              let off := wrap64 (fragment_offset x + len) in
              if negb (off <? nused (w_heap w head)) then Exit      (* assert *)
              else Ret (set_fragment (fragment_pool x) off x)
            else Ret (set_fragment (fragment_pool x) 0 x));
    Ret (sel_next (mk_select_vars (wrap64 (sel_i v + 1))
                                  (to_ssize (wrap64 (sel_total v) + len))
                                  first_h (Some h), s, x, w)).

(** The selection loop; [fuel] bounds the turns by [maxriovs]. *)
Fixpoint xmtr_select_loop (fuel : nat) (gs : global_state_t) (maxriovs maxbytes : Z)
    (v : select_vars) (s : session_t) (x : xmtr_t) (w : world)
  : outcome (select_vars * session_t * xmtr_t * world) :=
  if sel_i v <? maxriovs then
    ohead ← fifo_peek (ready_for_cxn s);
    match ohead with
    | None => Ret (v, s, x, w)
    | Some head =>
        if (wrap64 (sel_total v) <? maxbytes) && negb (fifo_full (wrposted x)) then
          match fuel with
          | O => OutOfFuel
          | S fuel' =>
              st ← xmtr_select_body gs maxbytes head v s x w;
              match st with
              | sel_break => Ret (v, s, x, w)
              | sel_next (v, s, x, w) => xmtr_select_loop fuel' gs maxriovs maxbytes v s x w
              end
          end
        else Ret (v, s, x, w)
    end
  else Ret (v, s, x, w).

Definition active_riov (x : xmtr_t) : list rma_iov :=
  if phase x then riov2 x else riov x.

Definition xmtr_targets_write (gs : global_state_t) (s : session_t) (x : xmtr_t) (w : world)
  : outcome (loop_control_t * session_t * xmtr_t * world) :=
  let maxriovs := minsize_sz (rma_maxsegs gs) (nriovs x) in
  let maxbytes := sum_lens riov_len maxriovs (active_riov x) in
  '(v, s, x, w) ← xmtr_select_loop (Z.to_nat maxriovs) gs maxriovs maxbytes
                    (mk_select_vars 0 0 None None) s x w;
  let niovs := sel_i v in
  match sel_first_h v, sel_last_h v with
  | Some first_h, Some last_h =>
      let hp := upd first_h (fun b => set_xfc (set_owner xfo_nic (xfc b)) b) (w_heap w) in
      let hp := upd first_h (fun b => set_xfc (set_place xfp_first (xfc b)) b) hp in
      let hp := upd last_h (fun b => set_xfc (set_place (Z.lor (xfc_place (xfc b)) xfp_last)
                                                        (xfc b)) b) hp in
      let p := mk_write_fully_params (ep (x_cxn x))
                 (if phase x then payload_iov2 x else payload_iov x)
                 (if phase x then payload_desc2 x else payload_desc x)
                 (if phase x then payload_iov x else payload_iov2 x)
                 (if phase x then payload_desc x else payload_desc2 x)
                 niovs 0
                 (if phase x then riov2 x else riov x)
                 (if phase x then riov x else riov2 x)
                 (nriovs x) 0
                 (wrap64 (sel_total v)) maxriovs
                 (Z.lor FI_COMPLETION FI_DELIVERY_COMPLETE)
                 (peer_addr (x_cxn x)) first_h in
      let '(res, fab) := write_fully p (w_fabric w) in
      let w := mk_world hp fab (w_pool w) in
      let x := if phase x
               then set_payload (wf_iov_out res) (wf_desc_out res)
                                (payload_iov2 x) (payload_desc2 x) x
               else set_payload (payload_iov x) (payload_desc x)
                                (wf_iov_out res) (wf_desc_out res) x in
      let x := if phase x
               then set_riovs (wf_riov_out res) (riov2 x) (nriovs x) x
               else set_riovs (riov x) (wf_riov_out res) (nriovs x) x in
      if wf_ret res <? 0 then Exit
      else if negb (wf_ret res =? sel_total v) || negb (wf_niovs_out res =? 0)
      then Ret (loop_error, s, x, w)
      else
        let x := set_riovs (riov x) (riov2 x) (wf_nriovs_out res) x in
        Ret (loop_continue, s, set_phase (negb (phase x)) x, w)
  | _, _ => Ret (loop_continue, s, x, w)
  end.

(** ** Invariants *)

(** A ring as [fifo_create] and the queue operations leave it: the mask is a
    power of two less one, the slot array has one slot per index, and the
    counters have not come near the end of their range. *)
Record fifo_wf (f : fifo_t) : Prop := mk_fifo_wf {
  wf_mask : ∃ n, 0 ≤ n ≤ 62 ∧ index_mask f = Z.ones n;
  wf_slots : Z.of_nat (length (hdr f)) = index_mask f + 1;
  wf_removals : 0 ≤ removals f ≤ insertions f;
  wf_insertions : insertions f < 2 ^ 63;
  wf_occupancy : insertions f - removals f ≤ index_mask f + 1
}.

(** [ensures m P]: the routine does not run out of unrolling, and if it
    returns, its result satisfies [P].  Ending the process is allowed. *)
Definition ensures {A} (m : outcome A) (P : A → Prop) : Prop :=
  match m with
  | Ret a => P a
  | Exit => True
  | OutOfFuel => False
  end.

(** ** Example states

    Concrete rings, buffers and connections on which the statements below are
    exercised. *)

(** A ring of [2 ^ n] slots holding the queue [l]. *)
Definition fifo_of_list (n : Z) (l : list ptr) : fifo_t :=
  mk_fifo (Z.of_nat (length l)) 0 (Z.ones n)
          (l ++ replicate (Z.to_nat (2 ^ n) - length l) 0%nat).

Definition buflist_of_list (cap : Z) (l : list ptr) : buflist_t :=
  mk_buflist (Z.of_nat (length l)) cap (l ++ replicate (Z.to_nat cap - length l) 0%nat).

Definition xfc0 (t : xfc_type_t) : xfer_context_t := mk_xfc t xfo_program 0 0 false.

Definition bytebuf0 (used : Z) (bytes : list Z) : bufhdr_t :=
  mk_buf 0 used (Z.of_nat (length bytes)) 0 0 (xfc0 xft_rdma_write) (payload_of bytes).
Definition vecbuf0 (used : Z) (msg : vector_msg_t) : bufhdr_t :=
  mk_buf 0 used 296 0 0 (xfc0 xft_vector) (vector_of msg).
Definition progbuf0 : bufhdr_t :=
  mk_buf 0 0 progress_msg_size 0 0 (xfc0 xft_progress) (progress_of (mk_progress_msg 0 0)).
Definition fragment0 : bufhdr_t :=
  mk_buf 0 0 8 0 0 (xfc0 xft_fragment) (fragment_of 0%nat).

Definition cxn0 : cxn_t := mk_cxn 1 7 false true false false keysource_init.
Definition fabric0 (answers : list Z) : fabric := mk_fabric answers [].
Definition gs0 : global_state_t := mk_global_state 12 false false.

(** A transmitter with empty queues of [2 ^ 2] slots and no advertisements. *)
Definition xmtr0 : xmtr_t :=
  mk_xmtr cxn0 (fifo_of_list 2 []) 0
    (mk_rxctl (fifo_of_list 2 []) (fifo_of_list 2 []))
    (mk_txctl (fifo_of_list 2 []) (fifo_of_list 2 []) (buflist_of_list 4 []))
    (replicate 12 (mk_iovec (0%nat, 0) 0)) (replicate 12 0)
    (replicate 12 (mk_iovec (0%nat, 0) 0)) (replicate 12 0)
    (buflist_of_list 4 []) 0
    (replicate 12 zero_riov) (replicate 12 zero_riov) 0 0 false.

(** A receiver with empty queues of [2 ^ 2] slots. *)
Definition rcvr0 : rcvr_t :=
  mk_rcvr cxn0 0 (fifo_of_list 2 [])
    (mk_txctl (fifo_of_list 2 []) (fifo_of_list 2 []) (buflist_of_list 4 []))
    (mk_rxctl (fifo_of_list 2 []) (fifo_of_list 2 [])).

Definition session0 : session_t :=
  mk_session (mk_terminal false) (fifo_of_list 2 []) (fifo_of_list 2 []).

(** A heap in which every name denotes an empty payload buffer, to be
    overridden where an example needs a particular buffer. *)
Definition heap0 : heap := fun _ => bytebuf0 0 [].

(** A closing vector message as the receiver sends it when the vector buffer
    it reuses last carried one advertisement: no advertisement announced,
    32 bytes on the wire. *)
Definition closing_vecbuf : bufhdr_t :=
  vecbuf0 32 (mk_vector_msg 0 (replicate 12 zero_riov)).

(** A transmitter that has posted the vector buffer 5 for reception. *)
Definition xmtr_awaiting_vector : xmtr_t :=
  set_x_vec (mk_rxctl (fifo_of_list 2 [5%nat]) (fifo_of_list 2 [])) xmtr0.

Definition world_awaiting_vector (answers : list Z) : world :=
  mk_world (<[5%nat := vecbuf0 0 (mk_vector_msg 0 (replicate 12 zero_riov))]> heap0)
           (fabric0 answers) next_key_pool_init.

(** The send [txctl_transmit] asks of the fabric for buffer [h]: one segment,
    the used part of the buffer, addressed to the peer of the connection. *)
Definition sendmsg_of (c : cxn_t) (hp : heap) (h : ptr) : fabric_op :=
  op_sendmsg (ep c) h (nused (hp h)) (desc (hp h)) 1 (peer_addr c) h FI_COMPLETION.

(** The log entries of the accepted sends of the buffers [moved]. *)
Definition accepted_sends (c : cxn_t) (hp : heap) (moved : list ptr)
  : list (fabric_op * Z) :=
  (fun h => (sendmsg_of c hp h, 0)) <$> moved.

(** A connection with the control buffers 3, 4 and 6 ready to be sent. *)
Definition txctl_three_ready : txctl_t :=
  mk_txctl (fifo_of_list 2 [3; 4; 6]%nat) (fifo_of_list 2 []) (buflist_of_list 4 []).

(** The bytes still to be written into the target buffers [l]. *)
Fixpoint bytes_to_fill (hp : heap) (l : list ptr) : Z :=
  match l with
  | [] => 0
  | h :: l' => (nallocated (hp h) - nused (hp h)) + bytes_to_fill hp l'
  end.

(** A posted RDMA target: a buffer with room left in it. *)
Definition target_open (hp : heap) (h : ptr) : Prop :=
  0 ≤ nused (hp h) < nallocated (hp h) ∧ nallocated (hp h) < 2 ^ 64.

(** A receiver holding three posted targets 3, 4 and 6 of 23, 29 and 31
    bytes, with [credit] bytes of progress reported by the peer. *)
Definition heap_three_targets : heap :=
  <[3%nat := bytebuf0 0 (replicate 23 0)]>
    (<[4%nat := bytebuf0 0 (replicate 29 0)]>
       (<[6%nat := bytebuf0 0 (replicate 31 0)]> heap0)).

Definition rcvr_three_targets (credit : Z) (remote_eof : bool) : rcvr_t :=
  set_r_cxn (set_eof_remote remote_eof cxn0)
    (set_nfull credit (set_tgtposted (fifo_of_list 2 [3; 4; 6]%nat) rcvr0)).

(** A transmitter whose source is drained and whose payload queues are
    empty, with 5 bytes of progress to report and the progress buffer 8 in
    its pool. *)
Definition xmtr_at_eof : xmtr_t :=
  set_bytes_progress 5
    (set_x_progress (mk_txctl (fifo_of_list 2 []) (fifo_of_list 2 [])
                              (buflist_of_list 4 [8%nat])) xmtr0).

Definition session_at_eof : session_t :=
  mk_session (mk_terminal true) (fifo_of_list 2 []) (fifo_of_list 2 []).

Definition heap_progbuf : heap := <[8%nat := progbuf0]> heap0.

(** A receiver that has seen the remote EOF and not yet sent its own, with
    the vector buffer 8 in its pool. *)
Definition rcvr_at_remote_eof : rcvr_t :=
  set_r_cxn (set_eof_remote true cxn0)
    (set_r_vec (mk_txctl (fifo_of_list 2 []) (fifo_of_list 2 [])
                         (buflist_of_list 4 [8%nat])) rcvr0).

Definition heap_vecbuf : heap :=
  <[8%nat := vecbuf0 0 (mk_vector_msg 0 (replicate 12 zero_riov))]> heap0.

(** The [n] bytes of the test pattern, repeated every [len] bytes, from the
    stream offset [off]. *)
Definition pattern_bytes (len off : Z) (n : nat) : list Z :=
  (fun i : nat => default 0 (txbuf !! Z.to_nat ((off + Z.of_nat i) mod len))) <$> seq 0 n.

(** The used part of buffer [b] is the pattern at the sink's offset. *)
Definition buffer_matches (s : sink_t) (b : bufhdr_t) : Prop :=
  take (Z.to_nat (nused b)) (bytebuf_payload b) =
  pattern_bytes (txbuflen s) (idx s) (Z.to_nat (nused b)).

#[export] Instance buffer_matches_dec (s : sink_t) (b : bufhdr_t)
  : Decision (buffer_matches s b) :=
  decide (take (Z.to_nat (nused b)) (bytebuf_payload b) =
          pattern_bytes (txbuflen s) (idx s) (Z.to_nat (nused b))).

(** A buffer as the sink expects to find it on [ready]: its used part lies
    within its payload. *)
Definition sink_buffer_ok (s : sink_t) (b : bufhdr_t) : Prop :=
  0 ≤ nused b ≤ Z.of_nat (length (bytebuf_payload b)) ∧ nused b < 2 ^ 62.

(** The sink of the program: the pattern is [strlen(txbuf)] bytes long. *)
Definition sink_ok (s : sink_t) : Prop :=
  txbuflen s = strlen txbuf ∧ 0 ≤ idx s ≤ entirelen s ∧ entirelen s < 2 ^ 63.

(** The buffers [l], taken one after the other by a sink in state [s], each
    hold the pattern at the offset the sink has reached and do not take the
    sink past [entirelen]. *)
Fixpoint consumed_ok (hp : heap) (s : sink_t) (l : list ptr) : Prop :=
  match l with
  | [] => True
  | h :: l' =>
      buffer_matches s (hp h) ∧ idx s + nused (hp h) ≤ entirelen s ∧
      consumed_ok hp (set_idx (idx s + nused (hp h)) s) l'
  end.

Fixpoint bytes_used (hp : heap) (l : list ptr) : Z :=
  match l with
  | [] => 0
  | h :: l' => nused (hp h) + bytes_used hp l'
  end.

(** The sink refuses the buffer [h]: taking it would pass [entirelen], or it
    does not hold the pattern. *)
Definition sink_refuses (hp : heap) (s : sink_t) (h : ptr) : Prop :=
  entirelen s < idx s + nused (hp h) ∨ ¬ buffer_matches s (hp h).

(** A sink that has seen all of its 76 bytes, and a ready queue holding the
    empty buffer 3. *)
Definition sink_done : sink_t := mk_sink (mk_terminal true) 76 76 76.

(** The session of that sink, with nothing queued on either side. *)
Definition session_sink_done : session_t :=
  mk_session (sink_terminal sink_done) (fifo_of_list 2 []) (fifo_of_list 2 []).

(** A sink at the start of a transfer of two patterns. *)
Definition sink_fresh : sink_t := mk_sink (mk_terminal false) 0 76 152.

(** Buffers 3 and 4 hold the first 23 and the next 29 bytes of the
    pattern. *)
Definition heap_pattern : heap :=
  <[3%nat := bytebuf0 23 (take 23 txbuf)]>
    (<[4%nat := bytebuf0 29 (take 29 (drop 23 txbuf))]> heap0).

(** A transmitter holding [n] advertisements of 10 bytes each, with the
    payload buffer 3 of 25 used bytes at the head of [ready_for_cxn] and the
    fragment headers 20 and 21 in its pool. *)
Definition xmtr_with_riovs (n : Z) : xmtr_t :=
  set_riovs (replicate (Z.to_nat n) (mk_riov 0 10 5) ++ replicate (12 - Z.to_nat n) zero_riov)
            (replicate 12 zero_riov) n
    (set_fragment (buflist_of_list 4 [20; 21]%nat) 0
       (set_wrposted (fifo_of_list 3 []) xmtr0)).

Definition session_one_payload : session_t :=
  mk_session (mk_terminal false) (fifo_of_list 2 [3%nat]) (fifo_of_list 2 []).

Definition heap_one_payload : heap :=
  <[3%nat := bytebuf0 25 (replicate 37 0)]>
    (<[20%nat := fragment0]> (<[21%nat := fragment0]> heap0)).

Definition world_one_payload : world :=
  mk_world heap_one_payload (fabric0 [0; 0; 0]) next_key_pool_init.

(** A provider that takes at most two segments in one RDMA write. *)
Definition gs_two_segments : global_state_t := mk_global_state 2 false false.

Definition sum_list_Z (l : list Z) : Z := foldr Z.add 0 l.

(** The sum of the first [min(maxsegs, n)] segment lengths, in the integers. *)
Definition first_lens {A} (len_of : A → Z) (maxsegs n : Z) (a : list A) : Z :=
  sum_list_Z (len_of <$> take (Z.to_nat (Z.min maxsegs n)) a).

(** What the claim gives for the bytes written by [write_fully]. *)
Definition write_fully_min (p : write_fully_params_t) : Z :=
  Z.min (Z.min (first_lens iov_len (p_maxsegs p) (p_niovs p) (p_iov_in p))
               (first_lens riov_len (p_maxsegs p) (p_nriovs p) (p_riov_in p)))
        (Z.min (p_len p) SSIZE_MAX).

(** One local segment and one advertisement of 2 GiB each, and 2 GiB asked
    for. *)
Definition write_2gib : write_fully_params_t :=
  mk_write_fully_params 1
    [mk_iovec (3%nat, 0) (2 ^ 31)] [0] [mk_iovec (0%nat, 0) 0] [0] 1 0
    [mk_riov 0 (2 ^ 31) 5] [zero_riov] 1 0
    (2 ^ 31) 1 (Z.lor FI_COMPLETION FI_DELIVERY_COMPLETE) 7 3%nat.

(** Two local segments of 23 and 29 bytes against three advertisements of 31
    bytes, with 52 bytes asked for. *)
Definition write_two_buffers : write_fully_params_t :=
  mk_write_fully_params 1
    [mk_iovec (3%nat, 0) 23; mk_iovec (4%nat, 0) 29] [0; 0]
    [mk_iovec (0%nat, 0) 0; mk_iovec (0%nat, 0) 0] [0; 0] 2 0
    [mk_riov 0 31 5; mk_riov 0 31 6; mk_riov 0 31 7]
    [zero_riov; zero_riov; zero_riov] 3 0
    52 12 (Z.lor FI_COMPLETION FI_DELIVERY_COMPLETE) 7 3%nat.

(** The byte addresses of a local segment and of an advertisement, in
    order. *)
Definition iov_bytes (v : iovec) : list (ptr * Z) :=
  (fun k => (fst (iov_base v), snd (iov_base v) + k)) <$> seqZ 0 (iov_len v).

Definition riov_bytes (v : rma_iov) : list (Z * Z) :=
  (fun k => (riov_key v, riov_addr v + k)) <$> seqZ 0 (riov_len v).

(** A segment with its first [n] bytes taken away: base advanced, length
    reduced. *)
Definition iov_advance (n : Z) (v : iovec) : iovec :=
  mk_iovec (fst (iov_base v), snd (iov_base v) + n) (iov_len v - n).

Definition riov_advance (n : Z) (v : rma_iov) : rma_iov :=
  mk_riov (riov_addr v + n) (riov_len v - n) (riov_key v).

(** The residue of the claim, in the integers: what is left of the segments
    [ins] once their first [n] bytes are written.  Segments that are covered
    are left out, the one that is cut is advanced, the others are kept; a
    segment of no bytes counts as covered.  For the local side each residual
    segment comes with the index of the segment it is left of, [i] being the
    index of the head of [ins]. *)
Fixpoint iov_residue (i : nat) (n : Z) (ins : list iovec) : list (nat * iovec) :=
  match ins with
  | [] => []
  | v :: ins' =>
      if iov_len v <=? n then iov_residue (S i) (n - iov_len v) ins'
      else (i, iov_advance n v) :: iov_residue (S i) 0 ins'
  end.

Fixpoint riov_residue (n : Z) (ins : list rma_iov) : list rma_iov :=
  match ins with
  | [] => []
  | v :: ins' =>
      if riov_len v <=? n then riov_residue (n - riov_len v) ins'
      else riov_advance n v :: riov_residue 0 ins'
  end.

(** Two local segments of 23 and 29 bytes against a single advertisement of
    31 bytes. *)
Definition write_one_advert : write_fully_params_t :=
  mk_write_fully_params 1
    [mk_iovec (3%nat, 0) 23; mk_iovec (4%nat, 0) 29] [13; 14]
    [mk_iovec (0%nat, 0) 0; mk_iovec (0%nat, 0) 0] [0; 0] 2 0
    [mk_riov 0 31 5] [zero_riov] 1 0
    52 12 (Z.lor FI_COMPLETION FI_DELIVERY_COMPLETE) 7 3%nat.

(** What holds between the key sources, the pool and the keys handed out so
    far ([past] lists them with the source that got each): the pool is a
    multiple of the block size above every key and every source; a source is
    past its own keys; and a block being used by one source holds no key of
    another source and is not used by another source. *)
Record keys_inv (past : list (nat * Z)) (st : keys_state) : Prop := mk_keys_inv {
  ki_pool : next_key_pool st mod 256 = 0 ∧ 0 ≤ next_key_pool st;
  ki_src : ∀ i, 0 ≤ next_key (keysources st i) ≤ next_key_pool st;
  ki_below : ∀ j k, (j, k) ∈ past → 0 ≤ k < next_key_pool st;
  ki_own : ∀ j k, (j, k) ∈ past → k < next_key (keysources st j);
  ki_block : ∀ i j k, (j, k) ∈ past → j ≠ i →
             next_key (keysources st i) mod 256 ≠ 0 →
             k / 256 ≠ next_key (keysources st i) / 256;
  ki_apart : ∀ i j, i ≠ j →
             next_key (keysources st i) mod 256 ≠ 0 →
             next_key (keysources st j) mod 256 ≠ 0 →
             next_key (keysources st i) / 256 ≠ next_key (keysources st j) / 256
}.

(** What the loop of [txctl_transmit] does, in terms of the queues and of
    the answers [todo] the fabric has in store.  [moved] are the buffers
    whose send the fabric accepted: it answered 0 to each of them, and the
    loop stopped either for want of a buffer or of room, with no further
    send, or on the answer try-again to the send of the next buffer. *)
Definition txctl_transmit_post (c : cxn_t) (hp : heap) (todo : list Z)
    (done : list (fabric_op * Z)) (tc : txctl_t) (res : outcome (txctl_t * fabric)) : Prop :=
  match res with
  | Ret (tc', fab') =>
      ∃ moved,
        fifo_elems (tx_ready tc) = moved ++ fifo_elems (tx_ready tc') ∧
        fifo_elems (tx_posted tc') = fifo_elems (tx_posted tc) ++ moved ∧
        tx_pool tc' = tx_pool tc ∧
        fifo_wf (tx_ready tc') ∧ fifo_wf (tx_posted tc') ∧
        take (length moved) todo = replicate (length moved) 0 ∧
        ((oplog fab' = done ++ accepted_sends c hp moved ∧
          script fab' = drop (length moved) todo ∧
          (fifo_elems (tx_ready tc') = [] ∨
           Z.of_nat (length (fifo_elems (tx_posted tc'))) = fifo_capacity (tx_posted tc'))) ∨
         (∃ h, head (fifo_elems (tx_ready tc')) = Some h ∧
               Z.of_nat (length (fifo_elems (tx_posted tc'))) < fifo_capacity (tx_posted tc') ∧
               nth (length moved) todo (- FI_EAGAIN) = - FI_EAGAIN ∧
               script fab' = drop (S (length moved)) todo ∧
               oplog fab' = done ++ accepted_sends c hp moved
                                 ++ [(sendmsg_of c hp h, - FI_EAGAIN)]))
  | Exit =>
      ∃ moved h rest rc todo',
        fifo_elems (tx_ready tc) = moved ++ h :: rest ∧
        todo = replicate (length moved) 0 ++ rc :: todo' ∧
        rc < 0 ∧ rc ≠ - FI_EAGAIN
  | OutOfFuel => False
  end.

(* ===================================================================== *)
(** * Part I, continued: the rest of the data path                         *)
(* ===================================================================== *)

(** ** Rings *)

(** A [malloc] that never fails: the block it gives for [n] bytes has the
    [(n - 24) / 8] slots that fit behind the header of a ring, all null. *)
Definition malloc_ring (n : Z) : option (list ptr) :=
  Some (replicate (Z.to_nat ((n - fifo_hdr_offset) / fifo_slot_size)) 0%nat).

(** ** Terminals: the source *)

(** [source_t] has the fields of [sink_t]. *)
Record source_t := mk_source {
  source_terminal : terminal_t;
  src_idx : Z;
  src_txbuflen : Z;
  src_entirelen : Z
}.

Definition set_src_idx (i : Z) (s : source_t) : source_t :=
  mk_source (source_terminal s) i (src_txbuflen s) (src_entirelen s).
Definition set_source_eof (b : bool) (s : source_t) : source_t :=
  mk_source (mk_terminal b) (src_idx s) (src_txbuflen s) (src_entirelen s).

(** [memcpy(&dst[ofs], &src[sofs], n)]; both regions lie within their arrays
    wherever the program calls it. *)
Definition memcpy (dst : list Z) (ofs : Z) (src : list Z) (sofs n : Z) : list Z :=
  take (Z.to_nat ofs) dst ++ take (Z.to_nat n) (drop (Z.to_nat sofs) src)
    ++ drop (Z.to_nat (ofs + n)) dst.

(** The copying loop of [source_trade] over one buffer.  Every turn advances
    [ofs], so [nused] turns are enough. *)
Fixpoint source_fill (fuel : nat) (s : source_t) (payload : list Z) (used ofs : Z)
  : outcome (list Z) :=
  if ofs <? used then
    match fuel with
    | O => OutOfFuel
    | S fuel' =>
        let txbuf_ofs := wrap64 (src_idx s + ofs) mod src_txbuflen s in
        let len := minsize_sz (wrap64 (used - ofs)) (wrap64 (src_txbuflen s - txbuf_ofs)) in
        source_fill fuel' s (memcpy payload ofs txbuf txbuf_ofs len) used (wrap64 (ofs + len))
    end
  else Ret payload.

(** The [while] loop of [source_trade]; the boolean is [true] when the loop
    is left through its [return loop_end].  Every turn takes one buffer off
    [ready]. *)
Fixpoint source_trade_loop (fuel : nat) (s : source_t) (ready completed : fifo_t) (hp : heap)
  : outcome (bool * source_t * fifo_t * fifo_t * heap) :=
  oh ← fifo_peek ready;
  match oh with
  | None => Ret (false, s, ready, completed, hp)
  | Some h =>
      if fifo_full completed then Ret (false, s, ready, completed, hp)
      else if src_idx s =? src_entirelen s
      then Ret (true, set_source_eof true s, ready, completed, hp)
      else
        match fuel with
        | O => OutOfFuel
        | S fuel' =>
            let used := minsize_sz (wrap64 (src_entirelen s - src_idx s))
                                   (nallocated (hp h)) in
            payload ← source_fill (Z.to_nat used) s (bytebuf_payload (hp h)) used 0;
            let hp := upd h (fun b => set_body (payload_of payload) (set_nused used b)) hp in
            '(_, ready) ← fifo_get ready;
            '(_, completed) ← fifo_put completed h;
            source_trade_loop fuel' (set_src_idx (wrap64 (src_idx s + used)) s)
                              ready completed hp
        end
  end.

(** [source_trade]; the bytes it prints on the way are not modelled. *)
Definition source_trade (s : source_t) (ready completed : fifo_t) (hp : heap)
  : outcome (loop_control_t * source_t * fifo_t * fifo_t * heap) :=
  if eof (source_terminal s) then Ret (loop_end, s, ready, completed, hp)
  else
    '(ended, s, ready, completed, hp) ←
      source_trade_loop (fifo_occupancy ready) s ready completed hp;
    if (ended : bool) then Ret (loop_end, s, ready, completed, hp)
    else if negb (src_idx s =? src_entirelen s)
    then Ret (loop_continue, s, ready, completed, hp)
    else Ret (loop_end, set_source_eof true s, ready, completed, hp).

(** The source of the program: the pattern is [strlen(txbuf)] bytes long. *)
Definition source_ok (s : source_t) : Prop :=
  src_txbuflen s = strlen txbuf ∧ 0 ≤ src_idx s ≤ src_entirelen s ∧
  src_entirelen s < 2 ^ 63.

(** The sink that has got as far into the stream as the source [s]. *)
Definition sink_of_source (s : source_t) : sink_t :=
  mk_sink (source_terminal s) (src_idx s) (src_txbuflen s) (src_entirelen s).

(** A buffer as the source expects to find it on [ready]: its payload has
    the allocated size. *)
Definition source_buffer_ok (b : bufhdr_t) : Prop :=
  0 ≤ nallocated b < 2 ^ 31 ∧ nallocated b ≤ Z.of_nat (length (bytebuf_payload b)).

(** The buffers [l], filled one after the other by a source in state [s]:
    each is as full as its size and the rest of the stream allow, and holds
    the pattern at the offset the source has reached. *)
Fixpoint produced_ok (hp : heap) (s : source_t) (l : list ptr) : Prop :=
  match l with
  | [] => True
  | h :: l' =>
      nused (hp h) = Z.min (src_entirelen s - src_idx s) (nallocated (hp h)) ∧
      buffer_matches (sink_of_source s) (hp h) ∧
      produced_ok hp (set_src_idx (src_idx s + nused (hp h)) s) l'
  end.

(** A source at the start of a stream of two patterns, and two buffers of 23
    and 29 bytes whose payload is still blank. *)
Definition source_fresh : source_t := mk_source (mk_terminal false) 0 76 152.

Definition heap_blank : heap :=
  <[3%nat := bytebuf0 0 (replicate 23 0)]>
    (<[4%nat := bytebuf0 0 (replicate 29 0)]> heap0).

(** ** Buffer lists: creation *)

(** [buflist_create]: [block] is what [malloc] answers, nothing or a block
    whose slots hold whatever they hold. *)
Definition buflist_create (block : option (list ptr)) (n : Z) : option buflist_t :=
  slots ← block; Some (mk_buflist 0 n slots).

(** A buffer list whose counters and slots agree. *)
Definition buflist_wf (bl : buflist_t) : Prop :=
  0 ≤ bl_nfull bl ≤ bl_nallocated bl ∧
  bl_nallocated bl ≤ Z.of_nat (length (bl_buf bl)) ∧ bl_nallocated bl < 2 ^ 64.

(** The buffers in the list, oldest first. *)
Definition buflist_elems (bl : buflist_t) : list ptr :=
  take (Z.to_nat (bl_nfull bl)) (bl_buf bl).

(** ** Receiver: progress messages *)

Definition progbuf_is_wellformed (pb : bufhdr_t) : bool :=
  nused pb =? progress_msg_size.

(** [rcvr_progress_rx_process]; as before, the heap keeps no trace of
    [buf_free]. *)
Definition rcvr_progress_rx_process (r : rcvr_t) (cmpl : completion_t) (w : world)
  : outcome (Z * rcvr_t * world) :=
  '(opb, prog, hp) ← rxctl_complete (r_progress r) cmpl (w_heap w);
  let r := set_r_progress prog r in
  let w := with_heap hp w in
  match opb with
  | None => Ret (-1, r, w)
  | Some pb =>
      if xfc_cancelled (xfc (w_heap w pb)) then Ret (0, r, w)
      else if negb (progbuf_is_wellformed (w_heap w pb)) then
        '(prog, w) ← rxctl_post (r_cxn r) (r_progress r) pb w;
        Ret (0, set_r_progress prog r, w)
      else
        let msg := progbuf_msg (w_heap w pb) in
        let r := set_nfull (wrap64 (nfull r + nfilled msg)) r in
        let r := if nleftover msg =? 0
                 then set_r_cxn (set_eof_remote true (r_cxn r)) r else r in
        '(prog, w) ← rxctl_post (r_cxn r) (r_progress r) pb w;
        Ret (1, set_r_progress prog r, w)
  end.

(** ** Transmitter: unloading vector messages *)

Definition set_next_riov (n : Z) (x : xmtr_t) : xmtr_t :=
  mk_xmtr (x_cxn x) (wrposted x) (bytes_progress x) (x_vec x) (x_progress x)
    (payload_iov x) (payload_desc x) (payload_iov2 x) (payload_desc2 x)
    (fragment_pool x) (fragment_offset x) (riov x) (riov2 x) (nriovs x)
    n (phase x).

(** [arraycount(x->riov)]. *)
Definition riov_count : Z := 12.

(** The copying loop of [xmtr_vecbuf_unload]: every turn fills one of the
    twelve slots of the advertisement array, so twelve turns are enough. *)
Fixpoint xmtr_unload_loop (fuel : nat) (i : Z) (msg : vector_msg_t)
    (rv : list rma_iov) (n : Z) : outcome (Z * list rma_iov * Z) :=
  if (i <? niovs msg) && (n <? riov_count) then
    match fuel with
    | O => OutOfFuel
    | S fuel' =>
        let e := default zero_riov (iov msg !! Z.to_nat i) in
        xmtr_unload_loop fuel' (wrap64 (i + 1)) msg
          (<[Z.to_nat n := mk_riov (riov_addr e) (riov_len e) (riov_key e)]> rv)
          (wrap64 (n + 1))
    end
  else Ret (i, rv, n).

Definition xmtr_vecbuf_unload (x : xmtr_t) (w : world) : outcome (xmtr_t * world) :=
  ovb ← fifo_peek (rx_rcvd (x_vec x));
  match ovb with
  | None => Ret (x, w)
  | Some vb =>
      let msg := vecbuf_msg (w_heap w vb) in
      let x := if negb (eof_remote (x_cxn x)) && (niovs msg =? 0)
               then set_x_cxn (set_eof_remote true (x_cxn x)) x else x in
      '(i, rv, n) ← xmtr_unload_loop (Z.to_nat riov_count) (next_riov x) msg
                      (active_riov x) (nriovs x);
      let x := if phase x then set_riovs (riov x) rv n x else set_riovs rv (riov2 x) n x in
      if i =? niovs msg then
        '(_, rcvd) ← fifo_get (rx_rcvd (x_vec x));
        let x := set_x_vec (mk_rxctl (rx_posted (x_vec x)) rcvd) x in
        '(vec, w) ← rxctl_post (x_cxn x) (x_vec x) vb w;
        Ret (set_next_riov 0 (set_x_vec vec x), w)
      else Ret (set_next_riov i x, w)
  end.



(** A transmitter that has received the vector message in buffer 5, which
    advertises two targets of 31 and 37 bytes. *)
Definition xmtr_vector_received : xmtr_t :=
  set_x_vec (mk_rxctl (fifo_of_list 2 []) (fifo_of_list 2 [5%nat])) xmtr0.

Definition world_vector_received (answers : list Z) : world :=
  mk_world (<[5%nat := vecbuf0 56 (mk_vector_msg 2 ([mk_riov 0 31 5; mk_riov 0 37 6]
                                                     ++ replicate 10 zero_riov))]> heap0)
           (fabric0 answers) next_key_pool_init.


(** ** Segmenting a buffer: [fibonacci_iov_setup] *)

(** The [for] loop of [fibonacci_iov_setup]; it makes at most [niovs - 1]
    turns.  [i] is an [ssize_t] that the test compares as unsigned. *)
Fixpoint fibonacci_iov_loop (fuel : nat) (i : Z) (buf : ptr * Z) (len prev curr niovs : Z)
    (iov : list iovec) : outcome (Z * (ptr * Z) * Z * list iovec) :=
  if (0 <? len) && (wrap64 i <? wrap64 (niovs - 1)) then
    match fuel with
    | O => OutOfFuel
    | S fuel' =>
        let l := if curr <? len then curr else len in
        fibonacci_iov_loop fuel' (to_ssize (i + 1)) (fst buf, snd buf + l) (wrap64 (len - l))
          curr (wrap64 (prev + curr)) niovs (<[Z.to_nat i := mk_iovec buf l]> iov)
    end
  else Ret (i, buf, len, iov).

(** [fibonacci_iov_setup]: the value returned, a [size_t], and the array. *)
Definition fibonacci_iov_setup (buf : ptr * Z) (len : Z) (iov : list iovec) (niovs : Z)
  : outcome (Z * list iovec) :=
  if (niovs <? 1) && (0 <? len) then Ret (wrap64 (-1), iov)
  else
    let niovs := if SSIZE_MAX <? niovs then SSIZE_MAX else niovs in
    '(i, buf, len, iov) ←
      fibonacci_iov_loop (Z.to_nat (niovs - 1)) 0 buf len 0 1 niovs iov;
    if 0 <? len
    then Ret (wrap64 (to_ssize (i + 1)), <[Z.to_nat i := mk_iovec buf len]> iov)
    else Ret (wrap64 i, iov).


(** ** Completion queues *)

(** [-FI_EAVAIL], from [rdma/fi_errno.h]. *)
Definition FI_EAVAIL : Z := 259.

(** What the completion queue answers to one [fi_cq_read]: the value
    returned, the entry filled in when that is 1, and, for [-FI_EAVAIL],
    the error and the context that [fi_cq_readerr] reports. *)
Record cq_event := mk_cq_event {
  cq_ncompleted : Z;
  cq_fcmpl : completion_t;
  cq_err : Z;
  cq_err_context : ptr
}.

(** The head of [rcvr_cq_process] and of [xmtr_cq_process], after the test
    for try-again: the completion to work on, or nothing when the routine
    returns -1. *)
Definition cq_completion (ev : cq_event) (hp : heap) : outcome (option completion_t) :=
  if cq_ncompleted ev =? - FI_EAVAIL then
    let cmpl := mk_completion 0 0 (cq_err_context ev) in
    if negb (cq_err ev =? FI_ECANCELED) || negb (xfc_cancelled (xfc (hp (cmpl_xfc cmpl))))
    then Ret None
    else Ret (Some cmpl)
  else if cq_ncompleted ev <? 0 then Exit
  else if negb (cq_ncompleted ev =? 1) then Exit
  else Ret (Some (cq_fcmpl ev)).

Definition rcvr_cq_process (r : rcvr_t) (ev : cq_event) (w : world)
  : outcome (Z * rcvr_t * world) :=
  if cq_ncompleted ev =? - FI_EAGAIN then Ret (0, r, w)
  else
    ocmpl ← cq_completion ev (w_heap w);
    match ocmpl with
    | None => Ret (-1, r, w)
    | Some cmpl =>
        match xfc_type (xfc (w_heap w (cmpl_xfc cmpl))) with
        | xft_progress => rcvr_progress_rx_process r cmpl w
        | xft_vector =>
            '(rc, vec) ← txctl_complete (r_vec r) cmpl (w_heap w);
            Ret (rc, set_r_vec vec r, w)
        | _ => Ret (-1, r, w)
        end
    end.

(** The first loop of [xmtr_cq_process] on a write completion: fragment
    headers the program owns leave the head of [wrposted] for their pool.
    Every turn takes one entry off [wrposted]. *)
Fixpoint xmtr_release_fragments (fuel : nat) (x : xmtr_t) (hp : heap)
  : outcome (xmtr_t * heap) :=
  oh ← fifo_peek (wrposted x);
  match oh with
  | None => Ret (x, hp)
  | Some h =>
      match xfc_owner (xfc (hp h)), xfc_type (xfc (hp h)) with
      | xfo_program, xft_fragment =>
          match fuel with
          | O => OutOfFuel
          | S fuel' =>
              '(_, wrp) ← fifo_get (wrposted x);
              let x := set_wrposted wrp x in
              let parent := fragment_parent (hp h) in
              if negb (0 <? xfc_nchildren (xfc (hp parent))) then Exit      (* assert *)
              else
                let hp := upd parent (fun b => set_xfc (set_nchildren
                                        (wrap8 (xfc_nchildren (xfc b) - 1)) (xfc b)) b) hp in
                let '(_, pool) := buflist_put (fragment_pool x) h in
                xmtr_release_fragments fuel' (set_fragment pool (fragment_offset x) x) hp
          end
      | _, _ => Ret (x, hp)
      end
  end.

(** The second loop: payload buffers the program owns, with no fragment
    outstanding, go back to the terminal and count as progress. *)
Fixpoint xmtr_release_buffers (fuel : nat) (reregister : bool)
    (s : session_t) (x : xmtr_t) (w : world) : outcome (session_t * xmtr_t * world) :=
  oh ← fifo_peek (wrposted x);
  match oh with
  | None => Ret (s, x, w)
  | Some h =>
      let c := xfc (w_heap w h) in
      match xfc_owner c, xfc_type c with
      | xfo_program, xft_rdma_write =>
          if (xfc_nchildren c =? 0) && negb (fifo_full (ready_for_terminal s)) then
            match fuel with
            | O => OutOfFuel
            | S fuel' =>
                '(_, wrp) ← fifo_get (wrposted x);
                let x := set_wrposted wrp x in
                let w := if reregister
                         then with_fabric (snd (fabric_do (op_close (mr (w_heap w h)))
                                                          (w_fabric w))) w
                         else w in
                let x := set_bytes_progress (wrap64 (bytes_progress x + nused (w_heap w h))) x in
                '(_, rft) ← fifo_put (ready_for_terminal s) h;
                xmtr_release_buffers fuel' reregister (set_ready_for_terminal rft s) x w
            end
          else Ret (s, x, w)
      | _, _ => Ret (s, x, w)
      end
  end.

Definition xmtr_cq_process (x : xmtr_t) (s : session_t) (reregister : bool)
    (ev : cq_event) (w : world) : outcome (Z * session_t * xmtr_t * world) :=
  if cq_ncompleted ev =? - FI_EAGAIN then Ret (0, s, x, w)
  else
    ocmpl ← cq_completion ev (w_heap w);
    match ocmpl with
    | None => Ret (-1, s, x, w)
    | Some cmpl =>
        let w := with_heap (upd (cmpl_xfc cmpl)
                                (fun b => set_xfc (set_owner xfo_program (xfc b)) b)
                                (w_heap w)) w in
        match xfc_type (xfc (w_heap w (cmpl_xfc cmpl))) with
        | xft_vector =>
            '(rc, x, w) ← xmtr_vector_rx_process x cmpl w;
            Ret (rc, s, x, w)
        | xft_fragment | xft_rdma_write =>
            oh ← fifo_peek (wrposted x);
            match oh with
            | None => Ret (-1, s, x, w)
            | Some h =>
                if Z.land (xfc_place (xfc (w_heap w h))) xfp_first =? 0
                then Ret (-1, s, x, w)
                else
                  '(x, hp) ← xmtr_release_fragments (fifo_occupancy (wrposted x)) x (w_heap w);
                  '(s, x, w) ← xmtr_release_buffers (fifo_occupancy (wrposted x)) reregister
                                  s x (with_heap hp w);
                  Ret (1, s, x, w)
            end
        | xft_progress =>
            '(rc, prog) ← txctl_complete (x_progress x) cmpl (w_heap w);
            Ret (rc, s, set_x_progress prog x, w)
        end
    end.



(** The program owns the buffer and it is of the given kind. *)
Definition program_owns (hp : heap) (t : xfc_type_t) (h : ptr) : Prop :=
  xfc_owner (xfc (hp h)) = xfo_program ∧ xfc_type (xfc (hp h)) = t.

(** A payload buffer that [xmtr_cq_process] may hand back to the terminal. *)
Definition releasable (hp : heap) (h : ptr) : Prop :=
  program_owns hp xft_rdma_write h ∧ xfc_nchildren (xfc (hp h)) = 0.


(** Two writes in flight.  The fragment header 20 carried the first 10 bytes
    of the payload buffer 3; the second write carries the rest of buffer 3
    and all of buffer 4.  The NIC owns the first context of each write. *)
Definition heap_two_writes : heap :=
  <[20%nat := mk_buf 0 10 0 0 0 (mk_xfc xft_fragment xfo_nic 3 0 false) (fragment_of 3%nat)]>
    (<[3%nat := mk_buf 0 25 25 0 0 (mk_xfc xft_rdma_write xfo_nic xfp_first 1 false)
                       (payload_of (take 25 txbuf))]>
       (<[4%nat := mk_buf 0 29 29 0 0 (mk_xfc xft_rdma_write xfo_program xfp_last 0 false)
                          (payload_of (take 29 (drop 25 txbuf)))]> heap0)).

Definition xmtr_two_writes : xmtr_t :=
  set_fragment (buflist_of_list 4 [21%nat]) 0
    (set_wrposted (fifo_of_list 2 [20; 3; 4]%nat) xmtr0).

Definition world_two_writes : world := mk_world heap_two_writes (fabric0 []) 512.


(** Two payload buffers of 25 and 29 bytes wait for the connection, and the
    peer has advertised two targets of 20 and 15 bytes to a transmitter that
    writes at most two segments at a time. *)
Definition session_two_payloads : session_t :=
  mk_session (mk_terminal false) (fifo_of_list 2 [3; 4]%nat) (fifo_of_list 2 []).

Definition heap_two_payloads : heap :=
  <[3%nat := bytebuf0 25 (replicate 37 0)]>
    (<[4%nat := bytebuf0 29 (replicate 37 0)]>
       (<[20%nat := fragment0]> (<[21%nat := fragment0]> heap0))).

Definition world_two_payloads : world :=
  mk_world heap_two_payloads (fabric0 [0; 0; 0]) next_key_pool_init.

Definition xmtr_two_adverts : xmtr_t :=
  set_riovs ([mk_riov 0 20 5; mk_riov 100 15 6] ++ replicate 10 zero_riov)
            (replicate 12 zero_riov) 2
    (set_fragment (buflist_of_list 4 [20; 21]%nat) 0
       (set_wrposted (fifo_of_list 3 []) xmtr0)).

(** The completion of the write whose first context is [h]. *)
Definition write_completed (h : ptr) : cq_event :=
  mk_cq_event 1 (mk_completion desired_wr_flags 0 h) 0 0%nat.

(** The state that [xmtr_targets_write] leaves there: one write of buffer 3
    and of the first 10 bytes of buffer 4, the latter under a fragment
    header. *)
Definition after_first_write : session_t * xmtr_t * world :=
  match xmtr_targets_write gs_two_segments session_two_payloads xmtr_two_adverts
          world_two_payloads with
  | Ret (_, s, x, w) => (s, x, w)
  | _ => (session_two_payloads, xmtr_two_adverts, world_two_payloads)
  end.


(** ** Advertising targets *)

(** The advertisement of the payload buffer [h]: its whole allocation, from
    offset 0 of its registration. *)
Definition advert_of (hp : heap) (h : ptr) : rma_iov :=
  mk_riov 0 (nallocated (hp h)) (fi_mr_key (mr (hp h))).

(** The advertisements that a vector message announces. *)
Definition vec_adverts (b : bufhdr_t) : list rma_iov :=
  take (Z.to_nat (niovs (vecbuf_msg b))) (iov (vecbuf_msg b)).

(** The payload buffer [h] as advertising leaves it: empty, and with a new
    registration if the program registers for every transfer. *)
Definition advertised (gs : global_state_t) (hp hp' : heap) (h : ptr) : Prop :=
  ∃ m d, hp' h = set_mr_desc m d (set_nused 0 (hp h)) ∧
         (reregister gs = false → m = mr (hp h) ∧ d = desc (hp h)).


(** Two payload buffers of 23 and 29 bytes, registered under the keys 13 and
    14, wait at the receiver to be advertised; buffer 3 still counts 7 bytes
    from its last use.  The vector buffer 5 is in the pool. *)
Definition heap_two_targets : heap :=
  <[3%nat := mk_buf 0 7 23 13 13 (xfc0 xft_rdma_write) (payload_of (replicate 23 0))]>
    (<[4%nat := mk_buf 0 0 29 14 14 (xfc0 xft_rdma_write) (payload_of (replicate 29 0))]>
       (<[5%nat := vecbuf0 0 (mk_vector_msg 0 (replicate 12 zero_riov))]> heap0)).

Definition session_two_targets : session_t :=
  mk_session (mk_terminal false) (fifo_of_list 2 [3; 4]%nat) (fifo_of_list 2 []).

Definition rcvr_one_vecbuf : rcvr_t :=
  set_r_vec (mk_txctl (fifo_of_list 2 []) (fifo_of_list 2 []) (buflist_of_list 4 [5%nat]))
            rcvr0.

Definition world_two_targets : world :=
  mk_world heap_two_targets (fabric0 []) next_key_pool_init.


(** ** The local segments of a write *)



(** The array of advertisements that [write_fully] leaves the residue in. *)
Definition riov_out (x : xmtr_t) : list rma_iov :=
  if phase x then riov x else riov2 x.

(** The segments one write may take, and the space they advertise. *)
Definition write_maxriovs (gs : global_state_t) (x : xmtr_t) : Z :=
  Z.min (rma_maxsegs gs) (nriovs x).
Definition write_maxbytes (gs : global_state_t) (x : xmtr_t) : Z :=
  sum_list_Z (riov_len <$> take (Z.to_nat (write_maxriovs gs x)) (active_riov x)).


(** The bytes of the used part of a buffer, those of the buffers of a queue
    in order, and the bytes that wait to be written: those of the buffers on
    [ready_for_cxn] less the first [fragment.offset] bytes of the head, which
    earlier writes have carried. *)
Definition buf_bytes (hp : heap) (h : ptr) : list (ptr * Z) :=
  iov_bytes (mk_iovec (h, 0) (nused (hp h))).
Definition queued_bytes (hp : heap) (l : list ptr) : list (ptr * Z) :=
  concat (buf_bytes hp <$> l).
Definition waiting_bytes (s : session_t) (x : xmtr_t) (hp : heap) : list (ptr * Z) :=
  drop (Z.to_nat (fragment_offset x)) (queued_bytes hp (fifo_elems (ready_for_cxn s))).





(** ** Payload buffers of a worker *)

(** What successive calls of [malloc] answer: a block, or nothing.  When the
    answers are used up [malloc] answers nothing. *)
Definition allocator := list (option ptr).

Definition malloc (m : allocator) : option ptr * allocator :=
  match m with
  | a :: m' => (a, m')
  | [] => (None, [])
  end.

(** [buf_alloc] sets three fields of the header; the rest of the new block
    holds whatever the heap had there. *)
Definition buf_alloc (paylen : Z) (m : allocator) (hp : heap)
  : option ptr * allocator * heap :=
  match malloc m with
  | (None, m) => (None, m, hp)
  | (Some h, m) =>
      (Some h, m, upd h (fun b => mk_buf 0 0 paylen (mr b) (desc b) (xfc b) (body b)) hp)
  end.

Definition bytebuf_alloc (paylen : Z) (m : allocator) (hp : heap)
  : option ptr * allocator * heap := buf_alloc paylen m hp.

Definition set_xfc_type (t : xfc_type_t) (c : xfer_context_t) : xfer_context_t :=
  mk_xfc t (xfc_owner c) (xfc_place c) (xfc_nchildren c) (xfc_cancelled c).

(** The fields of [worker_t] that the payload buffers involve. *)
Record worker_t := mk_worker {
  paybufs_tx : buflist_t;
  paybufs_rx : buflist_t;
  wk_keys : keysource_t
}.

(** The [switch] of [worker_paybuflist_replenish]: the next payload length. *)
Definition paylen_next (paylen : Z) : Z :=
  if paylen =? 23 then 29
  else if paylen =? 29 then 31
  else if paylen =? 31 then 37
  else if paylen =? 37 then 23
  else 23.

(** The [for] loop of [worker_paybuflist_replenish]; the result carries the
    final [i].  A refused registration leaves the loop, a failed allocation
    ends the process. *)
Fixpoint replenish_loop (fuel : nat) (gs : global_state_t) (access ntofill : Z)
    (paylen i : Z) (ks : keysource_t) (bl : buflist_t) (m : allocator) (w : world)
  : outcome (Z * keysource_t * buflist_t * allocator * world) :=
  if i <? ntofill then
    match fuel with
    | O => OutOfFuel
    | S fuel' =>
        let paylen := paylen_next paylen in
        let '(ob, m, hp) := bytebuf_alloc paylen m (w_heap w) in
        match ob with
        | None => Exit
        | Some buf =>
            let w := with_heap (upd buf (fun b => set_xfc (set_xfc_type xft_rdma_write (xfc b)) b)
                                    hp) w in
            let '(rc, ks, w) :=
              if negb (reregister gs) then
                let '(key, ks, pool) := keysource_next ks (w_pool w) in
                let '(rc, w) := buf_mr_reg access key buf
                                  (mk_world (w_heap w) (w_fabric w) pool) in
                (rc, ks, w)
              else (0, ks, w) in
            if negb (rc =? 0) then Ret (i, ks, bl, m, w)
            else
              replenish_loop fuel' gs access ntofill paylen (wrap64 (i + 1)) ks
                (mk_buflist (bl_nfull bl) (bl_nallocated bl)
                            (<[Z.to_nat i := buf]> (bl_buf bl))) m w
        end
    end
  else Ret (i, ks, bl, m, w).

Definition worker_paybuflist_replenish (gs : global_state_t) (ks : keysource_t)
    (access : Z) (bl : buflist_t) (m : allocator) (w : world)
  : outcome (bool * keysource_t * buflist_t * allocator * world) :=
  if bl_nallocated bl / 2 <=? bl_nfull bl then Ret (true, ks, bl, m, w)
  else
    let ntofill := wrap64 (bl_nallocated bl / 2 - bl_nfull bl) in
    '(i, ks, bl, m, w) ← replenish_loop (Z.to_nat ntofill) gs access ntofill
                            0 (bl_nfull bl) ks bl m w;
    Ret (0 <? i, ks, mk_buflist i (bl_nallocated bl) (bl_buf bl), m, w).

(** The loop shared by [worker_payload_txbuf_get] and
    [worker_payload_rxbuf_get]: take a buffer, replenishing the list when it
    is empty.  Nothing in the code bounds the number of turns. *)
Fixpoint payload_buf_get_loop (fuel : nat) (gs : global_state_t) (access : Z)
    (ks : keysource_t) (bl : buflist_t) (m : allocator) (w : world)
  : outcome (option ptr * keysource_t * buflist_t * allocator * world) :=
  match buflist_get bl with
  | (Some b, bl) => Ret (Some b, ks, bl, m, w)
  | (None, bl) =>
      match fuel with
      | O => OutOfFuel
      | S fuel' =>
          '(ok, ks, bl, m, w) ← worker_paybuflist_replenish gs ks access bl m w;
          if negb ok then Ret (None, ks, bl, m, w)
          else payload_buf_get_loop fuel' gs access ks bl m w
      end
  end.

Definition worker_payload_txbuf_get (fuel : nat) (gs : global_state_t) (wk : worker_t)
    (m : allocator) (w : world) : outcome (option ptr * worker_t * allocator * world) :=
  '(b, ks, bl, m, w) ← payload_buf_get_loop fuel gs payload_access_tx (wk_keys wk)
                          (paybufs_tx wk) m w;
  Ret (b, mk_worker bl (paybufs_rx wk) ks, m, w).

Definition worker_payload_rxbuf_get (fuel : nat) (gs : global_state_t) (wk : worker_t)
    (m : allocator) (w : world) : outcome (option ptr * worker_t * allocator * world) :=
  '(b, ks, bl, m, w) ← payload_buf_get_loop fuel gs payload_access_rx (wk_keys wk)
                          (paybufs_rx wk) m w;
  Ret (b, mk_worker (paybufs_tx wk) bl ks, m, w).

(** The payload length of the [k]-th buffer a call of
    [worker_paybuflist_replenish] allocates, counting from 0. *)
Definition paylen_at (k : nat) : Z := nth (k mod 4) [23; 29; 31; 37] 0.


(** An allocator with the blocks 30 to 37 at hand, a fabric that grants
    eight registrations, and two lists of 16 slots: an empty one and one that
    holds three buffers. *)
Definition allocator_eight : allocator := Some <$> [30; 31; 32; 33; 34; 35; 36; 37]%nat.
Definition world_fresh : world :=
  mk_world heap0 (fabric0 (replicate 8 0)) next_key_pool_init.
Definition paybufs_empty : buflist_t := buflist_of_list 16 [].
Definition paybufs_three : buflist_t := buflist_of_list 16 [3; 4; 5]%nat.


(** ** Receiver: start of a connection and the loop *)

Definition set_started (b : bool) (c : cxn_t) : cxn_t :=
  mk_cxn (ep c) (peer_addr c) (cxn_cancelled c) b (eof_local c) (eof_remote c) (keys c).
Definition set_cxn_cancelled (b : bool) (c : cxn_t) : cxn_t :=
  mk_cxn (ep c) (peer_addr c) b (started c) (eof_local c) (eof_remote c) (keys c).

(** [progbuf_alloc]: a block for a header and a progress message. *)
Definition progbuf_alloc (m : allocator) (hp : heap) : option ptr * allocator * heap :=
  match buf_alloc progress_msg_size m hp with
  | (None, m, hp) => (None, m, hp)
  | (Some h, m, hp) =>
      (Some h, m, upd h (fun b => set_xfc (set_xfc_type xft_progress (xfc b)) b) hp)
  end.

(** The [while] loop of [rcvr_start]: receives are posted until
    [progress.posted] is full.  The result of [progbuf_alloc] is not tested:
    when the allocator fails, [rxctl_post] reads through a null pointer and
    the process ends there. *)
Fixpoint rcvr_start_post (fuel : nat) (r : rcvr_t) (m : allocator) (w : world)
  : outcome (rcvr_t * allocator * world) :=
  if fifo_full (rx_posted (r_progress r)) then Ret (r, m, w)
  else
    match fuel with
    | O => OutOfFuel
    | S fuel' =>
        let '(opb, m, hp) := progbuf_alloc m (w_heap w) in
        match opb with
        | None => Exit
        | Some pb =>
            '(prog, w) ← rxctl_post (r_cxn r) (r_progress r) pb (with_heap hp w);
            rcvr_start_post fuel' (set_r_progress prog r) m w
        end
    end.

(** The [for] loop of [rcvr_start]: payload buffers are queued on
    [ready_for_cxn] until they count [sizeof(txbuf)] bytes. *)
Fixpoint rcvr_start_load (fuel getfuel : nat) (gs : global_state_t) (nleftover nloaded : Z)
    (wk : worker_t) (s : session_t) (m : allocator) (w : world)
  : outcome (loop_control_t * worker_t * session_t * allocator * world) :=
  if 0 <? nleftover then
    match fuel with
    | O => OutOfFuel
    | S fuel' =>
        '(ob, wk, m, w) ← worker_payload_rxbuf_get getfuel gs wk m w;
        match ob with
        | None => Ret (loop_error, wk, s, m, w)
        | Some b =>
            let n := minsize_sz nleftover (nallocated (w_heap w b)) in
            let w := with_heap (upd b (set_nused n) (w_heap w)) w in
            let nleftover := wrap64 (nleftover - n) in
            let nloaded := wrap64 (nloaded + n) in
            '(ok, rfc) ← fifo_put (ready_for_cxn s) b;
            if negb ok then Ret (loop_error, wk, s, m, w)
            else rcvr_start_load fuel' getfuel gs nleftover nloaded wk
                                 (set_ready_for_cxn rfc s) m w
        end
    end
  else Ret (loop_continue, wk, s, m, w).

(** [rcvr_start].  [fuel] bounds the turns of each of its loops and of the
    loop of [worker_payload_rxbuf_get]. *)
Definition rcvr_start (fuel : nat) (gs : global_state_t) (wk : worker_t) (s : session_t)
    (r : rcvr_t) (m : allocator) (w : world)
  : outcome (loop_control_t * worker_t * session_t * rcvr_t * allocator * world) :=
  let r := set_r_cxn (set_started true (r_cxn r)) r in
  '(r, m, w) ← rcvr_start_post fuel r m w;
  '(ctl, wk, s, m, w) ← rcvr_start_load fuel fuel gs (Z.of_nat (length txbuf)) 0 wk s m w;
  Ret (ctl, wk, s, r, m, w).

(** [rcvr_loop], one turn.  [cancelled] is the process-wide flag that the
    signal handler sets, [ev] what the completion queue answers this turn;
    the terminal of the session is the sink [t]. *)
Definition rcvr_loop (fuel : nat) (gs : global_state_t) (cancelled : bool) (ev : cq_event)
    (wk : worker_t) (m : allocator) (t : sink_t) (s : session_t) (r : rcvr_t) (w : world)
  : outcome (loop_control_t * worker_t * allocator * sink_t * session_t * rcvr_t * world) :=
  if negb (started (r_cxn r)) then
    '(ctl, wk, s, r, m, w) ← rcvr_start fuel gs wk s r m w;
    Ret (ctl, wk, m, t, s, r, w)
  else
    '(rc, r, w) ← rcvr_cq_process r ev w;
    let fail (r : rcvr_t) (w : world) :=
      let '(rc, fab) := fabric_do (op_close (ep (r_cxn r))) (w_fabric w) in
      if rc <? 0 then Exit else Ret (loop_error, wk, m, t, s, r, with_fabric fab w) in
    if rc =? -1 then fail r w
    else if cxn_cancelled (r_cxn r) then
      if fifo_empty (rx_posted (r_progress r)) && fifo_empty (tx_posted (r_vec r))
      then fail r w
      else Ret (loop_continue, wk, m, t, s, r, w)
    else if cancelled then
      '(prog, w) ← rxctl_cancel (ep (r_cxn r)) (r_progress r) w;
      let r := set_r_progress prog r in
      '(vec, w) ← txctl_cancel (ep (r_cxn r)) (r_vec r) w;
      let r := set_r_vec vec r in
      Ret (loop_continue, wk, m, t, s, set_r_cxn (set_cxn_cancelled true (r_cxn r)) r, w)
    else
      '(ctl, t, s, r, w) ← rcvr_loop_tail gs t s r w;
      Ret (ctl, wk, m, t, s, r, w).


(** A receiver that has cancelled its operations: the queues of posted
    operations are in order and every buffer posted is marked cancelled. *)
Definition rcvr_cancelled_inv (r : rcvr_t) (w : world) : Prop :=
  cxn_cancelled (r_cxn r) = true ∧
  fifo_wf (rx_posted (r_progress r)) ∧ fifo_wf (tx_posted (r_vec r)) ∧
  buflist_wf (tx_pool (r_vec r)) ∧
  ∀ h, h ∈ fifo_elems (rx_posted (r_progress r)) ++ fifo_elems (tx_posted (r_vec r)) →
       xfc_cancelled (xfc (w_heap w h)) = true.

(** A turn that only drains the receiver: at most one posted buffer has left
    its queue, a vector buffer for the pool; nothing else of the receiver and
    no transfer context has changed. *)
Definition rcvr_drained (r : rcvr_t) (w : world) (r1 : rcvr_t) (w1 : world) : Prop :=
  r_cxn r1 = r_cxn r ∧ nfull r1 = nfull r ∧ tgtposted r1 = tgtposted r ∧
  tx_ready (r_vec r1) = tx_ready (r_vec r) ∧
  rx_rcvd (r_progress r1) = rx_rcvd (r_progress r) ∧
  w_pool w1 = w_pool w ∧
  (∀ h, xfc (w_heap w1 h) = xfc (w_heap w h)) ∧
  ∃ dp dv : nat, (dp + dv ≤ 1)%nat ∧
    fifo_elems (rx_posted (r_progress r1)) = drop dp (fifo_elems (rx_posted (r_progress r))) ∧
    fifo_elems (tx_posted (r_vec r1)) = drop dv (fifo_elems (tx_posted (r_vec r))) ∧
    buflist_elems (tx_pool (r_vec r1)) =
      buflist_elems (tx_pool (r_vec r)) ++ take dv (fifo_elems (tx_posted (r_vec r))).

(** The context of the completion that [ev] reports. *)
Definition cq_context (ev : cq_event) : ptr :=
  if cq_ncompleted ev =? - FI_EAVAIL then cq_err_context ev else cmpl_xfc (cq_fcmpl ev).


(** A receiver that has cancelled: the progress buffer 3 and the vector
    buffer 5 are still posted, both marked cancelled.  The completion queue
    reports the cancellation of buffer [h]. *)
Definition heap_cancelled : heap :=
  <[3%nat := mk_buf 0 0 16 0 0 (mk_xfc xft_progress xfo_nic 0 0 true)
                    (progress_of (mk_progress_msg 0 0))]>
    (<[5%nat := mk_buf 0 0 296 0 0 (mk_xfc xft_vector xfo_nic 0 0 true)
                       (vector_of (mk_vector_msg 0 (replicate 12 zero_riov)))]> heap0).

Definition rcvr_cancelled : rcvr_t :=
  mk_rcvr (set_cxn_cancelled true cxn0) 0 (fifo_of_list 2 [])
    (mk_txctl (fifo_of_list 2 []) (fifo_of_list 2 [5%nat]) (buflist_of_list 4 []))
    (mk_rxctl (fifo_of_list 2 [3%nat]) (fifo_of_list 2 [])).

Definition cancellation_of (h : ptr) : cq_event :=
  mk_cq_event (- FI_EAVAIL) (mk_completion 0 0 0%nat) FI_ECANCELED h.

Definition worker0 : worker_t := mk_worker paybufs_empty paybufs_empty keysource_init.


(** The same receiver before it cancels, and a completion queue with nothing
    to report. *)
Definition heap_posted : heap :=
  <[3%nat := mk_buf 0 0 16 0 0 (mk_xfc xft_progress xfo_nic 0 0 false)
                    (progress_of (mk_progress_msg 0 0))]>
    (<[5%nat := mk_buf 0 0 296 0 0 (mk_xfc xft_vector xfo_nic 0 0 false)
                       (vector_of (mk_vector_msg 0 (replicate 12 zero_riov)))]> heap0).

Definition rcvr_posted : rcvr_t :=
  mk_rcvr cxn0 0 (fifo_of_list 2 [])
    (mk_txctl (fifo_of_list 2 []) (fifo_of_list 2 [5%nat]) (buflist_of_list 4 []))
    (mk_rxctl (fifo_of_list 2 [3%nat]) (fifo_of_list 2 [])).

Definition cq_nothing : cq_event :=
  mk_cq_event (- FI_EAGAIN) (mk_completion 0 0 0%nat) 0 0%nat.

(* ===================================================================== *)
(** * Part II: properties                                                  *)
(* ===================================================================== *)

(** ** Machine arithmetic *)

Lemma wrap64_small x : 0 ≤ x < 2 ^ 64 → wrap64 x = x.
Proof. intros H. unfold wrap64. apply Z.mod_small. lia. Qed.

Lemma wrap64_range x : 0 ≤ wrap64 x < 2 ^ 64.
Proof. unfold wrap64. apply Z.mod_pos_bound. lia. Qed.

Lemma to_int_small x : - 2 ^ 31 ≤ x < 2 ^ 31 → to_int x = x.
Proof. intros H. unfold to_int. rewrite Z.mod_small; lia. Qed.

Lemma to_ssize_small x : - 2 ^ 63 ≤ x < 2 ^ 63 → to_ssize x = x.
Proof. intros H. unfold to_ssize. rewrite Z.mod_small; lia. Qed.

Lemma minsize_small l r :
  0 ≤ l → 0 ≤ r → Z.min l r < 2 ^ 31 → minsize l r = Z.min l r.
Proof.
  intros Hl Hr Hm. unfold minsize.
  destruct (Z.ltb_spec l r); rewrite to_int_small; lia.
Qed.

Lemma minsize_sz_small l r :
  0 ≤ l → 0 ≤ r → Z.min l r < 2 ^ 31 → minsize_sz l r = Z.min l r.
Proof.
  intros Hl Hr Hm. unfold minsize_sz. rewrite minsize_small by lia.
  apply wrap64_small. lia.
Qed.

(** ** Ring FIFOs as queues *)

Lemma land_mask_mod c n : 0 ≤ n → Z.land c (Z.ones n) = c mod 2 ^ n.
Proof. intros Hn. apply Z.land_ones. exact Hn. Qed.

Lemma fifo_capacity_pos f : fifo_wf f → 0 < fifo_capacity f ≤ 2 ^ 62.
Proof.
  intros [[n [Hn Hm]] _ _ _ _]. unfold fifo_capacity. rewrite Hm, Z.ones_equiv.
  assert (0 < 2 ^ n) by (apply Z.pow_pos_nonneg; lia).
  assert (2 ^ n ≤ 2 ^ 62) by (apply Z.pow_le_mono_r; lia). lia.
Qed.

Lemma length_fifo_elems f :
  Z.of_nat (length (fifo_elems f)) = Z.max 0 (insertions f - removals f).
Proof. unfold fifo_elems. rewrite length_fmap, length_seqZ. lia. Qed.

Lemma fifo_occupancy_wf f : fifo_wf f → fifo_occupancy f = length (fifo_elems f).
Proof.
  intros Hwf. pose proof (length_fifo_elems f) as HL.
  destruct Hwf as [_ _ Hr Hi _]. unfold fifo_occupancy.
  rewrite wrap64_small by lia. lia.
Qed.

Lemma fifo_empty_wf f : fifo_wf f → fifo_empty f = bool_decide (fifo_elems f = []).
Proof.
  intros Hwf. pose proof (length_fifo_elems f) as HL.
  destruct Hwf as [_ _ Hr Hi _]. unfold fifo_empty.
  destruct (Z.eqb_spec (insertions f) (removals f)) as [E|E].
  - symmetry. apply bool_decide_eq_true. apply nil_length_inv. lia.
  - symmetry. apply bool_decide_eq_false. intros Hnil. rewrite Hnil in HL. simpl in HL. lia.
Qed.

Lemma fifo_full_wf f :
  fifo_wf f → fifo_full f = (Z.of_nat (length (fifo_elems f)) =? fifo_capacity f).
Proof.
  intros Hwf. pose proof (length_fifo_elems f) as HL.
  pose proof (fifo_capacity_pos f Hwf) as HC.
  destruct Hwf as [_ _ Hr Hi Ho]. unfold fifo_full, fifo_capacity in *.
  rewrite !wrap64_small by lia. f_equal. lia.
Qed.

Lemma fifo_elems_cons f :
  removals f < insertions f →
  fifo_elems f = fifo_slot f (removals f)
                 :: (fifo_slot f <$> seqZ (removals f + 1) (insertions f - removals f - 1)).
Proof.
  intros H. unfold fifo_elems. rewrite seqZ_cons by lia. simpl.
  replace (Z.succ (removals f)) with (removals f + 1) by lia.
  replace (Z.pred (insertions f - removals f)) with (insertions f - removals f - 1) by lia.
  reflexivity.
Qed.

Lemma fifo_peek_wf f : fifo_wf f → fifo_peek f = Ret (head (fifo_elems f)).
Proof.
  intros Hwf. pose proof (length_fifo_elems f) as HL.
  destruct Hwf as [_ _ Hr Hi _]. unfold fifo_peek.
  destruct (Z.ltb_spec (insertions f) (removals f)); [lia|].
  destruct (Z.eqb_spec (insertions f) (removals f)) as [E|E].
  - assert (fifo_elems f = []) as -> by (apply nil_length_inv; lia). reflexivity.
  - rewrite fifo_elems_cons by lia. reflexivity.
Qed.

Lemma fifo_get_wf f :
  fifo_wf f →
  ∃ f', fifo_get f = Ret (head (fifo_elems f), f') ∧
        fifo_elems f' = tail (fifo_elems f) ∧
        fifo_wf f' ∧ index_mask f' = index_mask f ∧ insertions f' = insertions f.
Proof.
  intros Hwf. pose proof (length_fifo_elems f) as HL.
  destruct Hwf as [Hm Hs Hr Hi Ho]. unfold fifo_get.
  destruct (Z.ltb_spec (insertions f) (removals f)); [lia|].
  destruct (Z.eqb_spec (insertions f) (removals f)) as [E|E].
  - assert (fifo_elems f = []) as Hnil by (apply nil_length_inv; lia).
    exists f. rewrite Hnil. repeat split; auto; lia.
  - exists (mk_fifo (insertions f) (wrap64 (removals f + 1)) (index_mask f) (hdr f)).
    split; [|split; [|split; [|split]]]; try reflexivity.
    + rewrite fifo_elems_cons by lia. reflexivity.
    + rewrite (fifo_elems_cons f) by lia. simpl. unfold fifo_elems. simpl.
      rewrite wrap64_small by lia.
      replace (insertions f - (removals f + 1)) with (insertions f - removals f - 1) by lia.
      reflexivity.
    + constructor; simpl; try rewrite wrap64_small by lia; auto; lia.
Qed.

Lemma mod_add_ne c d m : 0 < m → 0 < d < m → (c + d) mod m ≠ c mod m.
Proof.
  intros Hm Hd E.
  assert ((c + d - c) mod m = 0) as H0.
  { rewrite Zminus_mod, E, Z.sub_diag. apply Z.mod_0_l. lia. }
  replace (c + d - c) with d in H0 by lia.
  rewrite Z.mod_small in H0; lia.
Qed.

Lemma fifo_put_wf f h :
  fifo_wf f → insertions f + 1 < 2 ^ 63 →
  Z.of_nat (length (fifo_elems f)) < fifo_capacity f →
  ∃ f', fifo_put f h = Ret (true, f') ∧
        fifo_elems f' = fifo_elems f ++ [h] ∧
        fifo_wf f' ∧ index_mask f' = index_mask f ∧
        insertions f' = insertions f + 1.
Proof.
  intros Hwf Hroom Hlt. pose proof (length_fifo_elems f) as HL.
  pose proof (fifo_capacity_pos f Hwf) as HC.
  destruct Hwf as [Hm Hs Hr Hi Ho]. unfold fifo_put, fifo_capacity in *.
  rewrite !wrap64_small by lia.
  destruct (Z.ltb_spec (index_mask f + 1) (insertions f - removals f)); [lia|].
  destruct (Z.ltb_spec (index_mask f) (insertions f - removals f)); [lia|].
  exists (mk_fifo (wrap64 (insertions f + 1)) (removals f) (index_mask f)
                  (<[Z.to_nat (Z.land (insertions f) (index_mask f)) := h]> (hdr f))).
  rewrite !wrap64_small by lia.
  split; [reflexivity|]. split; [|split; [|split]]; try reflexivity.
  - destruct Hm as [n [Hn Hmask]].
    assert (0 < 2 ^ n) as Hpow by (apply Z.pow_pos_nonneg; lia).
    unfold fifo_elems. simpl.
    replace (insertions f + 1 - removals f) with ((insertions f - removals f) + 1) by lia.
    rewrite seqZ_app by lia. rewrite fmap_app. f_equal.
    + apply list_fmap_ext. intros i c Hc.
      apply lookup_seqZ in Hc as [-> Hi'].
      unfold fifo_slot. simpl. rewrite Hmask, !land_mask_mod by lia.
      rewrite list_lookup_insert_ne; [reflexivity|].
      intros E. apply Z2Nat.inj in E; try (apply Z.mod_pos_bound; lia).
      rewrite Hmask, Z.ones_equiv in *.
      apply (mod_add_ne (removals f + Z.of_nat i)
               (insertions f - removals f - Z.of_nat i) (2 ^ n)); try lia.
      replace (removals f + Z.of_nat i + (insertions f - removals f - Z.of_nat i))
        with (insertions f) by lia. exact E.
    + replace (removals f + (insertions f - removals f)) with (insertions f) by lia.
      simpl. unfold fifo_slot. simpl. rewrite list_lookup_insert_eq; [reflexivity|].
      rewrite Hmask, land_mask_mod by lia. rewrite Hmask, Z.ones_equiv in Hs.
      unfold Z.pred in Hs.
      pose proof (Z.mod_pos_bound (insertions f) (2 ^ n) Hpow). lia.
  - constructor; simpl; auto; try lia. rewrite length_insert. exact Hs.
Qed.

Lemma fifo_put_full f h :
  fifo_wf f → Z.of_nat (length (fifo_elems f)) = fifo_capacity f →
  fifo_put f h = Ret (false, f).
Proof.
  intros Hwf Hfull. pose proof (length_fifo_elems f) as HL.
  pose proof (fifo_capacity_pos f Hwf) as HC.
  destruct Hwf as [Hm Hs Hr Hi Ho]. unfold fifo_put, fifo_capacity in *.
  rewrite !wrap64_small by lia.
  destruct (Z.ltb_spec (index_mask f + 1) (insertions f - removals f)); [lia|].
  destruct (Z.ltb_spec (index_mask f) (insertions f - removals f)); [reflexivity|lia].
Qed.

Lemma fifo_elems_bound f :
  fifo_wf f → Z.of_nat (length (fifo_elems f)) ≤ fifo_capacity f.
Proof.
  intros Hwf. pose proof (length_fifo_elems f) as HL.
  destruct Hwf as [Hm Hs Hr Hi Ho]. unfold fifo_capacity. lia.
Qed.

(** ** Key source *)

Lemma keys_inv_initial : keys_inv [] keys_initial.
Proof.
  constructor; simpl; intros; try (by apply not_elem_of_nil in H);
    unfold next_key_pool_init; try lia; try done.
Qed.

Lemma keys_call_fetch i st :
  next_key (keysources st i) mod 256 = 0 →
  keys_call i st =
    (next_key_pool st,
     mk_keys_state (wrap64 (next_key_pool st + 256))
                   (<[i := mk_keysource (wrap64 (next_key_pool st + 1))]> (keysources st))).
Proof.
  intros H. unfold keys_call, keysource_next, atomic_fetch_add.
  rewrite (proj2 (Z.eqb_eq _ _) H). reflexivity.
Qed.

Lemma keys_call_local i st :
  next_key (keysources st i) mod 256 ≠ 0 →
  keys_call i st =
    (next_key (keysources st i),
     mk_keys_state (next_key_pool st)
                   (<[i := mk_keysource (wrap64 (next_key (keysources st i) + 1))]>
                      (keysources st))).
Proof.
  intros H. unfold keys_call, keysource_next.
  rewrite (proj2 (Z.eqb_neq _ _) H). reflexivity.
Qed.

Lemma div_block_lt a b : b mod 256 = 0 → 0 ≤ a < b → a / 256 < b / 256.
Proof.
  intros Hb Ha.
  pose proof (Z.div_mod a 256 ltac:(lia)). pose proof (Z.div_mod b 256 ltac:(lia)).
  pose proof (Z.mod_pos_bound a 256 ltac:(lia)). lia.
Qed.

Lemma div_block_succ a : (a + 1) mod 256 ≠ 0 → (a + 1) / 256 = a / 256.
Proof.
  intros H.
  pose proof (Z.div_mod a 256 ltac:(lia)). pose proof (Z.div_mod (a + 1) 256 ltac:(lia)).
  pose proof (Z.mod_pos_bound a 256 ltac:(lia)).
  pose proof (Z.mod_pos_bound (a + 1) 256 ltac:(lia)). lia.
Qed.

Lemma div_block_first b : b mod 256 = 0 → (b + 1) / 256 = b / 256 ∧ (b + 1) mod 256 ≠ 0.
Proof.
  intros H.
  pose proof (Z.div_mod b 256 ltac:(lia)). pose proof (Z.div_mod (b + 1) 256 ltac:(lia)).
  pose proof (Z.mod_pos_bound (b + 1) 256 ltac:(lia)). lia.
Qed.

(** One call keeps the invariant and hands out a key that is new and above
    the caller's earlier keys. *)
Lemma keys_call_inv past st i k st' :
  keys_inv past st → next_key_pool st + 256 < 2 ^ 64 →
  keys_call i st = (k, st') →
  keys_inv (past ++ [(i, k)]) st' ∧
  next_key_pool st' ≤ next_key_pool st + 256 ∧
  (∀ j k', (j, k') ∈ past → k' ≠ k ∧ (j = i → k' < k)).
Proof.
  intros [[Hp0 Hp1] Hsrc Hbelow Hown Hblock Hapart] Hroom Hcall.
  destruct (Z.eq_dec (next_key (keysources st i) mod 256) 0) as [E|E].
  - rewrite keys_call_fetch in Hcall by exact E. inversion Hcall; subst; clear Hcall.
    rewrite !wrap64_small by lia.
    destruct (div_block_first _ Hp0) as [Hd Hm].
    assert ((next_key_pool st + 256) mod 256 = 0) as Hp0'.
    { rewrite <- Zplus_mod_idemp_r. rewrite Z.mod_same, Z.add_0_r by lia. exact Hp0. }
    split; [|split].
    + constructor; simpl.
      * split; [exact Hp0'|lia].
      * intros j. destruct (decide (i = j)) as [->|Hne].
        -- rewrite fn_lookup_insert. simpl. lia.
        -- rewrite fn_lookup_insert_ne by done. specialize (Hsrc j). lia.
      * intros j k Hin. apply elem_of_app in Hin as [Hin|Hin].
        -- specialize (Hbelow _ _ Hin). lia.
        -- apply list_elem_of_singleton in Hin. inversion Hin; subst. lia.
      * intros j k Hin. apply elem_of_app in Hin as [Hin|Hin].
        -- destruct (decide (i = j)) as [->|Hne].
           ++ rewrite fn_lookup_insert. simpl. specialize (Hbelow _ _ Hin). lia.
           ++ rewrite fn_lookup_insert_ne by done. eauto.
        -- apply list_elem_of_singleton in Hin. inversion Hin; subst.
           rewrite fn_lookup_insert. simpl. lia.
      * intros i' j k Hin Hne. apply elem_of_app in Hin as [Hin|Hin].
        -- destruct (decide (i = i')) as [<-|Hne'].
           ++ rewrite fn_lookup_insert. simpl. intros _. rewrite Hd.
              specialize (Hbelow _ _ Hin).
              pose proof (div_block_lt k (next_key_pool st) Hp0 Hbelow). lia.
           ++ rewrite fn_lookup_insert_ne by done. eauto.
        -- apply list_elem_of_singleton in Hin. inversion Hin; subst.
           rewrite fn_lookup_insert_ne by done. intros Hmid.
           specialize (Hsrc i').
           assert (next_key (keysources st i') < next_key_pool st) as Hlt.
           { destruct (Z.eq_dec (next_key (keysources st i')) (next_key_pool st)) as [E'|E'];
               [rewrite E' in Hmid; contradiction|lia]. }
           pose proof (div_block_lt _ (next_key_pool st) Hp0 (conj (proj1 Hsrc) Hlt)). lia.
      * intros i' j Hne.
        assert (∀ a, a ≠ i → next_key (keysources st a) mod 256 ≠ 0 →
                     next_key (keysources st a) / 256 < next_key_pool st / 256) as Hold.
        { intros a _ Hmid. specialize (Hsrc a).
          assert (next_key (keysources st a) < next_key_pool st) as Hlt.
          { destruct (Z.eq_dec (next_key (keysources st a)) (next_key_pool st)) as [E'|E'];
              [rewrite E' in Hmid; contradiction|lia]. }
          apply div_block_lt; [exact Hp0|lia]. }
        destruct (decide (i = i')) as [<-|Hi']; destruct (decide (i = j)) as [<-|Hj];
          try congruence.
        -- rewrite fn_lookup_insert, fn_lookup_insert_ne by done. simpl.
           intros _ Hmj. rewrite Hd. specialize (Hold j ltac:(congruence) Hmj). lia.
        -- rewrite fn_lookup_insert, fn_lookup_insert_ne by done. simpl.
           intros Hmi _. rewrite Hd. specialize (Hold i' ltac:(congruence) Hmi). lia.
        -- rewrite !fn_lookup_insert_ne by done. eauto.
    + simpl. lia.
    + intros j k' Hin. specialize (Hbelow _ _ Hin). lia.
  - rewrite keys_call_local in Hcall by exact E. inversion Hcall; subst; clear Hcall.
    pose proof (Hsrc i) as Hi.
    assert (next_key (keysources st i) < next_key_pool st) as Hlt.
    { destruct (Z.eq_dec (next_key (keysources st i)) (next_key_pool st)) as [E'|E'];
        [rewrite E' in E; contradiction|lia]. }
    rewrite !wrap64_small by lia.
    split; [|split].
    + constructor; simpl.
      * split; [exact Hp0|lia].
      * intros j. destruct (decide (i = j)) as [->|Hne].
        -- rewrite fn_lookup_insert. simpl. lia.
        -- rewrite fn_lookup_insert_ne by done. apply Hsrc.
      * intros j k Hin. apply elem_of_app in Hin as [Hin|Hin].
        -- eauto.
        -- apply list_elem_of_singleton in Hin. inversion Hin; subst. lia.
      * intros j k Hin. apply elem_of_app in Hin as [Hin|Hin].
        -- destruct (decide (i = j)) as [->|Hne].
           ++ rewrite fn_lookup_insert. simpl. specialize (Hown _ _ Hin). lia.
           ++ rewrite fn_lookup_insert_ne by done. eauto.
        -- apply list_elem_of_singleton in Hin. inversion Hin; subst.
           rewrite fn_lookup_insert. simpl. lia.
      * intros i' j k Hin Hne. apply elem_of_app in Hin as [Hin|Hin].
        -- destruct (decide (i = i')) as [<-|Hne'].
           ++ rewrite fn_lookup_insert. simpl. intros Hmid.
              rewrite div_block_succ by exact Hmid. eauto.
           ++ rewrite fn_lookup_insert_ne by done. eauto.
        -- apply list_elem_of_singleton in Hin. inversion Hin; subst.
           rewrite fn_lookup_insert_ne by done. intros Hmid.
           apply (Hapart i i'); auto.
      * intros i' j Hne.
        destruct (decide (i = i')) as [<-|Hi']; destruct (decide (i = j)) as [<-|Hj];
          try congruence.
        -- rewrite fn_lookup_insert, fn_lookup_insert_ne by done. simpl.
           intros Hmi Hmj. rewrite div_block_succ by exact Hmi. eauto.
        -- rewrite fn_lookup_insert, fn_lookup_insert_ne by done. simpl.
           intros Hmi Hmj. rewrite div_block_succ by exact Hmj. eauto.
        -- rewrite !fn_lookup_insert_ne by done. eauto.
    + simpl. lia.
    + intros j k' Hin. split.
      * destruct (decide (j = i)) as [->|Hne].
        -- specialize (Hown _ _ Hin). lia.
        -- intros ->. exact (Hblock i j _ Hin Hne E eq_refl).
      * intros ->. eauto.
Qed.

Lemma elem_of_snoc_last {A} (l : list A) x : x ∈ l ++ [x].
Proof. apply elem_of_app. right. apply list_elem_of_singleton. reflexivity. Qed.

Lemma elem_of_snoc_old {A} (l : list A) x y : x ∈ l → x ∈ l ++ [y].
Proof. intros H. apply elem_of_app. left. exact H. Qed.

Lemma keys_of_cons a i k tr :
  keys_of a ((i, k) :: tr) = if Nat.eqb a i then k :: keys_of a tr else keys_of a tr.
Proof. reflexivity. Qed.

(** A run from a state that satisfies the invariant: every source gets
    increasing keys, every key is new with respect to [past], and no key goes
    to two sources. *)
Lemma keys_run_sound who :
  ∀ past st,
    keys_inv past st →
    next_key_pool st + 256 * Z.of_nat (length who) < 2 ^ 64 →
    (∀ i, StronglySorted Z.lt (keys_of i (keys_run who st).1)) ∧
    (∀ i k, k ∈ keys_of i (keys_run who st).1 →
            ∀ j k', (j, k') ∈ past → k' ≠ k ∧ (j = i → k' < k)) ∧
    (∀ i j k, i ≠ j → k ∈ keys_of i (keys_run who st).1 →
              k ∉ keys_of j (keys_run who st).1).
Proof.
  induction who as [|i who IH]; intros past st Hinv Hroom.
  - simpl. split; [|split].
    + intros i. constructor.
    + intros i k Hin. by apply not_elem_of_nil in Hin.
    + intros i j k _ Hin. by apply not_elem_of_nil in Hin.
  - simpl. destruct (keys_call i st) as [k st1] eqn:Hcall.
    rewrite length_cons in Hroom.
    destruct (keys_call_inv past st i k st1 Hinv ltac:(lia) Hcall) as (Hinv1 & Hpool & Hnew).
    destruct (IH (past ++ [(i, k)]) st1 Hinv1 ltac:(lia)) as (Hsorted & Hfresh & Hdisj).
    destruct (keys_run who st1) as [tr st2]. simpl in *.
    split; [|split].
    + intros a. destruct (Nat.eqb_spec a i) as [->|Hne]; [|apply Hsorted].
      constructor; [apply Hsorted|].
      apply Forall_forall. intros k' Hin. apply list_elem_of_In in Hin.
      destruct (Hfresh i k' Hin i k) as [_ Hlt]; [apply elem_of_snoc_last|]. auto.
    + intros a k' Hin j k'' Hpast.
      destruct (Nat.eqb_spec a i) as [->|Hne].
      * apply elem_of_cons in Hin as [->|Hin]; [apply Hnew; exact Hpast|].
        apply (Hfresh i k' Hin). apply elem_of_snoc_old. exact Hpast.
      * apply (Hfresh a k' Hin). apply elem_of_snoc_old. exact Hpast.
    + intros a b k' Hab Hin Hin'.
      destruct (Nat.eqb_spec a i) as [->|Ha]; destruct (Nat.eqb_spec b i) as [->|Hb];
        try congruence.
      * apply elem_of_cons in Hin as [->|Hin]; [|exact (Hdisj _ _ _ Hab Hin Hin')].
        destruct (Hfresh b k Hin' i k) as [Hne _]; [apply elem_of_snoc_last|]. congruence.
      * apply elem_of_cons in Hin' as [->|Hin']; [|exact (Hdisj _ _ _ Hab Hin Hin')].
        destruct (Hfresh a k Hin i k) as [Hne _]; [apply elem_of_snoc_last|]. congruence.
      * exact (Hdisj _ _ _ Hab Hin Hin').
Qed.

(** C6.  From the initial state of the process (the pool at 512 and every
    key source freshly initialised), in any run of calls to [keysource_next]
    short enough for the 64-bit pool not to wrap, the keys a source gets are
    strictly increasing and the keys of two distinct sources are disjoint. *)
Theorem keysource_next_increasing_disjoint (who : list nat) :
  next_key_pool_init + 256 * Z.of_nat (length who) < 2 ^ 64 →
  (∀ i, StronglySorted Z.lt (keys_of i (keys_run who keys_initial).1)) ∧
  (∀ i j k, i ≠ j → k ∈ keys_of i (keys_run who keys_initial).1 →
            k ∉ keys_of j (keys_run who keys_initial).1).
Proof.
  intros Hroom.
  destruct (keys_run_sound who [] keys_initial keys_inv_initial Hroom) as (Hs & _ & Hd).
  split; assumption.
Qed.

(** Three sources interleaved; source 0 crosses no block boundary here, and
    the run is far from exhausting the pool. *)
Lemma keysource_next_increasing_disjoint_witness :
  (∀ i, StronglySorted Z.lt (keys_of i (keys_run [0; 1; 0; 2; 1; 0]%nat keys_initial).1)) ∧
  (∀ i j k, i ≠ j → k ∈ keys_of i (keys_run [0; 1; 0; 2; 1; 0]%nat keys_initial).1 →
            k ∉ keys_of j (keys_run [0; 1; 0; 2; 1; 0]%nat keys_initial).1).
Proof.
  apply (keysource_next_increasing_disjoint [0; 1; 0; 2; 1; 0]%nat).
  vm_compute. reflexivity.
Defined.

Example keys_run_example :
  (keys_run [0; 1; 0; 2; 1; 0]%nat keys_initial).1 =
  [(0%nat, 512); (1%nat, 768); (0%nat, 513); (2%nat, 1024); (1%nat, 769); (0%nat, 514)].
Proof. reflexivity. Qed.

(** ** Vector messages: wellformedness and rejection *)

Lemma vecbuf_is_wellformed_iff vb :
  0 ≤ nused vb < 2 ^ 64 → 0 ≤ niovs (vecbuf_msg vb) →
  vecbuf_is_wellformed vb = true ↔
  ∃ k, nused vb = least_vector_msglen + k * vector_iov_size ∧
       niovs (vecbuf_msg vb) ≤ k ∧ niovs (vecbuf_msg vb) ≤ vector_msg_iov_count.
Proof.
  intros Hlen Hn. unfold vecbuf_is_wellformed, least_vector_msglen, vector_iov_size,
    vector_msg_iov_count.
  destruct (Z.ltb_spec (nused vb) 8) as [Hs|Hs].
  { split; [discriminate|]. intros (k & Hk & Hle & _). lia. }
  rewrite wrap64_small by lia.
  pose proof (Z.div_mod (nused vb - 8) 24 ltac:(lia)) as Hdm.
  pose proof (Z.mod_pos_bound (nused vb - 8) 24 ltac:(lia)) as Hmb.
  destruct (Z.eqb_spec ((nused vb - 8) mod 24) 0) as [Hm|Hm]; simpl.
  2:{ split; [discriminate|]. intros (k & Hk & _). exfalso. apply Hm.
      replace (nused vb - 8) with (k * 24) by lia. apply Z.mod_mul. lia. }
  destruct (Z.ltb_spec ((nused vb - 8) / 24) (niovs (vecbuf_msg vb))) as [Hsp|Hsp].
  { split; [discriminate|]. intros (k & Hk & Hle & _). lia. }
  destruct (Z.ltb_spec 12 (niovs (vecbuf_msg vb))) as [Hc|Hc].
  { split; [discriminate|]. intros (k & _ & _ & Hle). lia. }
  split; [|reflexivity]. intros _. exists ((nused vb - 8) / 24). lia.
Qed.

Lemma rxctl_complete_Some rc cmpl hp h rc' hp' :
  rxctl_complete rc cmpl hp = Ret (Some h, rc', hp') →
  rx_rcvd rc' = rx_rcvd rc ∧ hp' = upd h (set_nused (cmpl_len cmpl)) hp ∧
  cmpl_xfc cmpl = h.
Proof.
  unfold rxctl_complete. intros H.
  destruct (negb _ && negb _); [discriminate|].
  destruct (fifo_get (rx_posted rc)) as [[[h0|] posted]| |]; simpl in H; try discriminate.
  destruct (Nat.eqb_spec (cmpl_xfc cmpl) h0) as [E|E]; simpl in H; [|discriminate].
  inversion H; subst. auto.
Qed.

Lemma upd_same p f hp : upd p f hp p = f (hp p).
Proof. unfold upd. apply fn_lookup_insert. Qed.

Lemma upd_other p q f hp : p ≠ q → upd p f hp q = hp q.
Proof. intros H. unfold upd. by apply fn_lookup_insert_ne. Qed.

(** The closing message of [closing_vecbuf] is wellformed although it is
    longer than its header and its zero advertisements. *)
Lemma vecbuf_is_wellformed_exact_length_counterexample :
  ¬ (vecbuf_is_wellformed closing_vecbuf = true ↔
     nused closing_vecbuf =
       least_vector_msglen + niovs (vecbuf_msg closing_vecbuf) * vector_iov_size).
Proof.
  intros [H _]. specialize (H eq_refl). vm_compute in H. discriminate.
Qed.

(** C1, as the code has it.  A vector message received into [vb] has the
    completion's length as its wire length.  It is wellformed exactly when
    that length is the header plus a whole number [k] of advertisement
    records, with [niovs] at most [k] and at most 12; so the exact length
    [header + niovs * record] is wellformed and so is a longer one ending on a
    record boundary.  A malformed message is rejected, and so is any message
    whose buffer had been cancelled: the routine returns 0 and [vec.rcvd] is
    left as it was.  A wellformed message in a buffer that was not cancelled
    is put on [vec.rcvd]. *)
Theorem xmtr_vector_rx_wellformed x cmpl w vb vec hp :
  rxctl_complete (x_vec x) cmpl (w_heap w) = Ret (Some vb, vec, hp) →
  0 ≤ cmpl_len cmpl < 2 ^ 64 →
  0 ≤ niovs (vecbuf_msg (hp vb)) →
  nused (hp vb) = cmpl_len cmpl ∧
  (vecbuf_is_wellformed (hp vb) = true ↔
     ∃ k, cmpl_len cmpl = least_vector_msglen + k * vector_iov_size ∧
          niovs (vecbuf_msg (hp vb)) ≤ k ∧
          niovs (vecbuf_msg (hp vb)) ≤ vector_msg_iov_count) ∧
  (vecbuf_is_wellformed (hp vb) = false ∨ xfc_cancelled (xfc (hp vb)) = true →
     ensures (xmtr_vector_rx_process x cmpl w)
             (fun '(rc, x', _) => rc = 0 ∧ rx_rcvd (x_vec x') = rx_rcvd (x_vec x))) ∧
  (vecbuf_is_wellformed (hp vb) = true → xfc_cancelled (xfc (hp vb)) = false →
     ensures (xmtr_vector_rx_process x cmpl w)
             (fun '(rc, x', _) =>
                rc = 1 ∧ fifo_put (rx_rcvd (x_vec x)) vb = Ret (true, rx_rcvd (x_vec x')))).
Proof.
  intros Hc Hlen Hn.
  destruct (rxctl_complete_Some _ _ _ _ _ _ Hc) as (Hrcvd & Hhp & Hxfc).
  assert (nused (hp vb) = cmpl_len cmpl) as Hused.
  { rewrite Hhp, upd_same. reflexivity. }
  split; [exact Hused|]. split; [|split].
  - rewrite <- Hused. apply vecbuf_is_wellformed_iff; [lia|exact Hn].
  - intros Hrej. unfold xmtr_vector_rx_process. rewrite Hc. simpl.
    destruct (xfc_cancelled (xfc (hp vb))) eqn:Hcan; simpl.
    { split; [reflexivity|exact Hrcvd]. }
    destruct Hrej as [Hbad|Hbad]; [|discriminate].
    rewrite Hbad. simpl. unfold rxctl_post. simpl.
    destruct (fabric_do _ _) as [rc fab]. destruct (rc <? 0); [exact I|].
    destruct (fifo_put (rx_posted vec) vb) as [[ok posted]| |] eqn:Hput; simpl.
    + split; [reflexivity|exact Hrcvd].
    + exact I.
    + unfold fifo_put in Hput. repeat case_match; discriminate.
  - intros Hgood Hcan. unfold xmtr_vector_rx_process. rewrite Hc. simpl.
    rewrite Hcan, Hgood. simpl. rewrite Hrcvd.
    destruct (fifo_put (rx_rcvd (x_vec x)) vb) as [[ok rcvd]| |] eqn:Hput; simpl.
    + destruct ok; simpl; [split; reflexivity|exact I].
    + exact I.
    + unfold fifo_put in Hput. repeat case_match; discriminate.
Qed.

(** The closing message of 32 bytes with no advertisement arrives in buffer 5
    and is accepted. *)
Lemma xmtr_vector_rx_wellformed_witness :
  vecbuf_is_wellformed
    (upd 5%nat (set_nused 32) (w_heap (world_awaiting_vector [])) 5%nat) = true ↔
  ∃ k, 32 = least_vector_msglen + k * vector_iov_size ∧
       0 ≤ k ∧ 0 ≤ vector_msg_iov_count.
Proof.
  apply (xmtr_vector_rx_wellformed xmtr_awaiting_vector
           (mk_completion desired_rx_flags 32 5%nat) (world_awaiting_vector []) 5%nat
           (mk_rxctl (mk_fifo 1 1 (Z.ones 2) [5; 0; 0; 0]%nat) (fifo_of_list 2 []))
           (upd 5%nat (set_nused 32) (w_heap (world_awaiting_vector [])))).
  - reflexivity.
  - vm_compute. split; [discriminate|reflexivity].
  - vm_compute. discriminate.
Defined.

(** ** [txctl_transmit] *)

Lemma fifo_of_list_wf n l :
  0 ≤ n ≤ 62 → Z.of_nat (length l) ≤ 2 ^ n → fifo_wf (fifo_of_list n l).
Proof.
  intros Hn Hl.
  assert (0 < 2 ^ n) by (apply Z.pow_pos_nonneg; lia).
  assert (2 ^ n ≤ 2 ^ 62) by (apply Z.pow_le_mono_r; lia).
  constructor; simpl.
  - exists n. auto.
  - rewrite length_app, length_replicate, Z.ones_equiv. lia.
  - lia.
  - lia.
  - rewrite Z.ones_equiv. lia.
Qed.

Lemma txctl_transmit_loop_unfold todo done c tc hp :
  txctl_transmit_loop todo done c tc hp =
  oh ← fifo_peek (tx_ready tc);
  match oh with
  | None => Ret (tc, mk_fabric todo done)
  | Some h =>
      if fifo_full (tx_posted tc) then Ret (tc, mk_fabric todo done)
      else
        match todo with
        | [] => Ret (tc, mk_fabric [] (done ++ [(sendmsg_of c hp h, - FI_EAGAIN)]))
        | rc :: todo' =>
            let done' := done ++ [(sendmsg_of c hp h, rc)] in
            if rc =? 0 then
              '(_, ready) ← fifo_get (tx_ready tc);
              '(_, posted) ← fifo_put (tx_posted tc) h;
              txctl_transmit_loop todo' done' c (mk_txctl ready posted (tx_pool tc)) hp
            else if rc =? - FI_EAGAIN then Ret (tc, mk_fabric todo' done')
            else if rc <? 0 then Exit
            else txctl_transmit_loop todo' done' c tc hp
        end
  end.
Proof. destruct todo; reflexivity. Qed.

Lemma txctl_transmit_loop_correct c hp todo :
  ∀ done tc,
    fifo_wf (tx_ready tc) → fifo_wf (tx_posted tc) →
    insertions (tx_posted tc) + Z.of_nat (length (fifo_elems (tx_ready tc))) < 2 ^ 63 →
    Forall (fun rc => rc ≤ 0) todo →
    txctl_transmit_post c hp todo done tc (txctl_transmit_loop todo done c tc hp).
Proof.
  induction todo as [|rc todo IH]; intros done tc Hr Hp Hroom Hneg;
    rewrite txctl_transmit_loop_unfold, (fifo_peek_wf _ Hr); simpl.
  - destruct (fifo_elems (tx_ready tc)) as [|h rest] eqn:El; simpl.
    + exists []. rewrite El, !app_nil_r. split_and!; auto.
    + rewrite (fifo_full_wf _ Hp).
      pose proof (fifo_elems_bound _ Hp) as Hb.
      destruct (Z.eqb_spec (Z.of_nat (length (fifo_elems (tx_posted tc))))
                           (fifo_capacity (tx_posted tc))) as [Ef|Ef]; simpl.
      * exists []. rewrite El, !app_nil_r. split_and!; auto.
      * exists []. rewrite El, !app_nil_r. split_and!; auto. right. exists h.
        split_and!; auto. lia.
  - destruct (fifo_elems (tx_ready tc)) as [|h rest] eqn:El; simpl.
    + exists []. rewrite El, !app_nil_r. split_and!; auto.
    + rewrite (fifo_full_wf _ Hp).
      pose proof (fifo_elems_bound _ Hp) as Hb.
      destruct (Z.eqb_spec (Z.of_nat (length (fifo_elems (tx_posted tc))))
                           (fifo_capacity (tx_posted tc))) as [Ef|Ef]; simpl.
      { exists []. rewrite El, !app_nil_r. split_and!; auto. }
      inversion Hneg as [|? ? Hrc Hneg']; subst.
      destruct (Z.eqb_spec rc 0) as [->|Hnz].
      * destruct (fifo_get_wf _ Hr) as (ready1 & Hget & Eget & Hwf1 & _ & _).
        simpl in Hroom.
        destruct (fifo_put_wf _ h Hp ltac:(lia) ltac:(lia))
          as (posted1 & Hput & Eput & Hwf2 & Hmask & Hins).
        rewrite Hget, Hput. simpl. rewrite El in Eget. simpl in Eget.
        specialize (IH (done ++ [(sendmsg_of c hp h, 0)])
                       (mk_txctl ready1 posted1 (tx_pool tc)) Hwf1 Hwf2).
        simpl in IH. rewrite Eget, Hins in IH.
        specialize (IH ltac:(lia) Hneg').
        unfold txctl_transmit_post in *.
        destruct (txctl_transmit_loop todo _ c _ hp) as [[tc' fab']| |]; [| |exact IH].
        -- destruct IH as (moved & E1 & E2 & E3 & W1 & W2 & Hans & Hlog). simpl in *.
           exists (h :: moved). rewrite El, Eget in *. rewrite E1 at 1.
           rewrite E2, Eput, <- !app_assoc. simpl.
           split_and!; auto.
           { rewrite Hans. reflexivity. }
           destruct Hlog as [(Hl & Hsc & Hs)|(h' & Hh & Hroom' & Hnth & Hsc & Hl)];
             [left|right].
           ++ rewrite Hl, <- !app_assoc. split; [reflexivity|]. split; [exact Hsc|].
              rewrite E2, Eput, <- !app_assoc in Hs. exact Hs.
           ++ exists h'. rewrite Hl, <- !app_assoc.
              rewrite E2, Eput, <- !app_assoc in Hroom'.
              split_and!; auto.
        -- destruct IH as (moved & h' & rest' & rc' & todo' & E1 & E2 & Hlt & Hne).
           simpl in E1. exists (h :: moved), h', rest', rc', todo'.
           rewrite Eget in E1. rewrite El, E1. simpl. rewrite <- E2. auto.
      * destruct (Z.eqb_spec rc (- FI_EAGAIN)) as [->|Hna].
        -- exists []. rewrite El, !app_nil_r. split_and!; auto. right. exists h.
           split_and!; auto. lia.
        -- destruct (Z.ltb_spec rc 0); [|lia].
           exists [], h, rest, rc, todo. simpl. auto.
Qed.

(** C7.  [txctl_transmit] on well-formed queues, against a fabric that
    answers with 0 or a negative errno: the buffers [moved] at the front of
    [ready] are those whose send the fabric accepted, one answer 0 of its
    script for each; each was sent as one segment to the peer, and they go to
    the end of [posted] in their order; nothing else changes in the queues.
    The routine returns without a further send when [ready] is empty or
    [posted] is full; otherwise it has sent the next buffer, the answer of
    the fabric to that send was try-again, and the buffer stays at the head of
    [ready].  It ends the process when the fabric answers the send of the
    next buffer with another error. *)
Theorem txctl_transmit_correct c tc w :
  fifo_wf (tx_ready tc) → fifo_wf (tx_posted tc) →
  insertions (tx_posted tc) + Z.of_nat (length (fifo_elems (tx_ready tc))) < 2 ^ 63 →
  Forall (fun rc => rc ≤ 0) (script (w_fabric w)) →
  match txctl_transmit c tc w with
  | Ret (tc', w') =>
      w_heap w' = w_heap w ∧ w_pool w' = w_pool w ∧
      ∃ moved,
        fifo_elems (tx_ready tc) = moved ++ fifo_elems (tx_ready tc') ∧
        fifo_elems (tx_posted tc') = fifo_elems (tx_posted tc) ++ moved ∧
        tx_pool tc' = tx_pool tc ∧
        take (length moved) (script (w_fabric w)) = replicate (length moved) 0 ∧
        ((oplog (w_fabric w') = oplog (w_fabric w) ++ accepted_sends c (w_heap w) moved ∧
          script (w_fabric w') = drop (length moved) (script (w_fabric w)) ∧
          (fifo_elems (tx_ready tc') = [] ∨
           Z.of_nat (length (fifo_elems (tx_posted tc'))) = fifo_capacity (tx_posted tc'))) ∨
         (∃ h, head (fifo_elems (tx_ready tc')) = Some h ∧
               Z.of_nat (length (fifo_elems (tx_posted tc'))) < fifo_capacity (tx_posted tc') ∧
               nth (length moved) (script (w_fabric w)) (- FI_EAGAIN) = - FI_EAGAIN ∧
               script (w_fabric w') = drop (S (length moved)) (script (w_fabric w)) ∧
               oplog (w_fabric w') =
                 oplog (w_fabric w) ++ accepted_sends c (w_heap w) moved
                                    ++ [(sendmsg_of c (w_heap w) h, - FI_EAGAIN)]))
  | Exit =>
      ∃ moved h rest rc todo',
        fifo_elems (tx_ready tc) = moved ++ h :: rest ∧
        script (w_fabric w) = replicate (length moved) 0 ++ rc :: todo' ∧
        rc < 0 ∧ rc ≠ - FI_EAGAIN
  | OutOfFuel => False
  end.
Proof.
  intros Hr Hp Hroom Hneg. unfold txctl_transmit.
  pose proof (txctl_transmit_loop_correct c (w_heap w) (script (w_fabric w))
                (oplog (w_fabric w)) tc Hr Hp Hroom Hneg) as H.
  unfold txctl_transmit_post in H.
  destruct (txctl_transmit_loop _ _ c tc (w_heap w)) as [[tc' fab']| |]; simpl; auto.
  destruct H as (moved & E1 & E2 & E3 & _ & _ & Hans & Hlog).
  split; [reflexivity|]. split; [reflexivity|]. exists moved. auto.
Qed.

(** Three buffers ready, room for four, and a fabric that accepts two sends
    and then asks to try again. *)
Lemma txctl_transmit_correct_witness :
  let w := mk_world heap0 (fabric0 [0; 0; - FI_EAGAIN]) next_key_pool_init in
  match txctl_transmit cxn0 txctl_three_ready w with
  | Ret (tc', w') =>
      w_heap w' = w_heap w ∧ w_pool w' = w_pool w ∧
      ∃ moved,
        fifo_elems (tx_ready txctl_three_ready) = moved ++ fifo_elems (tx_ready tc') ∧
        fifo_elems (tx_posted tc') = fifo_elems (tx_posted txctl_three_ready) ++ moved ∧
        tx_pool tc' = tx_pool txctl_three_ready ∧
        take (length moved) (script (w_fabric w)) = replicate (length moved) 0 ∧
        ((oplog (w_fabric w') = oplog (w_fabric w) ++ accepted_sends cxn0 (w_heap w) moved ∧
          script (w_fabric w') = drop (length moved) (script (w_fabric w)) ∧
          (fifo_elems (tx_ready tc') = [] ∨
           Z.of_nat (length (fifo_elems (tx_posted tc'))) = fifo_capacity (tx_posted tc'))) ∨
         (∃ h, head (fifo_elems (tx_ready tc')) = Some h ∧
               Z.of_nat (length (fifo_elems (tx_posted tc'))) < fifo_capacity (tx_posted tc') ∧
               nth (length moved) (script (w_fabric w)) (- FI_EAGAIN) = - FI_EAGAIN ∧
               script (w_fabric w') = drop (S (length moved)) (script (w_fabric w)) ∧
               oplog (w_fabric w') =
                 oplog (w_fabric w) ++ accepted_sends cxn0 (w_heap w) moved
                                    ++ [(sendmsg_of cxn0 (w_heap w) h, - FI_EAGAIN)]))
  | Exit =>
      ∃ moved h rest rc todo',
        fifo_elems (tx_ready txctl_three_ready) = moved ++ h :: rest ∧
        script (w_fabric w) = replicate (length moved) 0 ++ rc :: todo' ∧
        rc < 0 ∧ rc ≠ - FI_EAGAIN
  | OutOfFuel => False
  end.
Proof.
  intros w.
  apply (txctl_transmit_correct cxn0 txctl_three_ready w).
  - apply fifo_of_list_wf; simpl; lia.
  - apply fifo_of_list_wf; simpl; lia.
  - vm_compute. reflexivity.
  - repeat constructor; vm_compute; discriminate.
Defined.

Example txctl_transmit_example :
  match txctl_transmit cxn0 txctl_three_ready
          (mk_world heap0 (fabric0 [0; 0; - FI_EAGAIN]) next_key_pool_init) with
  | Ret (tc', w') =>
      fifo_elems (tx_ready tc') = [6%nat] ∧ fifo_elems (tx_posted tc') = [3; 4]%nat
  | _ => False
  end.
Proof. vm_compute. split; reflexivity. Qed.

(** ** [fifo_cancel] *)

Lemma fabric_do_answer op fab :
  (fabric_do op fab).1 = nth 0 (script fab) (- FI_EAGAIN) ∧
  script (fabric_do op fab).2 = drop 1 (script fab).
Proof. unfold fabric_do. destruct (script fab); simpl; auto. Qed.

Lemma fifo_cancel_loop_unfold fuel ep first posted w :
  fifo_cancel_loop fuel ep first posted w =
  oh ← fifo_peek posted;
  match oh with
  | None => Ret (posted, w)
  | Some h =>
      if decide (Some h = first) then Ret (posted, w)
      else
        match fuel with
        | O => OutOfFuel
        | S fuel' =>
            '(_, posted) ← fifo_get posted;
            let first := match first with None => Some h | _ => first end in
            let hp := upd h (fun b => set_xfc (set_cancelled true (xfc b)) b) (w_heap w) in
            let '(rc, fab) := fabric_do (op_cancel ep h) (w_fabric w) in
            if negb (rc =? 0) then Exit
            else
              '(_, posted) ← fifo_put posted h;
              fifo_cancel_loop fuel' ep first posted (mk_world hp fab (w_pool w))
        end
  end.
Proof. destruct fuel; reflexivity. Qed.

(** The loop after [i] turns on the queue [l]: the ring holds [l] rotated by
    [i], and [first] is set once a turn has been made. *)
Lemma fifo_cancel_loop_correct ep (l : list nat) :
  NoDup l →
  ∀ (fuel i : nat) posted w,
    (i + fuel = length l)%nat →
    fifo_wf posted → insertions posted + Z.of_nat fuel < 2 ^ 63 →
    fifo_elems posted = drop i l ++ take i l →
    match fifo_cancel_loop fuel ep (if i is O then None else head l) posted w with
    | Ret (posted', w') =>
        fifo_elems posted' = l ∧ fifo_wf posted' ∧
        (∀ h, h ∈ drop i l → xfc_cancelled (xfc (w_heap w' h)) = true) ∧
        (∀ h, h ∉ drop i l → w_heap w' h = w_heap w h)
    | Exit => ∃ k, (k < fuel)%nat ∧ nth k (script (w_fabric w)) (- FI_EAGAIN) ≠ 0
    | OutOfFuel => False
    end.
Proof.
  intros Hnd fuel. induction fuel as [|fuel IH]; intros i posted w Hlen Hwf Hroom Hel;
    rewrite fifo_cancel_loop_unfold, (fifo_peek_wf _ Hwf), Hel; simpl.
  - assert (i = length l) as -> by lia.
    rewrite drop_all, take_ge by lia. simpl.
    destruct l as [|l0 t]; simpl.
    + rewrite Hel. simpl. split_and!; auto. intros h Hin. by apply not_elem_of_nil in Hin.
    + rewrite decide_True by reflexivity.
      rewrite Hel, drop_all, take_ge by (simpl; lia). simpl.
      split_and!; auto. intros h Hin. by apply not_elem_of_nil in Hin.
  - destruct (lookup_lt_is_Some_2 l i ltac:(lia)) as [h Hh].
    rewrite (drop_S _ _ _ Hh). simpl.
    assert (Some h ≠ (if i is O then None else head l)) as Hne.
    { destruct i as [|i']; [discriminate|]. intros E.
      assert (l !! 0%nat = Some h) as H0.
      { destruct l; simpl in *; [discriminate|]. congruence. }
      pose proof (NoDup_lookup _ _ _ _ Hnd Hh H0). lia. }
    rewrite decide_False by exact Hne.
    destruct (fifo_get_wf _ Hwf) as (p1 & Hget & Eget & Hwf1 & Hm1 & Hi1).
    rewrite Hget. simpl.
    pose proof (fabric_do_answer (op_cancel ep h) (w_fabric w)) as [Hans Hscr].
    destruct (fabric_do (op_cancel ep h) (w_fabric w)) as [rc fab]. simpl in Hans, Hscr.
    destruct (Z.eqb_spec rc 0) as [->|Hrc]; simpl.
    2:{ exists 0%nat. split; [lia|]. rewrite <- Hans. exact Hrc. }
    rewrite Hel, (drop_S _ _ _ Hh) in Eget. simpl in Eget.
    assert (Z.of_nat (length (fifo_elems p1)) < fifo_capacity p1) as Hfree.
    { pose proof (fifo_elems_bound _ Hwf) as Hb. rewrite Hel, (drop_S _ _ _ Hh) in Hb.
      rewrite Eget. simpl in Hb. unfold fifo_capacity in *. rewrite Hm1. lia. }
    destruct (fifo_put_wf p1 h Hwf1 ltac:(lia) Hfree) as (p2 & Hput & Eput & Hwf2 & Hm2 & Hi2).
    rewrite Hput. simpl.
    assert ((match (if i is O then None else head l) with
             | Some _ => if i is O then None else head l
             | None => Some h
             end) = head l) as Hfirst.
    { destruct i as [|i'].
      - destruct l; simpl in *; [discriminate|]. congruence.
      - destruct l; simpl in *; [discriminate|]. reflexivity. }
    rewrite Hfirst.
    specialize (IH (S i) p2 (mk_world (upd h (fun b => set_xfc (set_cancelled true (xfc b)) b)
                                        (w_heap w)) fab (w_pool w))
                   ltac:(lia) Hwf2 ltac:(lia)).
    simpl in IH. rewrite Eput, Eget, <- app_assoc, <- (take_S_r _ _ _ Hh) in IH.
    specialize (IH eq_refl).
    destruct (fifo_cancel_loop fuel ep (head l) p2 _) as [[posted' w']| |]; [| |exact IH].
    + destruct IH as (E & W & Hc & Hf). split_and!; auto.
      * intros h' Hin. apply elem_of_cons in Hin as [->|Hin]; [|auto].
        destruct (decide (h ∈ drop (S i) l)) as [Hin|Hnin]; [auto|].
        rewrite (Hf _ Hnin). simpl. rewrite upd_same. reflexivity.
      * intros h' Hnin. rewrite Hf.
        -- simpl. apply upd_other. intros ->. apply Hnin. left.
        -- intros Hin. apply Hnin. right. exact Hin.
    + destruct IH as (k & Hk & Hnz). exists (S k). split; [lia|].
      simpl in Hnz. rewrite Hscr in Hnz.
      destruct (script (w_fabric w)); simpl in *; [destruct k; exact Hnz|exact Hnz].
Qed.

(** C9.  [fifo_cancel] on a well-formed ring that holds no buffer twice: if
    it returns, the ring holds the same buffers in the same order, every one
    of them has [xfc.cancelled] set, and no other buffer has changed.  It ends
    the process only if the fabric refuses one of the cancellations. *)
Theorem fifo_cancel_keeps_queue ep posted w :
  fifo_wf posted → NoDup (fifo_elems posted) →
  insertions posted + Z.of_nat (length (fifo_elems posted)) < 2 ^ 63 →
  match fifo_cancel ep posted w with
  | Ret (posted', w') =>
      fifo_elems posted' = fifo_elems posted ∧ fifo_wf posted' ∧
      (∀ h, h ∈ fifo_elems posted → xfc_cancelled (xfc (w_heap w' h)) = true) ∧
      (∀ h, h ∉ fifo_elems posted → w_heap w' h = w_heap w h)
  | Exit => ∃ k, (k < length (fifo_elems posted))%nat ∧
                 nth k (script (w_fabric w)) (- FI_EAGAIN) ≠ 0
  | OutOfFuel => False
  end.
Proof.
  intros Hwf Hnd Hroom. unfold fifo_cancel. rewrite (fifo_occupancy_wf _ Hwf).
  pose proof (fifo_cancel_loop_correct ep (fifo_elems posted) Hnd
                (length (fifo_elems posted)) 0 posted w eq_refl Hwf Hroom) as H.
  simpl in H. rewrite drop_0, app_nil_r in H. exact (H eq_refl).
Qed.

(** A full ring of four posted buffers and a fabric that accepts the four
    cancellations. *)
Lemma fifo_cancel_keeps_queue_witness :
  let posted := fifo_of_list 2 [3; 4; 6; 9]%nat in
  let w := mk_world heap0 (fabric0 [0; 0; 0; 0]) next_key_pool_init in
  match fifo_cancel 1 posted w with
  | Ret (posted', w') =>
      fifo_elems posted' = fifo_elems posted ∧ fifo_wf posted' ∧
      (∀ h, h ∈ fifo_elems posted → xfc_cancelled (xfc (w_heap w' h)) = true) ∧
      (∀ h, h ∉ fifo_elems posted → w_heap w' h = w_heap w h)
  | Exit => ∃ k, (k < length (fifo_elems posted))%nat ∧
                 nth k (script (w_fabric w)) (- FI_EAGAIN) ≠ 0
  | OutOfFuel => False
  end.
Proof.
  intros posted w.
  apply (fifo_cancel_keeps_queue 1 posted w).
  - apply fifo_of_list_wf; simpl; lia.
  - vm_compute. repeat constructor; intros H;
      repeat (apply elem_of_cons in H as [H|H]; [discriminate|]);
      by apply not_elem_of_nil in H.
  - vm_compute. reflexivity.
Defined.

Example fifo_cancel_example :
  match fifo_cancel 1 (fifo_of_list 2 [3; 4; 6; 9]%nat)
          (mk_world heap0 (fabric0 [0; 0; 0; 0]) next_key_pool_init) with
  | Ret (posted', w') =>
      fifo_elems posted' = [3; 4; 6; 9]%nat ∧
      insertions posted' = 8 ∧ removals posted' = 4 ∧
      xfc_cancelled (xfc (w_heap w' 6%nat)) = true ∧
      xfc_cancelled (xfc (w_heap w' 5%nat)) = false
  | _ => False
  end.
Proof. vm_compute. split_and!; reflexivity. Qed.

(** ** [rcvr_targets_read] *)

Lemma rcvr_targets_read_loop_unfold fuel gs s r w :
  rcvr_targets_read_loop fuel gs s r w =
  if 0 <? nfull r then
    oh ← fifo_peek (tgtposted r);
    match oh with
    | None => Ret (s, r, w)
    | Some h =>
        if fifo_full (ready_for_terminal s) then Ret (s, r, w)
        else
          match fuel with
          | O => OutOfFuel
          | S fuel' =>
              let b := w_heap w h in
              if wrap64 (nused b + nfull r) <? nallocated b then
                let w := with_heap (upd h (set_nused (wrap64 (nused b + nfull r))) (w_heap w)) w in
                rcvr_targets_read_loop fuel' gs s (set_nfull 0 r) w
              else
                let r := set_nfull (wrap64 (nfull r - wrap64 (nallocated b - nused b))) r in
                let w := with_heap (upd h (set_nused (nallocated b)) (w_heap w)) w in
                '(_, tp) ← fifo_get (tgtposted r);
                let r := set_tgtposted tp r in
                let w := if reregister gs
                         then with_fabric (snd (fabric_do (op_close (mr (w_heap w h))) (w_fabric w))) w
                         else w in
                '(_, rft) ← fifo_put (ready_for_terminal s) h;
                rcvr_targets_read_loop fuel' gs (set_ready_for_terminal rft s) r w
          end
    end
  else Ret (s, r, w).
Proof. destruct fuel; reflexivity. Qed.

Lemma w_heap_close gs h (w : world) :
  w_heap (if reregister gs
          then with_fabric (snd (fabric_do (op_close (mr (w_heap w h))) (w_fabric w))) w
          else w) = w_heap w.
Proof. destruct (reregister gs); reflexivity. Qed.

(** Closes the side goals of a turn that moves nothing. *)
Ltac nothing_moved :=
  simpl; split_and!; auto;
  try solve [lia | (let H := fresh in intros ? H; by apply not_elem_of_nil in H)].

(** What the [while] loop of [rcvr_targets_read] leaves: the buffers [full]
    went from the head of [tgtposted] to the end of [ready_for_terminal], each
    filled to its allocation out of the credit [nfull]. *)
Lemma rcvr_targets_read_loop_correct gs :
  ∀ fuel s r w,
    fifo_wf (tgtposted r) → fifo_wf (ready_for_terminal s) →
    NoDup (fifo_elems (tgtposted r)) →
    insertions (ready_for_terminal s) + Z.of_nat (length (fifo_elems (tgtposted r))) < 2 ^ 63 →
    0 ≤ nfull r < 2 ^ 64 →
    (∀ h, h ∈ fifo_elems (tgtposted r) → target_open (w_heap w) h) →
    (nfull r = 0 ∨ (length (fifo_elems (tgtposted r)) < fuel)%nat) →
    match rcvr_targets_read_loop fuel gs s r w with
    | Ret (s', r', w') =>
        ∃ full,
          fifo_elems (tgtposted r) = full ++ fifo_elems (tgtposted r') ∧
          fifo_elems (ready_for_terminal s') = fifo_elems (ready_for_terminal s) ++ full ∧
          fifo_wf (tgtposted r') ∧ fifo_wf (ready_for_terminal s') ∧
          insertions (ready_for_terminal s') =
            insertions (ready_for_terminal s) + Z.of_nat (length full) ∧
          r_cxn r' = r_cxn r ∧
          (∀ h, h ∈ full → nused (w_heap w' h) = nallocated (w_heap w h)) ∧
          (∀ h, nallocated (w_heap w' h) = nallocated (w_heap w h)) ∧
          (∀ h, h ∈ fifo_elems (tgtposted r') → target_open (w_heap w') h) ∧
          (∀ h, h ∉ fifo_elems (tgtposted r) → w_heap w' h = w_heap w h) ∧
          0 ≤ nfull r' ∧ bytes_to_fill (w_heap w) full + nfull r' ≤ nfull r
    | Exit => False
    | OutOfFuel => False
    end.
Proof.
  induction fuel as [|fuel IH]; intros s r w Htp Hrft Hnd Hroom Hnf Hopen Hfuel;
    rewrite rcvr_targets_read_loop_unfold.
  all: destruct (Z.ltb_spec 0 (nfull r)) as [Hpos|Hzero];
    [|exists []; rewrite ?app_nil_r; nothing_moved].
  all: rewrite (fifo_peek_wf _ Htp); simpl.
  all: destruct (fifo_elems (tgtposted r)) as [|h rest] eqn:El; simpl;
    [exists []; rewrite ?El, ?app_nil_r; nothing_moved|].
  all: rewrite (fifo_full_wf _ Hrft).
  all: destruct (Z.eqb_spec (Z.of_nat (length (fifo_elems (ready_for_terminal s))))
                            (fifo_capacity (ready_for_terminal s))) as [Ef|Ef];
    [exists []; rewrite ?El, ?app_nil_r; nothing_moved|].
  { simpl in Hfuel. lia. }
  destruct (Hopen h ltac:(left)) as [Hused Halloc].
  set (b := w_heap w h) in *.
  destruct (Z.ltb_spec (wrap64 (nused b + nfull r)) (nallocated b)) as [Hpart|Hfull].
  - (* the credit runs out inside the head buffer *)
    rewrite rcvr_targets_read_loop_unfold. simpl.
    exists []. rewrite El, app_nil_r. simpl.
    pose proof (wrap64_range (nused b + nfull r)) as Hw.
    split_and!; auto; try lia.
    + intros h' Hin. by apply not_elem_of_nil in Hin.
    + intros h'. destruct (decide (h = h')) as [<-|Hne].
      * rewrite upd_same. reflexivity.
      * rewrite upd_other by done. reflexivity.
    + intros h' Hin. unfold target_open.
      destruct (decide (h = h')) as [<-|Hne].
      * rewrite upd_same. simpl. fold b. lia.
      * rewrite upd_other by done. apply Hopen. exact Hin.
    + intros h' Hnin. apply upd_other. intros ->. apply Hnin. left.
  - (* the head buffer is filled and released *)
    assert (nallocated b - nused b ≤ nfull r) as Hcover.
    { unfold wrap64 in Hfull.
      destruct (Z.lt_ge_cases (nused b + nfull r) (2 ^ 64)) as [Hs|Hb].
      - rewrite Z.mod_small in Hfull by lia. lia.
      - lia. }
    simpl. rewrite (wrap64_small (nallocated b - nused b)) by lia.
    rewrite (wrap64_small (nfull r - _)) by lia.
    destruct (fifo_get_wf _ Htp) as (tp1 & Hget & Eget & Htp1 & _ & _).
    rewrite Hget. simpl. rewrite El in Eget. simpl in Eget.
    pose proof (fifo_elems_bound _ Hrft) as Hb. simpl in Hroom.
    destruct (fifo_put_wf (ready_for_terminal s) h Hrft ltac:(lia) ltac:(lia))
      as (rft1 & Hput & Eput & Hrft1 & Hm1 & Hi1).
    rewrite Hput. simpl.
    pose proof (NoDup_cons_1_1 _ _ Hnd) as Hnotin.
    pose proof (NoDup_cons_1_2 _ _ Hnd) as Hnd'.
    match goal with
    | |- context [rcvr_targets_read_loop fuel gs ?s1 ?r1 ?w1] =>
        specialize (IH s1 r1 w1); set (w1' := w1) in *
    end.
    simpl in IH. rewrite Eget, Hi1 in IH.
    assert (w_heap w1' = upd h (set_nused (nallocated b)) (w_heap w)) as Hw1
      by (unfold w1'; destruct (reregister gs); reflexivity).
    specialize (IH Htp1 Hrft1 Hnd' ltac:(lia) ltac:(lia)).
    assert (∀ h', h' ∈ rest → target_open (w_heap w1') h') as Hopen1.
    { intros h' Hin. unfold target_open. rewrite Hw1, upd_other.
      - apply Hopen. right. exact Hin.
      - intros ->. contradiction. }
    specialize (IH Hopen1 ltac:(simpl in Hfuel; lia)).
    destruct (rcvr_targets_read_loop fuel gs _ _ w1') as [[[s' r'] w']| |]; [|exact IH..].
    destruct IH as (full & E1 & E2 & W1 & W2 & Hins & Hcx & Hfilled & Hal & Hop & Hfr & Hn0 & Hcr).
    simpl in *.
    exists (h :: full). rewrite ?El, E1, E2, Eput, <- app_assoc. simpl.
    assert (∀ h', nallocated (w_heap w1' h') = nallocated (w_heap w h')) as Hal1.
    { intros h'. rewrite Hw1. destruct (decide (h = h')) as [<-|Hne].
      - rewrite upd_same. reflexivity.
      - rewrite upd_other by done. reflexivity. }
    split_and!; auto; try lia.
    + intros h' Hin. apply elem_of_cons in Hin as [->|Hin].
      * rewrite Hfr by exact Hnotin. rewrite Hw1, upd_same. reflexivity.
      * rewrite (Hfilled _ Hin). apply Hal1.
    + intros h'. rewrite Hal. apply Hal1.
    + intros h' Hnin. rewrite Hfr.
      * rewrite Hw1. apply upd_other. intros ->. apply Hnin. left.
      * intros Hin. apply Hnin. right. rewrite <- E1. exact Hin.
    + assert (bytes_to_fill (w_heap w1') full = bytes_to_fill (w_heap w) full) as Hbf.
      { assert (∀ l, h ∉ l → bytes_to_fill (w_heap w1') l = bytes_to_fill (w_heap w) l) as Hgen.
        { induction l as [|a l IHl]; intros Hn; simpl; [reflexivity|].
          apply not_elem_of_cons in Hn as [Hn1 Hn2].
          rewrite IHl by exact Hn2. rewrite Hw1, upd_other by done. reflexivity. }
        apply Hgen. intros Hin. apply Hnotin. rewrite E1. apply elem_of_app. left. exact Hin. }
      rewrite Hbf in Hcr. fold b. lia.
Qed.

(** C4.  [rcvr_targets_read] on well-formed queues whose posted targets all
    have room left: the buffers it moves from [tgtposted] to
    [ready_for_terminal] are, in order, the buffers [full], each filled to its
    allocation out of the credit [nfull], followed by at most one buffer
    [partial], released only when the remote EOF has been seen and then with
    [0 < nused < nallocated].  Every released buffer has
    [nused ≤ nallocated]. *)
Theorem rcvr_targets_read_releases gs s r w :
  fifo_wf (tgtposted r) → fifo_wf (ready_for_terminal s) →
  NoDup (fifo_elems (tgtposted r)) →
  insertions (ready_for_terminal s) + Z.of_nat (length (fifo_elems (tgtposted r))) < 2 ^ 63 →
  0 ≤ nfull r < 2 ^ 64 →
  (∀ h, h ∈ fifo_elems (tgtposted r) → target_open (w_heap w) h) →
  match rcvr_targets_read gs s r w with
  | Ret (s', r', w') =>
      ∃ full partial,
        fifo_elems (ready_for_terminal s') =
          fifo_elems (ready_for_terminal s) ++ full ++ partial ∧
        (full ++ partial) `prefix_of` fifo_elems (tgtposted r) ∧
        (∀ h, h ∈ full ++ partial → nused (w_heap w' h) ≤ nallocated (w_heap w' h)) ∧
        (∀ h, h ∈ full → nused (w_heap w' h) = nallocated (w_heap w' h)) ∧
        bytes_to_fill (w_heap w) full ≤ nfull r ∧
        (length partial ≤ 1)%nat ∧
        (∀ h, h ∈ partial →
              eof_remote (r_cxn r) = true ∧
              0 < nused (w_heap w' h) < nallocated (w_heap w' h))
  | _ => False
  end.
Proof.
  intros Htp Hrft Hnd Hroom Hnf Hopen. unfold rcvr_targets_read.
  pose proof (rcvr_targets_read_loop_correct gs (S (fifo_occupancy (tgtposted r))) s r w
                Htp Hrft Hnd Hroom Hnf Hopen) as HL.
  rewrite (fifo_occupancy_wf _ Htp) in *. specialize (HL ltac:(right; lia)).
  destruct (rcvr_targets_read_loop _ gs s r w) as [[[s1 r1] w1]| |]; [|exact HL..].
  destruct HL as (full & E1 & E2 & W1 & W2 & Hins & Hcx & Hfilled & Hal & Hop & Hfr & Hn0 & Hcr).
  simpl.
  assert (∀ h, h ∈ full → nused (w_heap w1 h) = nallocated (w_heap w1 h)) as Hfilled'.
  { intros h Hin. rewrite Hal. auto. }
  assert (match (Ret (s1, r1, w1) : outcome (session_t * rcvr_t * world)) with
          | Ret (s', r', w') =>
              ∃ full0 partial,
                fifo_elems (ready_for_terminal s') =
                  fifo_elems (ready_for_terminal s) ++ full0 ++ partial ∧
                (full0 ++ partial) `prefix_of` fifo_elems (tgtposted r) ∧
                (∀ h, h ∈ full0 ++ partial → nused (w_heap w' h) ≤ nallocated (w_heap w' h)) ∧
                (∀ h, h ∈ full0 → nused (w_heap w' h) = nallocated (w_heap w' h)) ∧
                bytes_to_fill (w_heap w) full0 ≤ nfull r ∧
                (length partial ≤ 1)%nat ∧
                (∀ h, h ∈ partial →
                      eof_remote (r_cxn r) = true ∧
                      0 < nused (w_heap w' h) < nallocated (w_heap w' h))
          | _ => False
          end) as Hplain.
  { exists full, []. rewrite app_nil_r. split_and!; auto; try lia.
    - exists (fifo_elems (tgtposted r1)). exact E1.
    - intros h Hin. rewrite (Hfilled' _ Hin). lia.
    - intros h Hin. by apply not_elem_of_nil in Hin. }
  rewrite Hcx. destruct (eof_remote (r_cxn r)) eqn:Heof; [|exact Hplain].
  rewrite (fifo_peek_wf _ W1). simpl.
  destruct (fifo_elems (tgtposted r1)) as [|h rest] eqn:El; simpl; [exact Hplain|].
  destruct (Z.eqb_spec (nused (w_heap w1 h)) 0) as [Hz|Hnz]; simpl; [exact Hplain|].
  destruct (fifo_get_wf _ W1) as (tp2 & Hget & _). rewrite Hget. simpl.
  pose proof (fifo_elems_bound _ W2) as Hb.
  assert (Z.of_nat (length (fifo_elems (tgtposted r))) =
          Z.of_nat (length full) + 1 + Z.of_nat (length rest)) as Hlen.
  { rewrite E1, length_app. simpl. lia. }
  destruct (Hop h ltac:(left)) as [Hused Halloc].
  destruct (Z.eq_dec (Z.of_nat (length (fifo_elems (ready_for_terminal s1))))
                     (fifo_capacity (ready_for_terminal s1))) as [Efull|Efree].
  - rewrite (fifo_put_full _ h W2 Efull). simpl.
    destruct Hplain as (full0 & partial & H1 & H2 & H3 & H4 & H5 & H6 & H7).
    exists full0, partial. rewrite !w_heap_close. split_and!; auto.
  - destruct (fifo_put_wf _ h W2 ltac:(lia) ltac:(lia)) as (rft2 & Hput & Eput & _).
    rewrite Hput. simpl. rewrite !w_heap_close.
    exists full, [h]. rewrite Eput, E2, <- app_assoc. split_and!; auto; try lia.
    + exists rest. rewrite E1, <- app_assoc. reflexivity.
    + intros h' Hin. apply elem_of_app in Hin as [Hin|Hin].
      * rewrite (Hfilled' _ Hin). lia.
      * apply list_elem_of_singleton in Hin as ->. lia.
    + intros h' Hin. apply list_elem_of_singleton in Hin as ->. split; [reflexivity|lia].
Qed.

(** Three targets of 23, 29 and 31 bytes, 60 bytes of credit and the remote
    EOF seen: the first two are released full and the third with 8 bytes. *)
Lemma rcvr_targets_read_releases_witness :
  let s := session0 in
  let r := rcvr_three_targets 60 true in
  let w := mk_world heap_three_targets (fabric0 []) next_key_pool_init in
  match rcvr_targets_read gs0 s r w with
  | Ret (s', r', w') =>
      ∃ full partial,
        fifo_elems (ready_for_terminal s') =
          fifo_elems (ready_for_terminal s) ++ full ++ partial ∧
        (full ++ partial) `prefix_of` fifo_elems (tgtposted r) ∧
        (∀ h, h ∈ full ++ partial → nused (w_heap w' h) ≤ nallocated (w_heap w' h)) ∧
        (∀ h, h ∈ full → nused (w_heap w' h) = nallocated (w_heap w' h)) ∧
        bytes_to_fill (w_heap w) full ≤ nfull r ∧
        (length partial ≤ 1)%nat ∧
        (∀ h, h ∈ partial →
              eof_remote (r_cxn r) = true ∧
              0 < nused (w_heap w' h) < nallocated (w_heap w' h))
  | _ => False
  end.
Proof.
  intros s r w.
  apply (rcvr_targets_read_releases gs0 s r w).
  - apply fifo_of_list_wf; simpl; lia.
  - apply fifo_of_list_wf; simpl; lia.
  - vm_compute. repeat constructor; intros H;
      repeat (apply elem_of_cons in H as [H|H]; [discriminate|]);
      by apply not_elem_of_nil in H.
  - vm_compute. reflexivity.
  - vm_compute. split; [discriminate|reflexivity].
  - intros h Hin. vm_compute in Hin.
    repeat (apply elem_of_cons in Hin as [->|Hin];
            [vm_compute; split_and!; (discriminate || reflexivity)|]).
    by apply not_elem_of_nil in Hin.
Defined.

Example rcvr_targets_read_example :
  match rcvr_targets_read gs0 session0 (rcvr_three_targets 60 true)
          (mk_world heap_three_targets (fabric0 []) next_key_pool_init) with
  | Ret (s', r', w') =>
      fifo_elems (ready_for_terminal s') = [3; 4; 6]%nat ∧
      fifo_elems (tgtposted r') = [] ∧ nfull r' = 0 ∧
      nused (w_heap w' 3%nat) = 23 ∧ nused (w_heap w' 4%nat) = 29 ∧
      nused (w_heap w' 6%nat) = 8 ∧ nallocated (w_heap w' 6%nat) = 31
  | _ => False
  end.
Proof. vm_compute. split_and!; reflexivity. Qed.

(** ** Progress messages and the local EOF flag *)

Lemma buflist_get_Some bl h bl' :
  buflist_get bl = (Some h, bl') → bl_nfull bl ≠ 0.
Proof.
  unfold buflist_get. destruct (Z.eqb_spec (bl_nfull bl) 0); [discriminate|auto].
Qed.

(** C10.  When [xmtr_progress_update] enqueues a progress message, its
    [nleftover] is 0 or 1, and it is 0 exactly when the message declares the
    local EOF: the terminal has reached EOF, [ready_for_cxn] and [wrposted]
    are empty, and the local EOF had not been sent.  [nfilled] carries the
    bytes of progress; nothing of the source but its EOF flag enters the
    message.  Otherwise the routine changes nothing. *)
Theorem xmtr_progress_update_nleftover s x hp :
  fifo_wf (tx_ready (x_progress x)) →
  insertions (tx_ready (x_progress x)) + 1 < 2 ^ 63 →
  match xmtr_progress_update s x hp with
  | Ret (x', hp') =>
      (x' = x ∧ hp' = hp) ∨
      ∃ pb,
        fifo_elems (tx_ready (x_progress x')) = fifo_elems (tx_ready (x_progress x)) ++ [pb] ∧
        (nleftover (progbuf_msg (hp' pb)) = 0 ∨ nleftover (progbuf_msg (hp' pb)) = 1) ∧
        (nleftover (progbuf_msg (hp' pb)) = 0 ↔
           eof (terminal s) = true ∧ fifo_empty (ready_for_cxn s) = true ∧
           fifo_empty (wrposted x) = true ∧ eof_local (x_cxn x) = false) ∧
        nfilled (progbuf_msg (hp' pb)) = bytes_progress x
  | _ => False
  end.
Proof.
  intros Hwf Hroom. unfold xmtr_progress_update.
  assert (xmtr_reached_eof s x = true ↔
          eof (terminal s) = true ∧ fifo_empty (ready_for_cxn s) = true ∧
          fifo_empty (wrposted x) = true ∧ eof_local (x_cxn x) = false) as Hre.
  { unfold xmtr_reached_eof. rewrite !andb_true_iff, negb_true_iff. tauto. }
  destruct ((bytes_progress x =? 0) && negb (xmtr_reached_eof s x)); [left; auto|].
  rewrite (fifo_full_wf _ Hwf).
  destruct (Z.eqb_spec (Z.of_nat (length (fifo_elems (tx_ready (x_progress x)))))
                       (fifo_capacity (tx_ready (x_progress x)))) as [Ef|Ef]; [left; auto|].
  destruct (buflist_get (tx_pool (x_progress x))) as [[pb|] pool]; [|left; auto].
  simpl. pose proof (fifo_elems_bound _ Hwf) as Hb.
  destruct (fifo_put_wf _ pb Hwf Hroom ltac:(lia)) as (ready' & Hput & Eput & _).
  rewrite Hput. simpl. right. exists pb.
  destruct (xmtr_reached_eof s x) eqn:Hr; simpl; rewrite !upd_same; simpl.
  - split_and!; auto. split; [intros _; apply Hre; reflexivity|reflexivity].
  - split_and!; auto. split; [discriminate|]. intros H. apply Hre in H. discriminate.
Qed.

(** The source is drained and 5 bytes were written since the last report:
    the message enqueued is [(5, 0)]. *)
Lemma xmtr_progress_update_nleftover_witness :
  match xmtr_progress_update session_at_eof xmtr_at_eof heap_progbuf with
  | Ret (x', hp') =>
      (x' = xmtr_at_eof ∧ hp' = heap_progbuf) ∨
      ∃ pb,
        fifo_elems (tx_ready (x_progress x')) =
          fifo_elems (tx_ready (x_progress xmtr_at_eof)) ++ [pb] ∧
        (nleftover (progbuf_msg (hp' pb)) = 0 ∨ nleftover (progbuf_msg (hp' pb)) = 1) ∧
        (nleftover (progbuf_msg (hp' pb)) = 0 ↔
           eof (terminal session_at_eof) = true ∧
           fifo_empty (ready_for_cxn session_at_eof) = true ∧
           fifo_empty (wrposted xmtr_at_eof) = true ∧ eof_local (x_cxn xmtr_at_eof) = false) ∧
        nfilled (progbuf_msg (hp' pb)) = bytes_progress xmtr_at_eof
  | _ => False
  end.
Proof.
  apply (xmtr_progress_update_nleftover session_at_eof xmtr_at_eof heap_progbuf).
  - apply fifo_of_list_wf; simpl; lia.
  - vm_compute. reflexivity.
Defined.

Example xmtr_progress_update_example :
  match xmtr_progress_update session_at_eof xmtr_at_eof heap_progbuf with
  | Ret (x', hp') =>
      fifo_elems (tx_ready (x_progress x')) = [8%nat] ∧
      progbuf_msg (hp' 8%nat) = mk_progress_msg 5 0 ∧
      eof_local (x_cxn x') = true ∧ bytes_progress x' = 0
  | _ => False
  end.
Proof. vm_compute. split_and!; reflexivity. Qed.

(** [eof.local] changes in one place only.  The loops that fill vector
    messages leave it alone. *)
Lemma rcvr_vector_fill_eof n : ∀ i gs vb s r w,
  match rcvr_vector_fill n i gs vb s r w with
  | Ret (_, _, r', _) =>
      eof_local (r_cxn r') = eof_local (r_cxn r) ∧ r_vec r' = r_vec r
  | _ => True
  end.
Proof.
  induction n as [|n IH]; intros; simpl; [auto|].
  destruct (fifo_get (ready_for_cxn s)) as [[[h|] rfc]| |]; simpl; auto.
  destruct (reregister gs).
  - destruct (keysource_next _ _) as [[key ks] pool].
    destruct (buf_mr_reg _ _ _ _) as [rc w0].
    destruct (rc <? 0); simpl; auto.
    destruct (fifo_put _ _) as [[b tp]| |]; simpl; auto.
    match goal with |- context [rcvr_vector_fill n ?i ?gs ?vb ?s ?r ?w] =>
      specialize (IH i gs vb s r w); destruct (rcvr_vector_fill n i gs vb s r w) as [[[[? ?] ?] ?]| |]
    end; auto.
  - simpl.
    destruct (fifo_put _ _) as [[b tp]| |]; simpl; auto.
    match goal with |- context [rcvr_vector_fill n ?i ?gs ?vb ?s ?r ?w] =>
      specialize (IH i gs vb s r w); destruct (rcvr_vector_fill n i gs vb s r w) as [[[[? ?] ?] ?]| |]
    end; auto.
Qed.

Lemma rcvr_vector_loop_eof fuel : ∀ gs s r w,
  match rcvr_vector_loop fuel gs s r w with
  | Ret (_, r', _) => eof_local (r_cxn r') = eof_local (r_cxn r)
  | _ => True
  end.
Proof.
  induction fuel as [|fuel IH]; intros; cbn [rcvr_vector_loop].
  - destruct (_ || _); auto.
    destruct (buflist_get _) as [[vb|] pool]; auto.
  - destruct (_ || _); auto.
    destruct (buflist_get _) as [[vb|] pool]; auto.
    match goal with |- context [rcvr_vector_fill ?n ?i ?gs ?vb ?s ?r ?w] =>
      pose proof (rcvr_vector_fill_eof n i gs vb s r w) as Hf;
      destruct (rcvr_vector_fill n i gs vb s r w) as [[[[i1 s1] r1] w1]| |]
    end; simpl; auto.
    destruct Hf as [Hf _].
    destruct (fifo_put _ _) as [[b ready]| |]; simpl; auto.
    match goal with |- context [rcvr_vector_loop fuel ?gs ?s ?r ?w] =>
      specialize (IH gs s r w); destruct (rcvr_vector_loop fuel gs s r w) as [[[? ?] ?]| |]
    end; auto.
    simpl in IH. rewrite IH, Hf. reflexivity.
Qed.

(** [rcvr_vector_update] never clears [eof.local]; it sets it only from
    false, after the remote EOF, and together with putting an empty vector
    message on [vec.ready]; no fabric operation is issued on the way. *)
Lemma rcvr_vector_update_eof_local gs s r w :
  fifo_wf (tx_ready (r_vec r)) →
  insertions (tx_ready (r_vec r)) + 1 < 2 ^ 63 →
  match rcvr_vector_update gs s r w with
  | Ret (s', r', w') =>
      eof_local (r_cxn r') = eof_local (r_cxn r) ∨
      (eof_local (r_cxn r) = false ∧ eof_local (r_cxn r') = true ∧
       eof_remote (r_cxn r) = true ∧
       ∃ vb, fifo_elems (tx_ready (r_vec r')) = fifo_elems (tx_ready (r_vec r)) ++ [vb] ∧
             niovs (vecbuf_msg (w_heap w' vb)) = 0 ∧
             oplog (w_fabric w') = oplog (w_fabric w))
  | _ => True
  end.
Proof.
  intros Hwf Hroom. unfold rcvr_vector_update.
  destruct (eof_remote (r_cxn r)) eqn:Er; simpl;
    [|pose proof (rcvr_vector_loop_eof (Z.to_nat (bl_nfull (tx_pool (r_vec r)))) gs s r w) as H;
      destruct (rcvr_vector_loop _ _ _ _ _) as [[[? ?] ?]| |]; auto].
  destruct (eof_local (r_cxn r)) eqn:El; simpl;
    [pose proof (rcvr_vector_loop_eof (Z.to_nat (bl_nfull (tx_pool (r_vec r)))) gs s r w) as H;
      destruct (rcvr_vector_loop _ _ _ _ _) as [[[? ?] ?]| |]; auto; left; congruence|].
  rewrite (fifo_full_wf _ Hwf).
  destruct (Z.eqb_spec (Z.of_nat (length (fifo_elems (tx_ready (r_vec r)))))
                       (fifo_capacity (tx_ready (r_vec r)))) as [Ef|Ef]; simpl;
    [pose proof (rcvr_vector_loop_eof (Z.to_nat (bl_nfull (tx_pool (r_vec r)))) gs s r w) as H;
      destruct (rcvr_vector_loop _ _ _ _ _) as [[[? ?] ?]| |]; auto; left; congruence|].
  destruct (buflist_get _) as [[vb|] pool];
    [|pose proof (rcvr_vector_loop_eof (Z.to_nat (bl_nfull (tx_pool (r_vec r)))) gs s r w) as H;
      destruct (rcvr_vector_loop _ _ _ _ _) as [[[? ?] ?]| |]; auto; left; congruence].
  pose proof (fifo_elems_bound _ Hwf) as Hb.
  destruct (fifo_put_wf _ vb Hwf Hroom ltac:(lia)) as (ready' & Hput & Eput & _).
  rewrite Hput. simpl. right. split_and!; auto.
  exists vb. split_and!; auto. rewrite !upd_same. reflexivity.
Qed.

(** [xmtr_progress_update] likewise: [eof.local] is set only from false,
    together with putting a zero-leftover progress message on
    [progress.ready]. *)
Lemma xmtr_progress_update_eof_local s x hp :
  fifo_wf (tx_ready (x_progress x)) →
  insertions (tx_ready (x_progress x)) + 1 < 2 ^ 63 →
  match xmtr_progress_update s x hp with
  | Ret (x', hp') =>
      eof_local (x_cxn x') = eof_local (x_cxn x) ∨
      (eof_local (x_cxn x) = false ∧ eof_local (x_cxn x') = true ∧
       ∃ pb, fifo_elems (tx_ready (x_progress x')) = fifo_elems (tx_ready (x_progress x)) ++ [pb] ∧
             nleftover (progbuf_msg (hp' pb)) = 0)
  | _ => True
  end.
Proof.
  intros Hwf Hroom. unfold xmtr_progress_update.
  destruct ((bytes_progress x =? 0) && negb (xmtr_reached_eof s x)); [left; auto|].
  rewrite (fifo_full_wf _ Hwf).
  destruct (Z.eqb_spec (Z.of_nat (length (fifo_elems (tx_ready (x_progress x)))))
                       (fifo_capacity (tx_ready (x_progress x)))) as [Ef|Ef]; [left; auto|].
  destruct (buflist_get (tx_pool (x_progress x))) as [[pb|] pool]; [|left; auto].
  simpl. pose proof (fifo_elems_bound _ Hwf) as Hb.
  destruct (fifo_put_wf _ pb Hwf Hroom ltac:(lia)) as (ready' & Hput & Eput & _).
  rewrite Hput. simpl.
  destruct (xmtr_reached_eof s x) eqn:Hr; simpl.
  - destruct (eof_local (x_cxn x)) eqn:El; [left; reflexivity|].
    right. split_and!; auto. exists pb. rewrite !upd_same. auto.
  - left. reflexivity.
Qed.

(** C5, where the code leaves the claim.  The receiver has seen the remote
    EOF; [rcvr_vector_update] puts the empty vector on [vec.ready] and sets
    [eof.local] at once.  The fabric then answers try-again to
    [txctl_transmit]: the closing message is still on [vec.ready], nothing is
    posted and no send has been accepted, yet [eof.local] is already true. *)
Theorem rcvr_eof_local_set_before_send :
  let w := mk_world heap_vecbuf (fabric0 [- FI_EAGAIN]) next_key_pool_init in
  match rcvr_vector_update gs0 session0 rcvr_at_remote_eof w with
  | Ret (s1, r1, w1) =>
      eof_local (r_cxn rcvr_at_remote_eof) = false ∧
      eof_local (r_cxn r1) = true ∧
      oplog (w_fabric w1) = [] ∧
      match txctl_transmit (r_cxn r1) (r_vec r1) w1 with
      | Ret (vec2, w2) =>
          fifo_elems (tx_ready vec2) = [8%nat] ∧
          fifo_elems (tx_posted vec2) = [] ∧
          niovs (vecbuf_msg (w_heap w2 8%nat)) = 0 ∧
          oplog (w_fabric w2) = [(sendmsg_of (r_cxn r1) (w_heap w1) 8%nat, - FI_EAGAIN)]
      | _ => False
      end
  | _ => False
  end.
Proof. vm_compute. split_and!; reflexivity. Qed.

(** The same on the transmitter: [xmtr_progress_update] sets [eof.local]
    when it puts the zero-leftover progress message on [progress.ready], and
    a fabric that answers try-again leaves the message there. *)
Lemma xmtr_eof_local_set_before_send :
  match xmtr_progress_update session_at_eof xmtr_at_eof heap_progbuf with
  | Ret (x1, hp1) =>
      eof_local (x_cxn xmtr_at_eof) = false ∧ eof_local (x_cxn x1) = true ∧
      match txctl_transmit (x_cxn x1) (x_progress x1)
              (mk_world hp1 (fabric0 [- FI_EAGAIN]) next_key_pool_init) with
      | Ret (prog2, w2) =>
          fifo_elems (tx_ready prog2) = [8%nat] ∧ fifo_elems (tx_posted prog2) = []
      | _ => False
      end
  | _ => False
  end.
Proof. vm_compute. split_and!; reflexivity. Qed.

(** What follows from it in [rcvr_loop]: its closing test looks at
    [vec.posted] but not at [vec.ready], so in the very turn in which the
    fabric answered try-again the receiver closes its endpoint and ends the
    session, the closing vector still on [vec.ready]. *)
Lemma rcvr_loop_closes_before_send :
  let w := mk_world heap_vecbuf (fabric0 [- FI_EAGAIN; 0]) next_key_pool_init in
  match rcvr_loop_tail gs0 sink_done session_sink_done rcvr_at_remote_eof w with
  | Ret (ctl, _, _, r', w') =>
      ctl = loop_end ∧
      fifo_elems (tx_ready (r_vec r')) = [8%nat] ∧
      fifo_elems (tx_posted (r_vec r')) = [] ∧
      niovs (vecbuf_msg (w_heap w' 8%nat)) = 0 ∧
      oplog (w_fabric w') =
        [(sendmsg_of (r_cxn r') (w_heap w') 8%nat, - FI_EAGAIN);
         (op_close (ep (r_cxn r')), 0)]
  | _ => False
  end.
Proof. vm_compute. split_and!; reflexivity. Qed.

(** ** [sink_trade] *)

Lemma strlen_txbuf : strlen txbuf = 76.
Proof. reflexivity. Qed.

Lemma length_txbuf : length txbuf = 77%nat.
Proof. reflexivity. Qed.

Lemma pattern_bytes_app len off (n m : nat) :
  pattern_bytes len off (n + m) =
  pattern_bytes len off n ++ pattern_bytes len (off + Z.of_nat n) m.
Proof.
  unfold pattern_bytes. rewrite seq_app, fmap_app. f_equal. simpl.
  assert (seq n m = Nat.add n <$> seq 0 m) as ->
    by (rewrite fmap_add_seq; f_equal; lia).
  rewrite <- list_fmap_compose.
  apply list_fmap_ext. intros i x _. simpl. do 4 f_equal. lia.
Qed.

Lemma length_pattern_bytes len off n : length (pattern_bytes len off n) = n.
Proof. unfold pattern_bytes. rewrite length_fmap. apply length_seq. Qed.

(** A chunk that does not run over the end of the pattern is a slice of
    [txbuf]. *)
Lemma pattern_bytes_chunk off (k : nat) :
  0 ≤ off → off mod 76 + Z.of_nat k ≤ 76 →
  take k (drop (Z.to_nat (off mod 76)) txbuf) = pattern_bytes 76 off k.
Proof.
  intros Hoff Hk. pose proof (Z.mod_pos_bound off 76 ltac:(lia)) as Hm.
  apply list_eq. intros i. unfold pattern_bytes.
  rewrite list_lookup_fmap.
  destruct (decide (i < k)%nat) as [Hi|Hi].
  - rewrite lookup_take_lt, lookup_drop, lookup_seq_lt by lia. simpl.
    assert ((off + Z.of_nat i) mod 76 = off mod 76 + Z.of_nat i) as ->.
    { rewrite <- Zplus_mod_idemp_l. apply Z.mod_small. lia. }
    replace (Z.to_nat (off mod 76) + i)%nat with (Z.to_nat (off mod 76 + Z.of_nat i)) by lia.
    destruct (lookup_lt_is_Some_2 txbuf (Z.to_nat (off mod 76 + Z.of_nat i))) as [x Hx].
    { rewrite length_txbuf. lia. }
    rewrite Hx. reflexivity.
  - rewrite lookup_take_ge by lia.
    rewrite (proj2 (lookup_ge_None _ _)); [reflexivity|]. rewrite length_seq. lia.
Qed.

Lemma sink_mismatch_unfold fuel s payload used ofs :
  sink_mismatch fuel s payload used ofs =
  if ofs <? used then
    match fuel with
    | O => OutOfFuel
    | S fuel' =>
        let txbuf_ofs := wrap64 (idx s + ofs) mod txbuflen s in
        let len := minsize_sz (wrap64 (used - ofs)) (wrap64 (txbuflen s - txbuf_ofs)) in
        if memcmp_differs (drop (Z.to_nat ofs) payload) (drop (Z.to_nat txbuf_ofs) txbuf) len
        then Ret true
        else sink_mismatch fuel' s payload used (wrap64 (ofs + len))
    end
  else Ret false.
Proof. destruct fuel; reflexivity. Qed.

(** The chunked comparison of [sink_trade] is the byte-for-byte comparison
    of the rest of the buffer with the pattern. *)
Lemma sink_mismatch_correct s payload used :
  txbuflen s = 76 → 0 ≤ idx s → idx s + used < 2 ^ 64 →
  used ≤ Z.of_nat (length payload) →
  ∀ (fuel : nat) ofs,
    0 ≤ ofs ≤ used → used - ofs ≤ Z.of_nat fuel →
    sink_mismatch fuel s payload used ofs =
    Ret (negb (bool_decide
                 (take (Z.to_nat (used - ofs)) (drop (Z.to_nat ofs) payload) =
                  pattern_bytes 76 (idx s + ofs) (Z.to_nat (used - ofs))))).
Proof.
  intros Hlen Hidx Hsum Hpay fuel.
  induction fuel as [|fuel IH]; intros ofs Hofs Hfuel; rewrite sink_mismatch_unfold.
  - destruct (Z.ltb_spec ofs used); [lia|].
    replace (used - ofs) with 0 by lia. reflexivity.
  - destruct (Z.ltb_spec ofs used) as [Hlt|Hge].
    2:{ replace (used - ofs) with 0 by lia. reflexivity. }
    rewrite Hlen. simpl.
    rewrite (wrap64_small (idx s + ofs)) by lia.
    pose proof (Z.mod_pos_bound (idx s + ofs) 76 ltac:(lia)) as Hm.
    set (t := (idx s + ofs) mod 76) in *.
    rewrite (wrap64_small (used - ofs)), (wrap64_small (76 - t)) by lia.
    rewrite minsize_sz_small by lia.
    set (len := Z.min (used - ofs) (76 - t)).
    assert (1 ≤ len ≤ used - ofs ∧ len ≤ 76 - t) as Hl by (unfold len; lia).
    rewrite (wrap64_small (ofs + len)) by lia.
    rewrite (IH (ofs + len)) by lia.
    unfold memcmp_differs.
    replace (Z.to_nat (used - ofs)) with (Z.to_nat len + Z.to_nat (used - (ofs + len)))%nat by lia.
    rewrite <- take_take_drop, drop_drop, pattern_bytes_app.
    replace (Z.to_nat ofs + Z.to_nat len)%nat with (Z.to_nat (ofs + len)) by lia.
    replace (idx s + ofs + Z.of_nat (Z.to_nat len)) with (idx s + (ofs + len)) by lia.
    unfold t. rewrite pattern_bytes_chunk by (fold t; lia).
    set (a1 := take (Z.to_nat len) (drop (Z.to_nat ofs) payload)).
    set (b1 := pattern_bytes 76 (idx s + ofs) (Z.to_nat len)).
    set (a2 := take _ (drop (Z.to_nat (ofs + len)) payload)).
    set (b2 := pattern_bytes 76 (idx s + (ofs + len)) _).
    assert (length a1 = length b1) as Hlen12.
    { unfold a1, b1. rewrite length_pattern_bytes, length_take, length_drop. lia. }
    destruct (decide (a1 = b1)) as [E1|E1].
    + rewrite (bool_decide_eq_true_2 _ E1). simpl. f_equal. f_equal.
      apply bool_decide_ext. split.
      * intros ->. rewrite E1. reflexivity.
      * intros E. apply app_inj_1 in E; [tauto|exact Hlen12].
    + rewrite (bool_decide_eq_false_2 _ E1). simpl. f_equal. symmetry.
      apply negb_true_iff, bool_decide_eq_false. intros E.
      apply app_inj_1 in E; [tauto|exact Hlen12].
Qed.

Lemma sink_trade_loop_unfold fuel s ready completed hp :
  sink_trade_loop fuel s ready completed hp =
  oh ← fifo_peek ready;
  match oh with
  | None => Ret (false, s, ready, completed)
  | Some h =>
      if fifo_full completed then Ret (false, s, ready, completed)
      else
        match fuel with
        | O => OutOfFuel
        | S fuel' =>
            if entirelen s <? wrap64 (nused (hp h) + idx s)
            then Ret (true, s, ready, completed)
            else
              bad ← sink_mismatch (Z.to_nat (nused (hp h))) s
                      (bytebuf_payload (hp h)) (nused (hp h)) 0;
              if (bad : bool) then Ret (true, s, ready, completed)
              else
                '(_, ready) ← fifo_get ready;
                '(_, completed) ← fifo_put completed h;
                sink_trade_loop fuel' (set_idx (wrap64 (idx s + nused (hp h))) s)
                                ready completed hp
        end
  end.
Proof. destruct fuel; reflexivity. Qed.

Lemma sink_mismatch_buffer s b :
  sink_ok s → sink_buffer_ok s b →
  sink_mismatch (Z.to_nat (nused b)) s (bytebuf_payload b) (nused b) 0 =
  Ret (negb (bool_decide (buffer_matches s b))).
Proof.
  intros (Hlen & Hidx & Hent) (Hused & Hbig). rewrite strlen_txbuf in Hlen.
  rewrite (sink_mismatch_correct s (bytebuf_payload b) (nused b)) by lia.
  do 2 f_equal. apply bool_decide_ext.
  unfold buffer_matches. rewrite Hlen, Z.sub_0_r, Z.add_0_r. reflexivity.
Qed.

(** What the [while] loop of [sink_trade] leaves.  The buffers [consumed]
    went from [ready] to [completed]; the loop fails exactly when the sink
    refuses the next buffer while [completed] has room for it. *)
Lemma sink_trade_loop_correct hp :
  ∀ fuel s ready completed,
    sink_ok s → fifo_wf ready → fifo_wf completed →
    insertions completed + Z.of_nat (length (fifo_elems ready)) < 2 ^ 63 →
    (∀ h, h ∈ fifo_elems ready → sink_buffer_ok s (hp h)) →
    (length (fifo_elems ready) ≤ fuel)%nat →
    match sink_trade_loop fuel s ready completed hp with
    | Ret (failed, s', ready', completed') =>
        ∃ consumed,
          fifo_elems ready = consumed ++ fifo_elems ready' ∧
          fifo_elems completed' = fifo_elems completed ++ consumed ∧
          consumed_ok hp s consumed ∧
          s' = set_idx (idx s + bytes_used hp consumed) s ∧
          idx s' ≤ entirelen s ∧
          (failed = true ↔
             ∃ h, head (fifo_elems ready') = Some h ∧
                  Z.of_nat (length (fifo_elems completed')) < fifo_capacity completed' ∧
                  sink_refuses hp s' h) ∧
          (failed = false →
             fifo_elems ready' = [] ∨
             Z.of_nat (length (fifo_elems completed')) = fifo_capacity completed')
    | _ => False
    end.
Proof.
  assert (∀ s : sink_t, set_idx (idx s + 0) s = s) as Hid.
  { intros [t i l e]. unfold set_idx. simpl. f_equal. lia. }
  induction fuel as [|fuel IH]; intros s ready completed Hs Hr Hc Hroom Hbuf Hfuel;
    rewrite sink_trade_loop_unfold, (fifo_peek_wf _ Hr); simpl.
  all: destruct (fifo_elems ready) as [|h rest] eqn:El; simpl.
  all: try (exists []; rewrite ?El, ?app_nil_r; simpl; rewrite Hid;
            destruct Hs as (? & ? & ?);
            split_and!; auto; try lia;
            [split; [discriminate|intros (? & ? & _); discriminate]]).
  { simpl in Hfuel. lia. }
  rewrite (fifo_full_wf _ Hc). pose proof (fifo_elems_bound _ Hc) as Hb.
  destruct (Z.eqb_spec (Z.of_nat (length (fifo_elems completed))) (fifo_capacity completed))
    as [Ef|Ef].
  { exists []. rewrite ?El, ?app_nil_r. simpl. rewrite Hid. destruct Hs as (? & ? & ?).
    split_and!; auto; try lia.
    split; [discriminate|]. intros (? & _ & ? & _). lia. }
  pose proof (Hbuf h ltac:(left)) as Hbh. pose proof Hs as (Hlen & Hidx & Hent).
  pose proof Hbh as (Hused & Hbig).
  rewrite (wrap64_small (nused (hp h) + idx s)) by lia.
  destruct (Z.ltb_spec (entirelen s) (nused (hp h) + idx s)) as [Hover|Hfit].
  { exists []. rewrite ?El, ?app_nil_r. simpl. rewrite Hid.
    split_and!; auto; try lia; try discriminate.
    split; [|reflexivity]. intros _. exists h. split_and!; auto; try lia.
    left. lia. }
  rewrite (sink_mismatch_buffer s (hp h) Hs Hbh). simpl.
  destruct (decide (buffer_matches s (hp h))) as [Hm|Hm].
  2:{ rewrite (bool_decide_eq_false_2 _ Hm). simpl.
      exists []. rewrite ?El, ?app_nil_r. simpl. rewrite Hid.
      split_and!; auto; try lia; try discriminate.
      split; [|reflexivity]. intros _. exists h. split_and!; auto; try lia.
      right. exact Hm. }
  rewrite (bool_decide_eq_true_2 _ Hm). simpl.
  destruct (fifo_get_wf _ Hr) as (ready1 & Hget & Eget & Hr1 & _ & _).
  rewrite Hget. simpl. rewrite El in Eget. simpl in Eget, Hroom.
  destruct (fifo_put_wf completed h Hc ltac:(lia) ltac:(lia))
    as (completed1 & Hput & Eput & Hc1 & Hm1 & Hi1).
  rewrite Hput. simpl. rewrite (wrap64_small (idx s + nused (hp h))) by lia.
  specialize (IH (set_idx (idx s + nused (hp h)) s) ready1 completed1).
  simpl in IH. rewrite Eget, Hi1 in IH.
  specialize (IH ltac:(unfold sink_ok; simpl; split_and!; auto; lia) Hr1 Hc1 ltac:(lia)).
  specialize (IH ltac:(intros h' Hin; apply Hbuf; right; exact Hin)
                 ltac:(simpl in Hfuel; lia)).
  destruct (sink_trade_loop fuel _ ready1 completed1 hp)
    as [[[[failed s'] ready'] completed']| |]; [|exact IH..].
  destruct IH as (consumed & E1 & E2 & Hok & Hs' & Hle & Hfail & Hstop).
  exists (h :: consumed). rewrite ?El, E1, E2, Eput, <- app_assoc. simpl in *.
  rewrite E2, Eput, <- app_assoc in Hfail, Hstop. simpl in Hfail, Hstop.
  split_and!; auto; try lia.
  rewrite Hs'. unfold set_idx. simpl. f_equal. lia.
Qed.

(** Why the theorem below asks for buffers that hold bytes.  A sink that has
    seen all its bytes and finds an empty buffer on [ready], which
    [rcvr_targets_read] never queues: the buffer holds no byte that differs
    from the pattern and taking it would not pass [entirelen], yet the call
    returns [loop_error]. *)
Example sink_trade_empty_buffer_example :
  let hp : heap := <[3%nat := bytebuf0 0 []]> heap0 in
  match sink_trade sink_done (fifo_of_list 2 [3%nat]) (fifo_of_list 2 []) hp with
  | Ret (ctl, s', ready', completed') =>
      buffer_matches sink_done (hp 3%nat) ∧
      idx sink_done + nused (hp 3%nat) ≤ entirelen sink_done ∧
      idx s' = entirelen s' ∧
      ctl = loop_error ∧ ctl ≠ loop_end
  | _ => False
  end.
Proof. vm_compute. split_and!; (reflexivity || discriminate). Qed.

(** [fifo_put] keeps the size of the ring. *)
Lemma fifo_put_mask f h b f' :
  fifo_put f h = Ret (b, f') → index_mask f' = index_mask f.
Proof.
  unfold fifo_put.
  destruct (_ <? _); [discriminate|].
  destruct (_ <? _); intros H; inversion H; reflexivity.
Qed.

(** The loop of [sink_trade] keeps the size of [completed]. *)
Lemma sink_trade_loop_mask hp :
  ∀ fuel s ready completed failed s' ready' completed',
    sink_trade_loop fuel s ready completed hp = Ret (failed, s', ready', completed') →
    index_mask completed' = index_mask completed.
Proof.
  induction fuel as [|fuel IH]; intros s ready completed failed s' ready' completed';
    rewrite sink_trade_loop_unfold;
    destruct (fifo_peek ready) as [[h|]| |];
    cbv beta iota zeta delta [mbind outcome_bind]; try discriminate;
    try (intros H; inversion H; reflexivity).
  all: destruct (fifo_full completed); try (intros H; inversion H; reflexivity);
       try discriminate.
  destruct (entirelen s <? _); [intros H; inversion H; reflexivity|].
  destruct (sink_mismatch _ _ _ _ _) as [[|]| |]; try discriminate;
    [intros H; inversion H; reflexivity|].
  destruct (fifo_get ready) as [[o ready1]| |]; try discriminate.
  destruct (fifo_put completed h) as [[b completed1]| |] eqn:Ep; try discriminate.
  intros H. apply IH in H. rewrite H. eapply fifo_put_mask. exact Ep.
Qed.

(** C8.  [sink_trade] as [rcvr_loop] calls it: the EOF flag of the sink is
    set only once it has seen [entirelen] bytes, every buffer on [ready] holds
    at least one byte, within its payload, and [completed] has room for the
    buffers on [ready].  The call takes buffers [consumed] off the head of
    [ready] and puts them on [completed] in order; each of them holds the
    repeating pattern at the offset the sink had reached, and the sink's
    offset advances by their used bytes.  It returns [loop_error] exactly
    when it refuses the next buffer: taking it would pass [entirelen], or a
    byte of it differs from the pattern; otherwise it has taken every buffer
    of [ready].  Without an error it returns [loop_end], with the EOF flag set,
    exactly when the bytes seen equal [entirelen], and [loop_continue] if
    not. *)
Theorem sink_trade_result s ready completed hp :
  sink_ok s → fifo_wf ready → fifo_wf completed →
  insertions completed + Z.of_nat (length (fifo_elems ready)) < 2 ^ 63 →
  (eof (sink_terminal s) = true → idx s = entirelen s) →
  Z.of_nat (length (fifo_elems completed)) + Z.of_nat (length (fifo_elems ready))
    ≤ fifo_capacity completed →
  (∀ h, h ∈ fifo_elems ready → sink_buffer_ok s (hp h) ∧ 0 < nused (hp h)) →
  match sink_trade s ready completed hp with
  | Ret (ctl, s', ready', completed') =>
      ∃ consumed,
        fifo_elems ready = consumed ++ fifo_elems ready' ∧
        fifo_elems completed' = fifo_elems completed ++ consumed ∧
        consumed_ok hp s consumed ∧
        idx s' = idx s + bytes_used hp consumed ∧
        (ctl = loop_error ↔
           ∃ h, head (fifo_elems ready') = Some h ∧ sink_refuses hp s' h) ∧
        (ctl ≠ loop_error → fifo_elems ready' = []) ∧
        (ctl = loop_end ↔ ctl ≠ loop_error ∧ idx s' = entirelen s) ∧
        (ctl = loop_continue ↔ ctl ≠ loop_error ∧ idx s' ≠ entirelen s) ∧
        (ctl = loop_end → eof (sink_terminal s') = true)
  | _ => False
  end.
Proof.
  intros Hs Hr Hc Hroom Heof Hcap Hbuf0.
  assert (∀ h, h ∈ fifo_elems ready → sink_buffer_ok s (hp h)) as Hbuf
    by (intros h Hin; apply Hbuf0; exact Hin).
  unfold sink_trade.
  rewrite (fifo_empty_wf _ Hr).
  destruct (eof (sink_terminal s) && negb (bool_decide (fifo_elems ready = []))) eqn:Hearly.
  - apply andb_true_iff in Hearly as [He Hne].
    apply negb_true_iff, bool_decide_eq_false in Hne.
    exists []. rewrite app_nil_r. simpl.
    split_and!; auto; try lia; try discriminate;
      try (split; [discriminate|intros [H _]; congruence]); try congruence.
    split; [intros _|reflexivity].
    destruct (fifo_elems ready) as [|h rest] eqn:El; [contradiction|].
    exists h. split; [reflexivity|]. left.
    destruct (Hbuf0 h ltac:(left)) as [_ Hpos].
    rewrite (Heof He). lia.
  - pose proof (sink_trade_loop_correct hp (fifo_occupancy ready) s ready completed
                  Hs Hr Hc Hroom Hbuf) as HL.
    rewrite (fifo_occupancy_wf _ Hr) in *. specialize (HL ltac:(lia)).
    pose proof (sink_trade_loop_mask hp (length (fifo_elems ready)) s ready completed) as HM.
    destruct (sink_trade_loop _ s ready completed hp)
      as [[[[failed s1] ready1] completed1]| |]; [|exact HL..].
    specialize (HM _ _ _ _ eq_refl).
    destruct HL as (consumed & E1 & E2 & Hok & Hs1 & Hle & Hfail & Hstop).
    assert (failed = false → fifo_elems ready1 = []) as Hall.
    { intros Hf. destruct (Hstop Hf) as [E|E]; [exact E|].
      unfold fifo_capacity in *. rewrite HM, E2, length_app in E.
      rewrite E1, length_app in Hcap.
      destruct (fifo_elems ready1); [reflexivity|simpl in Hcap; lia]. }
    simpl. destruct failed.
    + exists consumed. rewrite Hs1 at 1. simpl.
      split_and!; auto; try discriminate; try congruence;
        try (split; [discriminate|intros [H _]; congruence]).
      split; [intros _|reflexivity].
      destruct (proj1 Hfail eq_refl) as (h & Hh & _ & Href). eauto.
    + specialize (Hall eq_refl).
      assert (¬ ∃ h, head (fifo_elems ready1) = Some h ∧ sink_refuses hp s1 h) as Hnf.
      { rewrite Hall. intros (h & Hh & _). discriminate. }
      assert (entirelen s1 = entirelen s) as Hent by (rewrite Hs1; reflexivity).
      destruct (Z.eqb_spec (idx s1) (entirelen s1)) as [Eq|Ne]; simpl.
      * exists consumed. rewrite Hs1 at 1. simpl.
        split_and!; auto.
        -- split; [discriminate|]. intros H. exfalso. apply Hnf. exact H.
        -- split; [intros _; split; [discriminate|lia]|reflexivity].
        -- split; [discriminate|]. intros [_ H]. lia.
      * exists consumed. rewrite Hs1 at 1. simpl.
        split_and!; auto.
        -- split; [discriminate|]. intros H. exfalso. apply Hnf. exact H.
        -- split; [discriminate|]. intros [_ H]. lia.
        -- split; [intros _; split; [discriminate|lia]|reflexivity].
        -- discriminate.
Qed.

(** A fresh sink expecting 152 bytes finds the first 23 and the next 29
    bytes of the pattern on [ready]. *)
Lemma sink_trade_result_witness :
  let ready := fifo_of_list 2 [3; 4]%nat in
  let completed := fifo_of_list 2 [] in
  match sink_trade sink_fresh ready completed heap_pattern with
  | Ret (ctl, s', ready', completed') =>
      ∃ consumed,
        fifo_elems ready = consumed ++ fifo_elems ready' ∧
        fifo_elems completed' = fifo_elems completed ++ consumed ∧
        consumed_ok heap_pattern sink_fresh consumed ∧
        idx s' = idx sink_fresh + bytes_used heap_pattern consumed ∧
        (ctl = loop_error ↔
           ∃ h, head (fifo_elems ready') = Some h ∧ sink_refuses heap_pattern s' h) ∧
        (ctl ≠ loop_error → fifo_elems ready' = []) ∧
        (ctl = loop_end ↔ ctl ≠ loop_error ∧ idx s' = entirelen sink_fresh) ∧
        (ctl = loop_continue ↔ ctl ≠ loop_error ∧ idx s' ≠ entirelen sink_fresh) ∧
        (ctl = loop_end → eof (sink_terminal s') = true)
  | _ => False
  end.
Proof.
  intros ready completed.
  apply (sink_trade_result sink_fresh ready completed heap_pattern).
  - vm_compute. split_and!; (reflexivity || discriminate).
  - apply fifo_of_list_wf; simpl; lia.
  - apply fifo_of_list_wf; simpl; lia.
  - vm_compute. reflexivity.
  - simpl. discriminate.
  - vm_compute. discriminate.
  - intros h Hin. vm_compute in Hin.
    repeat (apply elem_of_cons in Hin as [->|Hin];
            [vm_compute; split_and!; (discriminate || reflexivity)|]).
    by apply not_elem_of_nil in Hin.
Defined.

Example sink_trade_example :
  match sink_trade sink_fresh (fifo_of_list 2 [3; 4]%nat) (fifo_of_list 2 []) heap_pattern with
  | Ret (ctl, s', ready', completed') =>
      ctl = loop_continue ∧ idx s' = 52 ∧
      fifo_elems ready' = [] ∧ fifo_elems completed' = [3; 4]%nat
  | _ => False
  end.
Proof. vm_compute. split_and!; reflexivity. Qed.

(** ** The write planner: fragmentation *)

Lemma sel_oversize_load_spec maxbytes v x b :
  0 ≤ sel_total v ≤ maxbytes → maxbytes < 2 ^ 64 →
  0 ≤ fragment_offset x ≤ nused b → nused b < 2 ^ 64 →
  sel_oversize_load maxbytes v x b = true ↔
  maxbytes - sel_total v < nused b - fragment_offset x.
Proof.
  intros Ht Hm Ho Hn. unfold sel_oversize_load.
  rewrite !wrap64_small by lia. apply Z.ltb_lt.
Qed.

(** The optional registration of the head buffer touches the key source of
    the connection and the region and descriptor of the buffer only. *)
Lemma select_register_inv (cond : bool) access head (x : xmtr_t) (w : world) x1 w1 :
  (if cond then
     let '(key, ks, pool) := keysource_next (keys (x_cxn x)) (w_pool w) in
     let x := set_x_cxn (set_keys ks (x_cxn x)) x in
     let '(rc, w) := buf_mr_reg access key head (mk_world (w_heap w) (w_fabric w) pool) in
     if rc <? 0 then Exit else Ret (x, w)
   else Ret (x, w)) = Ret (x1, w1) →
  (∃ c, x1 = set_x_cxn c x) ∧
  (∀ h, nused (w_heap w1 h) = nused (w_heap w h) ∧ xfc (w_heap w1 h) = xfc (w_heap w h) ∧
        body (w_heap w1 h) = body (w_heap w h)).
Proof.
  destruct cond.
  - destruct (keysource_next _ _) as [[key ks] pool]. unfold buf_mr_reg. simpl.
    destruct (fabric_do _ _) as [rc fab].
    destruct (rc =? 0); simpl.
    + intros H. inversion H; subst. split; [eauto|]. intros h. simpl.
      destruct (decide (head = h)) as [<-|Hne].
      * rewrite upd_same. auto.
      * rewrite upd_other by done. auto.
    + destruct (rc <? 0); [discriminate|]. intros H. inversion H; subst.
      split; [eauto|]. auto.
  - intros H. inversion H; subst. split; [exists (x_cxn x1); by destruct x1|]. auto.
Qed.

Lemma buflist_get_changes bl h bl' :
  buflist_get bl = (Some h, bl') → bl' ≠ bl.
Proof.
  unfold buflist_get. destruct (Z.eqb_spec (bl_nfull bl) 0) as [E|E]; [discriminate|].
  intros H. inversion H; subst. intros Heq.
  assert (wrap64 (bl_nfull bl - 1) = bl_nfull bl) as Hw by (rewrite <- Heq at 2; reflexivity).
  pose proof (wrap64_range (bl_nfull bl - 1)) as Hr. unfold wrap64 in *.
  rewrite Z.mod_small in Hw; lia.
Qed.

(** Case analysis on every test and bind of a routine, for goals that only
    need the shape of the result. *)
Ltac crunch_shape :=
  repeat (match goal with
          | |- context [mbind _ ?m] => destruct m
          | |- context [match ?e with _ => _ end] => destruct e
          | |- context [if ?e then _ else _] => destruct e
          end; simpl; try discriminate).

Lemma xmtr_select_body_break gs maxbytes head v s x w :
  xmtr_select_body gs maxbytes head v s x w = Ret sel_break ↔
  sel_oversize_load maxbytes v x (w_heap w head) = true ∧ riovs_maxed_out gs x = false.
Proof.
  unfold xmtr_select_body.
  destruct (sel_oversize_load maxbytes v x (w_heap w head)) eqn:Hov;
    destruct (riovs_maxed_out gs x) eqn:Hmax; simpl.
  2:{ tauto. }
  all: split; [|intros [? ?]; discriminate].
  all: intros H; exfalso; revert H; crunch_shape.
Qed.

(** Inversion of a bind that returned. *)
Ltac bind_inv H :=
  match type of H with
  | mbind _ ?m = Ret _ =>
      let E := fresh "E" in
      destruct m eqn:E; simpl in H; [|discriminate H..]
  end.

Lemma xmtr_buf_split_inv x parent len hp f x' hp' :
  xmtr_buf_split x parent len hp = Ret (f, x', hp') →
  ∃ pool,
    buflist_get (fragment_pool x) = (Some f, pool) ∧
    x' = set_fragment pool (fragment_offset x) x ∧
    (f ≠ parent →
       xfc_nchildren (xfc (hp' parent)) = wrap8 (xfc_nchildren (xfc (hp parent)) + 1) ∧
       fragment_parent (hp' f) = parent ∧ raddr (hp' f) = fragment_offset x ∧
       nused (hp' f) = len ∧ nused (hp' parent) = nused (hp parent)) ∧
    (∀ h, h ≠ f → h ≠ parent → hp' h = hp h).
Proof.
  unfold xmtr_buf_split.
  destruct (negb (fragment_offset x <? nused (hp parent))); [discriminate|].
  destruct (negb (len <? wrap64 (nused (hp parent) - fragment_offset x))); [discriminate|].
  destruct (buflist_get (fragment_pool x)) as [[h|] pool] eqn:Hget; [|discriminate].
  intros H. inversion H; subst. exists pool. simpl. split_and!; auto.
  - intros Hne. rewrite !upd_same, !(upd_other f parent) by done.
    rewrite (upd_other parent f) by done. rewrite upd_same. simpl. auto.
  - intros h Hf Hp. rewrite !upd_other by done. reflexivity.
Qed.

(** One turn of the selection loop that selected a buffer: when the head is
    an oversize load the turn fragmented it, which needs the advertisements
    to be maxed out; when it is not, the turn took the head whole. *)
Lemma xmtr_select_body_next gs maxbytes head v s x w v' s' x' w' :
  xmtr_select_body gs maxbytes head v s x w = Ret (sel_next (v', s', x', w')) →
  nriovs x' = nriovs x ∧
  (if sel_oversize_load maxbytes v x (w_heap w head) then
     riovs_maxed_out gs x = true ∧
     s' = s ∧
     ∃ f, buflist_get (fragment_pool x) = (Some f, fragment_pool x') ∧
          sel_last_h v' = Some f ∧
          (f ≠ head →
             xfc_nchildren (xfc (w_heap w' head)) =
               wrap8 ((if fragment_offset x =? 0 then 0
                       else xfc_nchildren (xfc (w_heap w head))) + 1) ∧
             fragment_parent (w_heap w' f) = head)
   else
     fragment_pool x' = fragment_pool x ∧ sel_last_h v' = Some head ∧
     ∃ oh, fifo_get (ready_for_cxn s) = Ret (oh, ready_for_cxn s')).
Proof.
  unfold xmtr_select_body. intros H.
  destruct (sel_oversize_load maxbytes v x (w_heap w head)) eqn:Hov;
    destruct (riovs_maxed_out gs x) eqn:Hmax; simpl in H; try discriminate.
  - (* oversize load, advertisements maxed out: a fragment *)
    bind_inv H. destruct a as [x1 w1].
    apply select_register_inv in E as [[c ->] Hheap].
    bind_inv H. destruct a as [[[h s2] x2] w2].
    bind_inv E. destruct a as [[f x2'] hp2]. inversion E; subst; clear E.
    apply xmtr_buf_split_inv in E0 as (pool & Hget & -> & Hpar & Hfr).
    bind_inv H. destruct a as [ok wrp].
    destruct (phase x) eqn:Hph; simpl in H.
    all: bind_inv H; inversion H; subst; clear H.
    all: match type of E0 with
         | (if ?c then _ else _) = _ => destruct c; [discriminate|]
         end; inversion E0; subst; clear E0; simpl.
    all: split; [reflexivity|]; split; [reflexivity|]; split; [reflexivity|].
    all: exists h; split_and!; auto.
    all: intros Hne; destruct (Hpar Hne) as (Hn & Hp & _).
    all: rewrite !upd_other by done; split; [|rewrite upd_same; exact Hp].
    all: rewrite Hn; destruct (Hheap head) as (_ & -> & _).
    all: destruct (fragment_offset x =? 0); simpl; [rewrite upd_same|]; reflexivity.
  - (* the head fits: it is taken whole *)
    bind_inv H. destruct a as [x1 w1].
    apply select_register_inv in E as [[c ->] Hheap].
    bind_inv H. destruct a as [[[h s2] x2] w2].
    bind_inv E. destruct a as [oh rfc]. inversion E; subst; clear E.
    bind_inv H. destruct a as [ok wrp].
    inversion H; subst; clear H. simpl in *.
    split; [by destruct (phase x)|].
    split; [by destruct (phase x)|]. split; [reflexivity|].
    exists oh. first [exact E0 | reflexivity].
  - bind_inv H. destruct a as [x1 w1].
    apply select_register_inv in E as [[c ->] Hheap].
    bind_inv H. destruct a as [[[h s2] x2] w2].
    bind_inv E. destruct a as [oh rfc]. inversion E; subst; clear E.
    bind_inv H. destruct a as [ok wrp].
    inversion H; subst; clear H. simpl in *.
    split; [by destruct (phase x)|].
    split; [by destruct (phase x)|]. split; [reflexivity|].
    exists oh. first [exact E0 | reflexivity].
Qed.

Lemma fifo_get_not_stuck f : fifo_get f ≠ OutOfFuel.
Proof. unfold fifo_get. repeat case_match; discriminate. Qed.

Lemma fifo_put_not_stuck f h : fifo_put f h ≠ OutOfFuel.
Proof. unfold fifo_put. repeat case_match; discriminate. Qed.

Lemma fifo_peek_not_stuck f : fifo_peek f ≠ OutOfFuel.
Proof. unfold fifo_peek. repeat case_match; discriminate. Qed.

Lemma xmtr_buf_split_not_stuck x parent len hp : xmtr_buf_split x parent len hp ≠ OutOfFuel.
Proof. unfold xmtr_buf_split. repeat case_match; discriminate. Qed.

Lemma bind_not_stuck {A B} (m : outcome A) (f : A → outcome B) :
  m ≠ OutOfFuel → (∀ a, f a ≠ OutOfFuel) → m ≫= f ≠ OutOfFuel.
Proof. destruct m; simpl; auto; try discriminate; try (intros H; contradiction). Qed.

Lemma xmtr_select_body_not_stuck gs maxbytes head v s x w :
  xmtr_select_body gs maxbytes head v s x w ≠ OutOfFuel.
Proof.
  unfold xmtr_select_body.
  destruct (_ && negb _); [discriminate|].
  apply bind_not_stuck.
  { unfold buf_mr_reg. repeat case_match; discriminate. }
  intros [x1 w1]. apply bind_not_stuck.
  { destruct (sel_oversize_load _ _ _ _).
    - apply bind_not_stuck; [apply xmtr_buf_split_not_stuck|]. intros [[? ?] ?]. discriminate.
    - apply bind_not_stuck; [apply fifo_get_not_stuck|]. intros [? ?]. discriminate. }
  intros [[[h s2] x2] w2]. apply bind_not_stuck; [apply fifo_put_not_stuck|].
  intros [ok wrp]. apply bind_not_stuck.
  { repeat case_match; discriminate. }
  intros x3. discriminate.
Qed.

Lemma xmtr_select_loop_unfold fuel gs maxriovs maxbytes v s x w :
  xmtr_select_loop fuel gs maxriovs maxbytes v s x w =
  if sel_i v <? maxriovs then
    ohead ← fifo_peek (ready_for_cxn s);
    match ohead with
    | None => Ret (v, s, x, w)
    | Some head =>
        if (wrap64 (sel_total v) <? maxbytes) && negb (fifo_full (wrposted x)) then
          match fuel with
          | O => OutOfFuel
          | S fuel' =>
              st ← xmtr_select_body gs maxbytes head v s x w;
              match st with
              | sel_break => Ret (v, s, x, w)
              | sel_next (v, s, x, w) => xmtr_select_loop fuel' gs maxriovs maxbytes v s x w
              end
          end
        else Ret (v, s, x, w)
    end
  else Ret (v, s, x, w).
Proof. destruct fuel; reflexivity. Qed.

Lemma xmtr_select_body_counter gs maxbytes head v s x w v' s' x' w' :
  xmtr_select_body gs maxbytes head v s x w = Ret (sel_next (v', s', x', w')) →
  sel_i v' = wrap64 (sel_i v + 1).
Proof.
  unfold xmtr_select_body. intros H.
  destruct (_ && negb _); [discriminate|].
  bind_inv H. destruct a as [x1 w1].
  bind_inv H. destruct a as [[[h s2] x2] w2].
  bind_inv H. destruct a as [ok wrp].
  bind_inv H. inversion H. reflexivity.
Qed.

(** The selection loop stays within its [maxriovs] turns, keeps the count of
    advertisements, and leaves the fragment pool alone unless the
    advertisements are maxed out. *)
Lemma xmtr_select_loop_inv gs maxriovs maxbytes :
  ∀ fuel v s x w,
    0 ≤ sel_i v → maxriovs < 2 ^ 64 → maxriovs - sel_i v ≤ Z.of_nat fuel →
    match xmtr_select_loop fuel gs maxriovs maxbytes v s x w with
    | Ret (v', s', x', w') =>
        nriovs x' = nriovs x ∧
        (riovs_maxed_out gs x = false → fragment_pool x' = fragment_pool x)
    | Exit => True
    | OutOfFuel => False
    end.
Proof.
  induction fuel as [|fuel IH]; intros v s x w Hi Hmax Hfuel;
    rewrite xmtr_select_loop_unfold.
  - destruct (Z.ltb_spec (sel_i v) maxriovs); [lia|]. auto.
  - destruct (Z.ltb_spec (sel_i v) maxriovs) as [Hlt|Hge]; [|auto].
    destruct (fifo_peek (ready_for_cxn s)) as [[head|]| |] eqn:Hpeek; simpl; auto.
    2:{ by apply fifo_peek_not_stuck in Hpeek. }
    destruct (_ && negb _); [|auto].
    destruct (xmtr_select_body gs maxbytes head v s x w) as [[[[[v' s'] x'] w']|]| |] eqn:Hb;
      simpl; auto.
    2:{ by apply xmtr_select_body_not_stuck in Hb. }
    pose proof (xmtr_select_body_counter _ _ _ _ _ _ _ _ _ _ _ Hb) as Hc.
    pose proof (xmtr_select_body_next _ _ _ _ _ _ _ _ _ _ _ Hb) as [Hn Hcase].
    rewrite wrap64_small in Hc by lia.
    specialize (IH v' s' x' w' ltac:(lia) Hmax ltac:(lia)).
    destruct (xmtr_select_loop fuel gs maxriovs maxbytes v' s' x' w')
      as [[[[v2 s2] x2] w2]| |]; auto.
    destruct IH as [Hn2 Hp2]. split; [congruence|].
    intros Hnm. assert (riovs_maxed_out gs x' = false) as Hnm'.
    { unfold riovs_maxed_out in *. rewrite Hn. exact Hnm. }
    rewrite (Hp2 Hnm').
    destruct (sel_oversize_load maxbytes v x (w_heap w head)).
    + destruct Hcase as [Hm _]. congruence.
    + destruct Hcase as [Hp _]. exact Hp.
Qed.

Lemma riovs_maxed_out_false gs x :
  riovs_maxed_out gs x = false ↔ nriovs x < rma_maxsegs gs.
Proof. unfold riovs_maxed_out. apply Z.leb_gt. Qed.

Lemma riovs_maxed_out_true gs x :
  riovs_maxed_out gs x = true ↔ rma_maxsegs gs ≤ nriovs x.
Proof. unfold riovs_maxed_out. apply Z.leb_le. Qed.

(** C3.  One turn of the selection loop of [xmtr_targets_write] on the
    buffer [head] at the head of [ready_for_cxn], with [total] bytes already
    selected out of the [maxbytes] advertised.  If the turn takes a fragment
    header out of the pool, then the unsent bytes of [head] exceed the
    remaining capacity and [nriovs ≥ rma_maxsegs]; [ready_for_cxn] is left as
    it was, so the parent stays at its head, and the parent's [nchildren] is
    one more.  If the turn leaves the pool alone, the unsent bytes fit and
    [head] is taken off [ready_for_cxn].  With [nriovs < rma_maxsegs] an
    oversize head makes the turn break the loop, and a whole call of
    [xmtr_targets_write] leaves the fragment pool as it was. *)
Theorem xmtr_fragments_only_when_maxed gs s x w maxbytes head v :
  0 ≤ sel_total v ≤ maxbytes → maxbytes < 2 ^ 64 →
  0 ≤ fragment_offset x ≤ nused (w_heap w head) → nused (w_heap w head) < 2 ^ 64 →
  match xmtr_select_body gs maxbytes head v s x w with
  | Ret (sel_next (v', s', x', w')) =>
      (fragment_pool x' ≠ fragment_pool x →
         maxbytes - sel_total v < nused (w_heap w head) - fragment_offset x ∧
         rma_maxsegs gs ≤ nriovs x ∧
         ready_for_cxn s' = ready_for_cxn s ∧
         ∃ f, buflist_get (fragment_pool x) = (Some f, fragment_pool x') ∧
              sel_last_h v' = Some f ∧
              (f ≠ head →
                 xfc_nchildren (xfc (w_heap w' head)) =
                   wrap8 ((if fragment_offset x =? 0 then 0
                           else xfc_nchildren (xfc (w_heap w head))) + 1) ∧
                 fragment_parent (w_heap w' f) = head)) ∧
      (fragment_pool x' = fragment_pool x →
         nused (w_heap w head) - fragment_offset x ≤ maxbytes - sel_total v ∧
         sel_last_h v' = Some head ∧
         ∃ oh, fifo_get (ready_for_cxn s) = Ret (oh, ready_for_cxn s'))
  | Ret sel_break =>
      maxbytes - sel_total v < nused (w_heap w head) - fragment_offset x ∧
      nriovs x < rma_maxsegs gs
  | Exit => True
  | OutOfFuel => False
  end ∧
  (nriovs x < rma_maxsegs gs →
   maxbytes - sel_total v < nused (w_heap w head) - fragment_offset x →
   xmtr_select_body gs maxbytes head v s x w = Ret sel_break) ∧
  (nriovs x < rma_maxsegs gs →
   match xmtr_targets_write gs s x w with
   | Ret (ctl, s', x', w') => fragment_pool x' = fragment_pool x
   | Exit => True
   | OutOfFuel => False
   end).
Proof.
  intros Ht Hm Ho Hn.
  pose proof (sel_oversize_load_spec maxbytes v x (w_heap w head) Ht Hm Ho Hn) as Hov.
  split; [|split].
  - destruct (xmtr_select_body gs maxbytes head v s x w)
      as [[[[[v' s'] x'] w']|]| |] eqn:Hb.
    + destruct (xmtr_select_body_next _ _ _ _ _ _ _ _ _ _ _ Hb) as [_ Hcase].
      destruct (sel_oversize_load maxbytes v x (w_heap w head)) eqn:Hov'.
      * destruct Hcase as (Hmax & -> & f & Hget & Hlast & Hpar).
        split.
        -- intros _. split; [apply Hov; reflexivity|].
           split; [apply riovs_maxed_out_true; exact Hmax|].
           split; [reflexivity|]. exists f. auto.
        -- intros Heq. exfalso. apply (buflist_get_changes _ _ _ Hget). exact Heq.
      * destruct Hcase as (Hpool & Hlast & Hget).
        split; [intros Hne; contradiction|].
        intros _. split; [|auto].
        destruct (Z.lt_ge_cases (maxbytes - sel_total v)
                    (nused (w_heap w head) - fragment_offset x)) as [Hlt|Hge]; [|lia].
        apply Hov in Hlt. discriminate.
    + apply xmtr_select_body_break in Hb as [Hov' Hmax].
      split; [apply Hov; exact Hov'|apply riovs_maxed_out_false; exact Hmax].
    + exact I.
    + by apply xmtr_select_body_not_stuck in Hb.
  - intros Hfew Hbig. apply xmtr_select_body_break.
    split; [apply Hov; exact Hbig|apply riovs_maxed_out_false; exact Hfew].
  - intros Hfew. apply riovs_maxed_out_false in Hfew. unfold xmtr_targets_write.
    set (maxriovs := minsize_sz (rma_maxsegs gs) (nriovs x)).
    set (maxb := sum_lens riov_len maxriovs (active_riov x)).
    pose proof (wrap64_range (minsize (rma_maxsegs gs) (nriovs x))) as Hr.
    fold (minsize_sz (rma_maxsegs gs) (nriovs x)) in Hr. fold maxriovs in Hr.
    pose proof (xmtr_select_loop_inv gs maxriovs maxb (Z.to_nat maxriovs)
                  (mk_select_vars 0 0 None None) s x w) as HL.
    simpl in HL. specialize (HL ltac:(lia) ltac:(lia) ltac:(lia)).
    destruct (xmtr_select_loop _ gs maxriovs maxb _ s x w) as [[[[v1 s1] x1] w1]| |];
      simpl; auto.
    destruct HL as [_ Hpool]. specialize (Hpool Hfew).
    destruct (sel_first_h v1); [|exact Hpool].
    destruct (sel_last_h v1); [|exact Hpool].
    destruct (write_fully _ _) as [res fab].
    destruct (phase x1) eqn:Hph; simpl; rewrite ?Hph; simpl.
    all: destruct (wf_ret res <? 0); [exact I|].
    all: destruct (_ || _); simpl; rewrite ?Hph; simpl; exact Hpool.
Qed.

(** A provider limited to two segments, two advertisements of 10 bytes in
    hand, and a payload buffer of 25 used bytes at the head of
    [ready_for_cxn]: the first turn fragments it. *)
Lemma xmtr_fragments_only_when_maxed_witness :
  let gs := gs_two_segments in
  let s := session_one_payload in
  let x := xmtr_with_riovs 2 in
  let w := world_one_payload in
  let v := mk_select_vars 0 0 None None in
  match xmtr_select_body gs 20 3%nat v s x w with
  | Ret (sel_next (v', s', x', w')) =>
      (fragment_pool x' ≠ fragment_pool x →
         20 - sel_total v < nused (w_heap w 3%nat) - fragment_offset x ∧
         rma_maxsegs gs ≤ nriovs x ∧
         ready_for_cxn s' = ready_for_cxn s ∧
         ∃ f, buflist_get (fragment_pool x) = (Some f, fragment_pool x') ∧
              sel_last_h v' = Some f ∧
              (f ≠ 3%nat →
                 xfc_nchildren (xfc (w_heap w' 3%nat)) =
                   wrap8 ((if fragment_offset x =? 0 then 0
                           else xfc_nchildren (xfc (w_heap w 3%nat))) + 1) ∧
                 fragment_parent (w_heap w' f) = 3%nat)) ∧
      (fragment_pool x' = fragment_pool x →
         nused (w_heap w 3%nat) - fragment_offset x ≤ 20 - sel_total v ∧
         sel_last_h v' = Some 3%nat ∧
         ∃ oh, fifo_get (ready_for_cxn s) = Ret (oh, ready_for_cxn s'))
  | Ret sel_break =>
      20 - sel_total v < nused (w_heap w 3%nat) - fragment_offset x ∧
      nriovs x < rma_maxsegs gs
  | Exit => True
  | OutOfFuel => False
  end.
Proof.
  intros gs s x w v.
  refine (proj1 (xmtr_fragments_only_when_maxed gs s x w 20 3%nat v _ _ _ _)).
  - vm_compute. split; discriminate.
  - vm_compute. reflexivity.
  - vm_compute. split; discriminate.
  - vm_compute. reflexivity.
Defined.

(** The same buffer and advertisements under a provider that takes two
    segments: the call fragments the buffer, writes 20 bytes and keeps the
    parent at the head of [ready_for_cxn]. *)
Example xmtr_targets_write_fragments :
  match xmtr_targets_write gs_two_segments session_one_payload (xmtr_with_riovs 2)
          world_one_payload with
  | Ret (ctl, s', x', w') =>
      ctl = loop_continue ∧
      fifo_elems (ready_for_cxn s') = [3%nat] ∧
      fifo_elems (wrposted x') = [21%nat] ∧
      fragment_offset x' = 20 ∧ nriovs x' = 0 ∧ phase x' = true ∧
      xfc_nchildren (xfc (w_heap w' 3%nat)) = 1 ∧
      fragment_parent (w_heap w' 21%nat) = 3%nat ∧
      nused (w_heap w' 21%nat) = 20 ∧
      xfc_place (xfc (w_heap w' 21%nat)) = 3
  | _ => False
  end.
Proof. vm_compute. split_and!; reflexivity. Qed.

(** Under a provider that takes twelve segments the same call waits for more
    advertisements: nothing is selected and nothing is written. *)
Example xmtr_targets_write_waits :
  match xmtr_targets_write gs0 session_one_payload (xmtr_with_riovs 2)
          world_one_payload with
  | Ret (ctl, s', x', w') =>
      ctl = loop_continue ∧
      fifo_elems (ready_for_cxn s') = [3%nat] ∧
      fifo_elems (wrposted x') = [] ∧
      fragment_pool x' = fragment_pool (xmtr_with_riovs 2) ∧
      oplog (w_fabric w') = []
  | _ => False
  end.
Proof. vm_compute. split_and!; reflexivity. Qed.

(** ** [write_fully] *)

(** Why the theorems on [write_fully] below ask for lengths within the
    range of [int]: [minsize] returns its result through [int].  On one
    local segment and one advertisement of 2 GiB with 2 GiB asked for, more
    than [xmtr_targets_write] ever passes, the minimum of the lengths is
    [2 ^ 31] and [write_fully] reports [- 2 ^ 31]. *)
Remark write_fully_truncates_to_int :
  write_fully_min write_2gib = 2 ^ 31 ∧
  wf_ret (write_fully write_2gib (fabric0 [0])).1 = - 2 ^ 31 ∧
  oplog (write_fully write_2gib (fabric0 [0])).2 =
    [(op_writemsg 1 [mk_iovec (3%nat, 0) (2 ^ 31)] [0] [mk_riov 0 (2 ^ 31) 5] 7 3%nat
                  (Z.lor FI_COMPLETION FI_DELIVERY_COMPLETE), 0)].
Proof. vm_compute. split_and!; reflexivity. Qed.

Lemma sum_list_Z_cons x l : sum_list_Z (x :: l) = x + sum_list_Z l.
Proof. reflexivity. Qed.

Lemma sum_list_Z_nonneg {A} (len_of : A → Z) (l : list A) :
  Forall (fun e => 0 ≤ len_of e) l → 0 ≤ sum_list_Z (len_of <$> l).
Proof.
  induction 1 as [|e l He Hl IH]; [unfold sum_list_Z; simpl; lia|].
  rewrite fmap_cons, sum_list_Z_cons. lia.
Qed.

Lemma sum_lens_small {A} (len_of : A → Z) (n : Z) (a : list A) :
  Forall (fun e => 0 ≤ len_of e) a →
  sum_list_Z (len_of <$> take (Z.to_nat n) a) < 2 ^ 64 →
  sum_lens len_of n a = sum_list_Z (len_of <$> take (Z.to_nat n) a).
Proof.
  unfold sum_lens. intros Hpos Hsum.
  assert (Forall (fun e => 0 ≤ len_of e) (take (Z.to_nat n) a)) as Hpos'
    by (apply Forall_take; exact Hpos).
  revert Hpos' Hsum. generalize (take (Z.to_nat n) a). clear Hpos. intros l Hpos Hsum.
  assert (∀ acc, 0 ≤ acc → acc + sum_list_Z (len_of <$> l) < 2 ^ 64 →
                 fold_left (fun acc e => wrap64 (acc + len_of e)) l acc =
                 acc + sum_list_Z (len_of <$> l)) as Hgen.
  { induction Hpos as [|e l He Hl IH]; intros acc Hacc Hb.
    - unfold sum_list_Z. simpl. lia.
    - rewrite fmap_cons, sum_list_Z_cons in *.
      pose proof (sum_list_Z_nonneg len_of l Hl) as Hnn.
      simpl. rewrite wrap64_small by lia. rewrite IH by lia. lia. }
  rewrite Hgen; lia.
Qed.

(** When the smaller of the two sums and the length asked for are within
    the range of [int], the length [write_fully] settles on is the minimum
    of the claim. *)
Lemma write_fully_len_min_in_range p :
  0 ≤ p_maxsegs p → 0 ≤ p_niovs p → 0 ≤ p_nriovs p →
  Z.min (p_maxsegs p) (p_niovs p) < 2 ^ 31 →
  Z.min (p_maxsegs p) (p_nriovs p) < 2 ^ 31 →
  Forall (fun v => 0 ≤ iov_len v) (p_iov_in p) →
  Forall (fun v => 0 ≤ riov_len v) (p_riov_in p) →
  first_lens iov_len (p_maxsegs p) (p_niovs p) (p_iov_in p) < 2 ^ 64 →
  first_lens riov_len (p_maxsegs p) (p_nriovs p) (p_riov_in p) < 2 ^ 64 →
  Z.min (first_lens iov_len (p_maxsegs p) (p_niovs p) (p_iov_in p))
        (first_lens riov_len (p_maxsegs p) (p_nriovs p) (p_riov_in p)) < 2 ^ 31 →
  0 ≤ p_len p < 2 ^ 31 →
  write_fully_len p = write_fully_min p ∧ 0 ≤ write_fully_min p < 2 ^ 31.
Proof.
  intros Hm Hn Hnr Hml Hmr Hl Hr Hsl Hsr Hmin Hlen.
  unfold write_fully_len, write_fully_min, first_lens in *.
  rewrite (minsize_sz_small (p_maxsegs p) (p_niovs p)) by lia.
  rewrite (minsize_sz_small (p_maxsegs p) (p_nriovs p)) by lia.
  rewrite !sum_lens_small by (auto; lia).
  pose proof (sum_list_Z_nonneg iov_len _
                (Forall_take _ (Z.to_nat (Z.min (p_maxsegs p) (p_niovs p))) _ Hl)).
  pose proof (sum_list_Z_nonneg riov_len _
                (Forall_take _ (Z.to_nat (Z.min (p_maxsegs p) (p_nriovs p))) _ Hr)).
  rewrite (minsize_sz_small (p_len p) SSIZE_MAX) by (unfold SSIZE_MAX; lia).
  rewrite (minsize_sz_small (sum_list_Z _) (sum_list_Z _)) by lia.
  rewrite minsize_small by (unfold SSIZE_MAX; lia).
  split; [apply wrap64_small|]; unfold SSIZE_MAX; lia.
Qed.

(** Within the range of [int] the length [write_fully] settles on is the
    minimum of the claim. *)
Lemma write_fully_len_in_range p :
  0 ≤ p_maxsegs p → 0 ≤ p_niovs p → 0 ≤ p_nriovs p →
  Z.min (p_maxsegs p) (p_niovs p) < 2 ^ 31 →
  Z.min (p_maxsegs p) (p_nriovs p) < 2 ^ 31 →
  Forall (fun v => 0 ≤ iov_len v) (p_iov_in p) →
  Forall (fun v => 0 ≤ riov_len v) (p_riov_in p) →
  first_lens iov_len (p_maxsegs p) (p_niovs p) (p_iov_in p) < 2 ^ 31 →
  first_lens riov_len (p_maxsegs p) (p_nriovs p) (p_riov_in p) < 2 ^ 31 →
  0 ≤ p_len p < 2 ^ 31 →
  write_fully_len p = write_fully_min p.
Proof.
  intros Hm Hn Hnr Hml Hmr Hl Hr Hsl Hsr Hlen.
  unfold write_fully_len, write_fully_min, first_lens in *.
  rewrite (minsize_sz_small (p_maxsegs p) (p_niovs p)) by lia.
  rewrite (minsize_sz_small (p_maxsegs p) (p_nriovs p)) by lia.
  rewrite !sum_lens_small by (auto; lia).
  pose proof (sum_list_Z_nonneg iov_len _
                (Forall_take _ (Z.to_nat (Z.min (p_maxsegs p) (p_niovs p))) _ Hl)).
  pose proof (sum_list_Z_nonneg riov_len _
                (Forall_take _ (Z.to_nat (Z.min (p_maxsegs p) (p_nriovs p))) _ Hr)).
  rewrite (minsize_sz_small (p_len p) SSIZE_MAX) by (unfold SSIZE_MAX; lia).
  rewrite (minsize_sz_small (sum_list_Z _) (sum_list_Z _)) by lia.
  rewrite minsize_small by (unfold SSIZE_MAX; lia).
  apply wrap64_small. unfold SSIZE_MAX. lia.
Qed.

(** Within the range of [int], when the fabric accepts the write,
    [write_fully] reports the minimum of the claim. *)
Lemma write_fully_ret_in_range p fab :
  0 ≤ p_maxsegs p → 0 ≤ p_niovs p → 0 ≤ p_nriovs p →
  Z.min (p_maxsegs p) (p_niovs p) < 2 ^ 31 →
  Z.min (p_maxsegs p) (p_nriovs p) < 2 ^ 31 →
  Forall (fun v => 0 ≤ iov_len v) (p_iov_in p) →
  Forall (fun v => 0 ≤ riov_len v) (p_riov_in p) →
  first_lens iov_len (p_maxsegs p) (p_niovs p) (p_iov_in p) < 2 ^ 31 →
  first_lens riov_len (p_maxsegs p) (p_nriovs p) (p_riov_in p) < 2 ^ 31 →
  0 ≤ p_len p < 2 ^ 31 →
  nth 0 (script fab) (- FI_EAGAIN) = 0 →
  wf_ret (write_fully p fab).1 = write_fully_min p.
Proof.
  intros Hm Hn Hnr Hml Hmr Hl Hr Hsl Hsr Hlen Hok.
  pose proof (write_fully_len_in_range p Hm Hn Hnr Hml Hmr Hl Hr Hsl Hsr Hlen) as HL.
  assert (0 ≤ write_fully_min p < 2 ^ 31) as Hrange.
  { unfold write_fully_min, first_lens in *.
    pose proof (sum_list_Z_nonneg iov_len _
                  (Forall_take _ (Z.to_nat (Z.min (p_maxsegs p) (p_niovs p))) _ Hl)).
    pose proof (sum_list_Z_nonneg riov_len _
                  (Forall_take _ (Z.to_nat (Z.min (p_maxsegs p) (p_nriovs p))) _ Hr)).
    unfold SSIZE_MAX. lia. }
  unfold write_fully. rewrite HL.
  destruct (write_plan_local _ _ _ _ _ _) as [[nl io] dout].
  destruct (write_plan_remote _ _ _ _) as [nr ro].
  pose proof (fabric_do_answer
                (op_writemsg (p_ep p) (take nl io) (take nl dout) (take nr ro)
                             (p_addr p) (p_context p) (p_flags p)) fab) as [Hans _].
  destruct (fabric_do _ fab) as [rc fab']. simpl in Hans. rewrite Hok in Hans. subst rc.
  simpl.
  destruct (write_residue_local _ _ _ _ _ _ _) as [[j io'] dout'].
  destruct (write_residue_remote _ _ _ _) as [jr ro'].
  simpl. apply to_ssize_small. lia.
Qed.

(** *** The residue left by [write_fully] *)

Lemma iov_advance_0 v : iov_advance 0 v = v.
Proof.
  destruct v as [[b o] l]. unfold iov_advance. simpl. f_equal; [f_equal|]; lia.
Qed.

Lemma riov_advance_0 v : riov_advance 0 v = v.
Proof. destruct v as [a l k]. unfold riov_advance. simpl. f_equal; lia. Qed.

Lemma take_S_insert {A} (l : list A) (j : nat) (x : A) :
  (j < length l)%nat → take (S j) (<[j := x]> l) = take j l ++ [x].
Proof.
  intros Hj. rewrite (take_S_r _ j x) by (apply list_lookup_insert_eq; exact Hj).
  rewrite take_insert_ge by lia. reflexivity.
Qed.

(** The loop that rewrites the local output arrays leaves the residue in
    their first entries, each descriptor with its segment. *)
Lemma write_residue_local_spec desc_in ins : ∀ i j n out dout,
  0 ≤ n < 2 ^ 64 →
  Forall (fun v => 0 ≤ iov_len v < 2 ^ 64) ins →
  (j + length ins ≤ length out)%nat →
  (j + length ins ≤ length dout)%nat →
  ∃ out' dout',
    write_residue_local ins desc_in i j n out dout =
      ((j + length (iov_residue i n ins))%nat, out', dout') ∧
    length out' = length out ∧ length dout' = length dout ∧
    take (j + length (iov_residue i n ins)) out' =
      take j out ++ (snd <$> iov_residue i n ins) ∧
    take (j + length (iov_residue i n ins)) dout' =
      take j dout ++ ((fun e => default 0 (desc_in !! e.1)) <$> iov_residue i n ins).
Proof.
  induction ins as [|v ins IH]; intros i j n out dout Hn Hins Hout Hdout.
  - exists out, dout. simpl. rewrite Nat.add_0_r, !app_nil_r. auto.
  - apply Forall_cons_1 in Hins as [Hv Hins]. simpl in Hout, Hdout. simpl.
    destruct (Z.leb_spec (iov_len v) n) as [Hle|Hlt].
    + rewrite wrap64_small by lia. apply IH; auto; lia.
    + rewrite (wrap64_small (iov_len v - n)) by lia.
      destruct (Z.ltb_spec 0 n) as [Hpos|Hz].
      * destruct (IH (S i) (S j) 0
                    (<[j := mk_iovec ((iov_base v).1, (iov_base v).2 + n) (iov_len v - n)]> out)
                    (<[j := default 0 (desc_in !! i)]> dout))
          as (out' & dout' & E & Lo & Ld & To & Td);
          [lia|auto|rewrite length_insert; lia|rewrite length_insert; lia|].
        exists out', dout'. rewrite length_insert in Lo. rewrite length_insert in Ld.
        rewrite !take_S_insert, <- !app_assoc in * by lia. simpl in *.
        replace (j + S (length (iov_residue (S i) 0 ins)))%nat
          with (S (j + length (iov_residue (S i) 0 ins))) by lia.
        split_and!; auto.
      * assert (n = 0) as -> by lia.
        destruct (IH (S i) (S j) 0 (<[j := v]> out) (<[j := default 0 (desc_in !! i)]> dout))
          as (out' & dout' & E & Lo & Ld & To & Td);
          [lia|auto|rewrite length_insert; lia|rewrite length_insert; lia|].
        exists out', dout'. rewrite length_insert in Lo. rewrite length_insert in Ld.
        rewrite !take_S_insert, <- !app_assoc in * by lia. simpl in *.
        replace (j + S (length (iov_residue (S i) 0 ins)))%nat
          with (S (j + length (iov_residue (S i) 0 ins))) by lia.
        rewrite iov_advance_0. split_and!; auto.
Qed.

(** The same for the advertisements. *)
Lemma write_residue_remote_spec ins : ∀ j n out,
  0 ≤ n < 2 ^ 64 →
  Forall (fun v => 0 ≤ riov_addr v ∧ 0 ≤ riov_len v ∧ riov_addr v + riov_len v < 2 ^ 64) ins →
  (j + length ins ≤ length out)%nat →
  ∃ out',
    write_residue_remote ins j n out = ((j + length (riov_residue n ins))%nat, out') ∧
    length out' = length out ∧
    take (j + length (riov_residue n ins)) out' = take j out ++ riov_residue n ins.
Proof.
  induction ins as [|v ins IH]; intros j n out Hn Hins Hout.
  - exists out. simpl. rewrite Nat.add_0_r, !app_nil_r. auto.
  - apply Forall_cons_1 in Hins as [(Ha & Hl & Hal) Hins]. simpl in Hout. simpl.
    destruct (Z.leb_spec (riov_len v) n) as [Hle|Hlt].
    + rewrite wrap64_small by lia. apply IH; auto; lia.
    + rewrite (wrap64_small (riov_len v - n)), (wrap64_small (riov_addr v + n)) by lia.
      destruct (Z.ltb_spec 0 n) as [Hpos|Hz].
      * destruct (IH (S j) 0
                    (<[j := mk_riov (riov_addr v + n) (riov_len v - n) (riov_key v)]> out))
          as (out' & E & Lo & To); [lia|auto|rewrite length_insert; lia|].
        exists out'. rewrite length_insert in Lo.
        rewrite !take_S_insert, <- !app_assoc in * by lia. simpl in *.
        replace (j + S (length (riov_residue 0 ins)))%nat
          with (S (j + length (riov_residue 0 ins))) by lia.
        split_and!; auto.
      * assert (n = 0) as -> by lia.
        destruct (IH (S j) 0 (<[j := v]> out))
          as (out' & E & Lo & To); [lia|auto|rewrite length_insert; lia|].
        exists out'. rewrite length_insert in Lo.
        rewrite !take_S_insert, <- !app_assoc in * by lia. simpl in *.
        replace (j + S (length (riov_residue 0 ins)))%nat
          with (S (j + length (riov_residue 0 ins))) by lia.
        rewrite riov_advance_0. split_and!; auto.
Qed.

Lemma length_iov_bytes v : length (iov_bytes v) = Z.to_nat (iov_len v).
Proof. unfold iov_bytes. rewrite length_fmap. apply length_seqZ. Qed.

Lemma length_riov_bytes v : length (riov_bytes v) = Z.to_nat (riov_len v).
Proof. unfold riov_bytes. rewrite length_fmap. apply length_seqZ. Qed.

Lemma drop_fmap_seqZ {A} (f : Z → A) (n len : Z) :
  0 ≤ n ≤ len →
  drop (Z.to_nat n) (f <$> seqZ 0 len) = (fun k => f (n + k)) <$> seqZ 0 (len - n).
Proof.
  intros Hn. replace len with (n + (len - n)) at 1 by lia.
  rewrite seqZ_app, fmap_app by lia.
  rewrite drop_app_length' by (rewrite length_fmap, length_seqZ; reflexivity).
  replace (seqZ (0 + n) (len - n)) with (Z.add n <$> seqZ 0 (len - n))
    by (rewrite fmap_add_seqZ; f_equal; lia).
  rewrite <- list_fmap_compose. reflexivity.
Qed.

Lemma iov_bytes_advance n v :
  0 ≤ n ≤ iov_len v → drop (Z.to_nat n) (iov_bytes v) = iov_bytes (iov_advance n v).
Proof.
  intros Hn. unfold iov_bytes. rewrite drop_fmap_seqZ by lia. simpl.
  apply list_fmap_ext. intros i k _. f_equal. lia.
Qed.

Lemma riov_bytes_advance n v :
  0 ≤ n ≤ riov_len v → drop (Z.to_nat n) (riov_bytes v) = riov_bytes (riov_advance n v).
Proof.
  intros Hn. unfold riov_bytes. rewrite drop_fmap_seqZ by lia. simpl.
  apply list_fmap_ext. intros i k _. f_equal. lia.
Qed.

(** The residue holds the bytes of the input segments but the first [n]. *)
Lemma iov_residue_bytes ins : ∀ i n,
  0 ≤ n → Forall (fun v => 0 ≤ iov_len v) ins →
  concat (iov_bytes <$> (snd <$> iov_residue i n ins)) =
  drop (Z.to_nat n) (concat (iov_bytes <$> ins)).
Proof.
  induction ins as [|v ins IH]; intros i n Hn Hins; [simpl; rewrite drop_nil; reflexivity|].
  apply Forall_cons_1 in Hins as [Hv Hins]. simpl.
  destruct (Z.leb_spec (iov_len v) n) as [Hle|Hlt].
  - rewrite IH by (auto; lia).
    rewrite drop_app_ge by (rewrite length_iov_bytes; lia).
    rewrite length_iov_bytes. f_equal. lia.
  - simpl. rewrite IH by (auto; lia). simpl.
    rewrite drop_app_le by (rewrite length_iov_bytes; lia).
    rewrite iov_bytes_advance by lia. reflexivity.
Qed.

Lemma riov_residue_bytes ins : ∀ n,
  0 ≤ n → Forall (fun v => 0 ≤ riov_len v) ins →
  concat (riov_bytes <$> riov_residue n ins) =
  drop (Z.to_nat n) (concat (riov_bytes <$> ins)).
Proof.
  induction ins as [|v ins IH]; intros n Hn Hins; [simpl; rewrite drop_nil; reflexivity|].
  apply Forall_cons_1 in Hins as [Hv Hins]. simpl.
  destruct (Z.leb_spec (riov_len v) n) as [Hle|Hlt].
  - rewrite IH by (auto; lia).
    rewrite drop_app_ge by (rewrite length_riov_bytes; lia).
    rewrite length_riov_bytes. f_equal. lia.
  - simpl. rewrite IH by (auto; lia). simpl.
    rewrite drop_app_le by (rewrite length_riov_bytes; lia).
    rewrite riov_bytes_advance by lia. reflexivity.
Qed.

(** Every residual segment is what is left of an input segment, and is not
    empty. *)
Lemma iov_residue_source ins : ∀ i n k v',
  0 ≤ n → (k, v') ∈ iov_residue i n ins →
  ∃ v m, (i ≤ k)%nat ∧ ins !! (k - i)%nat = Some v ∧ 0 ≤ m < iov_len v ∧
         v' = iov_advance m v.
Proof.
  induction ins as [|v ins IH]; intros i n k v' Hn Hin; simpl in Hin.
  - apply not_elem_of_nil in Hin. contradiction.
  - destruct (Z.leb_spec (iov_len v) n) as [Hle|Hlt].
    + destruct (IH (S i) (n - iov_len v) k v' ltac:(lia) Hin) as (v0 & m & Hk & Hl & Hm & E).
      exists v0, m. split; [lia|]. split; [|auto].
      replace (k - i)%nat with (S (k - S i)) by lia. exact Hl.
    + apply elem_of_cons in Hin as [Hin|Hin].
      * injection Hin as -> ->. exists v, n.
        rewrite Nat.sub_diag. split; [lia|]. split; [reflexivity|]. split; [lia|reflexivity].
      * destruct (IH (S i) 0 k v' ltac:(lia) Hin) as (v0 & m & Hk & Hl & Hm & E).
        exists v0, m. split; [lia|]. split; [|auto].
        replace (k - i)%nat with (S (k - S i)) by lia. exact Hl.
Qed.

Lemma riov_residue_source ins : ∀ n v',
  0 ≤ n → v' ∈ riov_residue n ins →
  ∃ v m, v ∈ ins ∧ 0 ≤ m < riov_len v ∧ v' = riov_advance m v.
Proof.
  induction ins as [|v ins IH]; intros n v' Hn Hin; simpl in Hin.
  - apply not_elem_of_nil in Hin. contradiction.
  - destruct (Z.leb_spec (riov_len v) n) as [Hle|Hlt].
    + destruct (IH (n - riov_len v) v' ltac:(lia) Hin) as (v0 & m & Hl & Hm & E).
      exists v0, m. split; [apply elem_of_cons; auto|auto].
    + apply elem_of_cons in Hin as [Hin|Hin].
      * subst v'. exists v, n. split; [apply elem_of_cons; auto|]. split; [lia|reflexivity].
      * destruct (IH 0 v' ltac:(lia) Hin) as (v0 & m & Hl & Hm & E).
        exists v0, m. split; [apply elem_of_cons; auto|auto].
Qed.

(** The loops that lay out the write keep the length of the output arrays. *)
Lemma write_plan_local_length ins desc_in : ∀ i n out dout,
  length (write_plan_local ins desc_in i n out dout).1.2 = length out ∧
  length (write_plan_local ins desc_in i n out dout).2 = length dout.
Proof.
  induction ins as [|v ins IH]; intros i n out dout; simpl; [auto|].
  destruct (0 <? n); [|auto].
  destruct (n <? iov_len v).
  - destruct (IH (S i) 0 (<[i := mk_iovec (iov_base v) n]> out)
                (<[i := default 0 (desc_in !! i)]> dout)) as [H1 H2].
    rewrite H1, H2, !length_insert. auto.
  - destruct (IH (S i) (wrap64 (n - iov_len v)) (<[i := v]> out)
                (<[i := default 0 (desc_in !! i)]> dout)) as [H1 H2].
    rewrite H1, H2, !length_insert. auto.
Qed.

Lemma write_plan_remote_length ins : ∀ i n out,
  length (write_plan_remote ins i n out).2 = length out.
Proof.
  induction ins as [|v ins IH]; intros i n out; simpl; [auto|].
  destruct (0 <? n); [|auto].
  destruct (n <? riov_len v); rewrite IH, length_insert; reflexivity.
Qed.

(** A write the fabric refuses: [write_fully] returns the answer of the
    fabric and leaves the two output counts alone. *)
Lemma write_fully_refused p fab :
  nth 0 (script fab) (- FI_EAGAIN) ≠ 0 →
  let r := (write_fully p fab).1 in
  wf_ret r = nth 0 (script fab) (- FI_EAGAIN) ∧
  wf_niovs_out r = p_niovs_out p ∧ wf_nriovs_out r = p_nriovs_out p.
Proof.
  intros Hrc. unfold write_fully.
  destruct (write_plan_local _ _ _ _ _ _) as [[nl io] dout].
  destruct (write_plan_remote _ _ _ _) as [nr ro].
  pose proof (fabric_do_answer
                (op_writemsg (p_ep p) (take nl io) (take nl dout) (take nr ro)
                             (p_addr p) (p_context p) (p_flags p)) fab) as [Hans _].
  destruct (fabric_do _ fab) as [rc fab']. simpl in Hans. subst rc.
  destruct (Z.eqb_spec (nth 0 (script fab) (- FI_EAGAIN)) 0) as [E|E]; [contradiction|].
  simpl. auto.
Qed.

(** [write_fully] when the fabric accepts the write, the segment counts and
    the requested length are within the range of [int], and so is the smaller
    of the two sums of segment lengths: it reports the minimum of the claim,
    the output counts are the numbers of residual segments, and the output
    arrays start with the residue, which holds the bytes and the advertised
    space beyond the written length. *)
Lemma write_fully_residue_of_min p fab :
  0 ≤ p_maxsegs p → 0 ≤ p_niovs p → 0 ≤ p_nriovs p →
  Z.min (p_maxsegs p) (p_niovs p) < 2 ^ 31 →
  Z.min (p_maxsegs p) (p_nriovs p) < 2 ^ 31 →
  Forall (fun v => 0 ≤ iov_len v < 2 ^ 64) (p_iov_in p) →
  Forall (fun v => 0 ≤ riov_addr v ∧ 0 ≤ riov_len v ∧ riov_addr v + riov_len v < 2 ^ 64)
         (p_riov_in p) →
  first_lens iov_len (p_maxsegs p) (p_niovs p) (p_iov_in p) < 2 ^ 64 →
  first_lens riov_len (p_maxsegs p) (p_nriovs p) (p_riov_in p) < 2 ^ 64 →
  Z.min (first_lens iov_len (p_maxsegs p) (p_niovs p) (p_iov_in p))
        (first_lens riov_len (p_maxsegs p) (p_nriovs p) (p_riov_in p)) < 2 ^ 31 →
  0 ≤ p_len p < 2 ^ 31 →
  p_niovs p ≤ Z.of_nat (length (p_iov_out p)) →
  p_niovs p ≤ Z.of_nat (length (p_desc_out p)) →
  p_nriovs p ≤ Z.of_nat (length (p_riov_out p)) →
  nth 0 (script fab) (- FI_EAGAIN) = 0 →
  let r := (write_fully p fab).1 in
  let n := write_fully_min p in
  let local := iov_residue 0 n (take (Z.to_nat (p_niovs p)) (p_iov_in p)) in
  let remote := riov_residue n (take (Z.to_nat (p_nriovs p)) (p_riov_in p)) in
  wf_ret r = n ∧
  wf_niovs_out r = Z.of_nat (length local) ∧
  take (length local) (wf_iov_out r) = snd <$> local ∧
  take (length local) (wf_desc_out r) =
    (fun e => default 0 (p_desc_in p !! e.1)) <$> local ∧
  wf_nriovs_out r = Z.of_nat (length remote) ∧
  take (length remote) (wf_riov_out r) = remote ∧
  concat (iov_bytes <$> take (length local) (wf_iov_out r)) =
    drop (Z.to_nat n) (concat (iov_bytes <$> take (Z.to_nat (p_niovs p)) (p_iov_in p))) ∧
  concat (riov_bytes <$> take (length remote) (wf_riov_out r)) =
    drop (Z.to_nat n) (concat (riov_bytes <$> take (Z.to_nat (p_nriovs p)) (p_riov_in p))).
Proof.
  intros Hm Hn Hnr Hml Hmr Hl Hr Hsl Hsr Hmin Hlen Hio Hdo Hro Hok r n local remote.
  assert (Forall (fun v => 0 ≤ iov_len v) (p_iov_in p)) as Hl0
    by (eapply Forall_impl; [|exact Hl]; simpl; intros; lia).
  assert (Forall (fun v => 0 ≤ riov_len v) (p_riov_in p)) as Hr0
    by (eapply Forall_impl; [|exact Hr]; simpl; intros; lia).
  pose proof (write_fully_len_min_in_range p Hm Hn Hnr Hml Hmr Hl0 Hr0 Hsl Hsr Hmin Hlen)
    as [HL Hrange].
  fold n in Hrange.
  assert (wf_ret r = n ∧
          wf_niovs_out r = Z.of_nat (length local) ∧
          take (length local) (wf_iov_out r) = snd <$> local ∧
          take (length local) (wf_desc_out r) =
            (fun e => default 0 (p_desc_in p !! e.1)) <$> local ∧
          wf_nriovs_out r = Z.of_nat (length remote) ∧
          take (length remote) (wf_riov_out r) = remote) as (H1 & H2 & H3 & H4 & H5 & H6).
  { subst r local remote. unfold write_fully. rewrite HL. fold n.
    match goal with |- context [write_plan_local ?a ?b ?c ?d ?e ?f] =>
      pose proof (write_plan_local_length a b c d e f) as [Lio Ldo];
      destruct (write_plan_local a b c d e f) as [[nl io] dout]
    end.
    match goal with |- context [write_plan_remote ?a ?b ?c ?d] =>
      pose proof (write_plan_remote_length a b c d) as Lro;
      destruct (write_plan_remote a b c d) as [nr ro]
    end.
    simpl in Lio, Ldo, Lro.
    pose proof (fabric_do_answer
                  (op_writemsg (p_ep p) (take nl io) (take nl dout) (take nr ro)
                               (p_addr p) (p_context p) (p_flags p)) fab) as [Hans _].
    destruct (fabric_do _ fab) as [rc fab']. simpl in Hans. rewrite Hok in Hans. subst rc.
    simpl.
    destruct (write_residue_local_spec (p_desc_in p)
                (take (Z.to_nat (p_niovs p)) (p_iov_in p)) 0 0 n io dout)
      as (io' & dout' & E & _ & _ & To & Td);
      [lia|apply Forall_take; exact Hl
      |rewrite length_take; simpl; lia|rewrite length_take; simpl; lia|].
    rewrite E.
    destruct (write_residue_remote_spec
                (take (Z.to_nat (p_nriovs p)) (p_riov_in p)) 0 n ro)
      as (ro' & Er & _ & Tr);
      [lia|apply Forall_take; exact Hr|rewrite length_take; simpl; lia|].
    rewrite Er. simpl in *.
    split_and!; auto. apply to_ssize_small. lia. }
  split_and!; auto.
  - rewrite H3. apply iov_residue_bytes; [lia|apply Forall_take; exact Hl0].
  - rewrite H6. apply riov_residue_bytes; [lia|apply Forall_take; exact Hr0].
Qed.

(** X18.  Within the range of [int], when the fabric accepts the write, the rest
    of the claim holds: [write_fully] reports the minimum of the claim, the
    output counts are the numbers of residual segments, and the output
    arrays start with the residue, which holds the bytes and the advertised
    space beyond the written length. *)
Lemma write_fully_residue_in_range p fab :
  0 ≤ p_maxsegs p → 0 ≤ p_niovs p → 0 ≤ p_nriovs p →
  Z.min (p_maxsegs p) (p_niovs p) < 2 ^ 31 →
  Z.min (p_maxsegs p) (p_nriovs p) < 2 ^ 31 →
  Forall (fun v => 0 ≤ iov_len v < 2 ^ 64) (p_iov_in p) →
  Forall (fun v => 0 ≤ riov_addr v ∧ 0 ≤ riov_len v ∧ riov_addr v + riov_len v < 2 ^ 64)
         (p_riov_in p) →
  first_lens iov_len (p_maxsegs p) (p_niovs p) (p_iov_in p) < 2 ^ 31 →
  first_lens riov_len (p_maxsegs p) (p_nriovs p) (p_riov_in p) < 2 ^ 31 →
  0 ≤ p_len p < 2 ^ 31 →
  p_niovs p ≤ Z.of_nat (length (p_iov_out p)) →
  p_niovs p ≤ Z.of_nat (length (p_desc_out p)) →
  p_nriovs p ≤ Z.of_nat (length (p_riov_out p)) →
  nth 0 (script fab) (- FI_EAGAIN) = 0 →
  let r := (write_fully p fab).1 in
  let n := write_fully_min p in
  let local := iov_residue 0 n (take (Z.to_nat (p_niovs p)) (p_iov_in p)) in
  let remote := riov_residue n (take (Z.to_nat (p_nriovs p)) (p_riov_in p)) in
  wf_ret r = n ∧
  wf_niovs_out r = Z.of_nat (length local) ∧
  take (length local) (wf_iov_out r) = snd <$> local ∧
  take (length local) (wf_desc_out r) =
    (fun e => default 0 (p_desc_in p !! e.1)) <$> local ∧
  wf_nriovs_out r = Z.of_nat (length remote) ∧
  take (length remote) (wf_riov_out r) = remote ∧
  concat (iov_bytes <$> take (length local) (wf_iov_out r)) =
    drop (Z.to_nat n) (concat (iov_bytes <$> take (Z.to_nat (p_niovs p)) (p_iov_in p))) ∧
  concat (riov_bytes <$> take (length remote) (wf_riov_out r)) =
    drop (Z.to_nat n) (concat (riov_bytes <$> take (Z.to_nat (p_nriovs p)) (p_riov_in p))).
Proof.
  intros Hm Hn Hnr Hml Hmr Hl Hr Hsl Hsr Hlen Hio Hdo Hro Hok.
  apply write_fully_residue_of_min; auto; lia.
Qed.



Example write_fully_example :
  let r := (write_fully write_two_buffers (fabric0 [0])).1 in
  wf_ret r = 52 ∧ wf_niovs_out r = 0 ∧ wf_nriovs_out r = 2 ∧
  take 2 (wf_riov_out r) = [mk_riov 21 10 6; mk_riov 0 31 7].
Proof. vm_compute. split_and!; reflexivity. Qed.

Example write_fully_residue_example :
  let r := (write_fully write_one_advert (fabric0 [0])).1 in
  wf_ret r = 31 ∧ wf_niovs_out r = 1 ∧ wf_nriovs_out r = 0 ∧
  take 1 (wf_iov_out r) = [mk_iovec (4%nat, 8) 21] ∧ take 1 (wf_desc_out r) = [14].
Proof. vm_compute. split_and!; reflexivity. Qed.

(* ===================================================================== *)
(** * Part II, continued: the rest of the data path                        *)
(* ===================================================================== *)

(** ** [source_trade] *)

Lemma source_fill_unfold fuel s payload used ofs :
  source_fill fuel s payload used ofs =
  if ofs <? used then
    match fuel with
    | O => OutOfFuel
    | S fuel' =>
        let txbuf_ofs := wrap64 (src_idx s + ofs) mod src_txbuflen s in
        let len := minsize_sz (wrap64 (used - ofs)) (wrap64 (src_txbuflen s - txbuf_ofs)) in
        source_fill fuel' s (memcpy payload ofs txbuf txbuf_ofs len) used (wrap64 (ofs + len))
    end
  else Ret payload.
Proof. destruct fuel; reflexivity. Qed.

Lemma length_txbuf_chunk (t len : Z) :
  0 ≤ t → 0 ≤ len → t + len ≤ 76 →
  length (take (Z.to_nat len) (drop (Z.to_nat t) txbuf)) = Z.to_nat len.
Proof.
  intros Ht Hl Hb. rewrite length_take, length_drop, length_txbuf. lia.
Qed.

(** The copying loop writes the pattern over the used part of the buffer and
    nothing else. *)
Lemma source_fill_correct s used :
  src_txbuflen s = 76 → 0 ≤ src_idx s → src_idx s + used < 2 ^ 64 →
  ∀ (fuel : nat) payload ofs,
    0 ≤ ofs ≤ used → used ≤ Z.of_nat (length payload) →
    used - ofs ≤ Z.of_nat fuel →
    take (Z.to_nat ofs) payload = pattern_bytes 76 (src_idx s) (Z.to_nat ofs) →
    ∃ p', source_fill fuel s payload used ofs = Ret p' ∧
          length p' = length payload ∧
          take (Z.to_nat used) p' = pattern_bytes 76 (src_idx s) (Z.to_nat used) ∧
          drop (Z.to_nat used) p' = drop (Z.to_nat used) payload.
Proof.
  intros Hlen Hidx Hsum fuel.
  induction fuel as [|fuel IH]; intros payload ofs Hofs Hpay Hfuel Hinv;
    rewrite source_fill_unfold.
  - destruct (Z.ltb_spec ofs used); [lia|].
    assert (ofs = used) as -> by lia. exists payload. auto.
  - destruct (Z.ltb_spec ofs used) as [Hlt|Hge].
    2:{ assert (ofs = used) as -> by lia. exists payload. auto. }
    rewrite Hlen. simpl.
    rewrite (wrap64_small (src_idx s + ofs)) by lia.
    pose proof (Z.mod_pos_bound (src_idx s + ofs) 76 ltac:(lia)) as Hm.
    set (t := (src_idx s + ofs) mod 76) in *.
    rewrite (wrap64_small (used - ofs)), (wrap64_small (76 - t)) by lia.
    rewrite minsize_sz_small by lia.
    set (len := Z.min (used - ofs) (76 - t)).
    assert (1 ≤ len ≤ used - ofs ∧ len ≤ 76 - t) as Hl by (unfold len; lia).
    rewrite (wrap64_small (ofs + len)) by lia.
    set (chunk := take (Z.to_nat len) (drop (Z.to_nat t) txbuf)).
    assert (length chunk = Z.to_nat len) as Hchunk
      by (apply length_txbuf_chunk; lia).
    assert (chunk = pattern_bytes 76 (src_idx s + ofs) (Z.to_nat len)) as Echunk.
    { unfold chunk, t. apply pattern_bytes_chunk; [lia|]. fold t. lia. }
    assert (length (take (Z.to_nat ofs) payload) = Z.to_nat ofs) as Htake
      by (rewrite length_take; lia).
    destruct (IH (memcpy payload ofs txbuf t len) (ofs + len)) as (p' & E & L & T & D).
    + lia.
    + unfold memcpy. fold chunk. rewrite !length_app, length_drop, Htake, Hchunk. lia.
    + lia.
    + unfold memcpy. fold chunk. rewrite app_assoc.
      rewrite take_app_length' by (rewrite length_app, Htake, Hchunk; lia).
      rewrite Hinv, Echunk.
      replace (Z.to_nat (ofs + len)) with (Z.to_nat ofs + Z.to_nat len)%nat by lia.
      rewrite pattern_bytes_app. do 2 f_equal. lia.
    + exists p'. split; [exact E|]. split.
      * rewrite L. unfold memcpy. fold chunk.
        rewrite !length_app, length_drop, Htake, Hchunk. lia.
      * split; [exact T|]. rewrite D. unfold memcpy. fold chunk. rewrite app_assoc.
        rewrite drop_app_ge by (rewrite length_app, Htake, Hchunk; lia).
        rewrite length_app, Htake, Hchunk, drop_drop. f_equal. lia.
Qed.

Lemma source_trade_loop_unfold fuel s ready completed hp :
  source_trade_loop fuel s ready completed hp =
  oh ← fifo_peek ready;
  match oh with
  | None => Ret (false, s, ready, completed, hp)
  | Some h =>
      if fifo_full completed then Ret (false, s, ready, completed, hp)
      else if src_idx s =? src_entirelen s
      then Ret (true, set_source_eof true s, ready, completed, hp)
      else
        match fuel with
        | O => OutOfFuel
        | S fuel' =>
            let used := minsize_sz (wrap64 (src_entirelen s - src_idx s))
                                   (nallocated (hp h)) in
            payload ← source_fill (Z.to_nat used) s (bytebuf_payload (hp h)) used 0;
            let hp := upd h (fun b => set_body (payload_of payload) (set_nused used b)) hp in
            '(_, ready) ← fifo_get ready;
            '(_, completed) ← fifo_put completed h;
            source_trade_loop fuel' (set_src_idx (wrap64 (src_idx s + used)) s)
                              ready completed hp
        end
  end.
Proof. destruct fuel; reflexivity. Qed.

Lemma produced_ok_ext hp hp' l : ∀ s,
  (∀ h, h ∈ l → hp' h = hp h) → produced_ok hp s l → produced_ok hp' s l.
Proof.
  induction l as [|h l IH]; intros s Heq H; [exact I|].
  simpl in *. rewrite (Heq h) by (apply elem_of_cons; auto).
  destruct H as (H1 & H2 & H3). split_and!; auto.
  apply IH; [|exact H3]. intros h' Hh'. apply Heq, elem_of_cons. auto.
Qed.

Lemma bytes_used_ext hp hp' l :
  (∀ h, h ∈ l → hp' h = hp h) → bytes_used hp' l = bytes_used hp l.
Proof.
  induction l as [|h l IH]; intros Heq; [reflexivity|]. simpl.
  rewrite (Heq h) by (apply elem_of_cons; auto). rewrite IH; [reflexivity|].
  intros h' Hh'. apply Heq, elem_of_cons. auto.
Qed.

(** What the [while] loop of [source_trade] leaves.  The buffers [produced]
    went from [ready] to [completed], filled with the next bytes of the
    stream; no other buffer is touched. *)
Lemma source_trade_loop_correct :
  ∀ fuel s ready completed hp,
    source_ok s → fifo_wf ready → fifo_wf completed →
    insertions completed + Z.of_nat (length (fifo_elems ready)) < 2 ^ 63 →
    NoDup (fifo_elems ready) →
    (∀ h, h ∈ fifo_elems ready → source_buffer_ok (hp h)) →
    (length (fifo_elems ready) ≤ fuel)%nat →
    match source_trade_loop fuel s ready completed hp with
    | Ret (ended, s', ready', completed', hp') =>
        ∃ produced,
          fifo_elems ready = produced ++ fifo_elems ready' ∧
          fifo_elems completed' = fifo_elems completed ++ produced ∧
          fifo_wf ready' ∧ fifo_wf completed' ∧
          produced_ok hp' s produced ∧
          src_idx s' = src_idx s + bytes_used hp' produced ∧
          src_txbuflen s' = src_txbuflen s ∧ src_entirelen s' = src_entirelen s ∧
          src_idx s' ≤ src_entirelen s ∧
          (∀ p, p ∉ produced → hp' p = hp p) ∧
          (∀ p, nallocated (hp' p) = nallocated (hp p) ∧
                length (bytebuf_payload (hp' p)) = length (bytebuf_payload (hp p))) ∧
          (ended = true →
             src_idx s' = src_entirelen s ∧ eof (source_terminal s') = true ∧
             fifo_elems ready' ≠ []) ∧
          (ended = false →
             source_terminal s' = source_terminal s ∧
             (fifo_elems ready' = [] ∨
              Z.of_nat (length (fifo_elems completed')) = fifo_capacity completed'))
    | _ => False
    end.
Proof.
  induction fuel as [|fuel IH]; intros s ready completed hp Hs Hr Hc Hroom Hnd Hbuf Hfuel;
    rewrite source_trade_loop_unfold, (fifo_peek_wf _ Hr); simpl.
  - destruct (fifo_elems ready) as [|h rest] eqn:Er; [|simpl in Hfuel; lia]. simpl.
    exists []. rewrite app_nil_r. destruct Hs as (? & ? & ?).
    split_and!; simpl; auto; try lia; try discriminate.
  - destruct (fifo_elems ready) as [|h rest] eqn:Er; simpl.
    { exists []. rewrite app_nil_r. destruct Hs as (? & ? & ?).
      split_and!; simpl; auto; try lia; try discriminate. }
    rewrite (fifo_full_wf _ Hc).
    destruct (Z.eqb_spec (Z.of_nat (length (fifo_elems completed))) (fifo_capacity completed))
      as [Ef|Ef].
    { exists []. rewrite app_nil_r, Er. destruct Hs as (? & ? & ?).
      split_and!; simpl; auto; try lia; try discriminate. }
    destruct (Z.eqb_spec (src_idx s) (src_entirelen s)) as [Ee|Ee].
    { exists []. rewrite app_nil_r, Er. simpl.
      split_and!; simpl; auto; try lia; try discriminate. }
    destruct Hs as (Hlen & Hidx & Hent). rewrite strlen_txbuf in Hlen.
    destruct (Hbuf h ltac:(left)) as (Hna & Hpl).
    rewrite (wrap64_small (src_entirelen s - src_idx s)) by lia.
    rewrite minsize_sz_small by lia.
    set (used := Z.min (src_entirelen s - src_idx s) (nallocated (hp h))).
    assert (0 ≤ used ≤ nallocated (hp h) ∧ used ≤ src_entirelen s - src_idx s) as Hu
      by (unfold used; lia).
    destruct (source_fill_correct s used Hlen ltac:(lia) ltac:(lia)
                (Z.to_nat used) (bytebuf_payload (hp h)) 0)
      as (p' & Efill & Lp & Tp & Dp); [lia|lia|lia|reflexivity|].
    rewrite Efill. simpl.
    destruct (fifo_get_wf _ Hr) as (ready1 & Eget & Eel & Hr1 & _ & _).
    rewrite Eget. simpl. rewrite Er in Eel. simpl in Eel.
    pose proof (fifo_elems_bound _ Hc) as Hb.
    assert (insertions completed + 1 < 2 ^ 63) as Hroom1
      by (clear -Hroom; rewrite length_cons in Hroom; lia).
    destruct (fifo_put_wf completed h Hc Hroom1 ltac:(lia))
      as (completed1 & Eput & Eel1 & Hc1 & Hmask & Hins).
    rewrite Eput. simpl.
    rewrite (wrap64_small (src_idx s + used)) by lia.
    set (hp1 := upd h (fun b => set_body (payload_of p') (set_nused used b)) hp).
    set (s1 := set_src_idx (src_idx s + used) s).
    pose proof (NoDup_cons_1_1 _ _ Hnd) as Hnotin.
    apply NoDup_cons_1_2 in Hnd.
    assert (source_ok s1) as Hs1
      by (unfold s1, source_ok; simpl; split; [rewrite Hlen; reflexivity|lia]).
    assert (∀ h', h' ∈ fifo_elems ready1 → source_buffer_ok (hp1 h')) as Hbuf1.
    { intros h' Hh'. rewrite Eel in Hh'. unfold hp1.
      rewrite upd_other by (intros ->; contradiction).
      apply Hbuf. right. exact Hh'. }
    rewrite length_cons in Hroom, Hfuel.
    specialize (IH s1 ready1 completed1 hp1 Hs1 Hr1 Hc1).
    rewrite Eel in IH. specialize (IH ltac:(lia) Hnd).
    rewrite Eel in Hbuf1. specialize (IH Hbuf1 ltac:(lia)).
    destruct (source_trade_loop fuel s1 ready1 completed1 hp1)
      as [[[[[ended s'] ready'] completed'] hp']| |]; [|exact IH|exact IH].
    destruct IH as (produced & P1 & P2 & W1 & W2 & P3 & P4 & P5 & P6 & P7 & P8 & P9 & P10 & P11).
    assert (h ∉ produced) as Hhp.
    { intros Hin. apply Hnotin. rewrite P1. apply elem_of_app. auto. }
    assert (hp' h = hp1 h) as Ehh by (apply P8; exact Hhp).
    assert (hp1 h = set_body (payload_of p') (set_nused used (hp h))) as Eh1
      by (unfold hp1; apply upd_same).
    exists (h :: produced). simpl. rewrite Ehh, Eh1. simpl.
    split_and!.
    + rewrite <- P1. reflexivity.
    + rewrite P2, Eel1, <- app_assoc. reflexivity.
    + exact W1.
    + exact W2.
    + reflexivity.
    + unfold buffer_matches, sink_of_source. simpl. rewrite Hlen. exact Tp.
    + exact P3.
    + rewrite P4. unfold s1. simpl. lia.
    + exact P5.
    + exact P6.
    + exact P7.
    + intros p Hp. apply not_elem_of_cons in Hp as [Hne Hp].
      rewrite P8 by exact Hp. unfold hp1. apply upd_other. congruence.
    + intros p. destruct (P9 p) as [Q1 Q2]. rewrite Q1, Q2.
      destruct (decide (p = h)) as [->|Hne].
      * rewrite Eh1. simpl. auto.
      * unfold hp1. rewrite upd_other by congruence. auto.
    + exact P10.
    + exact P11.
Qed.

Lemma set_idx_same (s : sink_t) : set_idx (idx s + 0) s = s.
Proof. destruct s as [t i l e]. unfold set_idx. simpl. f_equal. lia. Qed.

Lemma consumed_ok_app hp l1 : ∀ s l2,
  consumed_ok hp s (l1 ++ l2) ↔
  consumed_ok hp s l1 ∧ consumed_ok hp (set_idx (idx s + bytes_used hp l1) s) l2.
Proof.
  induction l1 as [|h l1 IH]; intros s l2; simpl.
  - rewrite set_idx_same. tauto.
  - rewrite IH. unfold set_idx at 2 3. simpl.
    replace (idx s + nused (hp h) + bytes_used hp l1)
      with (idx s + (nused (hp h) + bytes_used hp l1)) by lia.
    unfold set_idx. tauto.
Qed.

(** What the source produces is what a sink at the same offset takes. *)
Lemma produced_consumed hp l : ∀ s,
  produced_ok hp s l → 0 ≤ src_idx s ≤ src_entirelen s →
  (∀ h, h ∈ l → 0 ≤ nallocated (hp h)) →
  consumed_ok hp (sink_of_source s) l ∧
  (∀ h, h ∈ l → 0 ≤ nused (hp h) ≤ nallocated (hp h)) ∧
  src_idx s + bytes_used hp l ≤ src_entirelen s.
Proof.
  induction l as [|h l IH]; intros s Hp Hidx Hna; simpl.
  - split_and!; [exact I| |lia]. intros h Hh. by apply not_elem_of_nil in Hh.
  - destruct Hp as (Hu & Hm & Hp).
    pose proof (Hna h ltac:(left)) as Hh.
    destruct (IH (set_src_idx (src_idx s + nused (hp h)) s) Hp) as (C & B & T).
    + simpl. lia.
    + intros h' Hh'. apply Hna. right. exact Hh'.
    + simpl in T. split_and!; auto; try lia.
      intros h' Hh'. apply elem_of_cons in Hh' as [->|Hh']; [lia|auto].
Qed.

(** X1.  [source_trade] on well-formed queues of distinct payload buffers: the
    buffers it takes from [ready] go to [completed] in order, each filled as
    far as its size and the rest of the stream allow with the bytes of the
    repeating pattern at the offset the source has reached; no other buffer
    changes.  It never reports an error; from a source not yet at EOF it
    reports the end, with the EOF flag set, exactly when the stream is
    complete, and when it reports more to come it has used up [ready] or
    filled [completed].  A source already at EOF takes nothing. *)
Theorem source_trade_produces_pattern s ready completed hp :
  source_ok s → fifo_wf ready → fifo_wf completed →
  insertions completed + Z.of_nat (length (fifo_elems ready)) < 2 ^ 63 →
  NoDup (fifo_elems ready) →
  (∀ h, h ∈ fifo_elems ready → source_buffer_ok (hp h)) →
  match source_trade s ready completed hp with
  | Ret (ctl, s', ready', completed', hp') =>
      ∃ produced,
        fifo_elems ready = produced ++ fifo_elems ready' ∧
        fifo_elems completed' = fifo_elems completed ++ produced ∧
        produced_ok hp' s produced ∧
        src_idx s' = src_idx s + bytes_used hp' produced ∧
        (∀ p, p ∉ produced → hp' p = hp p) ∧
        ctl ≠ loop_error ∧
        (eof (source_terminal s) = true → ctl = loop_end ∧ produced = []) ∧
        (eof (source_terminal s) = false →
           (ctl = loop_end ↔ src_idx s' = src_entirelen s)) ∧
        (ctl = loop_end → eof (source_terminal s') = true) ∧
        (ctl = loop_continue →
           fifo_elems ready' = [] ∨
           Z.of_nat (length (fifo_elems completed')) = fifo_capacity completed')
  | _ => False
  end.
Proof.
  intros Hs Hr Hc Hroom Hnd Hbuf. unfold source_trade.
  destruct (eof (source_terminal s)) eqn:Heof.
  - exists []. rewrite app_nil_r. simpl.
    split_and!; auto; try lia; try discriminate.
  - pose proof (source_trade_loop_correct (fifo_occupancy ready) s ready completed hp
                  Hs Hr Hc Hroom Hnd Hbuf) as HL.
    rewrite (fifo_occupancy_wf _ Hr) in *. specialize (HL ltac:(lia)).
    destruct (source_trade_loop _ s ready completed hp)
      as [[[[[ended s'] ready'] completed'] hp']| |]; [|exact HL|exact HL].
    destruct HL as (produced & P1 & P2 & W1 & W2 & P3 & P4 & P5 & P6 & P7 & P8 & P9 & P10 & P11).
    simpl. destruct ended.
    + destruct (P10 eq_refl) as (E1 & E2 & E3).
      exists produced. split_and!; auto; try discriminate.
      * split; [intros _; exact E1|reflexivity].
    + destruct (P11 eq_refl) as (E1 & E2).
      destruct (Z.eqb_spec (src_idx s') (src_entirelen s')) as [Ee|Ee]; simpl.
      * exists produced. split_and!; auto; try discriminate.
        split; [intros _; congruence|reflexivity].
      * exists produced. split_and!; auto; try discriminate.
        split; [discriminate|intros; congruence].
Qed.

Lemma source_trade_produces_pattern_witness :
  let ready := fifo_of_list 2 [3; 4]%nat in
  let completed := fifo_of_list 2 [] in
  match source_trade source_fresh ready completed heap_blank with
  | Ret (ctl, s', ready', completed', hp') =>
      ∃ produced,
        fifo_elems ready = produced ++ fifo_elems ready' ∧
        fifo_elems completed' = fifo_elems completed ++ produced ∧
        produced_ok hp' source_fresh produced ∧
        src_idx s' = src_idx source_fresh + bytes_used hp' produced ∧
        (∀ p, p ∉ produced → hp' p = heap_blank p) ∧
        ctl ≠ loop_error ∧
        (eof (source_terminal source_fresh) = true → ctl = loop_end ∧ produced = []) ∧
        (eof (source_terminal source_fresh) = false →
           (ctl = loop_end ↔ src_idx s' = src_entirelen source_fresh)) ∧
        (ctl = loop_end → eof (source_terminal s') = true) ∧
        (ctl = loop_continue →
           fifo_elems ready' = [] ∨
           Z.of_nat (length (fifo_elems completed')) = fifo_capacity completed')
  | _ => False
  end.
Proof.
  intros ready completed.
  apply (source_trade_produces_pattern source_fresh ready completed heap_blank).
  - vm_compute. split_and!; (reflexivity || discriminate).
  - apply fifo_of_list_wf; simpl; lia.
  - apply fifo_of_list_wf; simpl; lia.
  - vm_compute. reflexivity.
  - vm_compute. repeat constructor; intros H;
      repeat (apply elem_of_cons in H as [H|H]; [discriminate|]);
      by apply not_elem_of_nil in H.
  - intros h Hin. vm_compute in Hin.
    repeat (apply elem_of_cons in Hin as [->|Hin];
            [vm_compute; split_and!; (discriminate || reflexivity)|]).
    by apply not_elem_of_nil in Hin.
Defined.

Example source_trade_example :
  match source_trade source_fresh (fifo_of_list 2 [3; 4]%nat) (fifo_of_list 2 []) heap_blank with
  | Ret (ctl, s', ready', completed', hp') =>
      ctl = loop_continue ∧ src_idx s' = 52 ∧
      fifo_elems ready' = [] ∧ fifo_elems completed' = [3; 4]%nat ∧
      hp' 3%nat = heap_pattern 3%nat ∧ hp' 4%nat = heap_pattern 4%nat
  | _ => False
  end.
Proof. vm_compute. split_and!; reflexivity. Qed.

(** X2.  What [source_trade] puts on its output queue, [sink_trade] takes:
    a sink that has got as far into the stream as the source had, reading the
    queue the source filled, with room for it on its own output queue, takes
    every buffer, ends where the source ended and reports what the source
    reported; it never reports an error. *)
Theorem source_sink_round_trip s ready completed hp cq :
  source_ok s → eof (source_terminal s) = false →
  fifo_wf ready → fifo_wf completed → fifo_elems completed = [] →
  insertions completed + Z.of_nat (length (fifo_elems ready)) < 2 ^ 63 →
  NoDup (fifo_elems ready) →
  (∀ h, h ∈ fifo_elems ready → source_buffer_ok (hp h)) →
  fifo_wf cq →
  insertions cq + Z.of_nat (length (fifo_elems ready)) < 2 ^ 63 →
  Z.of_nat (length (fifo_elems cq)) + Z.of_nat (length (fifo_elems ready))
    ≤ fifo_capacity cq →
  match source_trade s ready completed hp with
  | Ret (ctl, s', ready', completed', hp') =>
      match sink_trade (sink_of_source s) completed' cq hp' with
      | Ret (ctl', snk', rq', cq') =>
          ctl' = ctl ∧ ctl' ≠ loop_error ∧ idx snk' = src_idx s' ∧
          fifo_elems rq' = [] ∧
          fifo_elems cq' = fifo_elems cq ++ fifo_elems completed'
      | _ => False
      end
  | _ => False
  end.
Proof.
  intros Hs Heof Hr Hc Hce Hroom Hnd Hbuf Hq Hqroom Hqcap. unfold source_trade.
  rewrite Heof.
  pose proof (source_trade_loop_correct (fifo_occupancy ready) s ready completed hp
                Hs Hr Hc Hroom Hnd Hbuf) as HL.
  rewrite (fifo_occupancy_wf _ Hr) in *. specialize (HL ltac:(lia)).
  destruct (source_trade_loop _ s ready completed hp)
    as [[[[[ended s'] ready'] completed'] hp']| |]; [|exact HL|exact HL].
  destruct HL as (produced & P1 & P2 & W1 & W2 & P3 & P4 & P5 & P6 & P7 & P8 & P9 & P10 & P11).
  rewrite Hce in P2. simpl in P2.
  assert (length produced ≤ length (fifo_elems ready))%nat as Hlen
    by (rewrite P1, length_app; lia).
  destruct Hs as (Hs1 & Hs2 & Hs3).
  assert (∀ h, h ∈ produced → source_buffer_ok (hp h)) as Hbuf'
    by (intros h Hh; apply Hbuf; rewrite P1; apply elem_of_app; auto).
  destruct (produced_consumed hp' produced s P3 Hs2) as (C1 & C2 & C3).
  { intros h Hh. destruct (P9 h) as [-> _]. destruct (Hbuf' h Hh). lia. }
  set (snk := sink_of_source s) in *.
  assert (sink_ok snk) as Hsnk by (unfold snk, sink_ok, sink_of_source; simpl; auto).
  assert (∀ h, h ∈ fifo_elems completed' → sink_buffer_ok snk (hp' h)) as Hsb.
  { intros h Hh. rewrite P2 in Hh. destruct (P9 h) as [Q1 Q2].
    destruct (Hbuf' h Hh) as [B1 B2]. pose proof (C2 h Hh) as B3.
    unfold sink_buffer_ok. rewrite Q2. rewrite Q1 in B3. lia. }
  assert (∀ ctl (t : source_t),
            src_idx t = src_idx s' → (ctl = loop_end ↔ src_idx s' = src_entirelen s) →
            ctl ≠ loop_error →
            match sink_trade snk completed' cq hp' with
            | Ret (ctl', snk', rq', cq') =>
                ctl' = ctl ∧ ctl' ≠ loop_error ∧ idx snk' = src_idx t ∧
                fifo_elems rq' = [] ∧
                fifo_elems cq' = fifo_elems cq ++ fifo_elems completed'
            | _ => False
            end) as Hsink.
  { intros ctl t Et Hctl Hne. unfold sink_trade.
    replace (eof (sink_terminal snk)) with false by (unfold snk; simpl; congruence).
    simpl.
    pose proof (sink_trade_loop_correct hp' (fifo_occupancy completed') snk completed' cq
                  Hsnk W2 Hq) as HS.
    rewrite (fifo_occupancy_wf _ W2), P2 in HS.
    specialize (HS ltac:(lia)). rewrite <- P2 in HS. specialize (HS Hsb). rewrite P2 in HS.
    specialize (HS ltac:(lia)).
    rewrite (fifo_occupancy_wf _ W2), P2.
    destruct (sink_trade_loop _ snk completed' cq hp')
      as [[[[failed snk'] rq'] cq']| |] eqn:Eloop; [|exact HS|exact HS].
    destruct HS as (consumed & S1 & S2 & S3 & S4 & S5 & S6 & S7).
    pose proof (sink_trade_loop_mask _ _ _ _ _ _ _ _ _ Eloop) as Hmask.
    rewrite S1 in C1. apply consumed_ok_app in C1 as [_ C1]. rewrite <- S4 in C1.
    assert (failed = false) as ->.
    { destruct failed; [|reflexivity]. destruct (proj1 S6 eq_refl) as (h & Hh & _ & Href).
      destruct (fifo_elems rq') as [|h' rest]; [discriminate|]. injection Hh as ->.
      simpl in C1. destruct C1 as (M1 & M2 & _).
      destruct Href as [Href|Href]; [lia|contradiction]. }
    assert (fifo_elems rq' = []) as Erq.
    { destruct (S7 eq_refl) as [E|E]; [exact E|].
      destruct (fifo_elems rq') as [|h' rest] eqn:Er; [reflexivity|].
      rewrite S2, length_app in E. unfold fifo_capacity in *. rewrite Hmask in E.
      rewrite S1, length_app in Hlen. rewrite length_cons in Hlen. lia. }
    rewrite Erq, app_nil_r in S1. subst consumed.
    assert (idx snk' = src_idx s') as Eidx.
    { rewrite S4, P4. unfold snk, sink_of_source, set_idx. simpl. reflexivity. }
    assert (entirelen snk' = src_entirelen s) as Eent by (rewrite S4; reflexivity).
    simpl. rewrite Eidx, Eent.
    destruct (Z.eqb_spec (src_idx s') (src_entirelen s)) as [Ee|Ee]; simpl.
    - split_and!; auto; try discriminate; try congruence.
      symmetry. apply Hctl. exact Ee.
    - split_and!; auto; try discriminate; try congruence.
      destruct ctl; [reflexivity| |congruence]. exfalso. apply Ee. apply Hctl. reflexivity. }
  simpl. destruct ended.
  - destruct (P10 eq_refl) as (E1 & E2 & E3).
    apply (Hsink loop_end s'); [reflexivity| |discriminate].
    split; [intros _; exact E1|reflexivity].
  - destruct (P11 eq_refl) as (E1 & E2). rewrite P6.
    destruct (Z.eqb_spec (src_idx s') (src_entirelen s)) as [Ee|Ee]; simpl.
    + apply (Hsink loop_end (set_source_eof true s')); [reflexivity| |discriminate].
      split; [intros _; exact Ee|reflexivity].
    + apply (Hsink loop_continue s'); [reflexivity| |discriminate].
      split; [discriminate|intros; contradiction].
Qed.

(** Two blank buffers through a fresh source and on to a sink at the start of
    the same stream. *)
Lemma source_sink_round_trip_witness :
  let ready := fifo_of_list 2 [3; 4]%nat in
  let completed := fifo_of_list 2 [] in
  let cq := fifo_of_list 2 [] in
  match source_trade source_fresh ready completed heap_blank with
  | Ret (ctl, s', ready', completed', hp') =>
      match sink_trade (sink_of_source source_fresh) completed' cq hp' with
      | Ret (ctl', snk', rq', cq') =>
          ctl' = ctl ∧ ctl' ≠ loop_error ∧ idx snk' = src_idx s' ∧
          fifo_elems rq' = [] ∧
          fifo_elems cq' = fifo_elems cq ++ fifo_elems completed'
      | _ => False
      end
  | _ => False
  end.
Proof.
  intros ready completed cq.
  apply (source_sink_round_trip source_fresh ready completed heap_blank cq).
  - vm_compute. split_and!; (reflexivity || discriminate).
  - reflexivity.
  - apply fifo_of_list_wf; simpl; lia.
  - apply fifo_of_list_wf; simpl; lia.
  - reflexivity.
  - vm_compute. reflexivity.
  - vm_compute. repeat constructor; intros H;
      repeat (apply elem_of_cons in H as [H|H]; [discriminate|]);
      by apply not_elem_of_nil in H.
  - intros h Hin. vm_compute in Hin.
    repeat (apply elem_of_cons in Hin as [->|Hin];
            [vm_compute; split_and!; (discriminate || reflexivity)|]).
    by apply not_elem_of_nil in Hin.
  - apply fifo_of_list_wf; simpl; lia.
  - vm_compute. reflexivity.
  - vm_compute. discriminate.
Defined.

(** ** Rings and buffer lists *)

Lemma size_is_power_of_2_pow2 n :
  0 ≤ n < 64 → size_is_power_of_2 (2 ^ n) = true.
Proof.
  intros Hn. unfold size_is_power_of_2.
  assert (0 < 2 ^ n < 2 ^ 64) as Hp.
  { split; [apply Z.pow_pos_nonneg; lia|apply Z.pow_lt_mono_r; lia]. }
  rewrite wrap64_small by lia.
  replace (2 ^ n - 1) with (Z.ones n) by (rewrite Z.ones_equiv; lia).
  rewrite Z.land_comm, Z.land_ones, Z.mod_same by lia. reflexivity.
Qed.

Lemma size_is_power_of_2_inv size :
  0 < size < 2 ^ 64 → size_is_power_of_2 size = true →
  ∃ n, 0 ≤ n < 64 ∧ size = 2 ^ n.
Proof.
  intros Hs H. unfold size_is_power_of_2 in H. apply Z.eqb_eq in H.
  rewrite wrap64_small in H by lia.
  pose proof (Z.log2_spec size ltac:(lia)) as Hl.
  pose proof (Z.log2_nonneg size) as Hl0.
  exists (Z.log2 size). split.
  - split; [lia|]. apply Z.log2_lt_pow2; lia.
  - destruct (decide (size = 2 ^ Z.log2 size)) as [E|Hne]; [exact E|exfalso].
    assert (Z.log2 (size - 1) = Z.log2 size) as El
      by (apply Z.log2_unique; lia).
    assert (Z.testbit (Z.land (size - 1) size) (Z.log2 size) = true) as Hb.
    { rewrite Z.land_spec, <- El at 1. rewrite Z.bit_log2 by lia.
      rewrite Z.bit_log2 by lia. reflexivity. }
    rewrite H, Z.bits_0 in Hb. discriminate.
Qed.

(** X3.  The test [((size - 1) & size) == 0] of [size_is_power_of_2] holds of
    a [size_t] exactly when it is zero or a power of two. *)
Theorem size_is_power_of_2_iff size :
  0 ≤ size < 2 ^ 64 →
  (size_is_power_of_2 size = true ↔ size = 0 ∨ ∃ n, 0 ≤ n < 64 ∧ size = 2 ^ n).
Proof.
  intros Hs. split.
  - intros H. destruct (decide (size = 0)) as [->|Hne]; [left; reflexivity|right].
    apply size_is_power_of_2_inv; [lia|exact H].
  - intros [->|(n & Hn & ->)]; [reflexivity|apply size_is_power_of_2_pow2; exact Hn].
Qed.

Lemma size_is_power_of_2_iff_witness :
  size_is_power_of_2 64 = true ↔ 64 = 0 ∨ ∃ n, 0 ≤ n < 64 ∧ 64 = 2 ^ n.
Proof. apply (size_is_power_of_2_iff 64). lia. Defined.

(** X4.  [fifo_create] gives no ring for a size that is neither zero nor a
    power of two, or when [malloc] fails.  Otherwise it gives an empty ring
    in the block [malloc] gave for [24 + 8 * size] bytes, counted in
    [size_t], with [index_mask = size - 1].  Of a power of two below
    [2 ^ 61] the block has that many slots, and the ring has that capacity,
    is not full and is well formed.  Of size zero and of the powers of two
    from [2 ^ 61] the byte count wraps to the 24 bytes of the header, and the
    ring has no slot. *)
Theorem fifo_create_empty alloc size :
  0 ≤ size < 2 ^ 64 →
  (∀ n slots, alloc n = Some slots →
     Z.of_nat (length slots) = Z.max 0 ((n - fifo_hdr_offset) / fifo_slot_size)) →
  match fifo_create alloc size with
  | Some f =>
      (size = 0 ∨ ∃ n, 0 ≤ n < 64 ∧ size = 2 ^ n) ∧
      alloc (fifo_alloc_size size) = Some (hdr f) ∧
      insertions f = 0 ∧ removals f = 0 ∧ index_mask f = wrap64 (size - 1) ∧
      fifo_elems f = [] ∧ fifo_empty f = true ∧
      (0 < size < 2 ^ 61 →
         fifo_alloc_size size = fifo_hdr_offset + fifo_slot_size * size ∧
         fifo_capacity f = size ∧ fifo_full f = false ∧ fifo_wf f) ∧
      (size = 0 ∨ 2 ^ 61 ≤ size →
         fifo_alloc_size size = fifo_hdr_offset ∧ hdr f = [])
  | None =>
      (size ≠ 0 ∧ ∀ n, 0 ≤ n → size ≠ 2 ^ n) ∨ alloc (fifo_alloc_size size) = None
  end.
Proof.
  intros Hs Hm. unfold fifo_create.
  destruct (size_is_power_of_2 size) eqn:Hp.
  - destruct (alloc (fifo_alloc_size size)) as [slots|] eqn:Em; [|right; reflexivity].
    pose proof (Hm _ _ Em) as Hlen.
    assert (size = 0 ∨ ∃ n, 0 ≤ n < 64 ∧ size = 2 ^ n) as Hpow.
    { destruct (decide (size = 0)) as [E|E]; [left; exact E|right].
      apply size_is_power_of_2_inv; [lia|exact Hp]. }
    cbn [insertions removals index_mask hdr].
    split; [exact Hpow|]. split; [reflexivity|].
    split; [reflexivity|]. split; [reflexivity|]. split; [reflexivity|].
    split; [reflexivity|]. split; [reflexivity|]. split.
    + intros Hsz.
      destruct Hpow as [E|(n & Hn & E)]; [lia|].
      assert (n < 61) as Hn61 by (apply (Z.pow_lt_mono_r_iff 2); lia).
      assert (size ≤ 2 ^ 60) as Hle60
        by (rewrite E; apply Z.pow_le_mono_r; lia).
      assert (fifo_alloc_size size = fifo_hdr_offset + fifo_slot_size * size) as Ea.
      { unfold fifo_alloc_size, fifo_hdr_offset, fifo_slot_size.
        rewrite (wrap64_small (8 * size)) by lia. apply wrap64_small. lia. }
      rewrite Ea in Hlen. unfold fifo_hdr_offset, fifo_slot_size in Hlen.
      replace (24 + 8 * size - 24) with (size * 8) in Hlen by lia.
      rewrite Z.div_mul in Hlen by lia.
      unfold fifo_capacity, fifo_full. cbn [insertions removals index_mask hdr].
      rewrite (wrap64_small (size - 1)) by lia.
      replace (size - 1 + 1) with size by lia. rewrite (wrap64_small size) by lia.
      split; [exact Ea|]. split; [reflexivity|]. split.
      { destruct size; try reflexivity; lia. }
      split; cbn [insertions removals index_mask hdr]; try lia.
      exists n. split; [lia|]. rewrite Z.ones_equiv, E. lia.
    + intros Hbig.
      assert (wrap64 (fifo_slot_size * size) = 0) as Ew.
      { destruct Hbig as [->|Hbig]; [reflexivity|].
        destruct Hpow as [E|(n & Hn & E)]; [lia|].
        assert (61 ≤ n).
        { destruct (decide (61 ≤ n)) as [H|H]; [exact H|].
          assert (2 ^ n < 2 ^ 61) by (apply Z.pow_lt_mono_r; lia). lia. }
        assert (n = 61 ∨ n = 62 ∨ n = 63) as [->|[->| ->]] by lia;
          subst size; reflexivity. }
      assert (fifo_alloc_size size = fifo_hdr_offset) as Ea.
      { unfold fifo_alloc_size. rewrite Ew. reflexivity. }
      split; [exact Ea|]. rewrite Ea in Hlen.
      unfold fifo_hdr_offset, fifo_slot_size in Hlen.
      change (0 `max` ((24 - 24) `div` 8)) with 0 in Hlen.
      destruct slots; [reflexivity|simpl in Hlen; lia].
  - left. split.
    + intros ->. discriminate.
    + intros n Hn E.
      destruct (decide (n < 64)) as [Hlt|Hge].
      * rewrite E, size_is_power_of_2_pow2 in Hp by lia. discriminate.
      * assert (2 ^ 64 ≤ 2 ^ n) by (apply Z.pow_le_mono_r; lia). lia.
Qed.

(** The rings of a session have 64 slots. *)
Lemma fifo_create_empty_witness :
  match fifo_create malloc_ring 64 with
  | Some f =>
      (64 = 0 ∨ ∃ n, 0 ≤ n < 64 ∧ 64 = 2 ^ n) ∧
      malloc_ring (fifo_alloc_size 64) = Some (hdr f) ∧
      insertions f = 0 ∧ removals f = 0 ∧ index_mask f = wrap64 (64 - 1) ∧
      fifo_elems f = [] ∧ fifo_empty f = true ∧
      (0 < 64 < 2 ^ 61 →
         fifo_alloc_size 64 = fifo_hdr_offset + fifo_slot_size * 64 ∧
         fifo_capacity f = 64 ∧ fifo_full f = false ∧ fifo_wf f) ∧
      (64 = 0 ∨ 2 ^ 61 ≤ 64 →
         fifo_alloc_size 64 = fifo_hdr_offset ∧ hdr f = [])
  | None =>
      (64 ≠ 0 ∧ ∀ n, 0 ≤ n → 64 ≠ 2 ^ n) ∨ malloc_ring (fifo_alloc_size 64) = None
  end.
Proof.
  apply (fifo_create_empty malloc_ring 64).
  - lia.
  - intros n slots H. inversion H. rewrite length_replicate. lia.
Defined.

(** A ring of [2 ^ 61] slots is created on a block that holds the header
    only. *)
Example fifo_create_wraps :
  match fifo_create malloc_ring (2 ^ 61) with
  | Some f => fifo_alloc_size (2 ^ 61) = 24 ∧ index_mask f = 2 ^ 61 - 1 ∧ hdr f = []
  | None => False
  end.
Proof. vm_compute. split_and!; reflexivity. Qed.

(** X5.  [fifo_put] on a well-formed ring: it succeeds exactly when the ring
    is not full, and then the buffer is the newest entry; on a full ring it
    returns false and changes nothing. *)
Theorem fifo_put_appends f h :
  fifo_wf f → insertions f + 1 < 2 ^ 63 →
  match fifo_put f h with
  | Ret (ok, f') =>
      fifo_wf f' ∧ fifo_capacity f' = fifo_capacity f ∧
      (ok = true ↔ Z.of_nat (length (fifo_elems f)) < fifo_capacity f) ∧
      (ok = true → fifo_elems f' = fifo_elems f ++ [h]) ∧
      (ok = false → f' = f)
  | _ => False
  end.
Proof.
  intros Hwf Hroom. pose proof (fifo_elems_bound _ Hwf) as Hb.
  destruct (decide (Z.of_nat (length (fifo_elems f)) = fifo_capacity f)) as [Hfull|Hnf].
  - rewrite (fifo_put_full f h Hwf Hfull).
    split_and!; auto; try discriminate. split; [discriminate|lia].
  - destruct (fifo_put_wf f h Hwf Hroom ltac:(lia)) as (f' & E & El & Hwf' & Hm & _).
    rewrite E. unfold fifo_capacity. rewrite Hm.
    split_and!; auto; try discriminate. unfold fifo_capacity in *. split; [lia|reflexivity].
Qed.

Lemma fifo_put_appends_witness :
  match fifo_put (fifo_of_list 2 [3; 4]%nat) 6%nat with
  | Ret (ok, f') =>
      fifo_wf f' ∧ fifo_capacity f' = fifo_capacity (fifo_of_list 2 [3; 4]%nat) ∧
      (ok = true ↔ Z.of_nat (length (fifo_elems (fifo_of_list 2 [3; 4]%nat)))
                   < fifo_capacity (fifo_of_list 2 [3; 4]%nat)) ∧
      (ok = true → fifo_elems f' = fifo_elems (fifo_of_list 2 [3; 4]%nat) ++ [6%nat]) ∧
      (ok = false → f' = fifo_of_list 2 [3; 4]%nat)
  | _ => False
  end.
Proof.
  apply (fifo_put_appends (fifo_of_list 2 [3; 4]%nat) 6%nat).
  - apply fifo_of_list_wf; simpl; lia.
  - vm_compute. reflexivity.
Defined.

(** X6.  [fifo_get] on a well-formed ring returns the oldest entry, the one
    [fifo_peek] shows, and leaves the others in order; on an empty ring both
    return NULL and [fifo_get] changes nothing. *)
Theorem fifo_get_oldest f :
  fifo_wf f →
  match fifo_get f with
  | Ret (oh, f') =>
      fifo_peek f = Ret oh ∧ oh = head (fifo_elems f) ∧
      fifo_elems f' = tail (fifo_elems f) ∧
      fifo_wf f' ∧ fifo_capacity f' = fifo_capacity f ∧
      (oh = None ↔ fifo_empty f = true) ∧ (oh = None → f' = f)
  | _ => False
  end.
Proof.
  intros Hwf. destruct (fifo_get_wf f Hwf) as (f' & E & El & Hwf' & Hm & _).
  rewrite E, (fifo_peek_wf f Hwf), (fifo_empty_wf f Hwf).
  unfold fifo_capacity. rewrite Hm.
  do 5 (split; [solve [auto]|]). split.
  - destruct (fifo_elems f); simpl; split; intros H; try discriminate; auto.
  - intros Hn. unfold fifo_get in E.
    destruct (insertions f <? removals f); [discriminate|].
    destruct (Z.eqb_spec (insertions f) (removals f)) as [Ee|Ee]; [congruence|].
    injection E as E _. rewrite <- E in Hn. discriminate.
Qed.

Lemma fifo_get_oldest_witness :
  match fifo_get (fifo_of_list 2 [3; 4]%nat) with
  | Ret (oh, f') =>
      fifo_peek (fifo_of_list 2 [3; 4]%nat) = Ret oh ∧
      oh = head (fifo_elems (fifo_of_list 2 [3; 4]%nat)) ∧
      fifo_elems f' = tail (fifo_elems (fifo_of_list 2 [3; 4]%nat)) ∧
      fifo_wf f' ∧ fifo_capacity f' = fifo_capacity (fifo_of_list 2 [3; 4]%nat) ∧
      (oh = None ↔ fifo_empty (fifo_of_list 2 [3; 4]%nat) = true) ∧
      (oh = None → f' = fifo_of_list 2 [3; 4]%nat)
  | _ => False
  end.
Proof.
  apply (fifo_get_oldest (fifo_of_list 2 [3; 4]%nat)).
  apply fifo_of_list_wf; simpl; lia.
Defined.

Lemma buflist_elems_snoc bl h :
  buflist_wf bl → bl_nfull bl < bl_nallocated bl →
  take (Z.to_nat (bl_nfull bl + 1)) (<[Z.to_nat (bl_nfull bl) := h]> (bl_buf bl)) =
  buflist_elems bl ++ [h].
Proof.
  intros (Hn & Hl & Hb) Hlt. unfold buflist_elems.
  replace (Z.to_nat (bl_nfull bl + 1)) with (S (Z.to_nat (bl_nfull bl))) by lia.
  rewrite (take_S_r _ _ h) by (apply list_lookup_insert_eq; lia).
  rewrite take_insert_ge by lia. reflexivity.
Qed.

Lemma buflist_put_ok bl h :
  buflist_wf bl →
  match buflist_put bl h with
  | (true, bl') =>
      bl_nfull bl < bl_nallocated bl ∧ buflist_wf bl' ∧
      buflist_elems bl' = buflist_elems bl ++ [h] ∧
      bl_nallocated bl' = bl_nallocated bl
  | (false, bl') => bl' = bl ∧ bl_nfull bl = bl_nallocated bl
  end.
Proof.
  intros Hwf. pose proof Hwf as (Hn & Hl & Hb). unfold buflist_put.
  destruct (Z.eqb_spec (bl_nfull bl) (bl_nallocated bl)) as [E|E]; [auto|].
  rewrite wrap64_small by lia.
  assert (bl_nfull bl < bl_nallocated bl) as Hlt by lia.
  split; [exact Hlt|]. split.
  { unfold buflist_wf. simpl. rewrite length_insert. lia. }
  split; [exact (buflist_elems_snoc bl h Hwf Hlt)|reflexivity].
Qed.

(** X7.  [buflist_put] then [buflist_get]: on a list that is not full the
    put succeeds and the next get hands the same buffer back, leaving the
    list as it was; on a full list the put returns false and changes
    nothing. *)
Theorem buflist_put_get bl h :
  buflist_wf bl →
  match buflist_put bl h with
  | (true, bl') =>
      bl_nfull bl < bl_nallocated bl ∧ buflist_wf bl' ∧
      buflist_elems bl' = buflist_elems bl ++ [h] ∧
      ∃ bl'', buflist_get bl' = (Some h, bl'') ∧
              buflist_elems bl'' = buflist_elems bl ∧ buflist_wf bl''
  | (false, bl') => bl' = bl ∧ bl_nfull bl = bl_nallocated bl
  end.
Proof.
  intros Hwf. pose proof Hwf as (Hn & Hl & Hb). unfold buflist_put.
  destruct (Z.eqb_spec (bl_nfull bl) (bl_nallocated bl)) as [E|E]; [auto|].
  rewrite wrap64_small by lia.
  assert (bl_nfull bl < bl_nallocated bl) as Hlt by lia.
  pose proof (buflist_elems_snoc bl h Hwf Hlt) as Hs.
  split; [exact Hlt|]. split.
  { unfold buflist_wf. simpl. rewrite length_insert. lia. }
  split; [exact Hs|].
  unfold buflist_get. simpl.
  destruct (Z.eqb_spec (bl_nfull bl + 1) 0) as [E0|E0]; [lia|].
  replace (bl_nfull bl + 1 - 1) with (bl_nfull bl) by lia.
  rewrite wrap64_small by lia.
  rewrite list_lookup_insert_eq by lia. simpl.
  eexists. split; [reflexivity|]. split.
  - unfold buflist_elems. simpl. rewrite take_insert_ge by lia. reflexivity.
  - unfold buflist_wf. simpl. rewrite length_insert. lia.
Qed.

Lemma buflist_put_get_witness :
  match buflist_put (buflist_of_list 4 [3; 4]%nat) 6%nat with
  | (true, bl') =>
      bl_nfull (buflist_of_list 4 [3; 4]%nat)
        < bl_nallocated (buflist_of_list 4 [3; 4]%nat) ∧ buflist_wf bl' ∧
      buflist_elems bl' = buflist_elems (buflist_of_list 4 [3; 4]%nat) ++ [6%nat] ∧
      ∃ bl'', buflist_get bl' = (Some 6%nat, bl'') ∧
              buflist_elems bl'' = buflist_elems (buflist_of_list 4 [3; 4]%nat) ∧
              buflist_wf bl''
  | (false, bl') =>
      bl' = buflist_of_list 4 [3; 4]%nat ∧
      bl_nfull (buflist_of_list 4 [3; 4]%nat) = bl_nallocated (buflist_of_list 4 [3; 4]%nat)
  end.
Proof.
  apply (buflist_put_get (buflist_of_list 4 [3; 4]%nat) 6%nat).
  vm_compute. split_and!; (reflexivity || discriminate).
Defined.

(** X8.  [buflist_get] on a list whose counters and slots agree takes the
    buffer put last; on an empty list it returns NULL and changes nothing. *)
Theorem buflist_get_newest bl :
  buflist_wf bl →
  match buflist_get bl with
  | (Some h, bl') =>
      buflist_elems bl = buflist_elems bl' ++ [h] ∧ buflist_wf bl' ∧
      bl_nallocated bl' = bl_nallocated bl
  | (None, bl') => bl' = bl ∧ buflist_elems bl = []
  end.
Proof.
  intros (Hn & Hl & Hb). unfold buflist_get.
  destruct (Z.eqb_spec (bl_nfull bl) 0) as [E|E].
  - split; [reflexivity|]. unfold buflist_elems. rewrite E. reflexivity.
  - rewrite wrap64_small by lia.
    destruct (lookup_lt_is_Some_2 (bl_buf bl) (Z.to_nat (bl_nfull bl - 1))) as [x Hx]; [lia|].
    rewrite Hx. simpl. unfold buflist_elems, buflist_wf. simpl.
    split_and!; try lia.
    replace (Z.to_nat (bl_nfull bl)) with (S (Z.to_nat (bl_nfull bl - 1))) by lia.
    apply take_S_r. exact Hx.
Qed.

Lemma buflist_get_newest_witness :
  match buflist_get (buflist_of_list 4 [3; 4]%nat) with
  | (Some h, bl') =>
      buflist_elems (buflist_of_list 4 [3; 4]%nat) = buflist_elems bl' ++ [h] ∧
      buflist_wf bl' ∧
      bl_nallocated bl' = bl_nallocated (buflist_of_list 4 [3; 4]%nat)
  | (None, bl') =>
      bl' = buflist_of_list 4 [3; 4]%nat ∧ buflist_elems (buflist_of_list 4 [3; 4]%nat) = []
  end.
Proof.
  apply (buflist_get_newest (buflist_of_list 4 [3; 4]%nat)).
  vm_compute. split_and!; (reflexivity || discriminate).
Defined.

(** ** Receive and transmit controllers *)

(** X9.  [rxctl_complete] takes completions in the order the receives were
    posted.  It returns only on a completion that has the receive flags or
    whose buffer was cancelled: with nothing posted it then returns NULL and
    changes nothing, and on a completion for the oldest posted buffer it
    takes the buffer off [posted] and records the received length in
    [nused], touching no other buffer.  A completion for any other buffer
    ends the process, and so does one without the receive flags whose buffer
    was not cancelled. *)
Theorem rxctl_complete_in_order rc cmpl hp :
  fifo_wf (rx_posted rc) →
  match rxctl_complete rc cmpl hp with
  | Ret (None, rc', hp') =>
      (Z.land (cmpl_flags cmpl) desired_rx_flags = desired_rx_flags ∨
       xfc_cancelled (xfc (hp (cmpl_xfc cmpl))) = true) ∧
      fifo_elems (rx_posted rc) = [] ∧ rc' = rc ∧ hp' = hp
  | Ret (Some h, rc', hp') =>
      (Z.land (cmpl_flags cmpl) desired_rx_flags = desired_rx_flags ∨
       xfc_cancelled (xfc (hp (cmpl_xfc cmpl))) = true) ∧
      head (fifo_elems (rx_posted rc)) = Some h ∧ cmpl_xfc cmpl = h ∧
      fifo_elems (rx_posted rc') = tail (fifo_elems (rx_posted rc)) ∧
      fifo_wf (rx_posted rc') ∧ rx_rcvd rc' = rx_rcvd rc ∧
      nused (hp' h) = cmpl_len cmpl ∧ (∀ p, p ≠ h → hp' p = hp p)
  | Exit =>
      (Z.land (cmpl_flags cmpl) desired_rx_flags ≠ desired_rx_flags ∧
       xfc_cancelled (xfc (hp (cmpl_xfc cmpl))) = false) ∨
      (∃ h, head (fifo_elems (rx_posted rc)) = Some h ∧ h ≠ cmpl_xfc cmpl)
  | OutOfFuel => False
  end.
Proof.
  intros Hwf. unfold rxctl_complete.
  destruct (Z.eqb_spec (Z.land (cmpl_flags cmpl) desired_rx_flags) desired_rx_flags)
    as [Ef|Ef]; simpl.
  2:{ destruct (xfc_cancelled (xfc (hp (cmpl_xfc cmpl)))) eqn:Ec; simpl; [|left; auto].
      destruct (fifo_get_wf _ Hwf) as (f' & E & El & Hwf' & _ & _). rewrite E. simpl.
      destruct (fifo_elems (rx_posted rc)) as [|h l] eqn:Eq; simpl.
      - split; [right; reflexivity|]. split; [reflexivity|]. split; [|reflexivity].
        unfold fifo_get in E. destruct (insertions _ <? removals _); [discriminate|].
        destruct (insertions _ =? removals _); [|discriminate].
        injection E as <-. destruct rc; reflexivity.
      - destruct (Nat.eqb_spec (cmpl_xfc cmpl) h) as [Eh|Eh]; simpl.
        + rewrite upd_same. split; [right; reflexivity|].
          split_and!; auto. intros p Hp. apply upd_other. congruence.
        + right. exists h. split; [reflexivity|congruence]. }
  destruct (fifo_get_wf _ Hwf) as (f' & E & El & Hwf' & _ & _). rewrite E. simpl.
  destruct (fifo_elems (rx_posted rc)) as [|h l] eqn:Eq; simpl.
  - split; [left; exact Ef|]. split; [reflexivity|]. split; [|reflexivity].
    unfold fifo_get in E. destruct (insertions _ <? removals _); [discriminate|].
    destruct (insertions _ =? removals _); [|discriminate].
    injection E as <-. destruct rc; reflexivity.
  - destruct (Nat.eqb_spec (cmpl_xfc cmpl) h) as [Eh|Eh]; simpl.
    + rewrite upd_same. split; [left; exact Ef|].
      split_and!; auto. intros p Hp. apply upd_other. congruence.
    + right. exists h. split; [reflexivity|congruence].
Qed.

Lemma rxctl_complete_in_order_witness :
  let rc := mk_rxctl (fifo_of_list 2 [3; 4]%nat) (fifo_of_list 2 []) in
  let cmpl := mk_completion desired_rx_flags 16 3%nat in
  match rxctl_complete rc cmpl heap0 with
  | Ret (None, rc', hp') =>
      (Z.land (cmpl_flags cmpl) desired_rx_flags = desired_rx_flags ∨
       xfc_cancelled (xfc (heap0 (cmpl_xfc cmpl))) = true) ∧
      fifo_elems (rx_posted rc) = [] ∧ rc' = rc ∧ hp' = heap0
  | Ret (Some h, rc', hp') =>
      (Z.land (cmpl_flags cmpl) desired_rx_flags = desired_rx_flags ∨
       xfc_cancelled (xfc (heap0 (cmpl_xfc cmpl))) = true) ∧
      head (fifo_elems (rx_posted rc)) = Some h ∧ cmpl_xfc cmpl = h ∧
      fifo_elems (rx_posted rc') = tail (fifo_elems (rx_posted rc)) ∧
      fifo_wf (rx_posted rc') ∧ rx_rcvd rc' = rx_rcvd rc ∧
      nused (hp' h) = cmpl_len cmpl ∧ (∀ p, p ≠ h → hp' p = heap0 p)
  | Exit =>
      (Z.land (cmpl_flags cmpl) desired_rx_flags ≠ desired_rx_flags ∧
       xfc_cancelled (xfc (heap0 (cmpl_xfc cmpl))) = false) ∨
      (∃ h, head (fifo_elems (rx_posted rc)) = Some h ∧ h ≠ cmpl_xfc cmpl)
  | OutOfFuel => False
  end.
Proof.
  intros rc cmpl. apply (rxctl_complete_in_order rc cmpl heap0).
  apply fifo_of_list_wf; simpl; lia.
Defined.

Lemma fabric_do_oplog op fab :
  oplog (fabric_do op fab).2 =
  oplog fab ++ [(op, nth 0 (script fab) (- FI_EAGAIN))].
Proof. unfold fabric_do. destruct (script fab); reflexivity. Qed.

(** X10.  [rxctl_post] asks the fabric once for a receive into the whole
    allocation of the buffer, with the buffer as context.  Any negative
    answer ends the process, try-again too; otherwise the buffer becomes the
    newest entry of [posted], unless [posted] is full: then the receive has
    been issued all the same and the buffer is not recorded. *)
Theorem rxctl_post_posts c ctl h w :
  fifo_wf (rx_posted ctl) → insertions (rx_posted ctl) + 1 < 2 ^ 63 →
  match rxctl_post c ctl h w with
  | Ret (ctl', w') =>
      0 ≤ nth 0 (script (w_fabric w)) (- FI_EAGAIN) ∧
      oplog (w_fabric w') =
        oplog (w_fabric w) ++
        [(op_recvmsg (ep c) h (nallocated (w_heap w h)) (desc (w_heap w h)) 1
                     (peer_addr c) h FI_COMPLETION,
          nth 0 (script (w_fabric w)) (- FI_EAGAIN))] ∧
      w_heap w' = w_heap w ∧ rx_rcvd ctl' = rx_rcvd ctl ∧ fifo_wf (rx_posted ctl') ∧
      fifo_elems (rx_posted ctl') =
        (if decide (Z.of_nat (length (fifo_elems (rx_posted ctl)))
                    = fifo_capacity (rx_posted ctl))
         then fifo_elems (rx_posted ctl)
         else fifo_elems (rx_posted ctl) ++ [h])
  | Exit => nth 0 (script (w_fabric w)) (- FI_EAGAIN) < 0
  | OutOfFuel => False
  end.
Proof.
  intros Hwf Hroom. unfold rxctl_post.
  pose proof (fabric_do_answer
                (op_recvmsg (ep c) h (nallocated (w_heap w h)) (desc (w_heap w h)) 1
                            (peer_addr c) h FI_COMPLETION) (w_fabric w)) as [Hans _].
  pose proof (fabric_do_oplog
                (op_recvmsg (ep c) h (nallocated (w_heap w h)) (desc (w_heap w h)) 1
                            (peer_addr c) h FI_COMPLETION) (w_fabric w)) as Hlog.
  destruct (fabric_do _ (w_fabric w)) as [rc fab]. simpl in Hans, Hlog. subst rc.
  destruct (Z.ltb_spec (nth 0 (script (w_fabric w)) (- FI_EAGAIN)) 0) as [Hneg|Hpos];
    [exact Hneg|].
  pose proof (fifo_elems_bound _ Hwf) as Hb.
  destruct (decide (Z.of_nat (length (fifo_elems (rx_posted ctl)))
                    = fifo_capacity (rx_posted ctl))) as [Hfull|Hnf].
  - rewrite (fifo_put_full _ h Hwf Hfull). simpl. split_and!; auto.
  - destruct (fifo_put_wf _ h Hwf Hroom ltac:(lia)) as (f' & E & El & Hwf' & _ & _).
    rewrite E. simpl. split_and!; auto.
Qed.

Lemma rxctl_post_posts_witness :
  let c := cxn0 in
  let ctl := mk_rxctl (fifo_of_list 2 [3]%nat) (fifo_of_list 2 []) in
  let w := mk_world heap0 (fabric0 [0]) next_key_pool_init in
  match rxctl_post c ctl 4%nat w with
  | Ret (ctl', w') =>
      0 ≤ nth 0 (script (w_fabric w)) (- FI_EAGAIN) ∧
      oplog (w_fabric w') =
        oplog (w_fabric w) ++
        [(op_recvmsg (ep c) 4%nat (nallocated (w_heap w 4%nat)) (desc (w_heap w 4%nat)) 1
                     (peer_addr c) 4%nat FI_COMPLETION,
          nth 0 (script (w_fabric w)) (- FI_EAGAIN))] ∧
      w_heap w' = w_heap w ∧ rx_rcvd ctl' = rx_rcvd ctl ∧ fifo_wf (rx_posted ctl') ∧
      fifo_elems (rx_posted ctl') =
        (if decide (Z.of_nat (length (fifo_elems (rx_posted ctl)))
                    = fifo_capacity (rx_posted ctl))
         then fifo_elems (rx_posted ctl)
         else fifo_elems (rx_posted ctl) ++ [4%nat])
  | Exit => nth 0 (script (w_fabric w)) (- FI_EAGAIN) < 0
  | OutOfFuel => False
  end.
Proof.
  intros c ctl w. apply (rxctl_post_posts c ctl 4%nat w).
  - apply fifo_of_list_wf; simpl; lia.
  - vm_compute. reflexivity.
Defined.

(** X11.  [txctl_complete] takes transmit completions in the order the
    messages were posted and puts the buffer back on top of the pool, which
    had room for it and keeps its size.  It returns only on a completion that
    has the send flags or whose buffer was cancelled; with nothing posted it
    then returns -1 and changes nothing.  It ends the process on a
    completion for a buffer other than the oldest posted, on a full pool, and
    on a completion without the send flags whose buffer was not
    cancelled. *)
Theorem txctl_complete_recycles tc cmpl hp :
  fifo_wf (tx_posted tc) → buflist_wf (tx_pool tc) →
  match txctl_complete tc cmpl hp with
  | Ret (r, tc') =>
      (Z.land (cmpl_flags cmpl) desired_tx_flags = desired_tx_flags ∨
       xfc_cancelled (xfc (hp (cmpl_xfc cmpl))) = true) ∧
      tx_ready tc' = tx_ready tc ∧
      ((r = -1 ∧ fifo_elems (tx_posted tc) = [] ∧ tc' = tc) ∨
       (r = 1 ∧ head (fifo_elems (tx_posted tc)) = Some (cmpl_xfc cmpl) ∧
        fifo_elems (tx_posted tc') = tail (fifo_elems (tx_posted tc)) ∧
        fifo_wf (tx_posted tc') ∧ buflist_wf (tx_pool tc') ∧
        bl_nfull (tx_pool tc) < bl_nallocated (tx_pool tc) ∧
        bl_nallocated (tx_pool tc') = bl_nallocated (tx_pool tc) ∧
        buflist_elems (tx_pool tc') = buflist_elems (tx_pool tc) ++ [cmpl_xfc cmpl]))
  | Exit =>
      (Z.land (cmpl_flags cmpl) desired_tx_flags ≠ desired_tx_flags ∧
       xfc_cancelled (xfc (hp (cmpl_xfc cmpl))) = false) ∨
      (∃ h, head (fifo_elems (tx_posted tc)) = Some h ∧
            (h ≠ cmpl_xfc cmpl ∨ bl_nfull (tx_pool tc) = bl_nallocated (tx_pool tc)))
  | OutOfFuel => False
  end.
Proof.
  intros Hwf Hpool. unfold txctl_complete.
  assert (match
            '(oh, posted) ← fifo_get (tx_posted tc);
            match oh with
            | None => Ret (-1, mk_txctl (tx_ready tc) posted (tx_pool tc))
            | Some h =>
                if negb (Nat.eqb (cmpl_xfc cmpl) h) then Exit
                else
                  let '(ok, pool) := buflist_put (tx_pool tc) h in
                  if negb ok then Exit
                  else Ret (1, mk_txctl (tx_ready tc) posted pool)
            end
          with
          | Ret (r, tc') =>
              tx_ready tc' = tx_ready tc ∧
              ((r = -1 ∧ fifo_elems (tx_posted tc) = [] ∧ tc' = tc) ∨
               (r = 1 ∧ head (fifo_elems (tx_posted tc)) = Some (cmpl_xfc cmpl) ∧
                fifo_elems (tx_posted tc') = tail (fifo_elems (tx_posted tc)) ∧
                fifo_wf (tx_posted tc') ∧ buflist_wf (tx_pool tc') ∧
                bl_nfull (tx_pool tc) < bl_nallocated (tx_pool tc) ∧
                bl_nallocated (tx_pool tc') = bl_nallocated (tx_pool tc) ∧
                buflist_elems (tx_pool tc') =
                  buflist_elems (tx_pool tc) ++ [cmpl_xfc cmpl]))
          | Exit =>
              ∃ h, head (fifo_elems (tx_posted tc)) = Some h ∧
                   (h ≠ cmpl_xfc cmpl ∨ bl_nfull (tx_pool tc) = bl_nallocated (tx_pool tc))
          | OutOfFuel => False
          end) as Hmain.
  { destruct (fifo_get_wf _ Hwf) as (f' & E & El & Hwf' & _ & _). rewrite E. simpl.
    destruct (fifo_elems (tx_posted tc)) as [|h l] eqn:Eq; simpl.
    - split; [reflexivity|]. left. split; [reflexivity|]. split; [reflexivity|].
      unfold fifo_get in E. destruct (insertions _ <? removals _); [discriminate|].
      destruct (insertions _ =? removals _); [|discriminate].
      injection E as <-. destruct tc; reflexivity.
    - destruct (Nat.eqb_spec (cmpl_xfc cmpl) h) as [Eh|Eh]; simpl.
      + subst h. pose proof (buflist_put_ok (tx_pool tc) (cmpl_xfc cmpl) Hpool) as Hp.
        destruct (buflist_put (tx_pool tc) (cmpl_xfc cmpl)) as [[|] pool]; simpl.
        * destruct Hp as (Hlt & Hw & He & Hna). split; [reflexivity|]. right.
          split_and!; auto.
        * destruct Hp as [_ Hp]. exists (cmpl_xfc cmpl). auto.
      + exists h. split; [reflexivity|]. left. congruence. }
  destruct (Z.eqb_spec (Z.land (cmpl_flags cmpl) desired_tx_flags) desired_tx_flags)
    as [Ef|Ef]; simpl.
  - destruct (_ ≫= _) as [[r tc']| |]; auto.
  - destruct (xfc_cancelled (xfc (hp (cmpl_xfc cmpl)))) eqn:Ec; simpl; [|left; auto].
    destruct (_ ≫= _) as [[r tc']| |]; auto.
Qed.

Lemma txctl_complete_recycles_witness :
  let tc := mk_txctl (fifo_of_list 2 []) (fifo_of_list 2 [3; 4]%nat)
                     (buflist_of_list 4 [6]%nat) in
  let cmpl := mk_completion desired_tx_flags 16 3%nat in
  match txctl_complete tc cmpl heap0 with
  | Ret (r, tc') =>
      (Z.land (cmpl_flags cmpl) desired_tx_flags = desired_tx_flags ∨
       xfc_cancelled (xfc (heap0 (cmpl_xfc cmpl))) = true) ∧
      tx_ready tc' = tx_ready tc ∧
      ((r = -1 ∧ fifo_elems (tx_posted tc) = [] ∧ tc' = tc) ∨
       (r = 1 ∧ head (fifo_elems (tx_posted tc)) = Some (cmpl_xfc cmpl) ∧
        fifo_elems (tx_posted tc') = tail (fifo_elems (tx_posted tc)) ∧
        fifo_wf (tx_posted tc') ∧ buflist_wf (tx_pool tc') ∧
        bl_nfull (tx_pool tc) < bl_nallocated (tx_pool tc) ∧
        bl_nallocated (tx_pool tc') = bl_nallocated (tx_pool tc) ∧
        buflist_elems (tx_pool tc') = buflist_elems (tx_pool tc) ++ [cmpl_xfc cmpl]))
  | Exit =>
      (Z.land (cmpl_flags cmpl) desired_tx_flags ≠ desired_tx_flags ∧
       xfc_cancelled (xfc (heap0 (cmpl_xfc cmpl))) = false) ∨
      (∃ h, head (fifo_elems (tx_posted tc)) = Some h ∧
            (h ≠ cmpl_xfc cmpl ∨ bl_nfull (tx_pool tc) = bl_nallocated (tx_pool tc)))
  | OutOfFuel => False
  end.
Proof.
  intros tc cmpl. apply (txctl_complete_recycles tc cmpl heap0).
  - apply fifo_of_list_wf; simpl; lia.
  - vm_compute. split_and!; (reflexivity || discriminate).
Defined.

(** ** Progress messages at the receiver *)

Lemma rxctl_complete_exit rc cmpl hp :
  fifo_wf (rx_posted rc) → rxctl_complete rc cmpl hp = Exit →
  (Z.land (cmpl_flags cmpl) desired_rx_flags ≠ desired_rx_flags ∧
   xfc_cancelled (xfc (hp (cmpl_xfc cmpl))) = false) ∨
  (∃ h, head (fifo_elems (rx_posted rc)) = Some h ∧ h ≠ cmpl_xfc cmpl).
Proof.
  intros Hwf. unfold rxctl_complete.
  destruct (Z.eqb_spec (Z.land (cmpl_flags cmpl) desired_rx_flags) desired_rx_flags)
    as [Ef|Ef]; simpl;
    [|destruct (xfc_cancelled (xfc (hp (cmpl_xfc cmpl)))) eqn:Ec; simpl; [|left; auto]];
    (destruct (fifo_get_wf _ Hwf) as (f' & E & _); rewrite E; simpl;
     destruct (head (fifo_elems (rx_posted rc))) as [h|]; [|discriminate];
     destruct (Nat.eqb_spec (cmpl_xfc cmpl) h) as [Eh|Eh]; simpl; [discriminate|];
     intros _; right; exists h; split; [reflexivity|congruence]).
Qed.

Lemma rxctl_complete_head rc cmpl hp oh rc' hp' :
  fifo_wf (rx_posted rc) →
  rxctl_complete rc cmpl hp = Ret (oh, rc', hp') →
  oh = head (fifo_elems (rx_posted rc)) ∧
  fifo_elems (rx_posted rc') = tail (fifo_elems (rx_posted rc)) ∧
  fifo_wf (rx_posted rc') ∧ rx_rcvd rc' = rx_rcvd rc ∧
  insertions (rx_posted rc') = insertions (rx_posted rc) ∧
  index_mask (rx_posted rc') = index_mask (rx_posted rc) ∧
  hp' = match oh with Some h => upd h (set_nused (cmpl_len cmpl)) hp | None => hp end ∧
  (∀ h, oh = Some h → cmpl_xfc cmpl = h).
Proof.
  intros Hwf. unfold rxctl_complete.
  destruct (_ && _); [discriminate|].
  destruct (fifo_get_wf _ Hwf) as (f' & E & El & Hwf' & Hm & Hi). rewrite E. simpl.
  destruct (head (fifo_elems (rx_posted rc))) as [h|] eqn:Eh.
  - destruct (Nat.eqb_spec (cmpl_xfc cmpl) h) as [Ec|Ec]; simpl; [|discriminate].
    intros H. inversion H; subst. simpl. split_and!; auto. congruence.
  - intros H. inversion H; subst. simpl. split_and!; auto. discriminate.
Qed.

Lemma rxctl_post_ok c ctl h w :
  fifo_wf (rx_posted ctl) → insertions (rx_posted ctl) + 1 < 2 ^ 63 →
  Z.of_nat (length (fifo_elems (rx_posted ctl))) < fifo_capacity (rx_posted ctl) →
  match rxctl_post c ctl h w with
  | Ret (ctl', w') =>
      fifo_elems (rx_posted ctl') = fifo_elems (rx_posted ctl) ++ [h] ∧
      fifo_wf (rx_posted ctl') ∧ rx_rcvd ctl' = rx_rcvd ctl ∧
      insertions (rx_posted ctl') = insertions (rx_posted ctl) + 1 ∧
      index_mask (rx_posted ctl') = index_mask (rx_posted ctl) ∧
      w_heap w' = w_heap w ∧ w_pool w' = w_pool w ∧
      oplog (w_fabric w') =
        oplog (w_fabric w) ++
        [(op_recvmsg (ep c) h (nallocated (w_heap w h)) (desc (w_heap w h)) 1
                     (peer_addr c) h FI_COMPLETION,
          nth 0 (script (w_fabric w)) (- FI_EAGAIN))] ∧
      script (w_fabric w') = drop 1 (script (w_fabric w))
  | Exit => nth 0 (script (w_fabric w)) (- FI_EAGAIN) < 0
  | OutOfFuel => False
  end.
Proof.
  intros Hwf Hroom Hnf. unfold rxctl_post.
  pose proof (fabric_do_answer
                (op_recvmsg (ep c) h (nallocated (w_heap w h)) (desc (w_heap w h)) 1
                            (peer_addr c) h FI_COMPLETION) (w_fabric w)) as [Hans Hscr].
  pose proof (fabric_do_oplog
                (op_recvmsg (ep c) h (nallocated (w_heap w h)) (desc (w_heap w h)) 1
                            (peer_addr c) h FI_COMPLETION) (w_fabric w)) as Hlog.
  destruct (fabric_do _ (w_fabric w)) as [rc fab]. simpl in Hans, Hlog, Hscr. subst rc.
  destruct (Z.ltb_spec (nth 0 (script (w_fabric w)) (- FI_EAGAIN)) 0) as [Hneg|Hpos];
    [exact Hneg|].
  destruct (fifo_put_wf _ h Hwf Hroom Hnf) as (f' & E & El & Hwf' & Hm & Hi).
  rewrite E. simpl. split_and!; auto.
Qed.




(** ** Unloading vector messages at the transmitter *)






Example xmtr_vecbuf_unload_example :
  match xmtr_vecbuf_unload xmtr_vector_received (world_vector_received [0]) with
  | Ret (x', w') =>
      nriovs x' = 2 ∧ take 2 (riov x') = [mk_riov 0 31 5; mk_riov 0 37 6] ∧
      next_riov x' = 0 ∧ fifo_elems (rx_rcvd (x_vec x')) = [] ∧
      fifo_elems (rx_posted (x_vec x')) = [5%nat]
  | _ => False
  end.
Proof. vm_compute. split_and!; reflexivity. Qed.


(** ** [fibonacci_iov_setup] *)

Lemma fibonacci_iov_loop_unfold fuel i buf len prev curr niovs iov :
  fibonacci_iov_loop fuel i buf len prev curr niovs iov =
  if (0 <? len) && (wrap64 i <? wrap64 (niovs - 1)) then
    match fuel with
    | O => OutOfFuel
    | S fuel' =>
        let l := if curr <? len then curr else len in
        fibonacci_iov_loop fuel' (to_ssize (i + 1)) (fst buf, snd buf + l) (wrap64 (len - l))
          curr (wrap64 (prev + curr)) niovs (<[Z.to_nat i := mk_iovec buf l]> iov)
    end
  else Ret (i, buf, len, iov).
Proof. destruct fuel; reflexivity. Qed.

Lemma iov_bytes_split (buf : nat * Z) (l len : Z) :
  0 ≤ l ≤ len →
  iov_bytes (mk_iovec buf len) =
  iov_bytes (mk_iovec buf l) ++ iov_bytes (mk_iovec (fst buf, snd buf + l) (len - l)).
Proof.
  intros Hl. unfold iov_bytes. simpl.
  replace len with (l + (len - l)) at 1 by lia.
  rewrite seqZ_app, fmap_app by lia. f_equal.
  replace (seqZ (0 + l) (len - l)) with (Z.add l <$> seqZ 0 (len - l))
    by (rewrite fmap_add_seqZ; f_equal; lia).
  rewrite <- list_fmap_compose. apply list_fmap_ext. intros i k _. simpl. f_equal. lia.
Qed.

Lemma fibonacci_iov_loop_correct niovs :
  1 ≤ niovs ≤ SSIZE_MAX →
  ∀ (fuel : nat) i buf len prev curr iov,
    0 ≤ i ≤ niovs - 1 → niovs - 1 - i ≤ Z.of_nat fuel →
    0 ≤ len < 2 ^ 64 → 0 ≤ curr < 2 ^ 64 →
    niovs ≤ Z.of_nat (length iov) →
    ∃ i' buf' len' iov' segs,
      fibonacci_iov_loop fuel i buf len prev curr niovs iov = Ret (i', buf', len', iov') ∧
      i ≤ i' ≤ niovs - 1 ∧ 0 ≤ len' ≤ len ∧ (0 < len' → i' = niovs - 1) ∧
      (len = 0 → i' = i) ∧
      length iov' = length iov ∧
      take (Z.to_nat i') iov' = take (Z.to_nat i) iov ++ segs ∧
      drop (Z.to_nat i') iov' = drop (Z.to_nat i') iov ∧
      concat (iov_bytes <$> segs) ++ iov_bytes (mk_iovec buf' len') =
        iov_bytes (mk_iovec buf len).
Proof.
  intros Hn. unfold SSIZE_MAX in Hn.
  induction fuel as [|fuel IH]; intros i buf len prev curr iov Hi Hfuel Hlen Hcurr Hiov;
    rewrite fibonacci_iov_loop_unfold;
    rewrite (wrap64_small i), (wrap64_small (niovs - 1)) by lia.
  - destruct (Z.ltb_spec 0 len) as [Hl|Hl]; destruct (Z.ltb_spec i (niovs - 1)) as [Hlt|Hge];
      cbn [andb]; try lia;
      (exists i, buf, len, iov, []; rewrite app_nil_r; split_and!; auto; lia).
  - destruct (Z.ltb_spec 0 len) as [Hl|Hl]; cbn [andb];
      [|exists i, buf, len, iov, []; rewrite app_nil_r; split_and!; auto; lia].
    destruct (Z.ltb_spec i (niovs - 1)) as [Hlt|Hge]; cbn [andb];
      [|exists i, buf, len, iov, []; rewrite app_nil_r; split_and!; auto; lia].
    cbv zeta.
    set (l := if curr <? len then curr else len).
    assert (0 ≤ l ≤ len) as Hll by (unfold l; destruct (Z.ltb_spec curr len); lia).
    rewrite (to_ssize_small (i + 1)), (wrap64_small (len - l)) by lia.
    destruct (IH (i + 1) (fst buf, snd buf + l) (len - l) curr (wrap64 (prev + curr))
                 (<[Z.to_nat i := mk_iovec buf l]> iov))
      as (i' & buf' & len' & iov' & segs & E & B1 & B2 & B3 & B4 & L & T & D & C);
      [lia|lia|lia|apply wrap64_range|rewrite length_insert; lia|].
    exists i', buf', len', iov', (mk_iovec buf l :: segs).
    rewrite E. split; [reflexivity|]. split; [lia|]. split; [lia|]. split; [exact B3|].
    split; [lia|]. split; [rewrite L, length_insert; reflexivity|].
    split; [|split].
    + rewrite T. replace (Z.to_nat (i + 1)) with (S (Z.to_nat i)) by lia.
      rewrite take_S_insert by lia. rewrite <- app_assoc. reflexivity.
    + rewrite D. apply drop_insert_lt. lia.
    + rewrite fmap_cons, concat_cons, <- app_assoc, C. symmetry.
      apply iov_bytes_split. exact Hll.
Qed.


(** X14.  [fibonacci_iov_setup] cuts the buffer into at most [niovs]
    segments that lie one behind the other and cover it exactly, and leaves
    the rest of the array alone; for an empty buffer it writes no segment.
    With no segment to write into and a buffer that is not empty it returns
    -1, as a [size_t], and writes nothing. *)
Theorem fibonacci_iov_setup_covers buf len iov niovs :
  0 ≤ len < 2 ^ 64 → 0 ≤ niovs < 2 ^ 64 → niovs ≤ Z.of_nat (length iov) →
  match fibonacci_iov_setup buf len iov niovs with
  | Ret (n, iov') =>
      if (niovs =? 0) && (0 <? len) then n = 2 ^ 64 - 1 ∧ iov' = iov
      else
        0 ≤ n ≤ niovs ∧ (len = 0 → n = 0) ∧
        length iov' = length iov ∧
        drop (Z.to_nat n) iov' = drop (Z.to_nat n) iov ∧
        concat (iov_bytes <$> take (Z.to_nat n) iov') = iov_bytes (mk_iovec buf len)
  | _ => False
  end.
Proof.
  intros Hlen Hn Hiov. unfold fibonacci_iov_setup.
  destruct (Z.ltb_spec niovs 1) as [H1|H1]; destruct (Z.ltb_spec 0 len) as [H2|H2];
    cbn [andb].
  - replace niovs with 0 by lia. simpl. split; reflexivity.
  - assert (niovs = 0) as -> by lia. assert (len = 0) as -> by lia. simpl.
    split_and!; auto; lia.
  - destruct (Z.eqb_spec niovs 0); [lia|]. cbn [andb]. cbv zeta.
    set (m := if SSIZE_MAX <? niovs then SSIZE_MAX else niovs).
    assert (1 ≤ m ≤ SSIZE_MAX ∧ m ≤ niovs) as Hm
      by (unfold m, SSIZE_MAX; destruct (Z.ltb_spec (2 ^ 63 - 1) niovs); lia).
    destruct (fibonacci_iov_loop_correct m ltac:(lia) (Z.to_nat (m - 1)) 0 buf len 0 1 iov)
      as (i' & buf' & len' & iov' & segs & E & B1 & B2 & B3 & B4 & L & T & D & C);
      [lia|lia|lia|lia|lia|].
    rewrite E. cbv beta iota delta [mbind outcome_bind].
    simpl in T. unfold SSIZE_MAX in Hm.
    destruct (Z.ltb_spec 0 len') as [Hl|Hl].
    + rewrite (to_ssize_small (i' + 1)), (wrap64_small (i' + 1)) by lia.
      split; [lia|]. split; [lia|]. split; [rewrite length_insert; exact L|]. split.
      * rewrite drop_insert_lt by lia.
        replace (Z.to_nat (i' + 1)) with (Z.to_nat i' + 1)%nat by lia.
        rewrite <- !drop_drop, D. reflexivity.
      * replace (Z.to_nat (i' + 1)) with (S (Z.to_nat i')) by lia.
        rewrite take_S_insert by lia.
        assert (take (Z.to_nat i') iov' = segs) as <- by exact T.
        rewrite fmap_app, concat_app in *. simpl. rewrite app_nil_r. exact C.
    + rewrite (wrap64_small i') by lia.
      assert (len' = 0) as -> by lia.
      split; [lia|]. split; [lia|]. split; [exact L|]. split; [exact D|].
      rewrite T. unfold iov_bytes at 2 in C. simpl in C. rewrite app_nil_r in C. exact C.
  - destruct (Z.eqb_spec niovs 0); [lia|]. cbn [andb]. cbv zeta.
    set (m := if SSIZE_MAX <? niovs then SSIZE_MAX else niovs).
    assert (1 ≤ m ≤ SSIZE_MAX ∧ m ≤ niovs) as Hm
      by (unfold m, SSIZE_MAX; destruct (Z.ltb_spec (2 ^ 63 - 1) niovs); lia).
    destruct (fibonacci_iov_loop_correct m ltac:(lia) (Z.to_nat (m - 1)) 0 buf len 0 1 iov)
      as (i' & buf' & len' & iov' & segs & E & B1 & B2 & B3 & B4 & L & T & D & C);
      [lia|lia|lia|lia|lia|].
    rewrite E. cbv beta iota delta [mbind outcome_bind].
    simpl in T. unfold SSIZE_MAX in Hm.
    assert (len = 0) as -> by lia. assert (len' = 0) as -> by lia.
    rewrite (B4 eq_refl) in *. change (wrap64 0) with 0.
    split; [lia|]. split; [reflexivity|]. split; [exact L|]. split; [exact D|].
    reflexivity.
Qed.

(** A buffer of 40 bytes and an array of twelve segments. *)
Lemma fibonacci_iov_setup_covers_witness :
  let buf := (3%nat, 0) in
  let len := 40 in
  let iov := replicate 12 (mk_iovec (0%nat, 0) 0) in
  let niovs := 12 in
  match fibonacci_iov_setup buf len iov niovs with
  | Ret (n, iov') =>
      if (niovs =? 0) && (0 <? len) then n = 2 ^ 64 - 1 ∧ iov' = iov
      else
        0 ≤ n ≤ niovs ∧ (len = 0 → n = 0) ∧
        length iov' = length iov ∧
        drop (Z.to_nat n) iov' = drop (Z.to_nat n) iov ∧
        concat (iov_bytes <$> take (Z.to_nat n) iov') = iov_bytes (mk_iovec buf len)
  | _ => False
  end.
Proof.
  intros buf len iov niovs. apply (fibonacci_iov_setup_covers buf len iov niovs).
  - lia.
  - lia.
  - vm_compute. discriminate.
Defined.

Example fibonacci_iov_setup_example :
  fibonacci_iov_setup (3%nat, 0) 40 (replicate 8 (mk_iovec (0%nat, 0) 0)) 8 =
  Ret (8, [mk_iovec (3%nat, 0) 1; mk_iovec (3%nat, 1) 1; mk_iovec (3%nat, 2) 2;
           mk_iovec (3%nat, 4) 3; mk_iovec (3%nat, 7) 5; mk_iovec (3%nat, 12) 8;
           mk_iovec (3%nat, 20) 13; mk_iovec (3%nat, 33) 7]).
Proof. vm_compute. reflexivity. Qed.


(** ** Write completions at the transmitter *)

Lemma xmtr_release_fragments_unfold fuel x hp :
  xmtr_release_fragments fuel x hp =
  oh ← fifo_peek (wrposted x);
  match oh with
  | None => Ret (x, hp)
  | Some h =>
      match xfc_owner (xfc (hp h)), xfc_type (xfc (hp h)) with
      | xfo_program, xft_fragment =>
          match fuel with
          | O => OutOfFuel
          | S fuel' =>
              '(_, wrp) ← fifo_get (wrposted x);
              let x := set_wrposted wrp x in
              let parent := fragment_parent (hp h) in
              if negb (0 <? xfc_nchildren (xfc (hp parent))) then Exit
              else
                let hp := upd parent (fun b => set_xfc (set_nchildren
                                        (wrap8 (xfc_nchildren (xfc b) - 1)) (xfc b)) b) hp in
                let '(_, pool) := buflist_put (fragment_pool x) h in
                xmtr_release_fragments fuel' (set_fragment pool (fragment_offset x) x) hp
          end
      | _, _ => Ret (x, hp)
      end
  end.
Proof. destruct fuel; reflexivity. Qed.








Lemma xmtr_release_buffers_unfold fuel reregister s x w :
  xmtr_release_buffers fuel reregister s x w =
  oh ← fifo_peek (wrposted x);
  match oh with
  | None => Ret (s, x, w)
  | Some h =>
      let c := xfc (w_heap w h) in
      match xfc_owner c, xfc_type c with
      | xfo_program, xft_rdma_write =>
          if (xfc_nchildren c =? 0) && negb (fifo_full (ready_for_terminal s)) then
            match fuel with
            | O => OutOfFuel
            | S fuel' =>
                '(_, wrp) ← fifo_get (wrposted x);
                let x := set_wrposted wrp x in
                let w := if reregister
                         then with_fabric (snd (fabric_do (op_close (mr (w_heap w h)))
                                                          (w_fabric w))) w
                         else w in
                let x := set_bytes_progress (wrap64 (bytes_progress x + nused (w_heap w h))) x in
                '(_, rft) ← fifo_put (ready_for_terminal s) h;
                xmtr_release_buffers fuel' reregister (set_ready_for_terminal rft s) x w
            end
          else Ret (s, x, w)
      | _, _ => Ret (s, x, w)
      end
  end.
Proof. destruct fuel; reflexivity. Qed.

Lemma bytes_used_nonneg hp l :
  (∀ h, h ∈ l → 0 ≤ nused (hp h)) → 0 ≤ bytes_used hp l.
Proof.
  induction l as [|h l IH]; intros H; simpl; [lia|].
  pose proof (H h ltac:(left)). pose proof (IH ltac:(intros; apply H; right; assumption)). lia.
Qed.

(** What the second loop leaves: the payload buffers [bufs] went from the
    head of [wrposted] to [ready_for_terminal], and [bytes_progress] grew by
    what they hold. *)
Lemma xmtr_release_buffers_correct reregister :
  ∀ fuel s x w,
    fifo_wf (wrposted x) → fifo_wf (ready_for_terminal s) →
    insertions (ready_for_terminal s) + Z.of_nat (length (fifo_elems (wrposted x))) < 2 ^ 63 →
    (∀ h, h ∈ fifo_elems (wrposted x) → 0 ≤ nused (w_heap w h)) →
    0 ≤ bytes_progress x →
    bytes_progress x + bytes_used (w_heap w) (fifo_elems (wrposted x)) < 2 ^ 64 →
    (length (fifo_elems (wrposted x)) ≤ fuel)%nat →
    match xmtr_release_buffers fuel reregister s x w with
    | Ret (s', x', w') =>
        ∃ bufs,
          fifo_elems (wrposted x) = bufs ++ fifo_elems (wrposted x') ∧
          fifo_wf (wrposted x') ∧
          fifo_elems (ready_for_terminal s') = fifo_elems (ready_for_terminal s) ++ bufs ∧
          fifo_wf (ready_for_terminal s') ∧
          bytes_progress x' = bytes_progress x + bytes_used (w_heap w) bufs ∧
          x' = set_bytes_progress (bytes_progress x') (set_wrposted (wrposted x') x) ∧
          s' = set_ready_for_terminal (ready_for_terminal s') s ∧
          w_heap w' = w_heap w ∧ w_pool w' = w_pool w ∧
          (reregister = false → w' = w) ∧
          (∀ b, b ∈ bufs → releasable (w_heap w) b) ∧
          (∀ h, head (fifo_elems (wrposted x')) = Some h →
                ¬ releasable (w_heap w) h ∨
                Z.of_nat (length (fifo_elems (ready_for_terminal s')))
                  = fifo_capacity (ready_for_terminal s'))
    | _ => False
    end.
Proof.
  assert (∀ (s : session_t) (x : xmtr_t) (w : world),
            fifo_wf (wrposted x) → fifo_wf (ready_for_terminal s) →
            (∀ h, head (fifo_elems (wrposted x)) = Some h →
                  ¬ releasable (w_heap w) h ∨
                  Z.of_nat (length (fifo_elems (ready_for_terminal s)))
                    = fifo_capacity (ready_for_terminal s)) →
            ∃ bufs,
              fifo_elems (wrposted x) = bufs ++ fifo_elems (wrposted x) ∧
              fifo_wf (wrposted x) ∧
              fifo_elems (ready_for_terminal s) = fifo_elems (ready_for_terminal s) ++ bufs ∧
              fifo_wf (ready_for_terminal s) ∧
              bytes_progress x = bytes_progress x + bytes_used (w_heap w) bufs ∧
              x = set_bytes_progress (bytes_progress x) (set_wrposted (wrposted x) x) ∧
              s = set_ready_for_terminal (ready_for_terminal s) s ∧
              w_heap w = w_heap w ∧ w_pool w = w_pool w ∧
              (reregister = false → w = w) ∧
              (∀ b, b ∈ bufs → releasable (w_heap w) b) ∧
              (∀ h, head (fifo_elems (wrposted x)) = Some h →
                    ¬ releasable (w_heap w) h ∨
                    Z.of_nat (length (fifo_elems (ready_for_terminal s)))
                      = fifo_capacity (ready_for_terminal s))) as Hstop.
  { intros s x w Hwf Hrt Hno. exists []. rewrite !app_nil_r. simpl.
    split; [reflexivity|]. split; [exact Hwf|]. split; [reflexivity|]. split; [exact Hrt|].
    split; [lia|]. split; [destruct x; reflexivity|]. split; [destruct s; reflexivity|].
    split; [reflexivity|]. split; [reflexivity|]. split; [reflexivity|].
    split; [intros b Hb; by apply not_elem_of_nil in Hb|exact Hno]. }
  induction fuel as [|fuel IH]; intros s x w Hwf Hrt Hroom Hnn Hbp Hsum Hfuel;
    rewrite xmtr_release_buffers_unfold, (fifo_peek_wf _ Hwf);
    cbv beta iota delta [mbind outcome_bind].
  - destruct (fifo_elems (wrposted x)) as [|h rest] eqn:Er; [|simpl in Hfuel; lia]. simpl.
    rewrite <- Er. apply Hstop; auto. rewrite Er. discriminate.
  - destruct (fifo_elems (wrposted x)) as [|h rest] eqn:Er; simpl.
    { rewrite <- Er. apply Hstop; auto. rewrite Er. discriminate. }
    assert ((¬ releasable (w_heap w) h ∨
             Z.of_nat (length (fifo_elems (ready_for_terminal s)))
               = fifo_capacity (ready_for_terminal s)) →
            ∃ bufs,
              h :: rest = bufs ++ fifo_elems (wrposted x) ∧
              fifo_wf (wrposted x) ∧
              fifo_elems (ready_for_terminal s) = fifo_elems (ready_for_terminal s) ++ bufs ∧
              fifo_wf (ready_for_terminal s) ∧
              bytes_progress x = bytes_progress x + bytes_used (w_heap w) bufs ∧
              x = set_bytes_progress (bytes_progress x) (set_wrposted (wrposted x) x) ∧
              s = set_ready_for_terminal (ready_for_terminal s) s ∧
              w_heap w = w_heap w ∧ w_pool w = w_pool w ∧
              (reregister = false → w = w) ∧
              (∀ b, b ∈ bufs → releasable (w_heap w) b) ∧
              (∀ h, head (fifo_elems (wrposted x)) = Some h →
                    ¬ releasable (w_heap w) h ∨
                    Z.of_nat (length (fifo_elems (ready_for_terminal s)))
                      = fifo_capacity (ready_for_terminal s))) as Hstop'.
    { intros Hno. rewrite <- Er. apply Hstop; auto. rewrite Er.
      intros h0 Hh0. injection Hh0 as <-. exact Hno. }
    destruct (xfc_owner (xfc (w_heap w h))) eqn:Eo;
      [|apply Hstop'; left; unfold releasable, program_owns; intros [[? ?] ?]; congruence].
    destruct (xfc_type (xfc (w_heap w h))) eqn:Et;
      try (apply Hstop'; left; unfold releasable, program_owns; intros [[? ?] ?]; congruence).
    destruct (Z.eqb_spec (xfc_nchildren (xfc (w_heap w h))) 0) as [En|En]; cbn [andb];
      [|apply Hstop'; left; unfold releasable; intros [_ ?]; congruence].
    rewrite (fifo_full_wf _ Hrt).
    destruct (Z.eqb_spec (Z.of_nat (length (fifo_elems (ready_for_terminal s))))
                         (fifo_capacity (ready_for_terminal s))) as [Ef|Ef]; cbn [negb];
      [apply Hstop'; right; exact Ef|].
    clear Hstop'.
    destruct (fifo_get_wf _ Hwf) as (wrp & Eg & Egl & Hwf1 & _ & _).
    rewrite Eg. cbv beta iota zeta. rewrite Er in Egl. simpl in Egl.
    pose proof (fifo_elems_bound _ Hrt) as Hb.
    rewrite length_cons in Hroom, Hfuel.
    destruct (fifo_put_wf (ready_for_terminal s) h Hrt ltac:(lia) ltac:(lia))
      as (rft & Ep & Epl & Hrt1 & _ & Hins).
    set (w1 := if reregister
               then with_fabric (snd (fabric_do (op_close (mr (w_heap w h))) (w_fabric w))) w
               else w).
    assert (w_heap w1 = w_heap w ∧ w_pool w1 = w_pool w ∧ (reregister = false → w1 = w))
      as (Ew1 & Ew2 & Ew3) by (unfold w1; destruct reregister; simpl; auto; split_and!; auto; discriminate).
    rewrite Ew1, Ep. cbv beta iota.
    pose proof (Hnn h ltac:(left)) as Hh.
    simpl in Hsum.
    assert (0 ≤ bytes_used (w_heap w) rest) as Hrest
      by (apply bytes_used_nonneg; intros; apply Hnn; right; assumption).
    rewrite (wrap64_small (bytes_progress x + nused (w_heap w h))) by lia.
    set (x1 := set_bytes_progress (bytes_progress x + nused (w_heap w h)) (set_wrposted wrp x)).
    set (s1 := set_ready_for_terminal rft s).
    assert (match xmtr_release_buffers fuel reregister s1 x1 w1 with
            | Ret (s', x', w') =>
                ∃ bufs,
                  fifo_elems (wrposted x1) = bufs ++ fifo_elems (wrposted x') ∧
                  fifo_wf (wrposted x') ∧
                  fifo_elems (ready_for_terminal s') =
                    fifo_elems (ready_for_terminal s1) ++ bufs ∧
                  fifo_wf (ready_for_terminal s') ∧
                  bytes_progress x' = bytes_progress x1 + bytes_used (w_heap w1) bufs ∧
                  x' = set_bytes_progress (bytes_progress x') (set_wrposted (wrposted x') x1) ∧
                  s' = set_ready_for_terminal (ready_for_terminal s') s1 ∧
                  w_heap w' = w_heap w1 ∧ w_pool w' = w_pool w1 ∧
                  (reregister = false → w' = w1) ∧
                  (∀ b, b ∈ bufs → releasable (w_heap w1) b) ∧
                  (∀ h, head (fifo_elems (wrposted x')) = Some h →
                        ¬ releasable (w_heap w1) h ∨
                        Z.of_nat (length (fifo_elems (ready_for_terminal s')))
                          = fifo_capacity (ready_for_terminal s'))
            | _ => False
            end) as IH'.
    { apply IH; unfold x1, s1; simpl; auto; rewrite ?Egl, ?Ew1; try lia.
      intros h' Hh'. apply Hnn. right. exact Hh'. }
    clear IH.
    destruct (xmtr_release_buffers fuel reregister s1 x1 w1) as [[[s' x'] w']| |];
      [|exact IH'|exact IH'].
    destruct IH' as (bufs & F1 & F2 & F3 & F4 & F5 & F6 & F7 & F8 & F9 & F10 & F11 & F12).
    unfold x1, s1 in F1, F3, F5, F6, F7. simpl in F1, F3, F5, F6, F7.
    rewrite Egl in F1. rewrite Ew1 in *.
    exists (h :: bufs). split_and!.
    + rewrite F1. reflexivity.
    + exact F2.
    + rewrite F3, Epl, <- app_assoc. reflexivity.
    + exact F4.
    + rewrite F5. simpl. lia.
    + rewrite F6. destruct x; reflexivity.
    + rewrite F7. destruct s; reflexivity.
    + exact F8.
    + congruence.
    + intros Hr. rewrite (F10 Hr). apply Ew3. exact Hr.
    + intros b Hin. apply elem_of_cons in Hin as [->|Hin]; [|auto].
      split; [split; assumption|exact En].
    + exact F12.
Qed.


Lemma bytes_used_nused_ext hp hp' l :
  (∀ h, nused (hp' h) = nused (hp h)) → bytes_used hp' l = bytes_used hp l.
Proof.
  intros H. induction l as [|h l IH]; [reflexivity|]. simpl. rewrite H, IH. reflexivity.
Qed.




Example xmtr_cq_process_example :
  match xmtr_cq_process xmtr_two_writes session0 false
          (mk_cq_event 1 (mk_completion desired_wr_flags 0 20%nat) 0 0%nat) world_two_writes with
  | Ret (rc, s1, x1, w1) =>
      rc = 1 ∧ fifo_elems (wrposted x1) = [3; 4]%nat ∧
      buflist_elems (fragment_pool x1) = [21; 20]%nat ∧
      xfc_nchildren (xfc (w_heap w1 3%nat)) = 0 ∧ bytes_progress x1 = 0 ∧
      match xmtr_cq_process x1 s1 false
              (mk_cq_event 1 (mk_completion desired_wr_flags 0 3%nat) 0 0%nat) w1 with
      | Ret (rc, s2, x2, w2) =>
          rc = 1 ∧ fifo_elems (wrposted x2) = [] ∧
          fifo_elems (ready_for_terminal s2) = [3; 4]%nat ∧ bytes_progress x2 = 54
      | _ => False
      end
  | _ => False
  end.
Proof. vm_compute. split_and!; reflexivity. Qed.

Lemma xmtr_release_buffers_mask reregister :
  ∀ fuel s x w s' x' w',
    xmtr_release_buffers fuel reregister s x w = Ret (s', x', w') →
    index_mask (ready_for_terminal s') = index_mask (ready_for_terminal s).
Proof.
  induction fuel as [|fuel IH]; intros s x w s' x' w'; rewrite xmtr_release_buffers_unfold;
    (destruct (fifo_peek (wrposted x)) as [[h|]| |];
       cbv beta iota zeta delta [mbind outcome_bind]; try discriminate;
       try (intros E; inversion E; subst; reflexivity));
    (destruct (xfc_owner _); try (intros E; inversion E; subst; reflexivity));
    (destruct (xfc_type _); try (intros E; inversion E; subst; reflexivity));
    (destruct (_ && _); try discriminate; try (intros E; inversion E; subst; reflexivity)).
  destruct (fifo_get (wrposted x)) as [[o wrp]| |]; try discriminate.
  destruct (fifo_put (ready_for_terminal s) h) as [[r rft]| |] eqn:Ep; try discriminate.
  intros E. apply IH in E. simpl in E. rewrite E. eapply fifo_put_mask. exact Ep.
Qed.


(** The write branch of [xmtr_cq_process], reached by one successful
    completion whose context is a payload buffer or a fragment header. *)
Lemma xmtr_cq_process_write x s reregister ev w :
  cq_ncompleted ev = 1 →
  xfc_type (xfc (w_heap w (cmpl_xfc (cq_fcmpl ev)))) = xft_rdma_write ∨
  xfc_type (xfc (w_heap w (cmpl_xfc (cq_fcmpl ev)))) = xft_fragment →
  xmtr_cq_process x s reregister ev w =
  let w1 := with_heap (upd (cmpl_xfc (cq_fcmpl ev))
                           (fun b => set_xfc (set_owner xfo_program (xfc b)) b)
                           (w_heap w)) w in
  oh ← fifo_peek (wrposted x);
  match oh with
  | None => Ret (-1, s, x, w1)
  | Some h =>
      if Z.land (xfc_place (xfc (w_heap w1 h))) xfp_first =? 0
      then Ret (-1, s, x, w1)
      else
        '(x, hp) ← xmtr_release_fragments (fifo_occupancy (wrposted x)) x (w_heap w1);
        '(s, x, w) ← xmtr_release_buffers (fifo_occupancy (wrposted x)) reregister
                        s x (with_heap hp w1);
        Ret (1, s, x, w)
  end.
Proof.
  intros Hn Hty. unfold xmtr_cq_process, cq_completion. rewrite Hn.
  change (1 =? - FI_EAGAIN) with false. change (1 =? - FI_EAVAIL) with false.
  change (1 <? 0) with false. change (negb (1 =? 1)) with false.
  cbv beta iota zeta delta [mbind outcome_bind].
  assert (xfc_type (xfc (w_heap (with_heap (upd (cmpl_xfc (cq_fcmpl ev))
                           (fun b => set_xfc (set_owner xfo_program (xfc b)) b)
                           (w_heap w)) w) (cmpl_xfc (cq_fcmpl ev)))) =
          xfc_type (xfc (w_heap w (cmpl_xfc (cq_fcmpl ev))))) as Et
    by (simpl; rewrite upd_same; reflexivity).
  destruct Hty as [Hty|Hty]; rewrite Hty in Et; rewrite Et; reflexivity.
Qed.

Lemma owner_update_frame c hp p :
  xfc_type (xfc (upd c (fun b => set_xfc (set_owner xfo_program (xfc b)) b) hp p))
    = xfc_type (xfc (hp p)) ∧
  xfc_place (xfc (upd c (fun b => set_xfc (set_owner xfo_program (xfc b)) b) hp p))
    = xfc_place (xfc (hp p)) ∧
  xfc_nchildren (xfc (upd c (fun b => set_xfc (set_owner xfo_program (xfc b)) b) hp p))
    = xfc_nchildren (xfc (hp p)) ∧
  nused (upd c (fun b => set_xfc (set_owner xfo_program (xfc b)) b) hp p) = nused (hp p).
Proof.
  destruct (decide (c = p)) as [<-|Hne].
  - rewrite upd_same. auto.
  - rewrite upd_other by exact Hne. auto.
Qed.

(** X16.  A fragment header queued behind whole buffers.  When the payload
    buffers at the head of [wrposted] can all be released and a fragment
    header follows them, a write completion releases the buffers and leaves
    the header at the head of [wrposted], whoever owns it.  If that header is
    not flagged first, as the last segment of a write of several segments is
    not, every later write completion returns -1 and moves nothing. *)
Theorem xmtr_cq_process_keeps_trailing_fragment x s reregister ev w bufs f rest :
  let hp1 := upd (cmpl_xfc (cq_fcmpl ev))
                 (fun b => set_xfc (set_owner xfo_program (xfc b)) b) (w_heap w) in
  cq_ncompleted ev = 1 →
  xfc_type (xfc (w_heap w (cmpl_xfc (cq_fcmpl ev)))) = xft_rdma_write ∨
  xfc_type (xfc (w_heap w (cmpl_xfc (cq_fcmpl ev)))) = xft_fragment →
  fifo_wf (wrposted x) → fifo_wf (ready_for_terminal s) →
  insertions (ready_for_terminal s) + Z.of_nat (length (fifo_elems (wrposted x))) < 2 ^ 63 →
  (∀ h, h ∈ fifo_elems (wrposted x) → 0 ≤ nused (w_heap w h)) →
  0 ≤ bytes_progress x →
  bytes_progress x + bytes_used (w_heap w) (fifo_elems (wrposted x)) < 2 ^ 64 →
  fifo_elems (wrposted x) = bufs ++ f :: rest →
  (∃ h, head bufs = Some h ∧ Z.land (xfc_place (xfc (hp1 h))) xfp_first ≠ 0) →
  (∀ b, b ∈ bufs → releasable hp1 b) →
  xfc_type (xfc (hp1 f)) = xft_fragment →
  Z.of_nat (length (fifo_elems (ready_for_terminal s))) + Z.of_nat (length bufs)
    ≤ fifo_capacity (ready_for_terminal s) →
  match xmtr_cq_process x s reregister ev w with
  | Ret (rc, s', x', w') =>
      rc = 1 ∧ fifo_elems (wrposted x') = f :: rest ∧
      fifo_elems (ready_for_terminal s') = fifo_elems (ready_for_terminal s) ++ bufs ∧
      w_heap w' = hp1 ∧
      ∀ s2 reregister2 ev2 w2,
        cq_ncompleted ev2 = 1 →
        xfc_type (xfc (w_heap w2 (cmpl_xfc (cq_fcmpl ev2)))) = xft_rdma_write ∨
        xfc_type (xfc (w_heap w2 (cmpl_xfc (cq_fcmpl ev2)))) = xft_fragment →
        Z.land (xfc_place (xfc (w_heap w2 f))) xfp_first = 0 →
        ∃ w3, xmtr_cq_process x' s2 reregister2 ev2 w2 = Ret (-1, s2, x', w3)
  | Exit => False
  | OutOfFuel => False
  end.
Proof.
  intros hp1 Hn Hty Hwf Hrt Hroom Hnn Hbp Hsum Hel (b0 & Hb0 & Hfirst) Hrel Hfrag Hcap.
  rewrite (xmtr_cq_process_write _ _ _ _ _ Hn Hty). cbv zeta. fold hp1.
  change (w_heap (with_heap hp1 w)) with hp1.
  rewrite (fifo_peek_wf _ Hwf), Hel.
  destruct bufs as [|b bufs]; [discriminate|]. injection Hb0 as ->.
  cbv beta iota delta [mbind outcome_bind].
  change (head ((b0 :: bufs) ++ f :: rest)) with (Some b0). cbv iota.
  destruct (Z.eqb_spec (Z.land (xfc_place (xfc (hp1 b0))) xfp_first) 0) as [E|_];
    [contradiction|].
  destruct (Hrel b0 ltac:(left)) as [[Ho Ht] Hc].
  rewrite xmtr_release_fragments_unfold, (fifo_peek_wf _ Hwf), Hel.
  cbv beta iota delta [mbind outcome_bind].
  change (head ((b0 :: bufs) ++ f :: rest)) with (Some b0). cbv iota.
  rewrite Ho, Ht. cbv iota.
  assert (∀ p, nused (hp1 p) = nused (w_heap w p)) as Hnused
    by (intros p; apply owner_update_frame).
  pose proof (xmtr_release_buffers_correct reregister (fifo_occupancy (wrposted x)) s x
                (with_heap hp1 (with_heap hp1 w)) Hwf Hrt Hroom) as HB.
  pose proof (xmtr_release_buffers_mask reregister (fifo_occupancy (wrposted x)) s x
                (with_heap hp1 (with_heap hp1 w))) as HM.
  rewrite (fifo_occupancy_wf _ Hwf) in *. simpl in HB.
  rewrite (bytes_used_nused_ext (w_heap w) hp1) in HB by exact Hnused.
  specialize (HB ltac:(intros h Hh; rewrite Hnused; apply Hnn; exact Hh)
                 Hbp Hsum ltac:(lia)).
  destruct (xmtr_release_buffers _ reregister s x (with_heap hp1 (with_heap hp1 w)))
    as [[[s' x'] w']| |]; [|exact HB|exact HB].
  specialize (HM _ _ _ eq_refl).
  destruct HB as (bufs' & B1 & B2 & B3 & B4 & B5 & B6 & B7 & B8 & B9 & B10 & B11 & B12).
  assert (bufs' = b0 :: bufs ∧ fifo_elems (wrposted x') = f :: rest) as [-> Hrem].
  { rewrite Hel in B1.
    apply app_eq_app in B1 as [l [[E1 E2]|[E1 E2]]].
    - destruct l as [|h l]; [rewrite app_nil_r in E1; simpl in E2; auto|exfalso].
      destruct (B12 h ltac:(rewrite E2; reflexivity)) as [Hno|Hfull].
      + apply Hno. apply Hrel. rewrite E1. apply elem_of_app. right. left.
      + rewrite B3, length_app in Hfull. unfold fifo_capacity in *. rewrite HM in Hfull.
        rewrite E1, length_app, length_cons in Hcap. lia.
    - destruct l as [|h l]; [rewrite app_nil_r in E1; simpl in E2; auto|exfalso].
      assert (h = f) as -> by (simpl in E2; congruence).
      destruct (B11 f) as [[_ Hf] _]; [rewrite E1; apply elem_of_app; right; left|].
      congruence. }
  simpl. split; [reflexivity|]. split; [exact Hrem|]. split; [exact B3|].
  split; [exact B8|].
  intros s2 reregister2 ev2 w2 Hn2 Hty2 Hpl.
  rewrite (xmtr_cq_process_write _ _ _ _ _ Hn2 Hty2). cbv zeta.
  rewrite (fifo_peek_wf _ B2), Hrem.
  cbv beta iota delta [mbind outcome_bind].
  change (head (f :: rest)) with (Some f). cbv iota.
  change (w_heap (with_heap ?h w2)) with h.
  destruct (owner_update_frame (cmpl_xfc (cq_fcmpl ev2)) (w_heap w2) f) as (_ & -> & _).
  rewrite Hpl. simpl. eexists. reflexivity.
Qed.

Lemma xmtr_cq_process_keeps_trailing_fragment_witness :
  let s := after_first_write.1.1 in
  let x := after_first_write.1.2 in
  let w := after_first_write.2 in
  let reregister := false in
  let ev := write_completed 3%nat in
  let f := 21%nat in
  let bufs := [3%nat] in
  let rest := @nil ptr in
  let hp1 := upd (cmpl_xfc (cq_fcmpl ev))
                 (fun b => set_xfc (set_owner xfo_program (xfc b)) b) (w_heap w) in
  match xmtr_cq_process x s reregister ev w with
  | Ret (rc, s', x', w') =>
      rc = 1 ∧ fifo_elems (wrposted x') = f :: rest ∧
      fifo_elems (ready_for_terminal s') = fifo_elems (ready_for_terminal s) ++ bufs ∧
      w_heap w' = hp1 ∧
      ∀ s2 reregister2 ev2 w2,
        cq_ncompleted ev2 = 1 →
        xfc_type (xfc (w_heap w2 (cmpl_xfc (cq_fcmpl ev2)))) = xft_rdma_write ∨
        xfc_type (xfc (w_heap w2 (cmpl_xfc (cq_fcmpl ev2)))) = xft_fragment →
        Z.land (xfc_place (xfc (w_heap w2 f))) xfp_first = 0 →
        ∃ w3, xmtr_cq_process x' s2 reregister2 ev2 w2 = Ret (-1, s2, x', w3)
  | Exit => False
  | OutOfFuel => False
  end.
Proof.
  intros s x w reregister ev f bufs rest hp1.
  assert (fifo_wf (wrposted x)) as Hwf.
  { constructor.
    - exists 3. split; [lia|reflexivity].
    - reflexivity.
    - vm_compute. split; discriminate.
    - vm_compute. reflexivity.
    - vm_compute. discriminate. }
  apply (xmtr_cq_process_keeps_trailing_fragment x s reregister ev w bufs f rest).
  - reflexivity.
  - left. reflexivity.
  - exact Hwf.
  - apply fifo_of_list_wf; simpl; lia.
  - vm_compute. reflexivity.
  - intros h Hh. do 22 (destruct h as [|h]; [vm_compute; discriminate|]).
    vm_compute. discriminate.
  - vm_compute. discriminate.
  - vm_compute. reflexivity.
  - reflexivity.
  - exists 3%nat. split; [reflexivity|vm_compute; discriminate].
  - intros b Hb. apply list_elem_of_singleton in Hb as ->. vm_compute. auto.
  - reflexivity.
  - vm_compute. discriminate.
Defined.

(** The same on a run: the first write takes buffer 3 and ten bytes of
    buffer 4 under the fragment header 21; its completion releases buffer 3
    and leaves the header; the completion of the next write, which carries
    the rest of buffer 4, is refused. *)
Example xmtr_cq_process_trailing_fragment_example :
  let '(s1, x1, w1) := after_first_write in
  fifo_elems (wrposted x1) = [3; 21]%nat ∧
  match xmtr_cq_process x1 s1 false (write_completed 3%nat) w1 with
  | Ret (rc, s2, x2, w2) =>
      rc = 1 ∧ fifo_elems (wrposted x2) = [21]%nat ∧
      fifo_elems (ready_for_terminal s2) = [3]%nat ∧
      let x2 := set_riovs (riov x2) ([mk_riov 200 30 7] ++ replicate 11 zero_riov) 1 x2 in
      match xmtr_targets_write gs_two_segments s2 x2 w2 with
      | Ret (lc, s3, x3, w3) =>
          lc = loop_continue ∧ fifo_elems (wrposted x3) = [21; 4]%nat ∧
          match xmtr_cq_process x3 s3 false (write_completed 4%nat) w3 with
          | Ret (rc, s4, x4, w4) => rc = -1 ∧ fifo_elems (wrposted x4) = [21; 4]%nat
          | _ => False
          end
      | _ => False
      end
  | _ => False
  end.
Proof. vm_compute. split_and!; reflexivity. Qed.


(** ** Advertising targets at the receiver *)

Lemma buf_mr_reg_heap access key h w :
  (∃ m d, w_heap (buf_mr_reg access key h w).2 h = set_mr_desc m d (w_heap w h)) ∧
  (∀ p, p ≠ h → w_heap (buf_mr_reg access key h w).2 p = w_heap w p).
Proof.
  unfold buf_mr_reg. destruct (fabric_do _ _) as [rc fab].
  destruct (negb (rc =? 0)); simpl.
  - split; [|auto]. exists (mr (w_heap w h)), (desc (w_heap w h)).
    destruct (w_heap w h); reflexivity.
  - split; [|intros p Hp; apply upd_other; congruence].
    rewrite upd_same. eauto.
Qed.



(** What the inner loop of [rcvr_vector_update] does with the vector buffer
    [vb]: the buffers [adv] go from [ready_for_cxn] to [tgtposted], and
    their advertisements fill the slots of the message from [i] on. *)
Lemma rcvr_vector_fill_spec gs vb :
  ∀ n i s r w,
    fifo_wf (ready_for_cxn s) → fifo_wf (tgtposted r) →
    insertions (tgtposted r) + Z.of_nat (length (fifo_elems (ready_for_cxn s))) < 2 ^ 63 →
    Z.of_nat (length (fifo_elems (tgtposted r)))
      + Z.of_nat (length (fifo_elems (ready_for_cxn s))) ≤ fifo_capacity (tgtposted r) →
    0 ≤ i → i + Z.of_nat n ≤ Z.of_nat (length (iov (vecbuf_msg (w_heap w vb)))) →
    vb ∉ fifo_elems (ready_for_cxn s) → NoDup (fifo_elems (ready_for_cxn s)) →
    match rcvr_vector_fill n i gs vb s r w with
    | Ret (i', s', r', w') =>
        ∃ adv,
          i' = i + Z.of_nat (length adv) ∧ (length adv ≤ n)%nat ∧
          fifo_elems (ready_for_cxn s) = adv ++ fifo_elems (ready_for_cxn s') ∧
          fifo_wf (ready_for_cxn s') ∧
          ((length adv < n)%nat → fifo_elems (ready_for_cxn s') = []) ∧
          fifo_elems (tgtposted r') = fifo_elems (tgtposted r) ++ adv ∧
          fifo_wf (tgtposted r') ∧
          insertions (tgtposted r') = insertions (tgtposted r) + Z.of_nat (length adv) ∧
          index_mask (tgtposted r') = index_mask (tgtposted r) ∧
          terminal s' = terminal s ∧ ready_for_terminal s' = ready_for_terminal s ∧
          r_vec r' = r_vec r ∧ r_progress r' = r_progress r ∧ nfull r' = nfull r ∧
          eof_local (r_cxn r') = eof_local (r_cxn r) ∧
          eof_remote (r_cxn r') = eof_remote (r_cxn r) ∧
          (reregister gs = false →
             r_cxn r' = r_cxn r ∧ w_fabric w' = w_fabric w ∧ w_pool w' = w_pool w) ∧
          (∀ h, h ∈ adv → advertised gs (w_heap w) (w_heap w') h) ∧
          (∀ p, p ∉ adv → p ≠ vb → w_heap w' p = w_heap w p) ∧
          nused (w_heap w' vb) = nused (w_heap w vb) ∧
          niovs (vecbuf_msg (w_heap w' vb)) = niovs (vecbuf_msg (w_heap w vb)) ∧
          iov (vecbuf_msg (w_heap w' vb)) =
            take (Z.to_nat i) (iov (vecbuf_msg (w_heap w vb)))
              ++ (advert_of (w_heap w') <$> adv)
              ++ drop (Z.to_nat i + length adv) (iov (vecbuf_msg (w_heap w vb)))
    | Exit => reregister gs = true
    | OutOfFuel => False
    end.
Proof.
  induction n as [|n IH]; intros i s r w Hrfc Htp Hroom Hcap Hi Hin Hvb Hnd;
    cbn [rcvr_vector_fill].
  { exists []. simpl. rewrite Nat.add_0_r, take_drop.
    split_and!; auto; try lia; [by rewrite app_nil_r|]. intros h Hh. by apply not_elem_of_nil in Hh. }
  destruct (fifo_get_wf _ Hrfc) as (rfc1 & Eg & Egl & Hrfc1 & _ & _). rewrite Eg.
  cbv beta iota zeta delta [mbind outcome_bind].
  destruct (fifo_elems (ready_for_cxn s)) as [|h rest] eqn:Er.
  { cbn [head]. cbv iota. exists []. simpl. rewrite Nat.add_0_r, take_drop.
    simpl in Egl. split_and!; auto; try lia; [by rewrite app_nil_r|].
    intros h Hh. by apply not_elem_of_nil in Hh. }
  cbn [head]. cbv iota. simpl in Egl.
  assert (h ≠ vb) as Hhvb by (intros ->; apply Hvb; left).
  pose proof (NoDup_cons_1_1 _ _ Hnd) as Hh. apply NoDup_cons_1_2 in Hnd.
  set (w1 := with_heap (upd h (set_nused 0) (w_heap w)) w).
  assert (match (if reregister gs
                 then
                   let '(key, ks, pool) := keysource_next (keys (r_cxn r)) (w_pool w1) in
                   let '(rc, w0) :=
                     buf_mr_reg payload_access_rx key h
                       (mk_world (w_heap w1) (w_fabric w1) pool) in
                   if rc <? 0 then Exit
                   else Ret (set_r_cxn (set_keys ks (r_cxn r)) r, w0)
                 else Ret (r, w1)) with
          | Ret (r1, w2) =>
              tgtposted r1 = tgtposted r ∧ r_vec r1 = r_vec r ∧
              r_progress r1 = r_progress r ∧ nfull r1 = nfull r ∧
              eof_local (r_cxn r1) = eof_local (r_cxn r) ∧
              eof_remote (r_cxn r1) = eof_remote (r_cxn r) ∧
              (reregister gs = false →
                 r_cxn r1 = r_cxn r ∧ w_fabric w2 = w_fabric w ∧ w_pool w2 = w_pool w) ∧
              advertised gs (w_heap w) (w_heap w2) h ∧
              (∀ p, p ≠ h → w_heap w2 p = w_heap w p)
          | Exit => reregister gs = true
          | OutOfFuel => False
          end) as Hreg.
  { destruct (reregister gs) eqn:Erg.
    - destruct (keysource_next _ _) as [[key ks] pool].
      pose proof (buf_mr_reg_heap payload_access_rx key h
                    (mk_world (w_heap w1) (w_fabric w1) pool)) as [(m & d & Hm) Hf].
      destruct (buf_mr_reg _ _ _ _) as [rc w0]. simpl in Hm, Hf.
      destruct (rc <? 0); [reflexivity|]. simpl.
      split_and!; auto; try discriminate.
      + exists m, d. split; [|congruence]. rewrite Hm. unfold w1. simpl.
        rewrite upd_same. reflexivity.
      + intros p Hp. rewrite Hf by exact Hp. unfold w1. simpl. apply upd_other. congruence.
    - split_and!; auto.
      + exists (mr (w_heap w h)), (desc (w_heap w h)). split; [|auto].
        unfold w1. simpl. rewrite upd_same. destruct (w_heap w h); reflexivity.
      + intros p Hp. unfold w1. simpl. apply upd_other. congruence. }
  match goal with
  | |- match match ?t with _ => _ end with _ => _ end =>
      match type of Hreg with match ?t' with _ => _ end => change t with t' end
  end.
  destruct (if reregister gs then _ else _) as [[r1 w2]| |]; [|exact Hreg|exact Hreg].
  destruct Hreg as (R1 & R2 & R3 & R4 & R5 & R6 & R7 & R8 & R9).
  cbv beta iota. rewrite length_cons in Hroom, Hcap.
  destruct (fifo_put_wf (tgtposted r1) h) as (tp & Ep & Epl & Htp1 & Hm1 & Hi1);
    [rewrite R1; exact Htp|rewrite R1; lia|rewrite R1; lia|].
  rewrite Ep. cbv beta iota. rewrite R1 in Epl, Hm1, Hi1.
  set (e := mk_riov 0 (nallocated (w_heap w2 h)) (fi_mr_key (mr (w_heap w2 h)))).
  set (w3 := with_heap (upd vb (set_vec_iov i e) (w_heap w2)) w2).
  assert (w_heap w2 vb = w_heap w vb) as Evb by (apply R9; congruence).
  assert (iov (vecbuf_msg (w_heap w3 vb)) = <[Z.to_nat i := e]> (iov (vecbuf_msg (w_heap w vb))) ∧
          niovs (vecbuf_msg (w_heap w3 vb)) = niovs (vecbuf_msg (w_heap w vb)) ∧
          nused (w_heap w3 vb) = nused (w_heap w vb)) as (V1 & V2 & V3).
  { unfold w3. simpl. rewrite upd_same, Evb. auto. }
  assert (∀ p, p ≠ vb → w_heap w3 p = w_heap w2 p) as Hw3
    by (intros p Hp; unfold w3; simpl; apply upd_other; congruence).
  specialize (IH (i + 1) (set_ready_for_cxn rfc1 s) (set_tgtposted tp r1) w3).
  cbn [ready_for_cxn set_ready_for_cxn tgtposted set_tgtposted] in IH.
  rewrite Egl, Epl, Hi1, V1, length_insert in IH. unfold fifo_capacity in *.
  rewrite Hm1 in IH.
  specialize (IH Hrfc1 Htp1 ltac:(lia) ltac:(rewrite length_app; simpl; lia) ltac:(lia)
                 ltac:(lia) ltac:(intros Hin'; apply Hvb; right; exact Hin') Hnd).
  destruct (rcvr_vector_fill n (i + 1) gs vb _ _ w3) as [[[[i' s'] r'] w']| |];
    [|exact IH|exact IH].
  destruct IH as (adv & I1 & I2 & I3 & I4 & I5 & I6 & I7 & I8 & I9 & I10 & I11 & I12 & I13 &
                  I14 & I15 & I16 & I17 & I18 & I19 & I20 & I21 & I22).
  assert (h ∉ adv) as Hhadv
    by (intros Hin'; apply Hh; rewrite I3; apply elem_of_app; left; exact Hin').
  assert (w_heap w' h = w_heap w2 h) as Eh
    by (rewrite I19 by assumption; apply Hw3; exact Hhvb).
  cbn [r_vec r_progress nfull r_cxn set_tgtposted terminal ready_for_terminal
       set_ready_for_cxn] in I10, I11, I12, I13, I14, I15, I16, I17.
  exists (h :: adv). rewrite length_cons. split_and!; auto; try lia.
  - rewrite I3. reflexivity.
  - intros Hlt. apply I5. lia.
  - rewrite I6, <- app_assoc. reflexivity.
  - congruence.
  - congruence.
  - congruence.
  - congruence.
  - intros Hrg. destruct (I17 Hrg) as (J1 & J2 & J3). destruct (R7 Hrg) as (K1 & K2 & K3).
    simpl in J1, J2, J3. split_and!; congruence.
  - intros h0 Hh0. apply elem_of_cons in Hh0 as [->|Hh0].
    + destruct R8 as (m & d & Hm & Hd). exists m, d. split; [congruence|exact Hd].
    + destruct (I18 h0 Hh0) as (m & d & Hm & Hd).
      assert (h0 ≠ h) as Hne by (intros ->; contradiction).
      assert (h0 ≠ vb) as Hne'
        by (intros ->; apply Hvb; right; rewrite I3; apply elem_of_app; left; exact Hh0).
      assert (w_heap w3 h0 = w_heap w h0) as E0 by (rewrite Hw3, R9; auto).
      exists m, d. rewrite E0 in Hm, Hd. auto.
  - intros p Hp Hpvb. apply not_elem_of_cons in Hp as [Hp1 Hp2].
    rewrite I19, Hw3, R9; auto.
  - rewrite I22.
    assert (Z.to_nat i < length (iov (vecbuf_msg (w_heap w vb))))%nat as Hlt by lia.
    replace (Z.to_nat (i + 1)) with (S (Z.to_nat i)) by lia.
    rewrite take_S_insert by exact Hlt.
    rewrite drop_insert_lt by lia.
    rewrite <- app_assoc. simpl.
    replace (Z.to_nat i + S (length adv))%nat with (S (Z.to_nat i + length adv)) by lia.
    unfold advert_of at 2. rewrite Eh. reflexivity.
Qed.


Lemma buflist_get_ok bl :
  buflist_wf bl →
  match buflist_get bl with
  | (Some h, bl') =>
      buflist_elems bl = buflist_elems bl' ++ [h] ∧ buflist_wf bl' ∧
      bl_nallocated bl' = bl_nallocated bl ∧ bl_nfull bl' = bl_nfull bl - 1
  | (None, bl') => bl' = bl ∧ buflist_elems bl = []
  end.
Proof.
  intros (Hn & Hl & Hb). unfold buflist_get.
  destruct (Z.eqb_spec (bl_nfull bl) 0) as [E|E].
  - split; [reflexivity|]. unfold buflist_elems. rewrite E. reflexivity.
  - rewrite wrap64_small by lia.
    destruct (lookup_lt_is_Some_2 (bl_buf bl) (Z.to_nat (bl_nfull bl - 1))) as [x Hx]; [lia|].
    rewrite Hx. simpl. unfold buflist_elems, buflist_wf. simpl.
    split_and!; try lia.
    replace (Z.to_nat (bl_nfull bl)) with (S (Z.to_nat (bl_nfull bl - 1))) by lia.
    apply take_S_r. exact Hx.
Qed.

Lemma length_buflist_elems bl :
  buflist_wf bl → Z.of_nat (length (buflist_elems bl)) = bl_nfull bl.
Proof. intros (Hn & Hl & Hb). unfold buflist_elems. rewrite length_take. lia. Qed.

Lemma vecbuf_wellformed_exact b k :
  0 ≤ k ≤ vector_msg_iov_count →
  nused b = least_vector_msglen + vector_iov_size * k → niovs (vecbuf_msg b) = k →
  vecbuf_is_wellformed b = true.
Proof.
  unfold vector_msg_iov_count, least_vector_msglen, vector_iov_size. intros Hk Hu Hn.
  apply vecbuf_is_wellformed_iff; [lia|lia|].
  exists k. unfold vector_msg_iov_count, least_vector_msglen, vector_iov_size. lia.
Qed.

Lemma rcvr_vector_loop_unfold fuel gs s r w :
  rcvr_vector_loop fuel gs s r w =
  if fifo_full (tx_ready (r_vec r)) || fifo_empty (ready_for_cxn s) then Ret (s, r, w)
  else
    let '(ovb, pool) := buflist_get (tx_pool (r_vec r)) in
    match ovb with
    | None => Ret (s, r, w)
    | Some vb =>
        match fuel with
        | O => OutOfFuel
        | S fuel' =>
            let r := set_r_vec (mk_txctl (tx_ready (r_vec r)) (tx_posted (r_vec r)) pool) r in
            '(i, s, r, w) ← rcvr_vector_fill (Z.to_nat vector_msg_iov_count) 0 gs vb s r w;
            let hp := upd vb (set_vec_niovs (wrap32 i)) (w_heap w) in
            let hp := upd vb (set_nused (least_vector_msglen + vector_iov_size * i)) hp in
            '(_, ready) ← fifo_put (tx_ready (r_vec r)) vb;
            let r := set_r_vec (mk_txctl ready (tx_posted (r_vec r)) (tx_pool (r_vec r))) r in
            rcvr_vector_loop fuel' gs s r (with_heap hp w)
        end
    end.
Proof. destruct fuel; reflexivity. Qed.


(** What the outer loop of [rcvr_vector_update] does: the payload buffers
    [adv] leave [ready_for_cxn] for [tgtposted], and the vector buffers
    [vbs], taken from the top of the pool, carry their advertisements to
    [vec.ready]. *)
Lemma rcvr_vector_loop_spec gs :
  ∀ fuel s r w,
    fifo_wf (ready_for_cxn s) → fifo_wf (tgtposted r) → fifo_wf (tx_ready (r_vec r)) →
    buflist_wf (tx_pool (r_vec r)) →
    insertions (tgtposted r) + Z.of_nat (length (fifo_elems (ready_for_cxn s))) < 2 ^ 63 →
    Z.of_nat (length (fifo_elems (tgtposted r)))
      + Z.of_nat (length (fifo_elems (ready_for_cxn s))) ≤ fifo_capacity (tgtposted r) →
    insertions (tx_ready (r_vec r)) + bl_nfull (tx_pool (r_vec r)) < 2 ^ 63 →
    NoDup (fifo_elems (ready_for_cxn s)) → NoDup (buflist_elems (tx_pool (r_vec r))) →
    (∀ vb, vb ∈ buflist_elems (tx_pool (r_vec r)) → vb ∉ fifo_elems (ready_for_cxn s)) →
    (∀ vb, vb ∈ buflist_elems (tx_pool (r_vec r)) →
           vector_msg_iov_count ≤ Z.of_nat (length (iov (vecbuf_msg (w_heap w vb))))) →
    (length (buflist_elems (tx_pool (r_vec r))) ≤ fuel)%nat →
    match rcvr_vector_loop fuel gs s r w with
    | Ret (s', r', w') =>
        ∃ adv vbs,
          fifo_elems (ready_for_cxn s) = adv ++ fifo_elems (ready_for_cxn s') ∧
          fifo_elems (tgtposted r') = fifo_elems (tgtposted r) ++ adv ∧
          fifo_elems (tx_ready (r_vec r')) = fifo_elems (tx_ready (r_vec r)) ++ vbs ∧
          buflist_elems (tx_pool (r_vec r)) =
            buflist_elems (tx_pool (r_vec r')) ++ reverse vbs ∧
          tx_posted (r_vec r') = tx_posted (r_vec r) ∧
          concat ((fun vb => vec_adverts (w_heap w' vb)) <$> vbs)
            = advert_of (w_heap w') <$> adv ∧
          (∀ vb, vb ∈ vbs →
             nused (w_heap w' vb) =
               least_vector_msglen + vector_iov_size * niovs (vecbuf_msg (w_heap w' vb)) ∧
             1 ≤ niovs (vecbuf_msg (w_heap w' vb)) ≤ vector_msg_iov_count ∧
             (niovs (vecbuf_msg (w_heap w' vb)) = vector_msg_iov_count ∨
              fifo_elems (ready_for_cxn s') = [])) ∧
          (∀ h, h ∈ adv → advertised gs (w_heap w) (w_heap w') h) ∧
          (∀ p, p ∉ adv → p ∉ vbs → w_heap w' p = w_heap w p) ∧
          terminal s' = terminal s ∧ ready_for_terminal s' = ready_for_terminal s ∧
          r_progress r' = r_progress r ∧ nfull r' = nfull r ∧
          eof_local (r_cxn r') = eof_local (r_cxn r) ∧
          eof_remote (r_cxn r') = eof_remote (r_cxn r) ∧
          (reregister gs = false →
             r_cxn r' = r_cxn r ∧ w_fabric w' = w_fabric w ∧ w_pool w' = w_pool w) ∧
          (Z.of_nat (length (fifo_elems (tx_ready (r_vec r'))))
             = fifo_capacity (tx_ready (r_vec r')) ∨
           fifo_elems (ready_for_cxn s') = [] ∨
           buflist_elems (tx_pool (r_vec r')) = [])
    | Exit => reregister gs = true
    | OutOfFuel => False
    end.
Proof.
  assert (∀ (s : session_t) (r : rcvr_t) (w : world),
            (Z.of_nat (length (fifo_elems (tx_ready (r_vec r))))
               = fifo_capacity (tx_ready (r_vec r)) ∨
             fifo_elems (ready_for_cxn s) = [] ∨
             buflist_elems (tx_pool (r_vec r)) = []) →
            let s' := s in let r' := r in let w' := w in
        ∃ adv vbs,
          fifo_elems (ready_for_cxn s) = adv ++ fifo_elems (ready_for_cxn s') ∧
          fifo_elems (tgtposted r') = fifo_elems (tgtposted r) ++ adv ∧
          fifo_elems (tx_ready (r_vec r')) = fifo_elems (tx_ready (r_vec r)) ++ vbs ∧
          buflist_elems (tx_pool (r_vec r)) =
            buflist_elems (tx_pool (r_vec r')) ++ reverse vbs ∧
          tx_posted (r_vec r') = tx_posted (r_vec r) ∧
          concat ((fun vb => vec_adverts (w_heap w' vb)) <$> vbs)
            = advert_of (w_heap w') <$> adv ∧
          (∀ vb, vb ∈ vbs →
             nused (w_heap w' vb) =
               least_vector_msglen + vector_iov_size * niovs (vecbuf_msg (w_heap w' vb)) ∧
             1 ≤ niovs (vecbuf_msg (w_heap w' vb)) ≤ vector_msg_iov_count ∧
             (niovs (vecbuf_msg (w_heap w' vb)) = vector_msg_iov_count ∨
              fifo_elems (ready_for_cxn s') = [])) ∧
          (∀ h, h ∈ adv → advertised gs (w_heap w) (w_heap w') h) ∧
          (∀ p, p ∉ adv → p ∉ vbs → w_heap w' p = w_heap w p) ∧
          terminal s' = terminal s ∧ ready_for_terminal s' = ready_for_terminal s ∧
          r_progress r' = r_progress r ∧ nfull r' = nfull r ∧
          eof_local (r_cxn r') = eof_local (r_cxn r) ∧
          eof_remote (r_cxn r') = eof_remote (r_cxn r) ∧
          (reregister gs = false →
             r_cxn r' = r_cxn r ∧ w_fabric w' = w_fabric w ∧ w_pool w' = w_pool w) ∧
          (Z.of_nat (length (fifo_elems (tx_ready (r_vec r'))))
             = fifo_capacity (tx_ready (r_vec r')) ∨
           fifo_elems (ready_for_cxn s') = [] ∨
           buflist_elems (tx_pool (r_vec r')) = [])) as Hstop.
  { intros s r w Hst. exists [], []. simpl. rewrite !app_nil_r.
    split_and!; auto.
    - intros vb Hvb. by apply not_elem_of_nil in Hvb.
    - intros h Hh. by apply not_elem_of_nil in Hh. }
  induction fuel as [|fuel IH];
    intros s r w Hrfc Htp Hrd Hpool Hroom Hcap Hroom2 Hnd Hndp Hdisj Hlen Hfuel;
    rewrite rcvr_vector_loop_unfold, (fifo_full_wf _ Hrd), (fifo_empty_wf _ Hrfc);
    (destruct (Z.eqb_spec (Z.of_nat (length (fifo_elems (tx_ready (r_vec r)))))
                          (fifo_capacity (tx_ready (r_vec r)))) as [Ef|Ef];
       [apply Hstop; auto|]);
    (destruct (decide (fifo_elems (ready_for_cxn s) = [])) as [Ee|Ee];
       [rewrite bool_decide_eq_true_2 by exact Ee; apply Hstop; auto
       |rewrite bool_decide_eq_false_2 by exact Ee]);
    cbn [orb];
    pose proof (buflist_get_ok _ Hpool) as Hget;
    pose proof (length_buflist_elems _ Hpool) as Hpl;
    (destruct (buflist_get (tx_pool (r_vec r))) as [[vb|] pool];
       [|destruct Hget as [_ Hget]; apply Hstop; auto]);
    destruct Hget as (Hp1 & Hp2 & Hp3 & Hp4).
  { rewrite Hp1, length_app in Hfuel. simpl in Hfuel. lia. }
  cbv beta iota zeta delta [mbind outcome_bind].
  set (r0 := set_r_vec (mk_txctl (tx_ready (r_vec r)) (tx_posted (r_vec r)) pool) r).
  assert (vb ∈ buflist_elems (tx_pool (r_vec r))) as Hvbin
    by (rewrite Hp1; apply elem_of_app; right; left).
  pose proof (rcvr_vector_fill_spec gs vb (Z.to_nat vector_msg_iov_count) 0 s r0 w
                Hrfc Htp Hroom Hcap ltac:(lia)
                ltac:(specialize (Hlen vb Hvbin); unfold vector_msg_iov_count in *; lia)
                (Hdisj vb Hvbin) Hnd) as HF.
  destruct (rcvr_vector_fill _ 0 gs vb s r0 w) as [[[[i s1] r1] w1]| |];
    [|exact HF|exact HF].
  destruct HF as (adv1 & F1 & F2 & F3 & F4 & F5 & F6 & F7 & F8 & F9 & F10 & F11 & F12 &
                  F13 & F14 & F15 & F16 & F17 & F18 & F19 & F20 & F21 & F22).
  cbn [r_vec r_progress nfull r_cxn tgtposted set_r_vec r0] in F6, F8, F9, F12, F13, F14, F15, F16, F17.
  unfold r0 in F12. cbn [r_vec set_r_vec] in F12.
  cbv beta iota. rewrite F12. cbn [tx_ready tx_posted tx_pool].
  pose proof (fifo_elems_bound _ Hrd) as Hb. pose proof Hp2 as (Q1 & Q2 & Q3).
  destruct (fifo_put_wf (tx_ready (r_vec r)) vb Hrd ltac:(lia) ltac:(lia))
    as (ready' & Ep & Epl & Hrd1 & Hm1 & Hi1).
  rewrite Ep. cbv beta iota.
  set (r2 := set_r_vec (mk_txctl ready' (tx_posted (r_vec r)) pool) r1).
  set (hp2 := upd vb (set_nused (least_vector_msglen + vector_iov_size * i))
                  (upd vb (set_vec_niovs (wrap32 i)) (w_heap w1))).
  set (w2 := with_heap hp2 w1).
  assert (adv1 ≠ []) as Hadv1.
  { intros ->. simpl in F3, F5. apply Ee. rewrite F3. apply F5.
    unfold vector_msg_iov_count. simpl. lia. }
  assert (1 ≤ i ≤ vector_msg_iov_count) as Hi.
  { unfold vector_msg_iov_count in *. destruct adv1; [congruence|].
    rewrite length_cons in F1, F2. lia. }
  assert (wrap32 i = i) as Hw32
    by (unfold wrap32, vector_msg_iov_count in *; apply Z.mod_small; lia).
  assert (nused (hp2 vb) = least_vector_msglen + vector_iov_size * i ∧
          niovs (vecbuf_msg (hp2 vb)) = i ∧
          iov (vecbuf_msg (hp2 vb)) = iov (vecbuf_msg (w_heap w1 vb))) as (V1 & V2 & V3).
  { unfold hp2. rewrite !upd_same, Hw32. auto. }
  assert (∀ p, p ≠ vb → hp2 p = w_heap w1 p) as Hhp2
    by (intros p Hp; unfold hp2; rewrite !upd_other by congruence; reflexivity).
  rewrite F3 in Hnd. apply list.NoDup_app in Hnd as (Hnd1 & Hnd12 & Hnd2).
  rewrite Hp1 in Hndp. apply list.NoDup_app in Hndp as (Hndp1 & Hndp12 & _).
  assert (vb ∉ buflist_elems pool) as Hvbpool
    by (intros Hin; apply (Hndp12 vb Hin); left).
  assert (∀ vb', vb' ∈ buflist_elems pool → vb' ∉ fifo_elems (ready_for_cxn s)) as Hdisj'
    by (intros vb' Hin; apply Hdisj; rewrite Hp1; apply elem_of_app; left; exact Hin).
  assert (insertions (tgtposted r2) + Z.of_nat (length (fifo_elems (ready_for_cxn s1)))
          < 2 ^ 63) as P5.
  { unfold r2. cbn [tgtposted set_r_vec]. rewrite F8. rewrite F3, length_app in Hroom. lia. }
  assert (Z.of_nat (length (fifo_elems (tgtposted r2)))
            + Z.of_nat (length (fifo_elems (ready_for_cxn s1)))
          ≤ fifo_capacity (tgtposted r2)) as P6.
  { unfold r2. cbn [tgtposted set_r_vec]. rewrite F6, length_app. unfold fifo_capacity in *.
    rewrite F9. rewrite F3, length_app in Hcap. lia. }
  assert (insertions (tx_ready (r_vec r2)) + bl_nfull (tx_pool (r_vec r2)) < 2 ^ 63) as P7.
  { unfold r2. cbn [r_vec set_r_vec tx_ready tx_pool]. lia. }
  assert (∀ vb', vb' ∈ buflist_elems (tx_pool (r_vec r2)) →
                 vb' ∉ fifo_elems (ready_for_cxn s1)) as P10.
  { unfold r2. cbn [r_vec set_r_vec tx_pool]. intros vb' Hin Hin'.
    apply (Hdisj' vb' Hin). rewrite F3. apply elem_of_app. right. exact Hin'. }
  assert (∀ vb', vb' ∈ buflist_elems (tx_pool (r_vec r2)) →
                 vector_msg_iov_count
                   ≤ Z.of_nat (length (iov (vecbuf_msg (w_heap w2 vb'))))) as P11.
  { unfold r2, w2. cbn [r_vec set_r_vec tx_pool w_heap with_heap]. intros vb' Hin.
    assert (vb' ≠ vb) as Hne by (intros ->; contradiction).
    rewrite Hhp2 by exact Hne. rewrite F19.
    - apply Hlen. rewrite Hp1. apply elem_of_app. left. exact Hin.
    - intros Hin'. apply (Hdisj' vb' Hin). rewrite F3. apply elem_of_app. left. exact Hin'.
    - exact Hne. }
  assert (length (buflist_elems (tx_pool (r_vec r2))) ≤ fuel)%nat as P12.
  { unfold r2. cbn [r_vec set_r_vec tx_pool]. rewrite Hp1, length_app in Hfuel.
    simpl in Hfuel. lia. }
  pose proof (IH s1 r2 w2 F4 F7 Hrd1 Hp2 P5 P6 P7 Hnd2 Hndp1 P10 P11 P12) as IH'.
  clear IH.
  destruct (rcvr_vector_loop fuel gs s1 r2 w2) as [[[s' r'] w']| |]; [|exact IH'|exact IH'].
  destruct IH' as (adv2 & vbs2 & G1 & G2 & G3 & G4 & G5 & G6 & G7 & G8 & G9 & G10 & G11 &
                   G12 & G13 & G14 & G15 & G16 & G17).
  unfold r2 in G2, G3, G4, G5, G12, G13, G14, G15, G16.
  cbn [tgtposted r_vec set_r_vec tx_ready tx_pool tx_posted r_progress nfull r_cxn]
    in G2, G3, G4, G5, G12, G13, G14, G15, G16.
  unfold w2 in G8, G9, G16. cbn [w_heap w_fabric w_pool with_heap] in G8, G9, G16.
  assert (vb ∉ fifo_elems (ready_for_cxn s)) as Hvbr by (apply Hdisj; exact Hvbin).
  assert (∀ x, x ∈ adv2 → x ∈ fifo_elems (ready_for_cxn s1)) as Hadv2
    by (intros x Hx; rewrite G1; apply elem_of_app; left; exact Hx).
  assert (∀ x, x ∈ vbs2 → x ∈ buflist_elems pool) as Hvbs2
    by (intros x Hx; rewrite G4; apply elem_of_app; right; apply elem_of_reverse; exact Hx).
  assert (vb ∉ adv2) as Hvb2.
  { intros Hin. apply Hvbr. rewrite F3. apply elem_of_app. right. apply Hadv2. exact Hin. }
  assert (vb ∉ vbs2) as Hvb3 by (intros Hin; apply Hvbpool; apply Hvbs2; exact Hin).
  assert (w_heap w' vb = hp2 vb) as Evb by (apply G9; assumption).
  assert (∀ h, h ∈ adv1 → w_heap w' h = w_heap w1 h) as Eadv1.
  { intros h Hh.
    assert (h ≠ vb) as Hne
      by (intros ->; apply Hvbr; rewrite F3; apply elem_of_app; left; exact Hh).
    rewrite G9, Hhp2; auto.
    - intros Hin. apply (Hnd12 h Hh). apply Hadv2. exact Hin.
    - intros Hin. apply (Hdisj' h (Hvbs2 h Hin)). rewrite F3. apply elem_of_app. left.
      exact Hh. }
  assert (∀ h, h ∈ adv2 → hp2 h = w_heap w h) as Eadv2.
  { intros h Hh.
    assert (h ≠ vb) as Hne by (intros ->; contradiction).
    rewrite Hhp2, F19; auto.
    intros Hin. apply (Hnd12 h Hin). apply Hadv2. exact Hh. }
  exists (adv1 ++ adv2), (vb :: vbs2). split_and!.
  - rewrite F3, G1, app_assoc. reflexivity.
  - rewrite G2, F6, app_assoc. reflexivity.
  - rewrite G3, Epl, <- app_assoc. reflexivity.
  - rewrite Hp1, G4, reverse_cons, app_assoc. reflexivity.
  - exact G5.
  - rewrite fmap_cons, concat_cons, G6, fmap_app. f_equal.
    unfold vec_adverts. rewrite Evb, V2, V3, F22. simpl.
    rewrite F1, Z.add_0_l, Nat2Z.id.
    rewrite take_app_length' by (rewrite length_fmap; reflexivity).
    apply list_fmap_ext. intros k h Hk. unfold advert_of.
    rewrite (Eadv1 h) by (eapply list_elem_of_lookup_2; exact Hk). reflexivity.
  - intros vb' Hin. apply elem_of_cons in Hin as [->|Hin]; [|apply G7; exact Hin].
    rewrite Evb, V1, V2. split; [reflexivity|]. split; [exact Hi|].
    destruct (decide (i = vector_msg_iov_count)) as [Ei|Ei]; [left; exact Ei|right].
    assert (fifo_elems (ready_for_cxn s1) = []) as E1
      by (apply F5; unfold vector_msg_iov_count in *; lia).
    rewrite E1 in G1. symmetry in G1. apply app_eq_nil in G1 as [_ G1]. exact G1.
  - intros h Hh. apply elem_of_app in Hh as [Hh|Hh].
    + destruct (F18 h Hh) as (m & d & Hm & Hd). exists m, d.
      rewrite (Eadv1 h Hh). auto.
    + destruct (G8 h Hh) as (m & d & Hm & Hd). exists m, d.
      rewrite (Eadv2 h Hh) in Hm, Hd. auto.
  - intros p Hp Hp'. apply not_elem_of_app in Hp as [Hp1' Hp2'].
    apply not_elem_of_cons in Hp' as [Hp3' Hp4'].
    rewrite G9, Hhp2, F19; auto.
  - congruence.
  - congruence.
  - congruence.
  - congruence.
  - congruence.
  - congruence.
  - intros Hrg. destruct (G16 Hrg) as (J1 & J2 & J3). destruct (F17 Hrg) as (K1 & K2 & K3).
    unfold r0 in K1. cbn [r_cxn set_r_vec] in K1. split_and!; congruence.
  - exact G17.
Qed.


(** X17.  [rcvr_vector_update] while the receiver is not closing: payload
    buffers leave [ready_for_cxn] in order for [tgtposted], emptied, and
    vector buffers taken from the top of the pool carry their advertisements
    to [vec.ready]: read in order, the messages advertise exactly those
    buffers, each once, with its whole allocation at offset 0 under the key of
    its registration.  Every message is wellformed, holds from one to twelve
    advertisements, and holds twelve unless [ready_for_cxn] ran out.  Nothing
    else changes, up to the registrations made when the program registers for
    every transfer; only then can the process end.  The routine stops when
    [vec.ready] is full, [ready_for_cxn] empty or the pool exhausted. *)
Theorem rcvr_vector_update_advertises gs s r w :
  eof_remote (r_cxn r) && negb (eof_local (r_cxn r)) = false →
  fifo_wf (ready_for_cxn s) → fifo_wf (tgtposted r) → fifo_wf (tx_ready (r_vec r)) →
  buflist_wf (tx_pool (r_vec r)) →
  insertions (tgtposted r) + Z.of_nat (length (fifo_elems (ready_for_cxn s))) < 2 ^ 63 →
  Z.of_nat (length (fifo_elems (tgtposted r)))
    + Z.of_nat (length (fifo_elems (ready_for_cxn s))) ≤ fifo_capacity (tgtposted r) →
  insertions (tx_ready (r_vec r)) + bl_nfull (tx_pool (r_vec r)) < 2 ^ 63 →
  NoDup (fifo_elems (ready_for_cxn s)) → NoDup (buflist_elems (tx_pool (r_vec r))) →
  (∀ vb, vb ∈ buflist_elems (tx_pool (r_vec r)) → vb ∉ fifo_elems (ready_for_cxn s)) →
  (∀ vb, vb ∈ buflist_elems (tx_pool (r_vec r)) →
         vector_msg_iov_count ≤ Z.of_nat (length (iov (vecbuf_msg (w_heap w vb))))) →
  match rcvr_vector_update gs s r w with
  | Ret (s', r', w') =>
      ∃ adv vbs,
        fifo_elems (ready_for_cxn s) = adv ++ fifo_elems (ready_for_cxn s') ∧
        fifo_elems (tgtposted r') = fifo_elems (tgtposted r) ++ adv ∧
        fifo_elems (tx_ready (r_vec r')) = fifo_elems (tx_ready (r_vec r)) ++ vbs ∧
        buflist_elems (tx_pool (r_vec r)) =
          buflist_elems (tx_pool (r_vec r')) ++ reverse vbs ∧
        tx_posted (r_vec r') = tx_posted (r_vec r) ∧
        concat ((fun vb => vec_adverts (w_heap w' vb)) <$> vbs)
          = advert_of (w_heap w') <$> adv ∧
        (∀ vb, vb ∈ vbs →
           vecbuf_is_wellformed (w_heap w' vb) = true ∧
           nused (w_heap w' vb) =
             least_vector_msglen + vector_iov_size * niovs (vecbuf_msg (w_heap w' vb)) ∧
           1 ≤ niovs (vecbuf_msg (w_heap w' vb)) ≤ vector_msg_iov_count ∧
           (niovs (vecbuf_msg (w_heap w' vb)) = vector_msg_iov_count ∨
            fifo_elems (ready_for_cxn s') = [])) ∧
        (∀ h, h ∈ adv → advertised gs (w_heap w) (w_heap w') h) ∧
        (∀ p, p ∉ adv → p ∉ vbs → w_heap w' p = w_heap w p) ∧
        terminal s' = terminal s ∧ ready_for_terminal s' = ready_for_terminal s ∧
        r_progress r' = r_progress r ∧ nfull r' = nfull r ∧
        eof_local (r_cxn r') = eof_local (r_cxn r) ∧
        eof_remote (r_cxn r') = eof_remote (r_cxn r) ∧
        (reregister gs = false →
           r_cxn r' = r_cxn r ∧ w_fabric w' = w_fabric w ∧ w_pool w' = w_pool w) ∧
        (Z.of_nat (length (fifo_elems (tx_ready (r_vec r'))))
           = fifo_capacity (tx_ready (r_vec r')) ∨
         fifo_elems (ready_for_cxn s') = [] ∨
         buflist_elems (tx_pool (r_vec r')) = [])
  | Exit => reregister gs = true
  | OutOfFuel => False
  end.
Proof.
  intros Hcl Hrfc Htp Hrd Hpool Hroom Hcap Hroom2 Hnd Hndp Hdisj Hlen.
  unfold rcvr_vector_update.
  replace (eof_remote (r_cxn r) && negb (eof_local (r_cxn r)) &&
           negb (fifo_full (tx_ready (r_vec r)))) with false by (rewrite Hcl; reflexivity).
  cbv beta iota zeta.
  pose proof (rcvr_vector_loop_spec gs (Z.to_nat (bl_nfull (tx_pool (r_vec r)))) s r w
                Hrfc Htp Hrd Hpool Hroom Hcap Hroom2 Hnd Hndp Hdisj Hlen
                ltac:(pose proof (length_buflist_elems _ Hpool); lia)) as HL.
  destruct (rcvr_vector_loop _ gs s r w) as [[[s' r'] w']| |]; [|exact HL|exact HL].
  destruct HL as (adv & vbs & G1 & G2 & G3 & G4 & G5 & G6 & G7 & G8 & G9 & G10 & G11 &
                  G12 & G13 & G14 & G15 & G16 & G17).
  exists adv, vbs. split_and!; auto.
  intros vb Hvb. destruct (G7 vb Hvb) as (K1 & K2 & K3). split; [|auto].
  eapply vecbuf_wellformed_exact; [|exact K1|reflexivity]. lia.
Qed.

Lemma rcvr_vector_update_advertises_witness :
  let gs := gs0 in
  let s := session_two_targets in
  let r := rcvr_one_vecbuf in
  let w := world_two_targets in
  match rcvr_vector_update gs s r w with
  | Ret (s', r', w') =>
      ∃ adv vbs,
        fifo_elems (ready_for_cxn s) = adv ++ fifo_elems (ready_for_cxn s') ∧
        fifo_elems (tgtposted r') = fifo_elems (tgtposted r) ++ adv ∧
        fifo_elems (tx_ready (r_vec r')) = fifo_elems (tx_ready (r_vec r)) ++ vbs ∧
        buflist_elems (tx_pool (r_vec r)) =
          buflist_elems (tx_pool (r_vec r')) ++ reverse vbs ∧
        tx_posted (r_vec r') = tx_posted (r_vec r) ∧
        concat ((fun vb => vec_adverts (w_heap w' vb)) <$> vbs)
          = advert_of (w_heap w') <$> adv ∧
        (∀ vb, vb ∈ vbs →
           vecbuf_is_wellformed (w_heap w' vb) = true ∧
           nused (w_heap w' vb) =
             least_vector_msglen + vector_iov_size * niovs (vecbuf_msg (w_heap w' vb)) ∧
           1 ≤ niovs (vecbuf_msg (w_heap w' vb)) ≤ vector_msg_iov_count ∧
           (niovs (vecbuf_msg (w_heap w' vb)) = vector_msg_iov_count ∨
            fifo_elems (ready_for_cxn s') = [])) ∧
        (∀ h, h ∈ adv → advertised gs (w_heap w) (w_heap w') h) ∧
        (∀ p, p ∉ adv → p ∉ vbs → w_heap w' p = w_heap w p) ∧
        terminal s' = terminal s ∧ ready_for_terminal s' = ready_for_terminal s ∧
        r_progress r' = r_progress r ∧ nfull r' = nfull r ∧
        eof_local (r_cxn r') = eof_local (r_cxn r) ∧
        eof_remote (r_cxn r') = eof_remote (r_cxn r) ∧
        (reregister gs = false →
           r_cxn r' = r_cxn r ∧ w_fabric w' = w_fabric w ∧ w_pool w' = w_pool w) ∧
        (Z.of_nat (length (fifo_elems (tx_ready (r_vec r'))))
           = fifo_capacity (tx_ready (r_vec r')) ∨
         fifo_elems (ready_for_cxn s') = [] ∨
         buflist_elems (tx_pool (r_vec r')) = [])
  | Exit => reregister gs = true
  | OutOfFuel => False
  end.
Proof.
  intros gs s r w. apply (rcvr_vector_update_advertises gs s r w).
  - reflexivity.
  - apply fifo_of_list_wf; simpl; lia.
  - apply fifo_of_list_wf; simpl; lia.
  - apply fifo_of_list_wf; simpl; lia.
  - vm_compute. split_and!; (reflexivity || discriminate).
  - vm_compute. reflexivity.
  - vm_compute. discriminate.
  - vm_compute. reflexivity.
  - apply NoDup_cons_2; [|apply NoDup_singleton].
    intros Hin. apply list_elem_of_singleton in Hin. discriminate.
  - apply NoDup_singleton.
  - intros vb Hin Hin'. apply list_elem_of_singleton in Hin as ->.
    apply elem_of_cons in Hin' as [Hin'|Hin']; [discriminate|].
    apply list_elem_of_singleton in Hin'. discriminate.
  - intros vb Hin. apply list_elem_of_singleton in Hin as ->. vm_compute. discriminate.
Defined.

(** The same on a run: one message of 56 bytes advertises both buffers. *)
Example rcvr_vector_update_example :
  match rcvr_vector_update gs0 session_two_targets rcvr_one_vecbuf world_two_targets with
  | Ret (s', r', w') =>
      fifo_elems (ready_for_cxn s') = [] ∧ fifo_elems (tgtposted r') = [3; 4]%nat ∧
      fifo_elems (tx_ready (r_vec r')) = [5%nat] ∧
      vec_adverts (w_heap w' 5%nat) = [mk_riov 0 23 13; mk_riov 0 29 14] ∧
      nused (w_heap w' 5%nat) = 56 ∧ nused (w_heap w' 3%nat) = 0
  | _ => False
  end.
Proof. vm_compute. split_and!; reflexivity. Qed.


(** ** [write_fully] within the range of [int] *)

(** Two local segments of 23 and 29 bytes against one advertisement of 31
    bytes: 31 bytes are written, and 21 bytes of the second segment are
    left. *)
Lemma write_fully_residue_in_range_witness :
  let p := write_one_advert in
  let fab := fabric0 [0] in
  let r := (write_fully p fab).1 in
  let n := write_fully_min p in
  let local := iov_residue 0 n (take (Z.to_nat (p_niovs p)) (p_iov_in p)) in
  let remote := riov_residue n (take (Z.to_nat (p_nriovs p)) (p_riov_in p)) in
  wf_ret r = n ∧
  wf_niovs_out r = Z.of_nat (length local) ∧
  take (length local) (wf_iov_out r) = snd <$> local ∧
  take (length local) (wf_desc_out r) =
    (fun e => default 0 (p_desc_in p !! e.1)) <$> local ∧
  wf_nriovs_out r = Z.of_nat (length remote) ∧
  take (length remote) (wf_riov_out r) = remote ∧
  concat (iov_bytes <$> take (length local) (wf_iov_out r)) =
    drop (Z.to_nat n) (concat (iov_bytes <$> take (Z.to_nat (p_niovs p)) (p_iov_in p))) ∧
  concat (riov_bytes <$> take (length remote) (wf_riov_out r)) =
    drop (Z.to_nat n) (concat (riov_bytes <$> take (Z.to_nat (p_nriovs p)) (p_riov_in p))).
Proof.
  intros p fab. apply (write_fully_residue_in_range p fab).
  - vm_compute. discriminate.
  - vm_compute. discriminate.
  - vm_compute. discriminate.
  - vm_compute. reflexivity.
  - vm_compute. reflexivity.
  - repeat constructor; vm_compute; discriminate || reflexivity.
  - repeat constructor; vm_compute; discriminate || reflexivity.
  - vm_compute. reflexivity.
  - vm_compute. reflexivity.
  - vm_compute. split; [discriminate|reflexivity].
  - vm_compute. discriminate.
  - vm_compute. discriminate.
  - vm_compute. discriminate.
  - reflexivity.
Defined.


(** ** Writing to the targets *)













Lemma length_queued_bytes hp l :
  (∀ p, p ∈ l → 0 ≤ nused (hp p)) →
  Z.of_nat (length (queued_bytes hp l)) = bytes_used hp l.
Proof.
  induction l as [|h l IH]; intros H; [reflexivity|].
  unfold queued_bytes in *. rewrite fmap_cons. cbn [concat bytes_used].
  rewrite length_app, Nat2Z.inj_add, IH by (intros p Hp; apply H; right; exact Hp).
  unfold buf_bytes. rewrite length_iov_bytes. cbn [iov_len].
  pose proof (H h ltac:(left)). lia.
Qed.









Example xmtr_targets_write_example :
  match xmtr_targets_write gs_two_segments session_two_payloads xmtr_two_adverts
          world_two_payloads with
  | Ret (ctl, s', x', w') =>
      ctl = loop_continue ∧ fifo_elems (wrposted x') = [3; 21]%nat ∧
      fifo_elems (ready_for_cxn s') = [4%nat] ∧ fragment_offset x' = 10 ∧
      nriovs x' = 0 ∧ phase x' = true ∧
      oplog (w_fabric w') =
        [(op_writemsg 1 [mk_iovec (3%nat, 0) 25; mk_iovec (4%nat, 0) 10] [0; 0]
                      [mk_riov 0 20 5; mk_riov 100 15 6] 7 3%nat
                      (Z.lor FI_COMPLETION FI_DELIVERY_COMPLETE), 0)]
  | _ => False
  end.
Proof. vm_compute. split_and!; reflexivity. Qed.

(** With no fragment header at hand the same call ends the process: 54 bytes
    wait, and the two targets counted take 35. *)
Example xmtr_targets_write_no_header :
  xmtr_targets_write gs_two_segments session_two_payloads
    (set_fragment (buflist_of_list 4 []) 0 xmtr_two_adverts) world_two_payloads = Exit ∧
  length (waiting_bytes session_two_payloads xmtr_two_adverts
            (w_heap world_two_payloads)) = 54%nat ∧
  write_maxbytes gs_two_segments xmtr_two_adverts = 35.
Proof. vm_compute. split_and!; reflexivity. Qed.

(** ** [worker_paybuflist_replenish] *)

Lemma paylen_next_at (k : nat) : paylen_next (paylen_at k) = paylen_at (S k).
Proof.
  unfold paylen_at.
  pose proof (Nat.div_mod_eq k 4) as Hk.
  pose proof (Nat.mod_upper_bound k 4 ltac:(lia)) as Hb.
  assert (Hs : (S k mod 4 = if Nat.eqb (k mod 4) 3 then 0 else S (k mod 4))%nat).
  { destruct (Nat.eqb_spec (k mod 4) 3) as [E|E].
    - symmetry. apply (Nat.mod_unique _ _ (S (k / 4))); lia.
    - symmetry. apply (Nat.mod_unique _ _ (k / 4)); lia. }
  rewrite Hs.
  destruct (k mod 4)%nat as [|[|[|[|r]]]]; try reflexivity. lia.
Qed.

Lemma paylen_iter (k : nat) : Nat.iter (S k) paylen_next 0 = paylen_at k.
Proof.
  induction k as [|k IH]; [reflexivity|].
  change (Nat.iter (S (S k)) paylen_next 0) with (paylen_next (Nat.iter (S k) paylen_next 0)).
  rewrite IH. apply paylen_next_at.
Qed.

Lemma replenish_loop_unfold fuel gs access ntofill paylen i ks bl m w :
  replenish_loop fuel gs access ntofill paylen i ks bl m w =
  if i <? ntofill then
    match fuel with
    | O => OutOfFuel
    | S fuel' =>
        let paylen := paylen_next paylen in
        let '(ob, m, hp) := bytebuf_alloc paylen m (w_heap w) in
        match ob with
        | None => Exit
        | Some buf =>
            let w := with_heap (upd buf (fun b => set_xfc (set_xfc_type xft_rdma_write (xfc b)) b)
                                    hp) w in
            let '(rc, ks, w) :=
              if negb (reregister gs) then
                let '(key, ks, pool) := keysource_next ks (w_pool w) in
                let '(rc, w) := buf_mr_reg access key buf
                                  (mk_world (w_heap w) (w_fabric w) pool) in
                (rc, ks, w)
              else (0, ks, w) in
            if negb (rc =? 0) then Ret (i, ks, bl, m, w)
            else
              replenish_loop fuel' gs access ntofill paylen (wrap64 (i + 1)) ks
                (mk_buflist (bl_nfull bl) (bl_nallocated bl)
                            (<[Z.to_nat i := buf]> (bl_buf bl))) m w
        end
    end
  else Ret (i, ks, bl, m, w).
Proof. destruct fuel; reflexivity. Qed.


(** The registration step of the loop. *)
Lemma replenish_register gs access ks buf w :
  match (if negb (reregister gs) then
           let '(key, ks, pool) := keysource_next ks (w_pool w) in
           let '(rc, w) := buf_mr_reg access key buf
                             (mk_world (w_heap w) (w_fabric w) pool) in
           (rc, ks, w)
         else (0, ks, w)) with
  | (rc, ks', w') =>
      (∀ p, p ≠ buf → w_heap w' p = w_heap w p) ∧
      (reregister gs = true → rc = 0 ∧ ks' = ks ∧ w' = w) ∧
      (reregister gs = false →
       ∃ key, oplog (w_fabric w') =
                oplog (w_fabric w) ++ [(op_mr_reg buf (nallocated (w_heap w buf)) access key, rc)] ∧
              (rc = 0 → w_heap w' buf = set_mr_desc key (fi_mr_desc key) (w_heap w buf)) ∧
              (rc ≠ 0 → w_heap w' = w_heap w))
  end.
Proof.
  destruct (reregister gs); cbn [negb].
  - split_and!; [auto|auto|discriminate].
  - destruct (keysource_next ks (w_pool w)) as [[key ks1] pool].
    unfold buf_mr_reg. cbn [w_heap w_fabric w_pool].
    pose proof (fabric_do_oplog (op_mr_reg buf (nallocated (w_heap w buf)) access key)
                  (w_fabric w)) as Hlog.
    pose proof (fabric_do_answer (op_mr_reg buf (nallocated (w_heap w buf)) access key)
                  (w_fabric w)) as [Hans _].
    destruct (fabric_do _ _) as [rc fab]. cbn [fst snd] in Hlog, Hans.
    destruct (Z.eqb_spec rc 0) as [->|Hrc]; cbn [negb].
    + split_and!; [|discriminate|].
      * intros p Hp. cbn [w_heap]. apply upd_other. congruence.
      * intros _. exists key. cbn [w_heap w_fabric]. rewrite Hlog, <- Hans.
        split_and!; [reflexivity| |congruence]. intros _. apply upd_same.
    + split_and!; [reflexivity|discriminate|].
      intros _. exists key. cbn [w_heap w_fabric with_fabric]. rewrite Hlog, <- Hans.
      split_and!; [reflexivity|congruence|reflexivity].
Qed.


Lemma replenish_loop_spec gs access ntofill : ∀ fuel (j : nat) i ks bl (m : allocator) w,
  0 ≤ i → ntofill < 2 ^ 64 → (Z.to_nat (ntofill - i) ≤ fuel)%nat →
  ntofill ≤ Z.of_nat (length (bl_buf bl)) →
  NoDup (omap id m) →
  match replenish_loop fuel gs access ntofill (Nat.iter j paylen_next 0) i ks bl m w with
  | Ret (i', ks', bl', m', w') =>
      ∃ hs : list ptr,
        i' = i + Z.of_nat (length hs) ∧
        Z.of_nat (length hs) ≤ Z.max 0 (ntofill - i) ∧
        bl_nfull bl' = bl_nfull bl ∧ bl_nallocated bl' = bl_nallocated bl ∧
        length (bl_buf bl') = length (bl_buf bl) ∧
        take (Z.to_nat i') (bl_buf bl') = take (Z.to_nat i) (bl_buf bl) ++ hs ∧
        (m = (Some <$> hs) ++ m' ∧ Z.of_nat (length hs) = Z.max 0 (ntofill - i) ∨
         reregister gs = false ∧
         ∃ f key rc, m = (Some <$> hs) ++ Some f :: m' ∧ rc ≠ 0 ∧
           list.last (oplog (w_fabric w')) =
             Some (op_mr_reg f (paylen_at (j + length hs)) access key, rc)) ∧
        (∃ ops, oplog (w_fabric w') = oplog (w_fabric w) ++ ops) ∧
        (∀ (k : nat) h, hs !! k = Some h →
           nallocated (w_heap w' h) = paylen_at (j + k) ∧ nused (w_heap w' h) = 0 ∧
           raddr (w_heap w' h) = 0 ∧ xfc_type (xfc (w_heap w' h)) = xft_rdma_write ∧
           (reregister gs = false →
              desc (w_heap w' h) = fi_mr_desc (mr (w_heap w' h)) ∧
              (op_mr_reg h (paylen_at (j + k)) access (mr (w_heap w' h)), 0)
                ∈ oplog (w_fabric w'))) ∧
        (∀ p, Some p ∉ m → w_heap w' p = w_heap w p) ∧
        (reregister gs = true → ks' = ks ∧ w_fabric w' = w_fabric w ∧ w_pool w' = w_pool w)
  | Exit => ∃ k : nat, Z.of_nat k < Z.max 0 (ntofill - i) ∧ (m !! k = None ∨ m !! k = Some None)
  | OutOfFuel => False
  end.
Proof.
  induction fuel as [|fuel IH]; intros j i ks bl m w Hi Hnt Hfuel Hlen Hnd;
    rewrite replenish_loop_unfold; destruct (Z.ltb_spec i ntofill) as [Hlt|Hge];
    try lia; try (exists []; simpl; rewrite app_nil_r, Z.add_0_r;
      split_and!; auto; try lia; try (left; split; [reflexivity|lia]);
      [exists []; by rewrite app_nil_r|intros k h Hk; destruct k; discriminate]).
  - cbv zeta. unfold bytebuf_alloc, buf_alloc, malloc.
    destruct m as [|[buf|] m'].
    + exists 0%nat. split; [lia|]. left. reflexivity.
    + set (hp1 := upd buf _ (upd buf _ (w_heap w))).
      set (w1 := with_heap hp1 w).
      assert (Hb1 : hp1 buf = mk_buf 0 0 (paylen_at j) (mr (w_heap w buf)) (desc (w_heap w buf))
                                (set_xfc_type xft_rdma_write (xfc (w_heap w buf)))
                                (body (w_heap w buf))).
      { unfold hp1. rewrite !upd_same.
        change (paylen_next (Nat.iter j paylen_next 0)) with (Nat.iter (S j) paylen_next 0).
        rewrite paylen_iter. reflexivity. }
      assert (Hf1 : ∀ p, p ≠ buf → hp1 p = w_heap w p).
      { intros p Hp. unfold hp1. rewrite !upd_other by congruence. reflexivity. }
      cbn [omap] in Hnd. change (NoDup (buf :: omap id m')) in Hnd.
      pose proof (NoDup_cons_1_1 _ _ Hnd) as Hfresh.
      pose proof (NoDup_cons_1_2 _ _ Hnd) as Hnd'.
      assert (Hfresh' : Some buf ∉ m').
      { intros Hin. apply Hfresh. apply list_elem_of_omap. exists (Some buf). auto. }
      pose proof (replenish_register gs access ks buf w1) as Hreg.
      destruct (if negb (reregister gs) then _ else _) as [[rc ks1] w2].
      destruct Hreg as (G1 & G2 & G3).
      change (w_heap w1) with hp1 in G1, G3. change (w_fabric w1) with (w_fabric w) in G3.
      destruct (Z.eqb_spec rc 0) as [->|Hrc]; cbn [negb].
      * change (paylen_next (Nat.iter j paylen_next 0)) with (Nat.iter (S j) paylen_next 0).
        rewrite wrap64_small by lia.
        set (bl1 := mk_buflist _ _ _).
        specialize (IH (S j) (i + 1) ks1 bl1 m' w2 ltac:(lia) Hnt ltac:(lia)
                      ltac:(unfold bl1; cbn [bl_buf]; rewrite length_insert; exact Hlen) Hnd').
        assert (Hlog2 : ∃ ops, oplog (w_fabric w2) = oplog (w_fabric w) ++ ops).
        { destruct (reregister gs) eqn:Er.
          - destruct (G2 eq_refl) as (_ & _ & ->). exists []. by rewrite app_nil_r.
          - destruct (G3 eq_refl) as (key & -> & _). eauto. }
        assert (Hbuf2 : nallocated (w_heap w2 buf) = paylen_at j ∧ nused (w_heap w2 buf) = 0 ∧
                        raddr (w_heap w2 buf) = 0 ∧
                        xfc_type (xfc (w_heap w2 buf)) = xft_rdma_write ∧
                        (reregister gs = false →
                         desc (w_heap w2 buf) = fi_mr_desc (mr (w_heap w2 buf)) ∧
                         (op_mr_reg buf (paylen_at j) access (mr (w_heap w2 buf)), 0)
                           ∈ oplog (w_fabric w2))).
        { destruct (reregister gs) eqn:Er.
          - destruct (G2 eq_refl) as (_ & _ & ->). change (w_heap w1) with hp1.
            rewrite Hb1. cbn. split_and!; auto. discriminate.
          - destruct (G3 eq_refl) as (key & L1 & L2 & _). rewrite (L2 eq_refl), Hb1. cbn.
            split_and!; auto. intros _. split; [reflexivity|].
            rewrite L1, Hb1. cbn. apply elem_of_app. right. apply list_elem_of_singleton.
            reflexivity. }
        destruct (replenish_loop _ _ _ _ _ _ _ _ _ _) as [[[[[i' ks'] bl'] m''] w']| |].
        -- destruct IH as (hs & I1 & I2 & I3 & I4 & I5 & I6 & I7 & I8 & I9 & I10 & I11).
           assert (Hbuf' : w_heap w' buf = w_heap w2 buf) by (apply I10; exact Hfresh').
           exists (buf :: hs). simpl length.
           split_and!.
           ++ lia.
           ++ lia.
           ++ exact I3.
           ++ exact I4.
           ++ rewrite I5. unfold bl1. cbn [bl_buf]. apply length_insert.
           ++ rewrite I6. unfold bl1. cbn [bl_buf].
              replace (Z.to_nat (i + 1)) with (S (Z.to_nat i)) by lia.
              rewrite take_S_insert by lia. rewrite <- app_assoc. reflexivity.
           ++ destruct I7 as [[-> I7]|(Er & f & key & rc & -> & I7 & I7')].
              ** left. split; [reflexivity|lia].
              ** right. split; [exact Er|]. exists f, key, rc.
                 split_and!; [reflexivity|exact I7|].
                 replace (j + S (length hs))%nat with (S j + length hs)%nat by lia.
                 exact I7'.
           ++ destruct I8 as (ops & ->). destruct Hlog2 as (ops2 & ->).
              exists (ops2 ++ ops). by rewrite app_assoc.
           ++ intros k h Hk. destruct k as [|k].
              ** injection Hk as <-. rewrite Nat.add_0_r, Hbuf'.
                 destruct Hbuf2 as (B1 & B2 & B3 & B4 & B5).
                 split_and!; auto. intros Er. destruct (B5 Er) as [B6 B7].
                 split; [exact B6|]. destruct I8 as (ops & ->).
                 apply elem_of_app. left. exact B7.
              ** replace (j + S k)%nat with (S j + k)%nat by lia. apply I9. exact Hk.
           ++ intros p Hp. apply not_elem_of_cons in Hp as [Hp1 Hp2].
              rewrite I10 by exact Hp2. rewrite G1 by congruence. apply Hf1. congruence.
           ++ intros Er. destruct (I11 Er) as (-> & -> & ->).
              destruct (G2 Er) as (_ & -> & ->). auto.
        -- destruct IH as (k & Hk & Hm). exists (S k). split; [lia|exact Hm].
        -- exact IH.
      * exists []. simpl length. rewrite app_nil_r, Z.add_0_r.
        destruct (reregister gs) eqn:Er; [destruct (G2 eq_refl) as (? & _); congruence|].
        destruct (G3 eq_refl) as (key & L1 & _ & L3).
        split_and!; auto; try lia.
        -- right. split; [reflexivity|]. exists buf, key, rc.
           split_and!; [reflexivity|exact Hrc|].
           rewrite L1, last_snoc, Hb1, Nat.add_0_r. reflexivity.
        -- eauto.
        -- intros k h Hk. destruct k; discriminate.
        -- intros p Hp. apply not_elem_of_cons in Hp as [Hp1 Hp2].
           rewrite G1 by congruence. apply Hf1. congruence.
    + exists 0%nat. split; [lia|]. right. reflexivity.
Qed.




(** X20.  [worker_paybuflist_replenish] leaves a list that is at least half
    full alone and answers true.  Otherwise it appends newly allocated
    buffers behind those in the list, at most [nallocated / 2 - 2 * nfull] of
    them: the list is filled up to [nallocated / 2 - nfull] entries, which is
    half of it only when it was empty.  It appends that many unless a
    registration is refused: then the refused buffer is dropped and the
    routine stops there.  The [k]-th new buffer has 23, 29, 31 or 37 bytes
    by turns, counts no bytes used, is of type [xft_rdma_write] and, when
    buffers are registered once, holds the registration the fabric granted
    for it.  No buffer the allocator did not hand out changes.  The answer is
    whether the list holds a buffer.  The process ends only if the allocator
    fails. *)
Theorem worker_paybuflist_replenish_fills gs ks access bl (m : allocator) w :
  buflist_wf bl → NoDup (omap id m) →
  let half := bl_nallocated bl / 2 in
  let want := Z.max 0 (half - 2 * bl_nfull bl) in
  match worker_paybuflist_replenish gs ks access bl m w with
  | Ret (ok, ks', bl', m', w') =>
      buflist_wf bl' ∧ bl_nallocated bl' = bl_nallocated bl ∧
      (half ≤ bl_nfull bl → ok = true ∧ ks' = ks ∧ bl' = bl ∧ m' = m ∧ w' = w) ∧
      (bl_nfull bl < half →
       ok = (0 <? bl_nfull bl') ∧
       ∃ hs : list ptr,
         buflist_elems bl' = buflist_elems bl ++ hs ∧
         Z.of_nat (length hs) ≤ want ∧
         (m = (Some <$> hs) ++ m' ∧ Z.of_nat (length hs) = want ∨
          reregister gs = false ∧
          ∃ f key rc, m = (Some <$> hs) ++ Some f :: m' ∧ rc ≠ 0 ∧
            list.last (oplog (w_fabric w')) =
              Some (op_mr_reg f (paylen_at (length hs)) access key, rc)) ∧
         (∀ (k : nat) h, hs !! k = Some h →
            nallocated (w_heap w' h) = paylen_at k ∧ nused (w_heap w' h) = 0 ∧
            raddr (w_heap w' h) = 0 ∧ xfc_type (xfc (w_heap w' h)) = xft_rdma_write ∧
            (reregister gs = false →
               desc (w_heap w' h) = fi_mr_desc (mr (w_heap w' h)) ∧
               (op_mr_reg h (paylen_at k) access (mr (w_heap w' h)), 0)
                 ∈ oplog (w_fabric w'))) ∧
         (∀ p, Some p ∉ m → w_heap w' p = w_heap w p) ∧
         (reregister gs = true →
            ks' = ks ∧ w_fabric w' = w_fabric w ∧ w_pool w' = w_pool w))
  | Exit =>
      bl_nfull bl < half ∧
      ∃ k : nat, Z.of_nat k < want ∧ (m !! k = None ∨ m !! k = Some None)
  | OutOfFuel => False
  end.
Proof.
  intros Hwf Hnd half want. pose proof Hwf as (Hw1 & Hw2 & Hw3).
  unfold worker_paybuflist_replenish.
  fold half. destruct (Z.leb_spec half (bl_nfull bl)) as [Hge|Hlt].
  - split_and!; auto. lia.
  - assert (Hhalf : 0 ≤ half ≤ bl_nallocated bl).
    { unfold half. split; [apply Z.div_pos; lia|].
      apply Z.div_le_upper_bound; lia. }
    rewrite wrap64_small by lia.
    pose proof (replenish_loop_spec gs access (half - bl_nfull bl)
                  (Z.to_nat (half - bl_nfull bl)) 0 (bl_nfull bl) ks bl m w
                  ltac:(lia) ltac:(lia) ltac:(lia) ltac:(lia) Hnd) as HL.
    change (Nat.iter 0 paylen_next 0) with 0 in HL.
    replace (half - bl_nfull bl - bl_nfull bl) with (half - 2 * bl_nfull bl) in HL by lia.
    fold want in HL.
    destruct (replenish_loop _ _ _ _ _ _ _ _ _ _) as [[[[[i' ks'] bl'] m'] w']| |];
      cbv beta iota zeta delta [mbind outcome_bind].
    + destruct HL as (hs & I1 & I2 & I3 & I4 & I5 & I6 & I7 & I8 & I9 & I10 & I11).
      split_and!.
      * unfold buflist_wf. cbn [bl_nfull bl_nallocated bl_buf]. rewrite I4, I5. lia.
      * cbn [bl_nallocated]. exact I4.
      * lia.
      * intros _. split; [reflexivity|]. exists hs.
        split_and!; auto.
    + split; [exact Hlt|exact HL].
    + exact HL.
Qed.

(** An empty list of 16 slots is filled with 8 buffers. *)
Lemma worker_paybuflist_replenish_fills_witness :
  let gs := gs0 in
  let ks := keysource_init in
  let access := payload_access_tx in
  let bl := paybufs_empty in
  let m := allocator_eight in
  let w := world_fresh in
  let half := bl_nallocated bl / 2 in
  let want := Z.max 0 (half - 2 * bl_nfull bl) in
  match worker_paybuflist_replenish gs ks access bl m w with
  | Ret (ok, ks', bl', m', w') =>
      buflist_wf bl' ∧ bl_nallocated bl' = bl_nallocated bl ∧
      (half ≤ bl_nfull bl → ok = true ∧ ks' = ks ∧ bl' = bl ∧ m' = m ∧ w' = w) ∧
      (bl_nfull bl < half →
       ok = (0 <? bl_nfull bl') ∧
       ∃ hs : list ptr,
         buflist_elems bl' = buflist_elems bl ++ hs ∧
         Z.of_nat (length hs) ≤ want ∧
         (m = (Some <$> hs) ++ m' ∧ Z.of_nat (length hs) = want ∨
          reregister gs = false ∧
          ∃ f key rc, m = (Some <$> hs) ++ Some f :: m' ∧ rc ≠ 0 ∧
            list.last (oplog (w_fabric w')) =
              Some (op_mr_reg f (paylen_at (length hs)) access key, rc)) ∧
         (∀ (k : nat) h, hs !! k = Some h →
            nallocated (w_heap w' h) = paylen_at k ∧ nused (w_heap w' h) = 0 ∧
            raddr (w_heap w' h) = 0 ∧ xfc_type (xfc (w_heap w' h)) = xft_rdma_write ∧
            (reregister gs = false →
               desc (w_heap w' h) = fi_mr_desc (mr (w_heap w' h)) ∧
               (op_mr_reg h (paylen_at k) access (mr (w_heap w' h)), 0)
                 ∈ oplog (w_fabric w'))) ∧
         (∀ p, Some p ∉ m → w_heap w' p = w_heap w p) ∧
         (reregister gs = true →
            ks' = ks ∧ w_fabric w' = w_fabric w ∧ w_pool w' = w_pool w))
  | Exit =>
      bl_nfull bl < half ∧
      ∃ k : nat, Z.of_nat k < want ∧ (m !! k = None ∨ m !! k = Some None)
  | OutOfFuel => False
  end.
Proof.
  intros gs ks access bl m w.
  apply (worker_paybuflist_replenish_fills gs ks access bl m w).
  - vm_compute. split_and!; (reflexivity || discriminate).
  - unfold m, allocator_eight. compute_done.
Defined.

Example worker_paybuflist_replenish_example :
  (match worker_paybuflist_replenish gs0 keysource_init payload_access_tx paybufs_empty
           allocator_eight world_fresh with
   | Ret (ok, ks, bl, m, w) =>
       ok = true ∧ buflist_elems bl = [30; 31; 32; 33; 34; 35; 36; 37]%nat ∧ m = [] ∧
       (λ h, nallocated (w_heap w h)) <$> buflist_elems bl = [23; 29; 31; 37; 23; 29; 31; 37] ∧
       (λ h, mr (w_heap w h)) <$> buflist_elems bl = [512; 513; 514; 515; 516; 517; 518; 519]
   | _ => False
   end) ∧
  (match worker_paybuflist_replenish gs0 keysource_init payload_access_tx paybufs_three
           allocator_eight world_fresh with
   | Ret (ok, ks, bl, m, w) =>
       ok = true ∧ buflist_elems bl = [3; 4; 5; 30; 31]%nat ∧
       m = Some <$> [32; 33; 34; 35; 36; 37]%nat
   | _ => False
   end).
Proof. vm_compute. split_and!; reflexivity. Qed.


(** ** [worker_payload_txbuf_get] *)

Lemma payload_buf_get_loop_unfold fuel gs access ks bl m w :
  payload_buf_get_loop fuel gs access ks bl m w =
  match buflist_get bl with
  | (Some b, bl) => Ret (Some b, ks, bl, m, w)
  | (None, bl) =>
      match fuel with
      | O => OutOfFuel
      | S fuel' =>
          '(ok, ks, bl, m, w) ← worker_paybuflist_replenish gs ks access bl m w;
          if negb ok then Ret (None, ks, bl, m, w)
          else payload_buf_get_loop fuel' gs access ks bl m w
      end
  end.
Proof. destruct fuel; reflexivity. Qed.

(** An empty list of fewer than two slots is never replenished. *)
Lemma payload_buf_get_loop_stuck gs access ks bl m w :
  bl_nfull bl = 0 → bl_nallocated bl / 2 ≤ 0 →
  ∀ fuel, payload_buf_get_loop fuel gs access ks bl m w = OutOfFuel.
Proof.
  intros Hn Hh fuel. induction fuel as [|fuel IH];
    rewrite payload_buf_get_loop_unfold; unfold buflist_get; rewrite Hn; cbn [Z.eqb];
    [reflexivity|].
  unfold worker_paybuflist_replenish. rewrite Hn.
  destruct (Z.leb_spec (bl_nallocated bl / 2) 0) as [_|]; [|lia].
  cbv beta iota zeta delta [mbind outcome_bind negb]. exact IH.
Qed.

Lemma payload_buf_get_loop_spec fuel gs access ks bl (m : allocator) w :
  buflist_wf bl → NoDup (omap id m) → (2 ≤ fuel)%nat →
  let half := bl_nallocated bl / 2 in
  match payload_buf_get_loop fuel gs access ks bl m w with
  | Ret (ob, ks', bl', m', w') =>
      buflist_wf bl' ∧ bl_nallocated bl' = bl_nallocated bl ∧
      (0 < bl_nfull bl →
         ks' = ks ∧ m' = m ∧ w' = w ∧
         ∃ b, ob = Some b ∧ buflist_elems bl = buflist_elems bl' ++ [b]) ∧
      (bl_nfull bl = 0 →
         match ob with
         | Some b =>
             Z.of_nat (length (buflist_elems bl')) < half ∧
             (m = (Some <$> buflist_elems bl' ++ [b]) ++ m' ∧
              Z.of_nat (length (buflist_elems bl')) + 1 = half ∨
              reregister gs = false ∧
              ∃ f, m = (Some <$> buflist_elems bl' ++ [b]) ++ Some f :: m') ∧
             nallocated (w_heap w' b) = paylen_at (length (buflist_elems bl')) ∧
             nused (w_heap w' b) = 0 ∧
             xfc_type (xfc (w_heap w' b)) = xft_rdma_write ∧
             (reregister gs = false →
                desc (w_heap w' b) = fi_mr_desc (mr (w_heap w' b)) ∧
                (op_mr_reg b (paylen_at (length (buflist_elems bl'))) access
                           (mr (w_heap w' b)), 0) ∈ oplog (w_fabric w')) ∧
             (∀ p, Some p ∉ m → w_heap w' p = w_heap w p)
         | None =>
             reregister gs = false ∧ bl_nfull bl' = 0 ∧
             ∃ f key rc, m = Some f :: m' ∧ rc ≠ 0 ∧
               list.last (oplog (w_fabric w')) = Some (op_mr_reg f 23 access key, rc)
         end)
  | Exit =>
      bl_nfull bl = 0 ∧
      ∃ k : nat, Z.of_nat k < half ∧ (m !! k = None ∨ m !! k = Some None)
  | OutOfFuel => bl_nfull bl = 0 ∧ bl_nallocated bl < 2
  end.
Proof.
  intros Hwf Hnd Hfuel half. pose proof Hwf as (Hw1 & Hw2 & Hw3).
  assert (Hhalf : 0 ≤ half ≤ bl_nallocated bl).
  { unfold half. split; [apply Z.div_pos; lia|apply Z.div_le_upper_bound; lia]. }
  destruct (decide (bl_nfull bl = 0 ∧ half ≤ 0)) as [[Hn0 Hz]|Hok].
  { rewrite payload_buf_get_loop_stuck by (fold half; lia).
    split; [lia|]. unfold half in Hz.
    destruct (Z.lt_ge_cases (bl_nallocated bl) 2) as [|Hc]; [assumption|].
    pose proof (Z.div_le_mono 2 (bl_nallocated bl) 2 ltac:(lia) Hc) as Hd.
    change (2 / 2) with 1 in Hd. lia. }
  destruct fuel as [|[|fuel]]; try lia.
  rewrite payload_buf_get_loop_unfold.
  pose proof (buflist_get_ok bl Hwf) as Hg.
  pose proof (length_buflist_elems bl Hwf) as Hlen.
  destruct (buflist_get bl) as [[b|] bl1].
  - destruct Hg as (G1 & G2 & G3 & G4).
    rewrite G1, length_app in Hlen. simpl in Hlen.
    split_and!; auto; [|lia]. intros _. split_and!; eauto.
  - destruct Hg as [-> G1]. rewrite G1 in Hlen. simpl in Hlen.
    assert (Hpos : 0 < half) by lia.
    unfold worker_paybuflist_replenish. fold half.
    destruct (Z.leb_spec half (bl_nfull bl)) as [|_]; [lia|].
    rewrite <- Hlen. rewrite Z.sub_0_r. rewrite wrap64_small by lia.
    pose proof (replenish_loop_spec gs access half (Z.to_nat half) 0 0 ks bl m w
                  ltac:(lia) ltac:(lia) ltac:(lia) ltac:(lia) Hnd) as HL.
    change (Nat.iter 0 paylen_next 0) with 0 in HL. rewrite Z.sub_0_r in HL.
    replace (Z.max 0 half) with half in HL by lia.
    destruct (replenish_loop _ _ _ _ _ _ _ _ _ _) as [[[[[i' ks'] bl'] m'] w']| |];
      cbv beta iota zeta delta [mbind outcome_bind].
    + destruct HL as (hs & I1 & I2 & I3 & I4 & I5 & I6 & I7 & I8 & I9 & I10 & I11).
      rewrite Z.add_0_l in I1. change (Z.to_nat 0) with 0%nat in I6.
      rewrite take_0, app_nil_l in I6.
      set (bl2 := mk_buflist i' (bl_nallocated bl') (bl_buf bl')).
      assert (Hwf2 : buflist_wf bl2).
      { unfold buflist_wf, bl2. cbn [bl_nfull bl_nallocated bl_buf]. rewrite I4, I5. lia. }
      assert (He2 : buflist_elems bl2 = hs) by exact I6.
      destruct (Z.ltb_spec 0 i') as [Hi'|Hi']; cbn [negb].
      * rewrite payload_buf_get_loop_unfold.
        pose proof (buflist_get_ok bl2 Hwf2) as Hg2.
        destruct (buflist_get bl2) as [[b|] bl3].
        -- destruct Hg2 as (G2 & G3 & G4 & G5). rewrite He2 in G2.
           assert (Hl3 : length hs = S (length (buflist_elems bl3))).
           { rewrite G2, length_app. simpl. lia. }
           assert (Hb : hs !! length (buflist_elems bl3) = Some b).
           { rewrite G2. rewrite lookup_app_r by lia. rewrite Nat.sub_diag. reflexivity. }
           destruct (I9 _ _ Hb) as (B1 & B2 & B3 & B4 & B5).
           split_and!; auto; [rewrite G4; exact I4|lia|].
           intros _. split_and!; auto; [lia|].
           destruct I7 as [[I7 I7']|(Er & f & key & rc & I7 & _)].
           ++ left. rewrite <- G2. split; [exact I7|lia].
           ++ right. split; [exact Er|]. exists f. rewrite <- G2. exact I7.
        -- destruct Hg2 as [_ G2]. rewrite He2 in G2. rewrite G2 in I1. simpl in I1. lia.
      * assert (hs = []) as -> by (destruct hs; [reflexivity|simpl in I1; lia]).
        split_and!; auto; [lia|]. intros _.
        destruct I7 as [[_ I7]|(Er & f & key & rc & I7 & I7' & I7'')]; [simpl in I7; lia|].
        split_and!; auto. exists f, key, rc. split_and!; auto.
    + split; [lia|exact HL].
    + destruct HL.
Qed.



(** X21.  [worker_payload_txbuf_get] takes the newest buffer of the worker's
    transmit list when there is one, and touches nothing else.  When the
    list is empty it replenishes it and returns the last buffer allocated:
    a buffer the allocator just handed out, with no bytes used, of type
    [xft_rdma_write], registered for sending when buffers are registered
    once; the buffers allocated before it stay in the list, fewer than half
    its slots.  It returns NULL only when the list was empty and the very
    first registration was refused; the list is then still empty.  The
    process ends only if the allocator fails.  The receive list is never
    touched.  With an empty list of fewer than two slots the loop never
    ends, however many turns it is given. *)
Theorem worker_payload_txbuf_get_fresh fuel gs wk (m : allocator) w :
  buflist_wf (paybufs_tx wk) → NoDup (omap id m) → (2 ≤ fuel)%nat →
  let bl := paybufs_tx wk in
  let half := bl_nallocated bl / 2 in
  (bl_nfull bl = 0 → bl_nallocated bl < 2 →
   ∀ n, worker_payload_txbuf_get n gs wk m w = OutOfFuel) ∧
  match worker_payload_txbuf_get fuel gs wk m w with
  | Ret (ob, wk', m', w') =>
      let bl' := paybufs_tx wk' in
      paybufs_rx wk' = paybufs_rx wk ∧
      buflist_wf bl' ∧ bl_nallocated bl' = bl_nallocated bl ∧
      (0 < bl_nfull bl →
         wk_keys wk' = wk_keys wk ∧ m' = m ∧ w' = w ∧
         ∃ b, ob = Some b ∧ buflist_elems bl = buflist_elems bl' ++ [b]) ∧
      (bl_nfull bl = 0 →
         match ob with
         | Some b =>
             Z.of_nat (length (buflist_elems bl')) < half ∧
             (m = (Some <$> buflist_elems bl' ++ [b]) ++ m' ∧
              Z.of_nat (length (buflist_elems bl')) + 1 = half ∨
              reregister gs = false ∧
              ∃ f, m = (Some <$> buflist_elems bl' ++ [b]) ++ Some f :: m') ∧
             nallocated (w_heap w' b) = paylen_at (length (buflist_elems bl')) ∧
             nused (w_heap w' b) = 0 ∧
             xfc_type (xfc (w_heap w' b)) = xft_rdma_write ∧
             (reregister gs = false →
                desc (w_heap w' b) = fi_mr_desc (mr (w_heap w' b)) ∧
                (op_mr_reg b (paylen_at (length (buflist_elems bl'))) payload_access_tx
                           (mr (w_heap w' b)), 0) ∈ oplog (w_fabric w')) ∧
             (∀ p, Some p ∉ m → w_heap w' p = w_heap w p)
         | None =>
             reregister gs = false ∧ bl_nfull bl' = 0 ∧
             ∃ f key rc, m = Some f :: m' ∧ rc ≠ 0 ∧
               list.last (oplog (w_fabric w')) =
                 Some (op_mr_reg f 23 payload_access_tx key, rc)
         end)
  | Exit =>
      bl_nfull bl = 0 ∧
      ∃ k : nat, Z.of_nat k < half ∧ (m !! k = None ∨ m !! k = Some None)
  | OutOfFuel => bl_nfull bl = 0 ∧ bl_nallocated bl < 2
  end.
Proof.
  intros Hwf Hnd Hfuel bl half. split.
  - intros Hn Hc n. unfold worker_payload_txbuf_get.
    rewrite payload_buf_get_loop_stuck; [reflexivity|exact Hn|].
    destruct Hwf as (Hw1 & _). fold bl in Hw1 |- *.
    rewrite Z.div_small by lia. lia.
  - unfold worker_payload_txbuf_get.
    pose proof (payload_buf_get_loop_spec fuel gs payload_access_tx (wk_keys wk) bl m w
                  Hwf Hnd Hfuel) as HL.
    fold bl. fold half in HL.
    destruct (payload_buf_get_loop _ _ _ _ _ _ _) as [[[[[ob ks'] bl'] m'] w']| |];
      cbv beta iota zeta delta [mbind outcome_bind]; [|exact HL|exact HL].
    cbn [paybufs_tx paybufs_rx wk_keys].
    destruct HL as (L1 & L2 & L3 & L4). split_and!; auto.
Qed.

(** From an empty list of 16 slots: 8 buffers are allocated, the last is returned. *)
Lemma worker_payload_txbuf_get_fresh_witness :
  let fuel := 2%nat in
  let gs := gs0 in
  let wk := mk_worker paybufs_empty paybufs_empty keysource_init in
  let m := allocator_eight in
  let w := world_fresh in
  let bl := paybufs_tx wk in
  let half := bl_nallocated bl / 2 in
  (bl_nfull bl = 0 → bl_nallocated bl < 2 →
   ∀ n, worker_payload_txbuf_get n gs wk m w = OutOfFuel) ∧
  match worker_payload_txbuf_get fuel gs wk m w with
  | Ret (ob, wk', m', w') =>
      let bl' := paybufs_tx wk' in
      paybufs_rx wk' = paybufs_rx wk ∧
      buflist_wf bl' ∧ bl_nallocated bl' = bl_nallocated bl ∧
      (0 < bl_nfull bl →
         wk_keys wk' = wk_keys wk ∧ m' = m ∧ w' = w ∧
         ∃ b, ob = Some b ∧ buflist_elems bl = buflist_elems bl' ++ [b]) ∧
      (bl_nfull bl = 0 →
         match ob with
         | Some b =>
             Z.of_nat (length (buflist_elems bl')) < half ∧
             (m = (Some <$> buflist_elems bl' ++ [b]) ++ m' ∧
              Z.of_nat (length (buflist_elems bl')) + 1 = half ∨
              reregister gs = false ∧
              ∃ f, m = (Some <$> buflist_elems bl' ++ [b]) ++ Some f :: m') ∧
             nallocated (w_heap w' b) = paylen_at (length (buflist_elems bl')) ∧
             nused (w_heap w' b) = 0 ∧
             xfc_type (xfc (w_heap w' b)) = xft_rdma_write ∧
             (reregister gs = false →
                desc (w_heap w' b) = fi_mr_desc (mr (w_heap w' b)) ∧
                (op_mr_reg b (paylen_at (length (buflist_elems bl'))) payload_access_tx
                           (mr (w_heap w' b)), 0) ∈ oplog (w_fabric w')) ∧
             (∀ p, Some p ∉ m → w_heap w' p = w_heap w p)
         | None =>
             reregister gs = false ∧ bl_nfull bl' = 0 ∧
             ∃ f key rc, m = Some f :: m' ∧ rc ≠ 0 ∧
               list.last (oplog (w_fabric w')) =
                 Some (op_mr_reg f 23 payload_access_tx key, rc)
         end)
  | Exit =>
      bl_nfull bl = 0 ∧
      ∃ k : nat, Z.of_nat k < half ∧ (m !! k = None ∨ m !! k = Some None)
  | OutOfFuel => bl_nfull bl = 0 ∧ bl_nallocated bl < 2
  end.
Proof.
  intros fuel gs wk m w.
  apply (worker_payload_txbuf_get_fresh fuel gs wk m w).
  - vm_compute. split_and!; (reflexivity || discriminate).
  - unfold m, allocator_eight. compute_done.
  - lia.
Defined.

Example worker_payload_txbuf_get_example :
  match worker_payload_txbuf_get 2 gs0 (mk_worker paybufs_empty paybufs_empty keysource_init)
          allocator_eight world_fresh with
  | Ret (ob, wk, m, w) =>
      ob = Some 37%nat ∧ buflist_elems (paybufs_tx wk) = [30; 31; 32; 33; 34; 35; 36]%nat ∧
      nallocated (w_heap w 37%nat) = 37 ∧ mr (w_heap w 37%nat) = 519 ∧
      next_key (wk_keys wk) = 520 ∧ w_pool w = 768 ∧ m = []
  | _ => False
  end.
Proof. vm_compute. split_and!; reflexivity. Qed.


(** ** [rcvr_loop] *)

Lemma txctl_complete_spec tc cmpl hp :
  fifo_wf (tx_posted tc) → buflist_wf (tx_pool tc) →
  match txctl_complete tc cmpl hp with
  | Ret (rc, tc') =>
      tx_ready tc' = tx_ready tc ∧ fifo_wf (tx_posted tc') ∧ buflist_wf (tx_pool tc') ∧
      insertions (tx_posted tc') = insertions (tx_posted tc) ∧
      index_mask (tx_posted tc') = index_mask (tx_posted tc) ∧
      fifo_elems (tx_posted tc') = tail (fifo_elems (tx_posted tc)) ∧
      match head (fifo_elems (tx_posted tc)) with
      | None => rc = -1 ∧ tx_pool tc' = tx_pool tc
      | Some h => rc = 1 ∧ h = cmpl_xfc cmpl ∧
                  buflist_elems (tx_pool tc') = buflist_elems (tx_pool tc) ++ [h]
      end
  | Exit =>
      (Z.land (cmpl_flags cmpl) desired_tx_flags ≠ desired_tx_flags ∧
       xfc_cancelled (xfc (hp (cmpl_xfc cmpl))) = false) ∨
      (∃ h, head (fifo_elems (tx_posted tc)) = Some h ∧
            (h ≠ cmpl_xfc cmpl ∨ bl_nfull (tx_pool tc) = bl_nallocated (tx_pool tc)))
  | OutOfFuel => False
  end.
Proof.
  intros Hwf Hpool. unfold txctl_complete.
  destruct (fifo_get_wf _ Hwf) as (f' & E & El & Hwf' & Hm & Hi).
  assert (Hrest :
    match
      '(oh, posted) ← fifo_get (tx_posted tc);
      match oh with
      | None => Ret (-1, mk_txctl (tx_ready tc) posted (tx_pool tc))
      | Some h =>
          if negb (Nat.eqb (cmpl_xfc cmpl) h) then Exit
          else
            let '(ok, pool) := buflist_put (tx_pool tc) h in
            if negb ok then Exit
            else Ret (1, mk_txctl (tx_ready tc) posted pool)
      end
    with
    | Ret (rc, tc') =>
        tx_ready tc' = tx_ready tc ∧ fifo_wf (tx_posted tc') ∧ buflist_wf (tx_pool tc') ∧
        insertions (tx_posted tc') = insertions (tx_posted tc) ∧
        index_mask (tx_posted tc') = index_mask (tx_posted tc) ∧
        fifo_elems (tx_posted tc') = tail (fifo_elems (tx_posted tc)) ∧
        match head (fifo_elems (tx_posted tc)) with
        | None => rc = -1 ∧ tx_pool tc' = tx_pool tc
        | Some h => rc = 1 ∧ h = cmpl_xfc cmpl ∧
                    buflist_elems (tx_pool tc') = buflist_elems (tx_pool tc) ++ [h]
        end
    | Exit =>
        ∃ h, head (fifo_elems (tx_posted tc)) = Some h ∧
             (h ≠ cmpl_xfc cmpl ∨ bl_nfull (tx_pool tc) = bl_nallocated (tx_pool tc))
    | OutOfFuel => False
    end).
  { rewrite E. cbv beta iota zeta delta [mbind outcome_bind].
    destruct (head (fifo_elems (tx_posted tc))) as [h|] eqn:Eh.
    - destruct (Nat.eqb_spec (cmpl_xfc cmpl) h) as [Ec|Ec]; cbn [negb].
      + pose proof (buflist_put_ok (tx_pool tc) h Hpool) as Hput.
        destruct (buflist_put (tx_pool tc) h) as [[|] pool]; cbn [negb].
        * destruct Hput as (P1 & P2 & P3 & P4).
          cbn [tx_ready tx_posted tx_pool]. split_and!; auto.
        * destruct Hput as [_ P2]. exists h. auto.
      + exists h. split; [reflexivity|]. left. congruence.
    - cbn [tx_ready tx_posted tx_pool]. split_and!; auto. }
  destruct (negb _ && negb _) eqn:Ef.
  - left. apply andb_true_iff in Ef as [Ef1 Ef2].
    apply negb_true_iff in Ef1, Ef2. split; [|exact Ef2].
    apply Z.eqb_neq. exact Ef1.
  - destruct (fifo_get (tx_posted tc) ≫= _) as [[rc tc']| |];
      [exact Hrest|right; exact Hrest|exact Hrest].
Qed.


Lemma rxctl_complete_returns rc cmpl hp :
  fifo_wf (rx_posted rc) → rxctl_complete rc cmpl hp ≠ OutOfFuel.
Proof.
  intros Hwf. unfold rxctl_complete. destruct (_ && _); [discriminate|].
  destruct (fifo_get_wf _ Hwf) as (f' & E & _). rewrite E.
  cbv beta iota zeta delta [mbind outcome_bind].
  destruct (head _); [|discriminate]. destruct (negb _); discriminate.
Qed.

Lemma rcvr_drained_refl r w : rcvr_drained r w r w.
Proof.
  unfold rcvr_drained. split_and!; auto. exists 0%nat, 0%nat.
  rewrite !drop_0, take_0, app_nil_r. split_and!; auto.
Qed.

(** The dispatch of [rcvr_cq_process] on a receiver that has cancelled. *)
Lemma rcvr_dispatch_drain r cmpl w :
  rcvr_cancelled_inv r w →
  match (match xfc_type (xfc (w_heap w (cmpl_xfc cmpl))) with
         | xft_progress => rcvr_progress_rx_process r cmpl w
         | xft_vector =>
             '(rc, vec) ← txctl_complete (r_vec r) cmpl (w_heap w);
             Ret (rc, set_r_vec vec r, w)
         | _ => Ret (-1, r, w)
         end) with
  | Ret (rc, r1, w1) =>
      w_fabric w1 = w_fabric w ∧ rcvr_drained r w r1 w1 ∧ rcvr_cancelled_inv r1 w1
  | Exit =>
      match xfc_type (xfc (w_heap w (cmpl_xfc cmpl))) with
      | xft_progress =>
          head (fifo_elems (rx_posted (r_progress r))) ≠ Some (cmpl_xfc cmpl)
      | xft_vector =>
          head (fifo_elems (tx_posted (r_vec r))) ≠ Some (cmpl_xfc cmpl) ∨
          bl_nfull (tx_pool (r_vec r)) = bl_nallocated (tx_pool (r_vec r))
      | _ => False
      end
  | OutOfFuel => False
  end.
Proof.
  intros (Hc & Hwp & Hwv & Hpool & Hflag).
  assert (Hsame : w_fabric w = w_fabric w ∧ rcvr_drained r w r w ∧ rcvr_cancelled_inv r w).
  { split_and!; [reflexivity|apply rcvr_drained_refl|]. unfold rcvr_cancelled_inv. auto. }
  destruct (xfc_type (xfc (w_heap w (cmpl_xfc cmpl)))); try exact Hsame.
  - (* a progress buffer *)
    unfold rcvr_progress_rx_process.
    pose proof (rxctl_complete_head (r_progress r) cmpl (w_heap w)) as Hhead.
    pose proof (rxctl_complete_exit (r_progress r) cmpl (w_heap w) Hwp) as Hexit.
    pose proof (rxctl_complete_returns (r_progress r) cmpl (w_heap w) Hwp) as Hret.
    destruct (rxctl_complete (r_progress r) cmpl (w_heap w)) as [[[opb prog] hp]| |];
      cbv beta iota zeta delta [mbind outcome_bind].
    + destruct (Hhead _ _ _ Hwp eq_refl) as (E1 & E2 & E3 & E4 & E5 & E6 & E7 & E8).
      clear Hhead Hexit. destruct opb as [pb|].
      * assert (Hin : pb ∈ fifo_elems (rx_posted (r_progress r))).
        { destruct (fifo_elems (rx_posted (r_progress r))) as [|a l]; [discriminate|].
          injection E1 as ->. left. }
        assert (Hx : ∀ h, xfc (hp h) = xfc (w_heap w h)).
        { intros h. subst hp. destruct (decide (h = pb)) as [->|Hne].
          - rewrite upd_same. reflexivity.
          - rewrite upd_other by congruence. reflexivity. }
        cbn [w_heap with_heap]. rewrite Hx.
        rewrite (Hflag pb) by (apply elem_of_app; left; exact Hin).
        split_and!.
        -- reflexivity.
        -- unfold rcvr_drained. cbn. split_and!; auto.
           exists 1%nat, 0%nat. rewrite E2, drop_0, take_0, app_nil_r.
           split_and!; auto.
        -- unfold rcvr_cancelled_inv. cbn. split_and!; auto.
           intros h Hh. rewrite Hx. apply Hflag. rewrite E2 in Hh.
           apply elem_of_app in Hh as [Hh|Hh]; apply elem_of_app; [left|right; exact Hh].
           destruct (fifo_elems (rx_posted (r_progress r))); [exact Hh|right; exact Hh].
      * subst hp. split_and!.
        -- reflexivity.
        -- unfold rcvr_drained. cbn. split_and!; auto.
           exists 0%nat, 0%nat. rewrite E2, !drop_0, take_0, app_nil_r.
           split_and!; auto. destruct (fifo_elems (rx_posted (r_progress r))); [reflexivity|discriminate].
        -- unfold rcvr_cancelled_inv. cbn. split_and!; auto.
           intros h Hh. apply Hflag. rewrite E2 in Hh.
           apply elem_of_app in Hh as [Hh|Hh]; apply elem_of_app; [left|right; exact Hh].
           destruct (fifo_elems (rx_posted (r_progress r))); [exact Hh|right; exact Hh].
    + destruct (Hexit eq_refl) as [[_ Hnc]|(h & Hh & Hne)].
      * intros Hhd. rewrite (Hflag (cmpl_xfc cmpl)) in Hnc; [discriminate|].
        apply elem_of_app. left.
        destruct (fifo_elems (rx_posted (r_progress r))); [discriminate|].
        injection Hhd as ->. left.
      * rewrite Hh. congruence.
    + exact (Hret eq_refl).
  - (* a vector buffer *)
    pose proof (txctl_complete_spec (r_vec r) cmpl (w_heap w) Hwv Hpool) as Ht.
    destruct (txctl_complete (r_vec r) cmpl (w_heap w)) as [[rc vec]| |];
      cbv beta iota zeta delta [mbind outcome_bind].
    + destruct Ht as (T1 & T2 & T3 & T4 & T5 & T6 & T7).
      split_and!.
      * reflexivity.
      * unfold rcvr_drained. cbn. split_and!; auto.
        destruct (head (fifo_elems (tx_posted (r_vec r)))) as [h|] eqn:Eh.
        -- destruct T7 as (_ & _ & T7). exists 0%nat, 1%nat. rewrite T6, T7, drop_0.
           split_and!; auto.
           destruct (fifo_elems (tx_posted (r_vec r))); [discriminate|].
           injection Eh as ->. reflexivity.
        -- destruct T7 as (_ & T7). exists 0%nat, 0%nat. rewrite T6, T7, !drop_0, take_0, app_nil_r.
           split_and!; auto.
           destruct (fifo_elems (tx_posted (r_vec r))); [reflexivity|discriminate].
      * unfold rcvr_cancelled_inv. cbn. split_and!; auto.
        intros h Hh. apply Hflag. rewrite T6 in Hh.
        apply elem_of_app in Hh as [Hh|Hh]; apply elem_of_app; [left; exact Hh|right].
        destruct (fifo_elems (tx_posted (r_vec r))); [exact Hh|right; exact Hh].
    + destruct Ht as [[_ Hnc]|(h & Hh & [Hne|Hfull])].
      * left. intros Hhd. rewrite (Hflag (cmpl_xfc cmpl)) in Hnc; [discriminate|].
        apply elem_of_app. right.
        destruct (fifo_elems (tx_posted (r_vec r))); [discriminate|].
        injection Hhd as ->. left.
      * left. rewrite Hh. congruence.
      * right. exact Hfull.
    + exact Ht.
Qed.


Lemma rcvr_cq_process_drain r ev w :
  rcvr_cancelled_inv r w →
  match rcvr_cq_process r ev w with
  | Ret (rc, r1, w1) =>
      w_fabric w1 = w_fabric w ∧ rcvr_drained r w r1 w1 ∧ rcvr_cancelled_inv r1 w1
  | Exit =>
      cq_ncompleted ev ≠ - FI_EAGAIN ∧
      ((cq_ncompleted ev ≠ - FI_EAVAIL ∧ cq_ncompleted ev ≠ 1) ∨
       match xfc_type (xfc (w_heap w (cq_context ev))) with
       | xft_progress =>
           head (fifo_elems (rx_posted (r_progress r))) ≠ Some (cq_context ev)
       | xft_vector =>
           head (fifo_elems (tx_posted (r_vec r))) ≠ Some (cq_context ev) ∨
           bl_nfull (tx_pool (r_vec r)) = bl_nallocated (tx_pool (r_vec r))
       | _ => False
       end)
  | OutOfFuel => False
  end.
Proof.
  intros Hinv.
  assert (Hsame : w_fabric w = w_fabric w ∧ rcvr_drained r w r w ∧ rcvr_cancelled_inv r w).
  { split_and!; [reflexivity|apply rcvr_drained_refl|exact Hinv]. }
  unfold rcvr_cq_process, cq_completion, cq_context.
  destruct (Z.eqb_spec (cq_ncompleted ev) (- FI_EAGAIN)) as [Ea|Ea]; [exact Hsame|].
  destruct (Z.eqb_spec (cq_ncompleted ev) (- FI_EAVAIL)) as [Ev|Ev].
  - cbv zeta. cbn [cmpl_xfc].
    destruct (negb (cq_err ev =? FI_ECANCELED) ||
              negb (xfc_cancelled (xfc (w_heap w (cq_err_context ev)))));
      cbv beta iota zeta delta [mbind outcome_bind]; [exact Hsame|].
    pose proof (rcvr_dispatch_drain r (mk_completion 0 0 (cq_err_context ev)) w Hinv) as Hd.
    cbn [cmpl_xfc] in Hd.
    destruct (match xfc_type (xfc (w_heap w (cq_err_context ev))) with
              | xft_progress => _ | xft_vector => _ | _ => _ end) as [[[rc r1] w1]| |];
      [exact Hd|split; [exact Ea|right; exact Hd]|exact Hd].
  - destruct (Z.ltb_spec (cq_ncompleted ev) 0) as [Hneg|Hpos];
      cbv beta iota zeta delta [mbind outcome_bind].
    { split; [exact Ea|]. left. split; [exact Ev|lia]. }
    destruct (Z.eqb_spec (cq_ncompleted ev) 1) as [E1|E1]; cbn [negb];
      cbv beta iota zeta delta [mbind outcome_bind].
    2:{ split; [exact Ea|]. left. split; [exact Ev|exact E1]. }
    pose proof (rcvr_dispatch_drain r (cq_fcmpl ev) w Hinv) as Hd.
    destruct (match xfc_type (xfc (w_heap w (cmpl_xfc (cq_fcmpl ev)))) with
              | xft_progress => _ | xft_vector => _ | _ => _ end) as [[[rc r1] w1]| |];
      [exact Hd|split; [exact Ea|right; exact Hd]|exact Hd].
Qed.


(** X23.  A receiver that has cancelled its operations only drains: a turn
    of [rcvr_loop] takes at most one posted buffer out of its queue, a vector
    buffer going back to the pool, and posts nothing; the worker, the sink,
    the session and every transfer context stay as they are, and the posted
    buffers that remain are still marked cancelled.  The turn answers
    [loop_continue] only while a posted buffer remains and the fabric has
    been left alone; otherwise it closes the endpoint, which is then its only
    fabric operation, and answers [loop_error].  It never answers [loop_end].
    The process ends only if the close is refused, the completion queue
    fails, or a completion is not for the oldest posted buffer of its kind
    (or the vector pool is full). *)
Theorem rcvr_loop_drains fuel gs cancelled ev wk m t s r w :
  started (r_cxn r) = true → rcvr_cancelled_inv r w →
  match rcvr_loop fuel gs cancelled ev wk m t s r w with
  | Ret (ctl, wk', m', t', s', r', w') =>
      wk' = wk ∧ m' = m ∧ t' = t ∧ s' = s ∧
      rcvr_drained r w r' w' ∧ rcvr_cancelled_inv r' w' ∧
      match ctl with
      | loop_continue =>
          w_fabric w' = w_fabric w ∧
          fifo_elems (rx_posted (r_progress r')) ++ fifo_elems (tx_posted (r_vec r')) ≠ []
      | loop_error =>
          ∃ rc, 0 ≤ rc ∧
            oplog (w_fabric w') = oplog (w_fabric w) ++ [(op_close (ep (r_cxn r)), rc)]
      | loop_end => False
      end
  | Exit =>
      nth 0 (script (w_fabric w)) (- FI_EAGAIN) < 0 ∨
      cq_ncompleted ev ≠ - FI_EAGAIN ∧
      ((cq_ncompleted ev ≠ - FI_EAVAIL ∧ cq_ncompleted ev ≠ 1) ∨
       match xfc_type (xfc (w_heap w (cq_context ev))) with
       | xft_progress =>
           head (fifo_elems (rx_posted (r_progress r))) ≠ Some (cq_context ev)
       | xft_vector =>
           head (fifo_elems (tx_posted (r_vec r))) ≠ Some (cq_context ev) ∨
           bl_nfull (tx_pool (r_vec r)) = bl_nallocated (tx_pool (r_vec r))
       | _ => False
       end)
  | OutOfFuel => False
  end.
Proof.
  intros Hst Hinv. unfold rcvr_loop. rewrite Hst. cbn [negb].
  pose proof (rcvr_cq_process_drain r ev w Hinv) as Hcq.
  destruct (rcvr_cq_process r ev w) as [[[rc r1] w1]| |];
    cbv beta iota zeta delta [mbind outcome_bind]; [|right; exact Hcq|exact Hcq].
  destruct Hcq as (Hfab & Hdr & Hinv1).
  assert (Hclose :
    match (let '(rc0, fab) := fabric_do (op_close (ep (r_cxn r1))) (w_fabric w1) in
           if rc0 <? 0 then Exit
           else Ret (loop_error, wk, m, t, s, r1, with_fabric fab w1)) with
    | Ret (ctl, wk', m', t', s', r', w') =>
        wk' = wk ∧ m' = m ∧ t' = t ∧ s' = s ∧
        rcvr_drained r w r' w' ∧ rcvr_cancelled_inv r' w' ∧
        match ctl with
        | loop_continue =>
            w_fabric w' = w_fabric w ∧
            fifo_elems (rx_posted (r_progress r')) ++ fifo_elems (tx_posted (r_vec r')) ≠ []
        | loop_error =>
            ∃ rc, 0 ≤ rc ∧
              oplog (w_fabric w') = oplog (w_fabric w) ++ [(op_close (ep (r_cxn r)), rc)]
        | loop_end => False
        end
    | Exit => nth 0 (script (w_fabric w)) (- FI_EAGAIN) < 0
    | OutOfFuel => False
    end).
  { pose proof (fabric_do_answer (op_close (ep (r_cxn r1))) (w_fabric w1)) as [Hans _].
    pose proof (fabric_do_oplog (op_close (ep (r_cxn r1))) (w_fabric w1)) as Hlog.
    destruct (fabric_do _ _) as [rc0 fab]. cbn [fst snd] in Hans, Hlog.
    rewrite Hfab in Hans, Hlog.
    destruct (Z.ltb_spec rc0 0) as [Hneg|Hpos]; [rewrite <- Hans; exact Hneg|].
    refine (conj eq_refl (conj eq_refl (conj eq_refl (conj eq_refl
              (conj Hdr (conj Hinv1 _)))))).
    exists rc0. split; [exact Hpos|]. cbn [w_fabric with_fabric]. rewrite Hlog, <- Hans.
    destruct Hdr as (-> & _). reflexivity. }
  assert (Hexit :
    ∀ o : outcome (loop_control_t * worker_t * allocator * sink_t * session_t * rcvr_t * world),
      match o with
      | Ret (ctl, wk', m', t', s', r', w') =>
          wk' = wk ∧ m' = m ∧ t' = t ∧ s' = s ∧
          rcvr_drained r w r' w' ∧ rcvr_cancelled_inv r' w' ∧
          match ctl with
          | loop_continue =>
              w_fabric w' = w_fabric w ∧
              fifo_elems (rx_posted (r_progress r')) ++ fifo_elems (tx_posted (r_vec r')) ≠ []
          | loop_error =>
              ∃ rc, 0 ≤ rc ∧
                oplog (w_fabric w') = oplog (w_fabric w) ++ [(op_close (ep (r_cxn r)), rc)]
          | loop_end => False
          end
      | Exit => nth 0 (script (w_fabric w)) (- FI_EAGAIN) < 0
      | OutOfFuel => False
      end →
      match o with
      | Ret (ctl, wk', m', t', s', r', w') =>
          wk' = wk ∧ m' = m ∧ t' = t ∧ s' = s ∧
          rcvr_drained r w r' w' ∧ rcvr_cancelled_inv r' w' ∧
          match ctl with
          | loop_continue =>
              w_fabric w' = w_fabric w ∧
              fifo_elems (rx_posted (r_progress r')) ++ fifo_elems (tx_posted (r_vec r')) ≠ []
          | loop_error =>
              ∃ rc, 0 ≤ rc ∧
                oplog (w_fabric w') = oplog (w_fabric w) ++ [(op_close (ep (r_cxn r)), rc)]
          | loop_end => False
          end
      | Exit =>
          nth 0 (script (w_fabric w)) (- FI_EAGAIN) < 0 ∨
          cq_ncompleted ev ≠ - FI_EAGAIN ∧
          ((cq_ncompleted ev ≠ - FI_EAVAIL ∧ cq_ncompleted ev ≠ 1) ∨
           match xfc_type (xfc (w_heap w (cq_context ev))) with
           | xft_progress =>
               head (fifo_elems (rx_posted (r_progress r))) ≠ Some (cq_context ev)
           | xft_vector =>
               head (fifo_elems (tx_posted (r_vec r))) ≠ Some (cq_context ev) ∨
               bl_nfull (tx_pool (r_vec r)) = bl_nallocated (tx_pool (r_vec r))
           | _ => False
           end)
      | OutOfFuel => False
      end).
  { intros [[[[[[[ctl wk'] m'] t'] s'] r'] w']| |] Ho; [exact Ho|left; exact Ho|exact Ho]. }
  destruct (Z.eqb_spec rc (-1)) as [_|_]; [apply Hexit; exact Hclose|].
  pose proof Hinv1 as (Hc1 & Hwp1 & Hwv1 & _). rewrite Hc1.
  rewrite (fifo_empty_wf _ Hwp1), (fifo_empty_wf _ Hwv1).
  destruct (decide (fifo_elems (rx_posted (r_progress r1)) = [])) as [Ep|Ep];
    [rewrite (bool_decide_eq_true_2 _ Ep)|rewrite (bool_decide_eq_false_2 _ Ep)];
    cbn [andb].
  - destruct (decide (fifo_elems (tx_posted (r_vec r1)) = [])) as [Et|Et];
      [rewrite (bool_decide_eq_true_2 _ Et)|rewrite (bool_decide_eq_false_2 _ Et)].
    + apply Hexit. exact Hclose.
    + refine (conj eq_refl (conj eq_refl (conj eq_refl (conj eq_refl
                (conj Hdr (conj Hinv1 (conj Hfab _))))))).
      rewrite Ep. exact Et.
  - refine (conj eq_refl (conj eq_refl (conj eq_refl (conj eq_refl
              (conj Hdr (conj Hinv1 (conj Hfab _))))))).
    intros Hnil. apply app_eq_nil in Hnil as [Hnil _]. contradiction.
Qed.

(** The cancellation of the posted progress buffer arrives: the buffer leaves its queue. *)
Lemma rcvr_loop_drains_witness :
  let fuel := 0%nat in
  let gs := gs0 in
  let cancelled := true in
  let ev := cancellation_of 3 in
  let wk := worker0 in
  let m := [] : allocator in
  let t := sink_fresh in
  let s := session0 in
  let r := rcvr_cancelled in
  let w := mk_world heap_cancelled (fabric0 [0]) next_key_pool_init in
  match rcvr_loop fuel gs cancelled ev wk m t s r w with
  | Ret (ctl, wk', m', t', s', r', w') =>
      wk' = wk ∧ m' = m ∧ t' = t ∧ s' = s ∧
      rcvr_drained r w r' w' ∧ rcvr_cancelled_inv r' w' ∧
      match ctl with
      | loop_continue =>
          w_fabric w' = w_fabric w ∧
          fifo_elems (rx_posted (r_progress r')) ++ fifo_elems (tx_posted (r_vec r')) ≠ []
      | loop_error =>
          ∃ rc, 0 ≤ rc ∧
            oplog (w_fabric w') = oplog (w_fabric w) ++ [(op_close (ep (r_cxn r)), rc)]
      | loop_end => False
      end
  | Exit =>
      nth 0 (script (w_fabric w)) (- FI_EAGAIN) < 0 ∨
      cq_ncompleted ev ≠ - FI_EAGAIN ∧
      ((cq_ncompleted ev ≠ - FI_EAVAIL ∧ cq_ncompleted ev ≠ 1) ∨
       match xfc_type (xfc (w_heap w (cq_context ev))) with
       | xft_progress =>
           head (fifo_elems (rx_posted (r_progress r))) ≠ Some (cq_context ev)
       | xft_vector =>
           head (fifo_elems (tx_posted (r_vec r))) ≠ Some (cq_context ev) ∨
           bl_nfull (tx_pool (r_vec r)) = bl_nallocated (tx_pool (r_vec r))
       | _ => False
       end)
  | OutOfFuel => False
  end.
Proof.
  intros fuel gs cancelled ev wk m t s r w.
  apply (rcvr_loop_drains fuel gs cancelled ev wk m t s r w).
  - reflexivity.
  - unfold rcvr_cancelled_inv. split_and!.
    + reflexivity.
    + apply fifo_of_list_wf; simpl; lia.
    + apply fifo_of_list_wf; simpl; lia.
    + vm_compute. split_and!; (reflexivity || discriminate).
    + intros h Hh. vm_compute in Hh.
      apply elem_of_cons in Hh as [->|Hh]; [reflexivity|].
      apply list_elem_of_singleton in Hh as ->. reflexivity.
Defined.

Example rcvr_loop_drains_example :
  let w := mk_world heap_cancelled (fabric0 [0]) next_key_pool_init in
  match rcvr_loop 0 gs0 true (cancellation_of 3) worker0 [] sink_fresh session0
          rcvr_cancelled w with
  | Ret (ctl, _, _, _, _, r1, w1) =>
      ctl = loop_continue ∧ fifo_elems (rx_posted (r_progress r1)) = [] ∧
      fifo_elems (tx_posted (r_vec r1)) = [5%nat] ∧ oplog (w_fabric w1) = [] ∧
      match rcvr_loop 0 gs0 true (cancellation_of 5) worker0 [] sink_fresh session0 r1 w1 with
      | Ret (ctl, _, _, _, _, r2, w2) =>
          ctl = loop_error ∧ fifo_elems (tx_posted (r_vec r2)) = [] ∧
          buflist_elems (tx_pool (r_vec r2)) = [5%nat] ∧
          oplog (w_fabric w2) = [(op_close 1, 0)]
      | _ => False
      end
  | _ => False
  end.
Proof. vm_compute. split_and!; reflexivity. Qed.


(** What [fifo_cancel] asks of the fabric: one cancellation for every
    buffer of the queue, oldest first. *)
Lemma fifo_cancel_loop_fabric ep (l : list nat) :
  NoDup l →
  ∀ (fuel i : nat) posted w,
    (i + fuel = length l)%nat →
    fifo_wf posted → insertions posted + Z.of_nat fuel < 2 ^ 63 →
    fifo_elems posted = drop i l ++ take i l →
    match fifo_cancel_loop fuel ep (if i is O then None else head l) posted w with
    | Ret (posted', w') =>
        oplog (w_fabric w') =
          oplog (w_fabric w) ++ ((λ h, (op_cancel ep h, 0)) <$> drop i l) ∧
        script (w_fabric w') = drop fuel (script (w_fabric w)) ∧
        w_pool w' = w_pool w ∧
        insertions posted' = insertions posted + Z.of_nat fuel ∧
        index_mask posted' = index_mask posted
    | _ => True
    end.
Proof.
  intros Hnd fuel. induction fuel as [|fuel IH]; intros i posted w Hlen Hwf Hroom Hel;
    rewrite fifo_cancel_loop_unfold, (fifo_peek_wf _ Hwf), Hel; simpl.
  - assert (i = length l) as -> by lia.
    rewrite drop_all, take_ge by lia. simpl.
    destruct l as [|l0 t]; simpl.
    + rewrite app_nil_r, Z.add_0_r. auto.
    + rewrite decide_True by reflexivity.
      simpl. rewrite app_nil_r, Z.add_0_r. auto.
  - destruct (lookup_lt_is_Some_2 l i ltac:(lia)) as [h Hh].
    rewrite (drop_S _ _ _ Hh). simpl.
    assert (Some h ≠ (if i is O then None else head l)) as Hne.
    { destruct i as [|i']; [discriminate|]. intros E.
      assert (l !! 0%nat = Some h) as H0.
      { destruct l; simpl in *; [discriminate|]. congruence. }
      pose proof (NoDup_lookup _ _ _ _ Hnd Hh H0). lia. }
    rewrite decide_False by exact Hne.
    destruct (fifo_get_wf _ Hwf) as (p1 & Hget & Eget & Hwf1 & Hm1 & Hi1).
    rewrite Hget. simpl.
    pose proof (fabric_do_answer (op_cancel ep h) (w_fabric w)) as [Hans Hscr].
    pose proof (fabric_do_oplog (op_cancel ep h) (w_fabric w)) as Hlog.
    destruct (fabric_do (op_cancel ep h) (w_fabric w)) as [rc fab].
    simpl in Hans, Hscr, Hlog.
    destruct (Z.eqb_spec rc 0) as [->|Hrc]; simpl; [|exact I].
    rewrite Hel, (drop_S _ _ _ Hh) in Eget. simpl in Eget.
    assert (Z.of_nat (length (fifo_elems p1)) < fifo_capacity p1) as Hfree.
    { pose proof (fifo_elems_bound _ Hwf) as Hb. rewrite Hel, (drop_S _ _ _ Hh) in Hb.
      rewrite Eget. simpl in Hb. unfold fifo_capacity in *. rewrite Hm1. lia. }
    destruct (fifo_put_wf p1 h Hwf1 ltac:(lia) Hfree) as (p2 & Hput & Eput & Hwf2 & Hm2 & Hi2).
    rewrite Hput. simpl.
    assert ((match (if i is O then None else head l) with
             | Some _ => if i is O then None else head l
             | None => Some h
             end) = head l) as Hfirst.
    { destruct i as [|i'].
      - destruct l; simpl in *; [discriminate|]. congruence.
      - destruct l; simpl in *; [discriminate|]. reflexivity. }
    rewrite Hfirst.
    specialize (IH (S i) p2 (mk_world (upd h (fun b => set_xfc (set_cancelled true (xfc b)) b)
                                        (w_heap w)) fab (w_pool w))
                   ltac:(lia) Hwf2 ltac:(lia)).
    simpl in IH. rewrite Eput, Eget, <- app_assoc, <- (take_S_r _ _ _ Hh) in IH.
    specialize (IH eq_refl).
    destruct (fifo_cancel_loop fuel ep (head l) p2 _) as [[posted' w']| |]; [|exact I|exact I].
    destruct IH as (L1 & L2 & L3 & L4 & L5).
    split_and!.
    + rewrite L1, Hlog, <- Hans, <- app_assoc. reflexivity.
    + rewrite L2, Hscr. rewrite drop_drop. reflexivity.
    + exact L3.
    + rewrite L4, Hi2, Hi1. lia.
    + rewrite L5, Hm2, Hm1. reflexivity.
Qed.


(** Completion processing keeps the queues of posted operations in order. *)
Lemma rcvr_dispatch_queues r cmpl w rc r1 w1 :
  (match xfc_type (xfc (w_heap w (cmpl_xfc cmpl))) with
   | xft_progress => rcvr_progress_rx_process r cmpl w
   | xft_vector =>
       '(rc, vec) ← txctl_complete (r_vec r) cmpl (w_heap w);
       Ret (rc, set_r_vec vec r, w)
   | _ => Ret (-1, r, w)
   end) = Ret (rc, r1, w1) →
  fifo_wf (rx_posted (r_progress r)) → NoDup (fifo_elems (rx_posted (r_progress r))) →
  insertions (rx_posted (r_progress r)) + 1 < 2 ^ 63 →
  fifo_wf (tx_posted (r_vec r)) → NoDup (fifo_elems (tx_posted (r_vec r))) →
  buflist_wf (tx_pool (r_vec r)) →
  cxn_cancelled (r_cxn r1) = cxn_cancelled (r_cxn r) ∧ ep (r_cxn r1) = ep (r_cxn r) ∧
  fifo_wf (rx_posted (r_progress r1)) ∧ NoDup (fifo_elems (rx_posted (r_progress r1))) ∧
  insertions (rx_posted (r_progress r1)) ≤ insertions (rx_posted (r_progress r)) + 1 ∧
  index_mask (rx_posted (r_progress r1)) = index_mask (rx_posted (r_progress r)) ∧
  fifo_wf (tx_posted (r_vec r1)) ∧ NoDup (fifo_elems (tx_posted (r_vec r1))) ∧
  insertions (tx_posted (r_vec r1)) = insertions (tx_posted (r_vec r)) ∧
  index_mask (tx_posted (r_vec r1)) = index_mask (tx_posted (r_vec r)) ∧
  buflist_wf (tx_pool (r_vec r1)).
Proof.
  intros Hrun Hwp Hndp Hroom Hwv Hndv Hpool.
  assert (Hsame : ∀ rc' w', Ret (rc', r, w') = Ret (rc, r1, w1) →
    cxn_cancelled (r_cxn r1) = cxn_cancelled (r_cxn r) ∧ ep (r_cxn r1) = ep (r_cxn r) ∧
    fifo_wf (rx_posted (r_progress r1)) ∧ NoDup (fifo_elems (rx_posted (r_progress r1))) ∧
    insertions (rx_posted (r_progress r1)) ≤ insertions (rx_posted (r_progress r)) + 1 ∧
    index_mask (rx_posted (r_progress r1)) = index_mask (rx_posted (r_progress r)) ∧
    fifo_wf (tx_posted (r_vec r1)) ∧ NoDup (fifo_elems (tx_posted (r_vec r1))) ∧
    insertions (tx_posted (r_vec r1)) = insertions (tx_posted (r_vec r)) ∧
    index_mask (tx_posted (r_vec r1)) = index_mask (tx_posted (r_vec r)) ∧
    buflist_wf (tx_pool (r_vec r1))).
  { intros rc' w' E. injection E as <- <- <-. split_and!; auto. lia. }
  destruct (xfc_type (xfc (w_heap w (cmpl_xfc cmpl)))); try exact (Hsame _ _ Hrun).
  - unfold rcvr_progress_rx_process in Hrun.
    pose proof (rxctl_complete_head (r_progress r) cmpl (w_heap w)) as Hhead.
    destruct (rxctl_complete (r_progress r) cmpl (w_heap w)) as [[[opb prog] hp]| |];
      cbv beta iota zeta delta [mbind outcome_bind] in Hrun; try discriminate.
    destruct (Hhead _ _ _ Hwp eq_refl) as (E1 & E2 & E3 & E4 & E5 & E6 & E7 & E8).
    clear Hhead.
    assert (Hnd1 : NoDup (fifo_elems (rx_posted prog))).
    { rewrite E2. destruct (fifo_elems (rx_posted (r_progress r))); [constructor|].
      exact (NoDup_cons_1_2 _ _ Hndp). }
    assert (Hdrop : ∀ rc' w', Ret (rc', set_r_progress prog r, w') = Ret (rc, r1, w1) →
      cxn_cancelled (r_cxn r1) = cxn_cancelled (r_cxn r) ∧ ep (r_cxn r1) = ep (r_cxn r) ∧
      fifo_wf (rx_posted (r_progress r1)) ∧ NoDup (fifo_elems (rx_posted (r_progress r1))) ∧
      insertions (rx_posted (r_progress r1)) ≤ insertions (rx_posted (r_progress r)) + 1 ∧
      index_mask (rx_posted (r_progress r1)) = index_mask (rx_posted (r_progress r)) ∧
      fifo_wf (tx_posted (r_vec r1)) ∧ NoDup (fifo_elems (tx_posted (r_vec r1))) ∧
      insertions (tx_posted (r_vec r1)) = insertions (tx_posted (r_vec r)) ∧
      index_mask (tx_posted (r_vec r1)) = index_mask (tx_posted (r_vec r)) ∧
      buflist_wf (tx_pool (r_vec r1))).
    { intros rc' w' E. injection E as <- <- <-. cbn. split_and!; auto. lia. }
    destruct opb as [pb|]; [|exact (Hdrop _ _ Hrun)].
    destruct (xfc_cancelled _); [exact (Hdrop _ _ Hrun)|].
    assert (Hl : fifo_elems (rx_posted (r_progress r)) = pb :: fifo_elems (rx_posted prog)).
    { rewrite E2. destruct (fifo_elems (rx_posted (r_progress r))); [discriminate|].
      injection E1 as ->. reflexivity. }
    assert (Hfree : Z.of_nat (length (fifo_elems (rx_posted prog))) < fifo_capacity (rx_posted prog)).
    { pose proof (fifo_elems_bound _ Hwp) as Hb. rewrite Hl in Hb. simpl in Hb.
      unfold fifo_capacity in *. rewrite E6. lia. }
    assert (Hpost : ∀ c' (r0 : rcvr_t) rc' w0,
      r_vec r0 = r_vec r → cxn_cancelled (r_cxn r0) = cxn_cancelled (r_cxn r) →
      ep (r_cxn r0) = ep (r_cxn r) →
      ('(prog', w') ← rxctl_post c' prog pb w0; Ret (rc', set_r_progress prog' r0, w'))
        = Ret (rc, r1, w1) →
      cxn_cancelled (r_cxn r1) = cxn_cancelled (r_cxn r) ∧ ep (r_cxn r1) = ep (r_cxn r) ∧
        fifo_wf (rx_posted (r_progress r1)) ∧ NoDup (fifo_elems (rx_posted (r_progress r1))) ∧
        insertions (rx_posted (r_progress r1)) ≤ insertions (rx_posted (r_progress r)) + 1 ∧
        index_mask (rx_posted (r_progress r1)) = index_mask (rx_posted (r_progress r)) ∧
        fifo_wf (tx_posted (r_vec r1)) ∧ NoDup (fifo_elems (tx_posted (r_vec r1))) ∧
        insertions (tx_posted (r_vec r1)) = insertions (tx_posted (r_vec r)) ∧
        index_mask (tx_posted (r_vec r1)) = index_mask (tx_posted (r_vec r)) ∧
        buflist_wf (tx_pool (r_vec r1))).
    { intros c' r0 rc' w0 Hv Hcc Hep Hp.
      pose proof (rxctl_post_ok c' prog pb w0 E3 ltac:(lia) Hfree) as Hok.
      destruct (rxctl_post c' prog pb w0) as [[prog' w']| |];
        cbv beta iota zeta delta [mbind outcome_bind] in Hp; try discriminate.
      injection Hp as <- <- <-.
      destruct Hok as (O1 & O2 & O3 & O4 & O5 & _).
      cbn. rewrite Hv. split_and!; auto; try lia; try congruence.
      rewrite O1. apply list.NoDup_app. split_and!; [exact Hnd1| |apply NoDup_singleton].
      intros x Hx Hx'. apply list_elem_of_singleton in Hx' as ->.
      rewrite Hl in Hndp. exact (NoDup_cons_1_1 _ _ Hndp Hx). }
    cbn [w_heap with_heap r_progress set_r_progress r_cxn] in Hrun.
    destruct (negb (progbuf_is_wellformed (hp pb))).
    + exact (Hpost _ (set_r_progress prog r) _ _ eq_refl eq_refl eq_refl Hrun).
    + cbv zeta in Hrun.
      destruct (nleftover (progbuf_msg (hp pb)) =? 0);
        refine (Hpost _ _ _ _ _ _ _ Hrun); reflexivity.
  - pose proof (txctl_complete_spec (r_vec r) cmpl (w_heap w) Hwv Hpool) as Ht.
    destruct (txctl_complete (r_vec r) cmpl (w_heap w)) as [[rc' vec]| |];
      cbv beta iota zeta delta [mbind outcome_bind] in Hrun; try discriminate.
    injection Hrun as <- <- <-.
    destruct Ht as (T1 & T2 & T3 & T4 & T5 & T6 & T7).
    cbn. split_and!; auto; try lia.
    rewrite T6. destruct (fifo_elems (tx_posted (r_vec r))); [constructor|].
    exact (NoDup_cons_1_2 _ _ Hndv).
Qed.


Lemma rcvr_cq_process_queues r ev w rc r1 w1 :
  rcvr_cq_process r ev w = Ret (rc, r1, w1) →
  fifo_wf (rx_posted (r_progress r)) → NoDup (fifo_elems (rx_posted (r_progress r))) →
  insertions (rx_posted (r_progress r)) + 1 < 2 ^ 63 →
  fifo_wf (tx_posted (r_vec r)) → NoDup (fifo_elems (tx_posted (r_vec r))) →
  buflist_wf (tx_pool (r_vec r)) →
  cxn_cancelled (r_cxn r1) = cxn_cancelled (r_cxn r) ∧ ep (r_cxn r1) = ep (r_cxn r) ∧
  fifo_wf (rx_posted (r_progress r1)) ∧ NoDup (fifo_elems (rx_posted (r_progress r1))) ∧
  insertions (rx_posted (r_progress r1)) ≤ insertions (rx_posted (r_progress r)) + 1 ∧
  index_mask (rx_posted (r_progress r1)) = index_mask (rx_posted (r_progress r)) ∧
  fifo_wf (tx_posted (r_vec r1)) ∧ NoDup (fifo_elems (tx_posted (r_vec r1))) ∧
  insertions (tx_posted (r_vec r1)) = insertions (tx_posted (r_vec r)) ∧
  index_mask (tx_posted (r_vec r1)) = index_mask (tx_posted (r_vec r)) ∧
  buflist_wf (tx_pool (r_vec r1)).
Proof.
  intros Hrun Hwp Hndp Hroom Hwv Hndv Hpool.
  assert (Hsame : ∀ rc' w', Ret (rc', r, w') = Ret (rc, r1, w1) →
    cxn_cancelled (r_cxn r1) = cxn_cancelled (r_cxn r) ∧ ep (r_cxn r1) = ep (r_cxn r) ∧
    fifo_wf (rx_posted (r_progress r1)) ∧ NoDup (fifo_elems (rx_posted (r_progress r1))) ∧
    insertions (rx_posted (r_progress r1)) ≤ insertions (rx_posted (r_progress r)) + 1 ∧
    index_mask (rx_posted (r_progress r1)) = index_mask (rx_posted (r_progress r)) ∧
    fifo_wf (tx_posted (r_vec r1)) ∧ NoDup (fifo_elems (tx_posted (r_vec r1))) ∧
    insertions (tx_posted (r_vec r1)) = insertions (tx_posted (r_vec r)) ∧
    index_mask (tx_posted (r_vec r1)) = index_mask (tx_posted (r_vec r)) ∧
    buflist_wf (tx_pool (r_vec r1))).
  { intros rc' w' E. injection E as <- <- <-. split_and!; auto. lia. }
  unfold rcvr_cq_process, cq_completion in Hrun.
  destruct (cq_ncompleted ev =? - FI_EAGAIN); [exact (Hsame _ _ Hrun)|].
  destruct (cq_ncompleted ev =? - FI_EAVAIL).
  - cbv zeta in Hrun.
    destruct (negb _ || negb _); cbv beta iota zeta delta [mbind outcome_bind] in Hrun;
      [exact (Hsame _ _ Hrun)|].
    exact (rcvr_dispatch_queues _ _ _ _ _ _ Hrun Hwp Hndp Hroom Hwv Hndv Hpool).
  - destruct (cq_ncompleted ev <? 0); [discriminate|].
    destruct (negb (cq_ncompleted ev =? 1)); [discriminate|].
    cbv beta iota zeta delta [mbind outcome_bind] in Hrun.
    exact (rcvr_dispatch_queues _ _ _ _ _ _ Hrun Hwp Hndp Hroom Hwv Hndv Hpool).
Qed.


Lemma nth_drop {A} (n k : nat) (l : list A) (d : A) :
  nth k (drop n l) d = nth (n + k) l d.
Proof.
  revert l. induction n as [|n IH]; intros l; [reflexivity|].
  destruct l as [|a l]; simpl; [destruct k; reflexivity|apply IH].
Qed.

(** X22.  Cancellation at the receiver.  When the process has been told to
    stop and a started receiver has not cancelled yet, the turn of
    [rcvr_loop] first processes the completion queue as usual.  If that
    fails the endpoint is closed and the answer is [loop_error].  Otherwise
    the turn asks the fabric to cancel every posted operation, one
    [fi_cancel] for each progress buffer and then for each vector buffer,
    oldest first; the queues keep their buffers in order, every one of them
    is marked cancelled and no other buffer changes; the connection is
    marked cancelled and the answer is [loop_continue].  The sink, the
    session and the worker are not touched.  The process ends only if the
    fabric refuses a cancellation or the close. *)
Theorem rcvr_loop_cancels fuel gs ev wk m t s r w rc r1 w1 :
  started (r_cxn r) = true → cxn_cancelled (r_cxn r) = false →
  fifo_wf (rx_posted (r_progress r)) → NoDup (fifo_elems (rx_posted (r_progress r))) →
  insertions (rx_posted (r_progress r)) + fifo_capacity (rx_posted (r_progress r)) + 1
    < 2 ^ 63 →
  fifo_wf (tx_posted (r_vec r)) → NoDup (fifo_elems (tx_posted (r_vec r))) →
  insertions (tx_posted (r_vec r)) + fifo_capacity (tx_posted (r_vec r)) < 2 ^ 63 →
  buflist_wf (tx_pool (r_vec r)) →
  rcvr_cq_process r ev w = Ret (rc, r1, w1) →
  let posted := fifo_elems (rx_posted (r_progress r1)) ++ fifo_elems (tx_posted (r_vec r1)) in
  match rcvr_loop fuel gs true ev wk m t s r w with
  | Ret (ctl, wk', m', t', s', r', w') =>
      wk' = wk ∧ m' = m ∧ t' = t ∧ s' = s ∧
      if rc =? -1 then
        ctl = loop_error ∧ r' = r1 ∧ w_heap w' = w_heap w1 ∧
        ∃ a, 0 ≤ a ∧
          oplog (w_fabric w') = oplog (w_fabric w1) ++ [(op_close (ep (r_cxn r)), a)]
      else
        ctl = loop_continue ∧ rcvr_cancelled_inv r' w' ∧
        r_cxn r' = set_cxn_cancelled true (r_cxn r1) ∧
        nfull r' = nfull r1 ∧ tgtposted r' = tgtposted r1 ∧
        tx_ready (r_vec r') = tx_ready (r_vec r1) ∧ tx_pool (r_vec r') = tx_pool (r_vec r1) ∧
        rx_rcvd (r_progress r') = rx_rcvd (r_progress r1) ∧
        fifo_elems (rx_posted (r_progress r')) = fifo_elems (rx_posted (r_progress r1)) ∧
        fifo_elems (tx_posted (r_vec r')) = fifo_elems (tx_posted (r_vec r1)) ∧
        oplog (w_fabric w') =
          oplog (w_fabric w1) ++ ((λ h, (op_cancel (ep (r_cxn r)) h, 0)) <$> posted) ∧
        (∀ h, h ∉ posted → w_heap w' h = w_heap w1 h)
  | Exit =>
      if rc =? -1 then nth 0 (script (w_fabric w1)) (- FI_EAGAIN) < 0
      else ∃ k, (k < length posted)%nat ∧ nth k (script (w_fabric w1)) (- FI_EAGAIN) ≠ 0
  | OutOfFuel => False
  end.
Proof.
  intros Hst Hnc Hwp Hndp Hroomp Hwv Hndv Hroomv Hpool Hcq posted.
  pose proof (fifo_elems_bound _ Hwp) as Hbp.
  pose proof (fifo_elems_bound _ Hwv) as Hbv.
  destruct (rcvr_cq_process_queues r ev w rc r1 w1 Hcq Hwp Hndp ltac:(unfold fifo_capacity in *; lia)
              Hwv Hndv Hpool)
    as (Q1 & Q2 & Q3 & Q4 & Q5 & Q6 & Q7 & Q8 & Q9 & Q10 & Q11).
  unfold rcvr_loop. rewrite Hst, Hcq. cbn [negb].
  cbv beta iota zeta delta [mbind outcome_bind].
  destruct (Z.eqb_spec rc (-1)) as [Erc|Erc].
  - pose proof (fabric_do_answer (op_close (ep (r_cxn r1))) (w_fabric w1)) as [Hans _].
    pose proof (fabric_do_oplog (op_close (ep (r_cxn r1))) (w_fabric w1)) as Hlog.
    destruct (fabric_do _ _) as [a fab]. cbn [fst snd] in Hans, Hlog.
    destruct (Z.ltb_spec a 0) as [Hneg|Hpos]; [rewrite <- Hans; exact Hneg|].
    split_and!; auto. exists a. split; [exact Hpos|].
    cbn [w_fabric with_fabric]. rewrite Hlog, <- Hans, Q2. reflexivity.
  - rewrite Q1, Hnc.
    unfold rxctl_cancel, txctl_cancel, fifo_cancel.
    rewrite (fifo_occupancy_wf _ Q3).
    pose proof (fifo_elems_bound _ Q3) as Hb1. pose proof (fifo_elems_bound _ Q7) as Hb2.
    unfold fifo_capacity in *.
    pose proof (fifo_cancel_loop_correct (ep (r_cxn r1)) _ Q4 _ 0 (rx_posted (r_progress r1)) w1
                  eq_refl Q3 ltac:(lia)) as HA.
    pose proof (fifo_cancel_loop_fabric (ep (r_cxn r1)) _ Q4 _ 0 (rx_posted (r_progress r1)) w1
                  eq_refl Q3 ltac:(lia)) as HB.
    cbn [drop take] in HA, HB. rewrite app_nil_r in HA, HB.
    specialize (HA eq_refl). specialize (HB eq_refl).
    destruct (fifo_cancel_loop _ _ None (rx_posted (r_progress r1)) w1) as [[P' w2]| |];
      cbv beta iota zeta delta [mbind outcome_bind].
    + destruct HA as (A1 & A2 & A3 & A4). destruct HB as (B1 & B2 & B3 & B4 & B5).
      cbn [r_cxn r_vec set_r_progress tx_posted].
      rewrite (fifo_occupancy_wf _ Q7).
      pose proof (fifo_cancel_loop_correct (ep (r_cxn r1)) _ Q8 _ 0 (tx_posted (r_vec r1)) w2
                    eq_refl Q7 ltac:(lia)) as HA2.
      pose proof (fifo_cancel_loop_fabric (ep (r_cxn r1)) _ Q8 _ 0 (tx_posted (r_vec r1)) w2
                    eq_refl Q7 ltac:(lia)) as HB2.
      cbn [drop take] in HA2, HB2. rewrite app_nil_r in HA2, HB2.
      specialize (HA2 eq_refl). specialize (HB2 eq_refl).
      destruct (fifo_cancel_loop _ _ None (tx_posted (r_vec r1)) w2) as [[V' w3]| |];
        cbv beta iota zeta delta [mbind outcome_bind].
      * destruct HA2 as (C1 & C2 & C3 & C4). destruct HB2 as (D1 & D2 & D3 & D4 & D5).
        refine (conj eq_refl (conj eq_refl (conj eq_refl (conj eq_refl _)))).
        split; [reflexivity|]. split.
        { unfold rcvr_cancelled_inv. cbn. split_and!; auto.
          intros h Hh. rewrite A1, C1 in Hh.
          destruct (decide (h ∈ fifo_elems (tx_posted (r_vec r1)))) as [Hv|Hv]; [auto|].
          rewrite (C4 _ Hv). apply A3.
          apply elem_of_app in Hh as [Hh|Hh]; [exact Hh|contradiction]. }
        cbn. split_and!; auto.
        -- unfold posted. rewrite D1, B1, fmap_app, app_assoc, Q2. reflexivity.
        -- intros h Hh. unfold posted in Hh.
           rewrite C4 by (intros Hx; apply Hh; apply elem_of_app; right; exact Hx).
           apply A4. intros Hx. apply Hh. apply elem_of_app. left. exact Hx.
      * destruct HA2 as (k & Hk & Hnz). exists (length (fifo_elems (rx_posted (r_progress r1))) + k)%nat.
        unfold posted. rewrite length_app. split; [lia|].
        rewrite B2, nth_drop in Hnz. exact Hnz.
      * exact HA2.
    + destruct HA as (k & Hk & Hnz). exists k. unfold posted. rewrite length_app.
      split; [lia|exact Hnz].
    + exact HA.
Qed.

(** Nothing completes; the posted progress buffer 3 and vector buffer 5 are cancelled. *)
Lemma rcvr_loop_cancels_witness :
  let fuel := 0%nat in
  let gs := gs0 in
  let ev := cq_nothing in
  let wk := worker0 in
  let m := [] : allocator in
  let t := sink_fresh in
  let s := session0 in
  let r := rcvr_posted in
  let w := mk_world heap_posted (fabric0 [0; 0]) next_key_pool_init in
  let rc := 0 in
  let r1 := rcvr_posted in
  let w1 := mk_world heap_posted (fabric0 [0; 0]) next_key_pool_init in
  let posted := fifo_elems (rx_posted (r_progress r1)) ++ fifo_elems (tx_posted (r_vec r1)) in
  match rcvr_loop fuel gs true ev wk m t s r w with
  | Ret (ctl, wk', m', t', s', r', w') =>
      wk' = wk ∧ m' = m ∧ t' = t ∧ s' = s ∧
      if rc =? -1 then
        ctl = loop_error ∧ r' = r1 ∧ w_heap w' = w_heap w1 ∧
        ∃ a, 0 ≤ a ∧
          oplog (w_fabric w') = oplog (w_fabric w1) ++ [(op_close (ep (r_cxn r)), a)]
      else
        ctl = loop_continue ∧ rcvr_cancelled_inv r' w' ∧
        r_cxn r' = set_cxn_cancelled true (r_cxn r1) ∧
        nfull r' = nfull r1 ∧ tgtposted r' = tgtposted r1 ∧
        tx_ready (r_vec r') = tx_ready (r_vec r1) ∧ tx_pool (r_vec r') = tx_pool (r_vec r1) ∧
        rx_rcvd (r_progress r') = rx_rcvd (r_progress r1) ∧
        fifo_elems (rx_posted (r_progress r')) = fifo_elems (rx_posted (r_progress r1)) ∧
        fifo_elems (tx_posted (r_vec r')) = fifo_elems (tx_posted (r_vec r1)) ∧
        oplog (w_fabric w') =
          oplog (w_fabric w1) ++ ((λ h, (op_cancel (ep (r_cxn r)) h, 0)) <$> posted) ∧
        (∀ h, h ∉ posted → w_heap w' h = w_heap w1 h)
  | Exit =>
      if rc =? -1 then nth 0 (script (w_fabric w1)) (- FI_EAGAIN) < 0
      else ∃ k, (k < length posted)%nat ∧ nth k (script (w_fabric w1)) (- FI_EAGAIN) ≠ 0
  | OutOfFuel => False
  end.
Proof.
  intros fuel gs ev wk m t s r w rc r1 w1.
  apply (rcvr_loop_cancels fuel gs ev wk m t s r w rc r1 w1).
  - reflexivity.
  - reflexivity.
  - apply fifo_of_list_wf; simpl; lia.
  - vm_compute. apply NoDup_singleton.
  - vm_compute. reflexivity.
  - apply fifo_of_list_wf; simpl; lia.
  - vm_compute. apply NoDup_singleton.
  - vm_compute. reflexivity.
  - vm_compute. split_and!; (reflexivity || discriminate).
  - reflexivity.
Defined.

Example rcvr_loop_cancels_example :
  match rcvr_loop 0 gs0 true cq_nothing worker0 [] sink_fresh session0 rcvr_posted
          (mk_world heap_posted (fabric0 [0; 0]) next_key_pool_init) with
  | Ret (ctl, _, _, _, _, r', w') =>
      ctl = loop_continue ∧ cxn_cancelled (r_cxn r') = true ∧
      fifo_elems (rx_posted (r_progress r')) = [3%nat] ∧
      fifo_elems (tx_posted (r_vec r')) = [5%nat] ∧
      xfc_cancelled (xfc (w_heap w' 3%nat)) = true ∧
      xfc_cancelled (xfc (w_heap w' 5%nat)) = true ∧
      oplog (w_fabric w') = [(op_cancel 1 3%nat, 0); (op_cancel 1 5%nat, 0)]
  | _ => False
  end.
Proof. vm_compute. split_and!; reflexivity. Qed.
